(** * The Augustium DSL pipeline: lexer, parser, validator, WAT generator

    A shallow embedding of [src/augustium/lexer.ts], the recursive-descent
    [MinimalParser], and the struct validator / WAT emitter / [compileMapping]
    of [src/wasm/compiler.ts].  Mutable cursor objects become explicit states
    threaded through a result type with three outcomes: a value, a thrown
    JavaScript exception, or exhaustion of the budget of the loops of the
    model.  The call stack of the host is a parameter of the parser: a
    nested call it has no room for raises the [RangeError] of the host.  The
    cache ([CacheManager]) and the metrics collector ([MetricsCollector]) are
    embedded the same way, every reading of the clock being an argument and
    the values of the metrics being doubles. *)

From stdpp Require Import gmap strings list.
From Stdlib Require Import String Ascii List ZArith Lia Bool DecimalString
  DecimalNat Sorted.
Import ListNotations.

Local Open Scope string_scope.
Local Open Scope nat_scope.
(** ** Token kinds ([enum TokenType]) *)

Module TokenType.

Inductive t : Set :=
  | IDENTIFIER | STRING | INTEGER | FLOAT | BOOLEAN | ADDRESS_LITERAL
  | CONTRACT | CONSTRUCTOR | FN | LET | MUT | CONST | IF | ELSE | WHILE
  | FOR | IN | RETURN | BREAK | CONTINUE | MATCH | ENUM | STRUCT | TRAIT
  | IMPL | MOD | USE | PUB | PRIV | EVENT | EMIT | REQUIRE | ASSERT | REVERT
  | AS | INDEXED | INDEX | QUERY | FROM | WHERE | ORDER_BY | LIMIT | SOURCE
  | MAP | EVENTS | ASC | DESC | ETHEREUM | SOLANA | AUGUSTIUM | MAINNET
  | TESTNET | U8 | U16 | U32 | U64 | U128 | U256 | I8 | I16 | I32 | I64
  | I128 | I256 | BOOL | STRING_TYPE | ADDRESS | BYTES | MLModel | MLTrain
  | MLPredict | MLForward | MLBackward | Tensor | Matrix | Vector | Metrics
  | MLConv2D | MLAttention | MLClone | MLQuantize | MLEvaluate | MLExport
  | MLSync | MLAugment | MLLoadDataset | MLConfusionMatrix | CreateTensor
  | CreateVector | CreateMatrix | Plus | Minus | Star | Slash | Percent
  | Equal | EqualEqual | NotEqual | Less | LessEqual | Greater
  | GreaterEqual | And | Or | Not | BitAnd | BitOr | BitXor | BitNot
  | LeftShift | RightShift | PlusEqual | MinusEqual | StarEqual | SlashEqual
  | LeftParen | RightParen | LeftBrace | RightBrace | LeftBracket
  | RightBracket | Semicolon | Comma | Dot | Colon | DoubleColon | Arrow
  | FatArrow | Question | At | Hash | Dollar | Underscore | Newline | EOF
  | LineComment | BlockComment.

(** Position of the member in the declaration, used to decide [===]. *)
Definition tag (k : t) : positive :=
  match k with
  | IDENTIFIER => 1 | STRING => 2 | INTEGER => 3 | FLOAT => 4 | BOOLEAN => 5
  | ADDRESS_LITERAL => 6 | CONTRACT => 7 | CONSTRUCTOR => 8 | FN => 9
  | LET => 10 | MUT => 11 | CONST => 12 | IF => 13 | ELSE => 14 | WHILE => 15
  | FOR => 16 | IN => 17 | RETURN => 18 | BREAK => 19 | CONTINUE => 20
  | MATCH => 21 | ENUM => 22 | STRUCT => 23 | TRAIT => 24 | IMPL => 25
  | MOD => 26 | USE => 27 | PUB => 28 | PRIV => 29 | EVENT => 30 | EMIT => 31
  | REQUIRE => 32 | ASSERT => 33 | REVERT => 34 | AS => 35 | INDEXED => 36
  | INDEX => 37 | QUERY => 38 | FROM => 39 | WHERE => 40 | ORDER_BY => 41
  | LIMIT => 42 | SOURCE => 43 | MAP => 44 | EVENTS => 45 | ASC => 46
  | DESC => 47 | ETHEREUM => 48 | SOLANA => 49 | AUGUSTIUM => 50
  | MAINNET => 51 | TESTNET => 52 | U8 => 53 | U16 => 54 | U32 => 55
  | U64 => 56 | U128 => 57 | U256 => 58 | I8 => 59 | I16 => 60 | I32 => 61
  | I64 => 62 | I128 => 63 | I256 => 64 | BOOL => 65 | STRING_TYPE => 66
  | ADDRESS => 67 | BYTES => 68 | MLModel => 69 | MLTrain => 70
  | MLPredict => 71 | MLForward => 72 | MLBackward => 73 | Tensor => 74
  | Matrix => 75 | Vector => 76 | Metrics => 77 | MLConv2D => 78
  | MLAttention => 79 | MLClone => 80 | MLQuantize => 81 | MLEvaluate => 82
  | MLExport => 83 | MLSync => 84 | MLAugment => 85 | MLLoadDataset => 86
  | MLConfusionMatrix => 87 | CreateTensor => 88 | CreateVector => 89
  | CreateMatrix => 90 | Plus => 91 | Minus => 92 | Star => 93 | Slash => 94
  | Percent => 95 | Equal => 96 | EqualEqual => 97 | NotEqual => 98
  | Less => 99 | LessEqual => 100 | Greater => 101 | GreaterEqual => 102
  | And => 103 | Or => 104 | Not => 105 | BitAnd => 106 | BitOr => 107
  | BitXor => 108 | BitNot => 109 | LeftShift => 110 | RightShift => 111
  | PlusEqual => 112 | MinusEqual => 113 | StarEqual => 114
  | SlashEqual => 115 | LeftParen => 116 | RightParen => 117
  | LeftBrace => 118 | RightBrace => 119 | LeftBracket => 120
  | RightBracket => 121 | Semicolon => 122 | Comma => 123 | Dot => 124
  | Colon => 125 | DoubleColon => 126 | Arrow => 127 | FatArrow => 128
  | Question => 129 | At => 130 | Hash => 131 | Dollar => 132
  | Underscore => 133 | Newline => 134 | EOF => 135 | LineComment => 136
  | BlockComment => 137
  end%positive.

Definition eqb (a b : t) : bool := Pos.eqb (tag a) (tag b).

End TokenType.

(** ** Tokens, exceptions and the result type *)

Record Token : Set := mkToken {
  tok_type : TokenType.t;
  tok_value : string;
  tok_line : nat;
  tok_column : nat;
  tok_start : nat;
  tok_end : nat
}.

(** Decimal rendering of a number inside a template literal. *)
Definition string_of_nat (n : nat) : string :=
  NilEmpty.string_of_uint (Nat.to_uint n).

(** The exceptions the front end can raise.  [ParseError] is the parser's own
    class; [TypeError] is what reading a property of [undefined] raises,
    [SyntaxError] what the [BigInt] constructor raises on a malformed string
    and [RangeError] what a call raises that finds no room on the call
    stack. *)
Inductive Exn : Set :=
  | Error (message : string)
  | ParseError (message : string) (token : Token)
  | TypeError (message : string)
  | SyntaxError (message : string)
  | RangeError (message : string).

(** [error.message]; the [ParseError] constructor prefixes the position. *)
Definition exn_message (e : Exn) : string :=
  match e with
  | Error m => m
  | ParseError m tk =>
      "Parse error at line " ++ string_of_nat (tok_line tk) ++ ", column "
        ++ string_of_nat (tok_column tk) ++ ": " ++ m
  | TypeError m => m
  | SyntaxError m => m
  | RangeError m => m
  end.

(** Outcome of running a method on a state of type [St]. *)
Inductive Res (St A : Type) : Type :=
  | Ok (a : A) (s : St)
  | Throw (e : Exn) (s : St)
  | OutOfFuel.
Arguments Ok {St A} a s.
Arguments Throw {St A} e s.
Arguments OutOfFuel {St A}.

Definition M (St A : Type) : Type := St -> Res St A.

Definition ret {St A} (a : A) : M St A := fun s => Ok a s.

Definition bind {St A B} (m : M St A) (k : A -> M St B) : M St B :=
  fun s =>
    match m s with
    | Ok a s' => k a s'
    | Throw e s' => Throw e s'
    | OutOfFuel => OutOfFuel
    end.

Definition throw {St A} (e : Exn) : M St A := fun s => Throw e s.

Notation "'let!' x ':=' m 'in' k" := (bind m (fun x => k))
  (at level 10, x name, m at level 100, k at level 200).

(** ** The lexer ([class Lexer])

    The input is a [string] of 8-bit characters, one per code unit of the
    source text.  The lexer compares characters with ASCII ranges and ASCII
    literals only, so a code unit above 255 takes the branches of any other
    character outside those ranges. *)

Module Lexer.

Record t : Set := mk {
  input : string;
  position : nat;
  line : nat;
  column : nat
}.

Definition new (src : string) : t := mk src 0 1 1.

Definition isAtEnd (s : t) : bool := String.length (input s) <=? position s.

Definition NUL : ascii := Ascii.zero.

Definition peek (s : t) : ascii :=
  if isAtEnd s then NUL
  else match String.get (position s) (input s) with
       | Some c => c
       | None => NUL
       end.

Definition peekNext (s : t) : ascii :=
  if String.length (input s) <=? position s + 1 then NUL
  else match String.get (position s + 1) (input s) with
       | Some c => c
       | None => NUL
       end.

Definition advance (s : t) : ascii * t :=
  if isAtEnd s then (NUL, s)
  else (peek s, mk (input s) (S (position s)) (line s) (S (column s))).

(** Comparison of one-character strings is comparison of their code units. *)
Definition char_between (lo hi c : ascii) : bool :=
  (nat_of_ascii lo <=? nat_of_ascii c) && (nat_of_ascii c <=? nat_of_ascii hi).

Definition isDigit (c : ascii) : bool := char_between "0" "9" c.

Definition isAlpha (c : ascii) : bool :=
  char_between "a" "z" c || char_between "A" "Z" c || Ascii.eqb c "_".

Definition isAlphaNumeric (c : ascii) : bool := isAlpha c || isDigit c.

Definition isHexDigit (c : ascii) : bool :=
  isDigit c || char_between "a" "f" c || char_between "A" "F" c.

(** [String.prototype.substring]: the bounds are swapped when out of order. *)
Definition substring (str : string) (a b : nat) : string :=
  String.substring (Nat.min a b) (Nat.max a b - Nat.min a b) str.

Definition makeToken (type : TokenType.t) (value : string)
    (start line column : nat) (s : t) : Token :=
  mkToken type value line column start (position s).

Definition keywords : list (string * TokenType.t) :=
  [ ("contract", TokenType.CONTRACT); ("constructor", TokenType.CONSTRUCTOR);
    ("fn", TokenType.FN); ("let", TokenType.LET); ("mut", TokenType.MUT);
    ("const", TokenType.CONST); ("if", TokenType.IF); ("else", TokenType.ELSE);
    ("while", TokenType.WHILE); ("for", TokenType.FOR); ("in", TokenType.IN);
    ("return", TokenType.RETURN); ("break", TokenType.BREAK);
    ("continue", TokenType.CONTINUE); ("match", TokenType.MATCH);
    ("enum", TokenType.ENUM); ("struct", TokenType.STRUCT);
    ("trait", TokenType.TRAIT); ("impl", TokenType.IMPL);
    ("mod", TokenType.MOD); ("use", TokenType.USE); ("pub", TokenType.PUB);
    ("priv", TokenType.PRIV); ("event", TokenType.EVENT);
    ("emit", TokenType.EMIT); ("require", TokenType.REQUIRE);
    ("assert", TokenType.ASSERT); ("revert", TokenType.REVERT);
    ("as", TokenType.AS); ("indexed", TokenType.INDEXED);
    ("ml_model", TokenType.MLModel); ("ml_train", TokenType.MLTrain);
    ("ml_predict", TokenType.MLPredict); ("ml_forward", TokenType.MLForward);
    ("ml_backward", TokenType.MLBackward); ("tensor", TokenType.Tensor);
    ("matrix", TokenType.Matrix); ("vector", TokenType.Vector);
    ("metrics", TokenType.Metrics);
    ("ml_conv2d", TokenType.MLConv2D); ("ml_attention", TokenType.MLAttention);
    ("ml_clone", TokenType.MLClone); ("ml_quantize", TokenType.MLQuantize);
    ("ml_evaluate", TokenType.MLEvaluate); ("ml_export", TokenType.MLExport);
    ("ml_sync", TokenType.MLSync); ("ml_augment", TokenType.MLAugment);
    ("ml_load_dataset", TokenType.MLLoadDataset);
    ("ml_confusion_matrix", TokenType.MLConfusionMatrix);
    ("create_tensor", TokenType.CreateTensor);
    ("create_vector", TokenType.CreateVector);
    ("create_matrix", TokenType.CreateMatrix);
    ("index", TokenType.INDEX); ("query", TokenType.QUERY);
    ("from", TokenType.FROM); ("where", TokenType.WHERE);
    ("order_by", TokenType.ORDER_BY); ("limit", TokenType.LIMIT);
    ("source", TokenType.SOURCE); ("map", TokenType.MAP);
    ("events", TokenType.EVENTS); ("asc", TokenType.ASC);
    ("desc", TokenType.DESC);
    ("Ethereum", TokenType.ETHEREUM); ("Solana", TokenType.SOLANA);
    ("Augustium", TokenType.AUGUSTIUM); ("Mainnet", TokenType.MAINNET);
    ("Testnet", TokenType.TESTNET);
    ("u8", TokenType.U8); ("u16", TokenType.U16); ("u32", TokenType.U32);
    ("u64", TokenType.U64); ("u128", TokenType.U128); ("u256", TokenType.U256);
    ("i8", TokenType.I8); ("i16", TokenType.I16); ("i32", TokenType.I32);
    ("i64", TokenType.I64); ("i128", TokenType.I128); ("i256", TokenType.I256);
    ("bool", TokenType.BOOL); ("String", TokenType.STRING_TYPE);
    ("Address", TokenType.ADDRESS); ("Bytes", TokenType.BYTES);
    ("true", TokenType.BOOLEAN); ("false", TokenType.BOOLEAN) ].

(** [this.keywords.get(value)]; the table has no repeated key. *)
Fixpoint keywords_get (tbl : list (string * TokenType.t)) (value : string)
    : option TokenType.t :=
  match tbl with
  | [] => None
  | (k, ty) :: rest =>
      if String.eqb k value then Some ty else keywords_get rest value
  end.

(** The loop [while (cond) { this.advance(); }]. *)
Fixpoint advanceWhile (cond : t -> bool) (fuel : nat) : M t unit :=
  fun s =>
    match fuel with
    | O => OutOfFuel
    | S fuel' =>
        if cond s then advanceWhile cond fuel' (snd (advance s))
        else Ok tt s
    end.

Definition skipWhitespace (fuel : nat) : M t unit :=
  advanceWhile
    (fun s => let char := peek s in
              Ascii.eqb char " " || Ascii.eqb char (ascii_of_nat 13)
              || Ascii.eqb char (ascii_of_nat 9))
    fuel.

Definition NEWLINE : ascii := ascii_of_nat 10.

Definition readComment (fuel start line column : nat) : M t Token :=
  let! _ := advanceWhile
              (fun s => negb (Ascii.eqb (peek s) NEWLINE) && negb (isAtEnd s))
              fuel in
  fun s =>
    let value := substring (input s) start (position s) in
    Ok (makeToken TokenType.LineComment value start line column s) s.

(** Body loop of [readString]: an escape character takes its successor with
    it; a newline resets the line bookkeeping. *)
Fixpoint readString_loop (quote : ascii) (fuel : nat) : M t unit :=
  fun s =>
    match fuel with
    | O => OutOfFuel
    | S fuel' =>
        if negb (Ascii.eqb (peek s) quote) && negb (isAtEnd s) then
          let s1 :=
            if Ascii.eqb (peek s) NEWLINE
            then mk (input s) (position s) (S (line s)) 1 else s in
          let s2 :=
            if Ascii.eqb (peek s1) "\" then snd (advance s1) else s1 in
          readString_loop quote fuel' (snd (advance s2))
        else Ok tt s
    end.

Definition readString (fuel start line column : nat) : M t Token :=
  fun s =>
    let (quote, s1) := advance s in
    match readString_loop quote fuel s1 with
    | Ok _ s2 =>
        if isAtEnd s2 then
          Throw (Error ("Unterminated string at line " ++ string_of_nat line
                          ++ ", column " ++ string_of_nat column)) s2
        else
          let s3 := snd (advance s2) in
          let value := substring (input s3) (start + 1) (position s3 - 1) in
          Ok (makeToken TokenType.STRING value start line column s3) s3
    | Throw e s2 => Throw e s2
    | OutOfFuel => OutOfFuel
    end.

Definition readNumber (fuel start line column : nat) : M t Token :=
  let! _ := advanceWhile (fun s => isDigit (peek s)) fuel in
  fun s =>
    if Ascii.eqb (peek s) "." && isDigit (peekNext s) then
      (let! _ := advanceWhile (fun s => isDigit (peek s)) fuel in
       fun s' =>
         let value := substring (input s') start (position s') in
         Ok (makeToken TokenType.FLOAT value start line column s') s')
        (snd (advance s))
    else
      let value := substring (input s) start (position s) in
      Ok (makeToken TokenType.INTEGER value start line column s) s.

Definition readAddressLiteral (fuel start line column : nat) : M t Token :=
  fun s =>
    let s1 := snd (advance s) in
    let s2 := snd (advance s1) in
    (let! _ := advanceWhile (fun s => isHexDigit (peek s)) fuel in
     fun s' =>
       let value := substring (input s') start (position s') in
       Ok (makeToken TokenType.ADDRESS_LITERAL value start line column s') s')
      s2.

Definition readIdentifier (fuel start line column : nat) : M t Token :=
  let! _ := advanceWhile
              (fun s => isAlphaNumeric (peek s) || Ascii.eqb (peek s) "_")
              fuel in
  fun s =>
    let value := substring (input s) start (position s) in
    let tokenType :=
      match keywords_get keywords value with
      | Some ty => ty
      | None => TokenType.IDENTIFIER
      end in
    Ok (makeToken tokenType value start line column s) s.

Definition QUOTE : ascii := ascii_of_nat 34.

Definition unexpected_character (c : ascii) (line column : nat) : Exn :=
  Error ("Unexpected character '" ++ String c EmptyString ++ "' at line "
           ++ string_of_nat line ++ ", column " ++ string_of_nat column).

Definition nextToken (fuel : nat) : M t (option Token) :=
  let! _ := skipWhitespace fuel in
  fun s =>
    if isAtEnd s then Ok None s else
    let start := position s in
    let line_ := line s in
    let column_ := column s in
    let char := peek s in
    let some (m : M t Token) : Res t (option Token) :=
      (let! tk := m in ret (Some tk)) s in
    let two (ty : TokenType.t) (lexeme : string) : Res t (option Token) :=
      let s2 := snd (advance (snd (advance s))) in
      Ok (Some (makeToken ty lexeme start line_ column_ s2)) s2 in
    if Ascii.eqb char "/" && Ascii.eqb (peekNext s) "/" then
      some (readComment fuel start line_ column_)
    else if Ascii.eqb char QUOTE || Ascii.eqb char "'" then
      some (readString fuel start line_ column_)
    else if isDigit char then
      some (readNumber fuel start line_ column_)
    else if Ascii.eqb char "0" && Ascii.eqb (peekNext s) "x" then
      some (readAddressLiteral fuel start line_ column_)
    else if isAlpha char || Ascii.eqb char "_" then
      some (readIdentifier fuel start line_ column_)
    else if Ascii.eqb char "=" && Ascii.eqb (peekNext s) "=" then
      two TokenType.EqualEqual "=="
    else if Ascii.eqb char "!" && Ascii.eqb (peekNext s) "=" then
      two TokenType.NotEqual "!="
    else if Ascii.eqb char ">" && Ascii.eqb (peekNext s) "=" then
      two TokenType.GreaterEqual ">="
    else if Ascii.eqb char "<" && Ascii.eqb (peekNext s) "=" then
      two TokenType.LessEqual "<="
    else if Ascii.eqb char "=" && Ascii.eqb (peekNext s) ">" then
      two TokenType.FatArrow "=>"
    else
      let (singleChar, s1) := advance s in
      let one (ty : TokenType.t) : Res t (option Token) :=
        Ok (Some (makeToken ty (String singleChar EmptyString)
                    start line_ column_ s1)) s1 in
      if Ascii.eqb singleChar "{" then one TokenType.LeftBrace
      else if Ascii.eqb singleChar "}" then one TokenType.RightBrace
      else if Ascii.eqb singleChar "(" then one TokenType.LeftParen
      else if Ascii.eqb singleChar ")" then one TokenType.RightParen
      else if Ascii.eqb singleChar "[" then one TokenType.LeftBracket
      else if Ascii.eqb singleChar "]" then one TokenType.RightBracket
      else if Ascii.eqb singleChar "," then one TokenType.Comma
      else if Ascii.eqb singleChar ":" then one TokenType.Colon
      else if Ascii.eqb singleChar ";" then one TokenType.Semicolon
      else if Ascii.eqb singleChar "." then one TokenType.Dot
      else if Ascii.eqb singleChar "=" then one TokenType.Equal
      else if Ascii.eqb singleChar ">" then one TokenType.Greater
      else if Ascii.eqb singleChar "<" then one TokenType.Less
      else if Ascii.eqb singleChar NEWLINE then
        let s2 := mk (input s1) (position s1) (S (line s1)) 1 in
        Ok (Some (makeToken TokenType.Newline (String singleChar EmptyString)
                    start line_ column_ s2)) s2
      else Throw (unexpected_character singleChar line_ column_) s1.

(** The filter of [tokenize]: newline and comment tokens are not pushed. *)
Definition kept (token : Token) : bool :=
  negb (TokenType.eqb (tok_type token) TokenType.Newline)
  && negb (TokenType.eqb (tok_type token) TokenType.LineComment)
  && negb (TokenType.eqb (tok_type token) TokenType.BlockComment).

Definition eofToken (s : t) : Token :=
  mkToken TokenType.EOF EmptyString (line s) (column s) (position s)
    (position s).

Fixpoint tokenize_loop (fuel : nat) (tokens : list Token)
    : M t (list Token) :=
  fun s =>
    match fuel with
    | O => OutOfFuel
    | S fuel' =>
        if negb (isAtEnd s) then
          (let! token := nextToken fuel' in
           tokenize_loop fuel'
             (match token with
              | Some tk => if kept tk then (tokens ++ [tk])%list else tokens
              | None => tokens
              end)) s
        else Ok (tokens ++ [eofToken s])%list s
    end.

(** Both loop counters of the model are bounded by the input length. *)
Definition tokenize_fuel (s : t) : nat :=
  String.length (input s) - position s + 2.

Definition tokenize : M t (list Token) :=
  fun s => tokenize_loop (tokenize_fuel s) [] s.

End Lexer.

Definition lex (src : string) : Res Lexer.t (list Token) :=
  Lexer.tokenize (Lexer.new src).

(** ** The syntax tree ([ast.ts])

    The node kinds that [MinimalParser] builds and that the compiler reads.
    Every interface is a record whose fields carry the interface name as a
    prefix; [Type], [Function], [Parameter] and [Module] are spelt [TypeNode],
    [FunctionDecl], [Param] and [ModuleDecl]. *)

Module AST.

Local Set Warnings "-register-all".

Record SourceLocation : Set := mkLoc { loc_line : nat; loc_column : nat }.

Record Identifier : Set := mkIdentifier {
  id_name : string;
  id_location : SourceLocation
}.

Inductive Visibility : Set := public | private.
Inductive Mutability : Set := mutable | immutable.

Inductive TypeNode : Set :=
  | PrimitiveType (name : string) (location : SourceLocation)
  | ReferenceType (referent : TypeNode) (is_mutable : bool)
      (location : SourceLocation).

Inductive Expression : Set :=
  | BooleanLiteral (value : bool) (location : SourceLocation)
  | IntegerLiteral (value : Z) (location : SourceLocation)
  | BinaryExpression (left : Expression) (operator : string)
      (right : Expression) (location : SourceLocation)
  | UnaryExpression (operator : string) (operand : Expression)
      (location : SourceLocation)
  | CallExpression (callee : Expression) (arguments : list Expression)
      (location : SourceLocation)
  | MemberExpression (object : Expression) (property : Identifier)
      (location : SourceLocation).

Inductive Statement : Set :=
  | ExpressionStatement (expression : Expression) (location : SourceLocation)
  | VariableDeclaration (name : Identifier) (typeAnnotation : option TypeNode)
      (initializer : option Expression) (is_mutable : bool)
      (location : SourceLocation)
  | ReturnStatement (value : option Expression) (location : SourceLocation).

Record Block : Set := mkBlock {
  block_statements : list Statement;
  block_location : SourceLocation
}.

Record Field : Set := mkField {
  field_name : Identifier;
  field_typeAnnotation : TypeNode;
  field_visibility : Visibility;
  field_location : SourceLocation
}.

Record Param : Set := mkParameter {
  param_name : Identifier;
  param_typeAnnotation : TypeNode;
  param_location : SourceLocation
}.

Record TypeParameter : Set := mkTypeParameter {
  tparam_name : Identifier;
  tparam_bounds : option (list TypeNode);
  tparam_location : SourceLocation
}.

Record Attribute : Set := mkAttribute {
  attr_name : string;
  attr_arguments : option (list Expression);
  attr_location : SourceLocation
}.

Record FunctionDecl : Set := mkFunction {
  fn_name : Identifier;
  fn_typeParameters : list TypeParameter;
  fn_parameters : list Param;
  fn_returnType : option TypeNode;
  fn_body : Block;
  fn_visibility : Visibility;
  fn_isAsync : bool;
  fn_mutability : Mutability;
  fn_attributes : list Attribute;
  fn_location : SourceLocation
}.

Record EventField : Set := mkEventField {
  evfield_name : Identifier;
  evfield_typeAnnotation : TypeNode;
  evfield_indexed : bool;
  evfield_location : SourceLocation
}.

Record Event : Set := mkEvent {
  event_name : Identifier;
  event_fields : list EventField;
  event_location : SourceLocation
}.

Record Modifier : Set := mkModifier {
  modifier_name : Identifier;
  modifier_parameters : list Param;
  modifier_body : Block;
  modifier_location : SourceLocation
}.

Record Contract : Set := mkContract {
  contract_name : Identifier;
  contract_fields : list Field;
  contract_functions : list FunctionDecl;
  contract_events : list Event;
  contract_modifiers : list Modifier;
  contract_location : SourceLocation
}.

Record Struct : Set := mkStruct {
  struct_name : Identifier;
  struct_typeParameters : list TypeParameter;
  struct_fields : list Field;
  struct_visibility : Visibility;
  struct_location : SourceLocation
}.

Record EnumVariant : Set := mkEnumVariant {
  variant_name : Identifier;
  variant_fields : list TypeNode;
  variant_location : SourceLocation
}.

Record Enum : Set := mkEnum {
  enum_name : Identifier;
  enum_variants : list EnumVariant;
  enum_visibility : Visibility;
  enum_location : SourceLocation
}.

Record TraitFunction : Set := mkTraitFunction {
  tfn_name : Identifier;
  tfn_parameters : list Param;
  tfn_returnType : option TypeNode;
  tfn_location : SourceLocation
}.

Record AssociatedType : Set := mkAssociatedType {
  assoc_name : Identifier;
  assoc_bounds : option (list TypeNode);
  assoc_location : SourceLocation
}.

Record Trait : Set := mkTrait {
  trait_name : Identifier;
  trait_typeParameters : list TypeParameter;
  trait_functions : list TraitFunction;
  trait_associatedTypes : list AssociatedType;
  trait_visibility : Visibility;
  trait_location : SourceLocation
}.

Record Impl : Set := mkImpl {
  impl_traitName : option Identifier;
  impl_typeName : Identifier;
  impl_typeParameters : list TypeParameter;
  impl_functions : list FunctionDecl;
  impl_location : SourceLocation
}.

Record UseDeclaration : Set := mkUse {
  use_path : list Identifier;
  use_alias : option Identifier;
  use_location : SourceLocation
}.

Record ConstDeclaration : Set := mkConst {
  const_name : Identifier;
  const_typeAnnotation : TypeNode;
  const_value : Expression;
  const_visibility : Visibility;
  const_location : SourceLocation
}.

(** The union [Item]; the constructor is the [type] tag of the node. *)
Inductive Item : Set :=
  | ContractItem (node : Contract)
  | FunctionItem (node : FunctionDecl)
  | StructItem (node : Struct)
  | EnumItem (node : Enum)
  | TraitItem (node : Trait)
  | ImplItem (node : Impl)
  | UseItem (node : UseDeclaration)
  | ConstItem (node : ConstDeclaration)
  | ModuleDecl (name : Identifier) (items : list Item)
      (visibility : Visibility) (location : SourceLocation).

Record SourceFile : Set := mkSourceFile {
  file_items : list Item;
  file_location : SourceLocation
}.

End AST.

(** ** The parser ([class MinimalParser]) *)

Module Parser.
Import AST.

Record t : Set := mk { tokens : list Token; current : nat }.

Definition new (tokens : list Token) : t := mk tokens 0.

(** Reading a property of [undefined]. *)
Definition undefined_read {A} (prop : string) : M t A :=
  throw (TypeError ("Cannot read properties of undefined (reading '"
                      ++ prop ++ "')")).

(** [this.peek()], the result being dereferenced by every caller. *)
Definition peek (prop : string) : M t Token :=
  fun s =>
    match nth_error (tokens s) (current s) with
    | Some tk => Ok tk s
    | None => undefined_read prop s
    end.

(** [this.tokens[this.current - 1]], [undefined] at the start. *)
Definition previous_opt (s : t) : option Token :=
  match current s with
  | O => None
  | S i => nth_error (tokens s) i
  end.

(** [this.previous()] when the caller dereferences the result. *)
Definition previous (prop : string) : M t Token :=
  fun s =>
    match previous_opt s with
    | Some tk => Ok tk s
    | None => undefined_read prop s
    end.

Definition isAtEnd : M t bool :=
  let! tk := peek "type" in
  ret (TokenType.eqb (tok_type tk) TokenType.EOF).

Definition check (type : TokenType.t) : M t bool :=
  let! atEnd := isAtEnd in
  if atEnd then ret false
  else let! tk := peek "type" in ret (TokenType.eqb (tok_type tk) type).

Definition advance : M t (option Token) :=
  let! atEnd := isAtEnd in
  fun s =>
    let s' := if atEnd then s else mk (tokens s) (S (current s)) in
    Ok (previous_opt s') s'.

Fixpoint match_ (types : list TokenType.t) : M t bool :=
  match types with
  | [] => ret false
  | type :: rest =>
      let! found := check type in
      if found then let! _ := advance in ret true
      else match_ rest
  end.

(** [throw new ParseError(message, this.peek())]. *)
Definition throwParseError {A} (message : string) : M t A :=
  let! tk := peek "line" in throw (ParseError message tk).

Definition consume (type : TokenType.t) (message : string)
    : M t (option Token) :=
  let! found := check type in
  if found then advance else throwParseError message.

(** [token.value] on the result of [consume]. *)
Definition value_of (token : option Token) : M t string :=
  match token with
  | Some tk => ret (tok_value tk)
  | None => undefined_read "value"
  end.

(** [n || 1]. *)
Definition or_one (n : nat) : nat := if Nat.eqb n 0 then 1 else n.

Definition getLocation : M t SourceLocation :=
  let! token := previous "line" in
  ret (mkLoc (or_one (tok_line token)) (or_one (tok_column token))).

Definition parseIdentifier : M t Identifier :=
  let! token := consume TokenType.IDENTIFIER "Expected identifier" in
  let! name := value_of token in
  let! location := getLocation in
  ret (mkIdentifier name location).

Definition primitive_names : list string :=
  [ "u8"; "u16"; "u32"; "u64"; "u128"; "u256"; "i8"; "i16"; "i32"; "i64";
    "i128"; "i256"; "bool"; "address"; "bytes"; "string" ].

(** [Array.prototype.includes] on strings. *)
Definition includes (l : list string) (x : string) : bool :=
  existsb (String.eqb x) l.

Definition parseType : M t TypeNode :=
  let! isId := match_ [TokenType.IDENTIFIER] in
  if isId then
    let! prev := previous "value" in
    let typeName := tok_value prev in
    if includes primitive_names typeName then
      let! location := getLocation in
      ret (PrimitiveType typeName location)
    else
      let! inner := getLocation in
      let! location := getLocation in
      ret (ReferenceType (PrimitiveType typeName inner) false location)
  else throwParseError "Expected type".

Definition parseField : M t Field :=
  let! name := parseIdentifier in
  let! _ := consume TokenType.Colon "Expected ':' after field name" in
  let! typeAnnotation := parseType in
  let! location := getLocation in
  ret (mkField name typeAnnotation private location).

Definition parseParameter : M t Param :=
  let! name := parseIdentifier in
  let! _ := consume TokenType.Colon "Expected ':' after parameter name" in
  let! typeAnnotation := parseType in
  let! location := getLocation in
  ret (mkParameter name typeAnnotation location).

Definition parseEventField : M t EventField :=
  let! indexed := match_ [TokenType.INDEXED] in
  let! name := parseIdentifier in
  let! _ := consume TokenType.Colon "Expected ':' after event field name" in
  let! typeAnnotation := parseType in
  let! location := getLocation in
  ret (mkEventField name typeAnnotation indexed location).

(** The loop
    [while (!this.check(RightBrace) && !this.isAtEnd()) { ... }]
    shared by every braced body.  With [newlines] set, an iteration that sees
    a [Newline] token advances and [continue]s; [body] is the remainder of an
    iteration, acting on the arrays the loop fills. *)
Fixpoint untilRightBrace {A} (newlines : bool) (body : A -> M t A)
    (fuel : nat) (acc : A) : M t A :=
  match fuel with
  | O => fun _ => OutOfFuel
  | S fuel' =>
      let! closing := check TokenType.RightBrace in
      let! continue :=
        (if closing then ret false
         else let! atEnd := isAtEnd in ret (negb atEnd)) in
      if continue then
        let! newline :=
          (if newlines then check TokenType.Newline else ret false) in
        if newline then
          let! _ := advance in untilRightBrace newlines body fuel' acc
        else
          let! acc' := body acc in untilRightBrace newlines body fuel' acc'
      else ret acc
  end.

(** The loop [do { xs.push(item()); } while (this.match(separator));]. *)
Fixpoint separated {A} (separator : TokenType.t) (item : M t A)
    (fuel : nat) (xs : list A) : M t (list A) :=
  match fuel with
  | O => fun _ => OutOfFuel
  | S fuel' =>
      let! x := item in
      let xs' := (xs ++ [x])%list in
      let! more := match_ [separator] in
      if more then separated separator item fuel' xs' else ret xs'
  end.

(** [if (!this.check(RightBrace)) { this.match(Comma); }]. *)
Definition optionalComma : M t unit :=
  let! closing := check TokenType.RightBrace in
  if closing then ret tt
  else let! _ := match_ [TokenType.Comma] in ret tt.

Section Grammar.

(** The [BigInt] constructor applied to a string: [None] when it raises. *)
Variable BigInt : string -> option Z.

(** *** The call stack

    The call chains of the parser are bounded except through three cycles:
    [parseExpression], reached again from [parsePrimary] and from the
    arguments of [parseCall]; [parseUnary], which calls itself; and
    [parseItem], reached again from [parseModule].  Each activation of these
    three is given the number [depth] of further nested activations the call
    stack of the host has room for, and a call made when no room is left
    raises [RangeError] in its caller.  The frames of the bounded chains
    between two such activations are not counted. *)

Definition stack_overflow {A} : M t A :=
  throw (RangeError "Maximum call stack size exceeded").

(** The call of [f] from an activation with room for [depth] more. *)
Definition nested {A} (f : nat -> M t A) (depth : nat) : M t A :=
  match depth with
  | O => stack_overflow
  | S depth' => f depth'
  end.

(** *** Expressions.  [parsePrimary] and [parseCall] receive the call of
    [parseExpression] as [expression]; the six binary levels receive the
    call of [parseUnary] as [unary]. *)

Definition parsePrimary (expression : M t Expression) : M t Expression :=
  let! isBoolean := match_ [TokenType.BOOLEAN] in
  if isBoolean then
    let! prev := previous "value" in
    let! location := getLocation in
    ret (BooleanLiteral (String.eqb (tok_value prev) "true") location)
  else
    let! isInteger := match_ [TokenType.INTEGER] in
    if isInteger then
      let! prev := previous "value" in
      match BigInt (tok_value prev) with
      | Some value =>
          let! location := getLocation in
          ret (IntegerLiteral value location)
      | None =>
          throw (SyntaxError ("Cannot convert " ++ tok_value prev
                                ++ " to a BigInt"))
      end
    else
      let! isParen := match_ [TokenType.LeftParen] in
      if isParen then
        let! expr := expression in
        let! _ := consume TokenType.RightParen
                    "Expected ')' after expression" in
        ret expr
      else throwParseError "Expected expression".

(** The [while (true)] loop of [parseCall]. *)
Fixpoint parseCall_loop (expression : M t Expression) (fuel : nat)
    (expr : Expression) : M t Expression :=
  match fuel with
  | O => fun _ => OutOfFuel
  | S fuel' =>
      let! isCall := match_ [TokenType.LeftParen] in
      if isCall then
        let! closing := check TokenType.RightParen in
        let! args :=
          (if closing then ret []
           else separated TokenType.Comma expression fuel' []) in
        let! _ := consume TokenType.RightParen
                    "Expected ')' after arguments" in
        let! location := getLocation in
        parseCall_loop expression fuel' (CallExpression expr args location)
      else
        let! isMember := match_ [TokenType.Dot] in
        if isMember then
          let! token := consume TokenType.IDENTIFIER
                          "Expected property name" in
          let! name := value_of token in
          let! inner := getLocation in
          let! location := getLocation in
          parseCall_loop expression fuel'
            (MemberExpression expr (mkIdentifier name inner) location)
        else ret expr
  end.

Definition parseCall (expression : M t Expression) (fuel : nat)
    : M t Expression :=
  let! expr := parsePrimary expression in
  parseCall_loop expression fuel expr.

(** The loop of a binary level:
    [while (this.match(...operators)) { right = operand(); expr = {...}; }]. *)
Fixpoint binary_loop (operators : list TokenType.t) (operand : M t Expression)
    (fuel : nat) (expr : Expression) : M t Expression :=
  match fuel with
  | O => fun _ => OutOfFuel
  | S fuel' =>
      let! found := match_ operators in
      if found then
        let! prev := previous "value" in
        let operator := tok_value prev in
        let! right := operand in
        let! location := getLocation in
        binary_loop operators operand fuel'
          (BinaryExpression expr operator right location)
      else ret expr
  end.

(** The six left-associative levels have one shape. *)
Definition binary_level (operators : list TokenType.t)
    (operand : M t Expression) (fuel : nat) : M t Expression :=
  let! expr := operand in binary_loop operators operand fuel expr.

Definition parseTerm (unary : M t Expression) (fuel : nat) :=
  binary_level [TokenType.Star; TokenType.Slash] unary fuel.

Definition parseArithmetic (unary : M t Expression) (fuel : nat) :=
  binary_level [TokenType.Plus; TokenType.Minus] (parseTerm unary fuel) fuel.

Definition parseComparison (unary : M t Expression) (fuel : nat) :=
  binary_level [TokenType.Greater; TokenType.GreaterEqual; TokenType.Less;
                TokenType.LessEqual]
    (parseArithmetic unary fuel) fuel.

Definition parseEquality (unary : M t Expression) (fuel : nat) :=
  binary_level [TokenType.EqualEqual; TokenType.NotEqual]
    (parseComparison unary fuel) fuel.

Definition parseLogicalAnd (unary : M t Expression) (fuel : nat) :=
  binary_level [TokenType.And] (parseEquality unary fuel) fuel.

Definition parseLogicalOr (unary : M t Expression) (fuel : nat) :=
  binary_level [TokenType.Or] (parseLogicalAnd unary fuel) fuel.

(** [parseUnary] with room for [depth] nested activations.  The second
    [nested] call is that of [parseExpression] by [parsePrimary]. *)
Fixpoint parseUnary (depth fuel : nat) : M t Expression :=
  let! isUnary := match_ [TokenType.Not; TokenType.Minus] in
  if isUnary then
    let! prev := previous "value" in
    let operator := tok_value prev in
    let! right := nested (fun depth' => parseUnary depth' fuel) depth in
    let! location := getLocation in
    ret (UnaryExpression operator right location)
  else
    parseCall
      (nested (fun depth' => parseLogicalOr (parseUnary depth' fuel) fuel)
         depth)
      fuel.

Definition parseExpression (depth fuel : nat) : M t Expression :=
  parseLogicalOr (parseUnary depth fuel) fuel.

(** *** Statements and blocks *)

Definition parseVariableDeclaration (depth fuel : nat) : M t Statement :=
  let! name := parseIdentifier in
  let! hasType := match_ [TokenType.Colon] in
  let! typeAnnotation :=
    (if hasType then let! ty := parseType in ret (Some ty) else ret None) in
  let! hasInit := match_ [TokenType.Equal] in
  let! initializer :=
    (if hasInit then let! e := parseExpression depth fuel in ret (Some e)
     else ret None) in
  let! _ := consume TokenType.Semicolon
              "Expected ';' after variable declaration" in
  let! location := getLocation in
  ret (VariableDeclaration name typeAnnotation initializer false location).

Definition parseReturnStatement (depth fuel : nat) : M t Statement :=
  let! isEmpty := check TokenType.Semicolon in
  let! value :=
    (if isEmpty then ret None
     else let! e := parseExpression depth fuel in ret (Some e)) in
  let! _ := consume TokenType.Semicolon
              "Expected ';' after return statement" in
  let! location := getLocation in
  ret (ReturnStatement value location).

Definition parseStatement (depth fuel : nat) : M t Statement :=
  let! isLet := match_ [TokenType.LET] in
  if isLet then parseVariableDeclaration depth fuel
  else
    let! isReturn := match_ [TokenType.RETURN] in
    if isReturn then parseReturnStatement depth fuel
    else
      let! expr := parseExpression depth fuel in
      let! _ := consume TokenType.Semicolon
                  "Expected ';' after expression" in
      let! location := getLocation in
      ret (ExpressionStatement expr location).

Definition parseBlock (depth fuel : nat) : M t (list Statement) :=
  let! _ := consume TokenType.LeftBrace "Expected '{'" in
  let! statements :=
    untilRightBrace true
      (fun statements =>
         let! statement := parseStatement depth fuel in
         ret (statements ++ [statement])%list)
      fuel [] in
  let! _ := consume TokenType.RightBrace "Expected '}'" in
  ret statements.

(** *** Items *)

(** The parameter list between the parentheses of a signature. *)
Definition parseParameters (fuel : nat) : M t (list Param) :=
  let! closing := check TokenType.RightParen in
  if closing then ret []
  else separated TokenType.Comma parseParameter fuel [].

(** [if (this.match(Arrow)) { returnType = this.parseType(); }]. *)
Definition parseReturnType : M t (option TypeNode) :=
  let! hasArrow := match_ [TokenType.Arrow] in
  if hasArrow then let! ty := parseType in ret (Some ty) else ret None.

Definition parseFunction (depth fuel : nat) : M t FunctionDecl :=
  let! name := parseIdentifier in
  let! _ := consume TokenType.LeftParen
              "Expected '(' after function name" in
  let! parameters := parseParameters fuel in
  let! _ := consume TokenType.RightParen "Expected ')' after parameters" in
  let! returnType := parseReturnType in
  let! body := parseBlock depth fuel in
  let! blockLocation := getLocation in
  let! location := getLocation in
  ret (mkFunction name [] parameters returnType (mkBlock body blockLocation)
         private false immutable [] location).

Definition parseEvent (fuel : nat) : M t Event :=
  let! _ := consume TokenType.EVENT "Expected 'event'" in
  let! name := parseIdentifier in
  let! _ := consume TokenType.LeftBrace "Expected '{' after event name" in
  let! fields :=
    untilRightBrace true
      (fun fields =>
         let! field := parseEventField in
         let! _ := optionalComma in
         ret (fields ++ [field])%list)
      fuel [] in
  let! _ := consume TokenType.RightBrace "Expected '}' after event fields" in
  let! location := getLocation in
  ret (mkEvent name fields location).

Definition parseContract (depth fuel : nat) : M t Contract :=
  let! name := parseIdentifier in
  let! _ := consume TokenType.LeftBrace "Expected '{' after contract name" in
  let! members :=
    untilRightBrace true
      (fun '(fields, functions, events) =>
         let! isLet := check TokenType.LET in
         if isLet then
           let! field := parseField in
           ret ((fields ++ [field])%list, functions, events)
         else
           let! isFn := check TokenType.FN in
           if isFn then
             let! function := parseFunction depth fuel in
             ret (fields, (functions ++ [function])%list, events)
           else
             let! isEvent := check TokenType.EVENT in
             if isEvent then
               let! event := parseEvent fuel in
               ret (fields, functions, (events ++ [event])%list)
             else
               let! _ := advance in ret (fields, functions, events))
      fuel ([], [], []) in
  let! _ := consume TokenType.RightBrace "Expected '}' after contract body" in
  let! location := getLocation in
  let '(fields, functions, events) := members in
  ret (mkContract name fields functions events [] location).

Definition parseStruct (fuel : nat) : M t Struct :=
  let! name := parseIdentifier in
  let! _ := consume TokenType.LeftBrace "Expected '{' after struct name" in
  let! fields :=
    untilRightBrace true
      (fun fields =>
         let! field := parseField in
         let! _ := optionalComma in
         ret (fields ++ [field])%list)
      fuel [] in
  let! _ := consume TokenType.RightBrace "Expected '}' after struct fields" in
  let! location := getLocation in
  ret (mkStruct name [] fields private location).

Definition parseEnum (fuel : nat) : M t Enum :=
  let! name := parseIdentifier in
  let! _ := consume TokenType.LeftBrace "Expected '{' after enum name" in
  let! variants :=
    untilRightBrace true
      (fun variants =>
         let! variantName := parseIdentifier in
         let! hasFields := match_ [TokenType.LeftBrace] in
         let! fields :=
           (if hasFields then
              let! fields :=
                untilRightBrace false
                  (fun fields =>
                     let! ty := parseType in
                     let! _ := optionalComma in
                     ret (fields ++ [ty])%list)
                  fuel [] in
              let! _ := consume TokenType.RightBrace
                          "Expected '}' after variant fields" in
              ret fields
            else ret []) in
         let! location := getLocation in
         let! _ := optionalComma in
         ret (variants ++ [mkEnumVariant variantName fields location])%list)
      fuel [] in
  let! _ := consume TokenType.RightBrace "Expected '}' after enum variants" in
  let! location := getLocation in
  ret (mkEnum name variants private location).

Definition parseTraitFunction (fuel : nat) : M t TraitFunction :=
  let! _ := consume TokenType.FN "Expected 'fn'" in
  let! name := parseIdentifier in
  let! _ := consume TokenType.LeftParen
              "Expected '(' after function name" in
  let! parameters := parseParameters fuel in
  let! _ := consume TokenType.RightParen "Expected ')' after parameters" in
  let! returnType := parseReturnType in
  let! _ := consume TokenType.Semicolon
              "Expected ';' after trait function signature" in
  let! location := getLocation in
  ret (mkTraitFunction name parameters returnType location).

Definition parseTrait (fuel : nat) : M t Trait :=
  let! name := parseIdentifier in
  let! _ := consume TokenType.LeftBrace "Expected '{' after trait name" in
  let! functions :=
    untilRightBrace true
      (fun functions =>
         let! isFn := check TokenType.FN in
         if isFn then
           let! function := parseTraitFunction fuel in
           ret (functions ++ [function])%list
         else let! _ := advance in ret functions)
      fuel [] in
  let! _ := consume TokenType.RightBrace "Expected '}' after trait body" in
  let! location := getLocation in
  ret (mkTrait name [] functions [] private location).

Definition parseImpl (depth fuel : nat) : M t Impl :=
  let! isId := check TokenType.IDENTIFIER in
  let! names :=
    (if isId then
       let! firstId := parseIdentifier in
       let! isFor := match_ [TokenType.FOR] in
       if isFor then
         let! typeName := parseIdentifier in ret (Some firstId, typeName)
       else ret (None, firstId)
     else throwParseError "Expected type name in impl") in
  let! _ := consume TokenType.LeftBrace
              "Expected '{' after impl declaration" in
  let! functions :=
    untilRightBrace true
      (fun functions =>
         let! isFn := check TokenType.FN in
         if isFn then
           let! function := parseFunction depth fuel in
           ret (functions ++ [function])%list
         else let! _ := advance in ret functions)
      fuel [] in
  let! _ := consume TokenType.RightBrace "Expected '}' after impl body" in
  let! location := getLocation in
  ret (mkImpl (fst names) (snd names) [] functions location).

Definition parseUse (fuel : nat) : M t UseDeclaration :=
  let! path := separated TokenType.DoubleColon parseIdentifier fuel [] in
  let! hasAlias := match_ [TokenType.AS] in
  let! alias :=
    (if hasAlias then let! id := parseIdentifier in ret (Some id)
     else ret None) in
  let! _ := consume TokenType.Semicolon
              "Expected ';' after use declaration" in
  let! location := getLocation in
  ret (mkUse path alias location).

Definition parseConst (depth fuel : nat) : M t ConstDeclaration :=
  let! name := parseIdentifier in
  let! _ := consume TokenType.Colon "Expected ':' after const name" in
  let! typeAnnotation := parseType in
  let! _ := consume TokenType.Equal "Expected '=' after const type" in
  let! value := parseExpression depth fuel in
  let! _ := consume TokenType.Semicolon "Expected ';' after const value" in
  let! location := getLocation in
  ret (mkConst name typeAnnotation value private location).

(** [parseModule] calls back into [parseItem], received as [item]. *)
Definition parseModule (item : M t (option Item)) (fuel : nat) : M t Item :=
  let! name := parseIdentifier in
  let! _ := consume TokenType.LeftBrace "Expected '{' after module name" in
  let! items :=
    untilRightBrace true
      (fun items =>
         let! parsed := item in
         match parsed with
         | Some it => ret (items ++ [it])%list
         | None => ret items
         end)
      fuel [] in
  let! _ := consume TokenType.RightBrace "Expected '}' after module body" in
  let! location := getLocation in
  ret (ModuleDecl name items private location).

(** The keywords at which [synchronize] stops. *)
Definition starts_declaration (type : TokenType.t) : bool :=
  match type with
  | TokenType.CONTRACT | TokenType.FN | TokenType.STRUCT | TokenType.ENUM
  | TokenType.TRAIT | TokenType.IMPL | TokenType.USE | TokenType.CONST
  | TokenType.LET | TokenType.RETURN => true
  | _ => false
  end.

Fixpoint synchronize_loop (fuel : nat) : M t unit :=
  match fuel with
  | O => fun _ => OutOfFuel
  | S fuel' =>
      let! atEnd := isAtEnd in
      if atEnd then ret tt
      else
        let! prev := previous "type" in
        if TokenType.eqb (tok_type prev) TokenType.Semicolon then ret tt
        else
          let! next := peek "type" in
          if starts_declaration (tok_type next) then ret tt
          else let! _ := advance in synchronize_loop fuel'
  end.

Definition synchronize (fuel : nat) : M t unit :=
  let! _ := advance in synchronize_loop fuel.

(** The body of the [try] block of [parseItem]. *)
Definition parseItem_try (item : M t (option Item)) (depth fuel : nat)
    : M t (option Item) :=
  let! isContract := match_ [TokenType.CONTRACT] in
  if isContract then
    let! n := parseContract depth fuel in ret (Some (ContractItem n))
  else
  let! isFn := match_ [TokenType.FN] in
  if isFn then let! n := parseFunction depth fuel in ret (Some (FunctionItem n))
  else
  let! isStruct := match_ [TokenType.STRUCT] in
  if isStruct then let! n := parseStruct fuel in ret (Some (StructItem n))
  else
  let! isEnum := match_ [TokenType.ENUM] in
  if isEnum then let! n := parseEnum fuel in ret (Some (EnumItem n))
  else
  let! isTrait := match_ [TokenType.TRAIT] in
  if isTrait then let! n := parseTrait fuel in ret (Some (TraitItem n))
  else
  let! isImpl := match_ [TokenType.IMPL] in
  if isImpl then let! n := parseImpl depth fuel in ret (Some (ImplItem n))
  else
  let! isUse := match_ [TokenType.USE] in
  if isUse then let! n := parseUse fuel in ret (Some (UseItem n))
  else
  let! isConst := match_ [TokenType.CONST] in
  if isConst then let! n := parseConst depth fuel in ret (Some (ConstItem n))
  else
  let! isMod := match_ [TokenType.MOD] in
  if isMod then let! n := parseModule item fuel in ret (Some n)
  else
    let! _ := advance in ret None.

(** [try { body } catch (error) { handler }]: the handler runs in the state
    the exception left behind. *)
Definition try_catch {A} (body : M t A) (handler : Exn -> M t A) : M t A :=
  fun s =>
    match body s with
    | Ok a s' => Ok a s'
    | Throw e s' => handler e s'
    | OutOfFuel => OutOfFuel
    end.

(** [parseItem] with room for [depth] nested activations; the call it
    hands to [parseModule] is the one [parseModule] makes of it. *)
Fixpoint parseItem (depth fuel : nat) : M t (option Item) :=
  try_catch
    (parseItem_try (nested (fun depth' => parseItem depth' fuel) depth)
       depth fuel)
    (fun _ => let! _ := synchronize fuel in ret None).

Fixpoint parse_loop (depth fuel : nat) (items : list Item)
    : M t (list Item) :=
  match fuel with
  | O => fun _ => OutOfFuel
  | S fuel' =>
      let! atEnd := isAtEnd in
      if atEnd then ret items
      else
        let! newline := check TokenType.Newline in
        if newline then let! _ := advance in parse_loop depth fuel' items
        else
          let! item := parseItem depth fuel' in
          parse_loop depth fuel'
            (match item with
             | Some it => (items ++ [it])%list
             | None => items
             end)
  end.

(** The budget of the loops of the model: every iteration that does not
    leave its loop consumes a token. *)
Definition parse_fuel (s : t) : nat :=
  List.length (tokens s) - current s + 4.

(** [parse], called with room for [depth] nested activations on the call
    stack. *)
Definition parse (depth : nat) : M t SourceFile :=
  fun s =>
    (let! items := parse_loop depth (parse_fuel s) [] in
     ret (mkSourceFile items (mkLoc 1 1))) s.

End Grammar.

End Parser.

(** ** Built-ins of the JavaScript host

    [BigInt], the [WebAssembly] namespace and the call stack are not code of
    the repository; the pipeline is parameterised by them.  A [None] result
    stands for a raised exception, and so does the message in a left
    injection. *)

Record ExportDescriptor : Set := mkExport {
  export_name : string;
  export_kind : string
}.

Record Host : Type := mkHost {
  BigInt : string -> option Z;
  (** the nested activations the call stack has room for when [parse] is
      called *)
  callStack : nat;
  wasm_module : Type;
  (** [new WebAssembly.Module(bytes)] and [WebAssembly.compile(bytes)] *)
  WebAssembly_Module : list Z -> string + wasm_module;
  (** [WebAssembly.Module.exports(module)] *)
  WebAssembly_Module_exports : wasm_module -> option (list ExportDescriptor)
}.

(** ** The compiler ([class AugustiumCompiler])

    The compiler builds its parser with [new Parser(tokens)], imported from
    the parser module; [MinimalParser] is the parser class that module
    holds, and [Parser.parse] above is its [parse]. *)

Module Compiler.
Import AST.

Record CompilationError : Set := mkError {
  message : string;
  line : option nat;
  column : option nat
}.

Definition NL : string := String (ascii_of_nat 10) EmptyString.
Definition DQ : string := String (ascii_of_nat 34) EmptyString.

Definition empty_struct_error (struct : Struct) : CompilationError :=
  mkError ("Struct " ++ id_name (struct_name struct)
             ++ " must have at least one field")
    (Some (loc_line (struct_location struct)))
    (Some (loc_column (struct_location struct))).

Definition duplicate_field_error (struct : Struct) (field : Field)
    : CompilationError :=
  mkError ("Duplicate field name '" ++ id_name (field_name field)
             ++ "' in struct " ++ id_name (struct_name struct))
    (Some (loc_line (field_location field)))
    (Some (loc_column (field_location field))).

(** One iteration of the duplicate check: [errors] and the [Set] of names
    seen so far. *)
Definition check_field (struct : Struct)
    (acc : list CompilationError * gset string) (field : Field)
    : list CompilationError * gset string :=
  let '(errors, fieldNames) := acc in
  let name := id_name (field_name field) in
  let errors' :=
    if bool_decide (name ∈ fieldNames)
    then (errors ++ [duplicate_field_error struct field])%list
    else errors in
  (errors', {[ name ]} ∪ fieldNames).

Definition validateStruct (struct : Struct) : list CompilationError :=
  let errors :=
    if Nat.eqb (List.length (struct_fields struct)) 0
    then [empty_struct_error struct] else [] in
  fst (fold_left (check_field struct) (struct_fields struct) (errors, ∅)).

Definition is_struct (item : Item) : bool :=
  match item with
  | StructItem _ => true
  | _ => false
  end.

Definition missing_struct_error : CompilationError :=
  mkError "At least one struct declaration is required" None None.

Definition validateAST (ast : SourceFile) : list CompilationError :=
  let hasStruct :=
    fold_left (fun hasStruct item => if is_struct item then true else hasStruct)
      (file_items ast) false in
  let errors := if negb hasStruct then [missing_struct_error] else [] in
  fold_left
    (fun errors item =>
       match item with
       | StructItem struct => (errors ++ validateStruct struct)%list
       | _ => errors
       end)
    (file_items ast) errors.

Definition augustiumTypeToWASMType (augustiumType : string) : string :=
  if String.eqb augustiumType "Address" then "i64"
  else if String.eqb augustiumType "U256" then "i64"
  else if String.eqb augustiumType "U128" then "i64"
  else if String.eqb augustiumType "U64" then "i64"
  else if String.eqb augustiumType "U32" then "i64"
  else if String.eqb augustiumType "String" then "i32"
  else if String.eqb augustiumType "Bytes" then "i32"
  else if String.eqb augustiumType "Bool" then "i32"
  else "i32".

(** The WASM type chosen for a field in [generateStructWAT]. *)
Definition field_wasmType (field : Field) : string :=
  augustiumTypeToWASMType
    match field_typeAnnotation field with
    | PrimitiveType name _ => name
    | _ => "i32"
    end.

Definition param_line (field : Field) : string :=
  "    (param $" ++ id_name (field_name field) ++ " "
    ++ field_wasmType field ++ ")" ++ NL.

Definition generateStructWAT (struct : Struct) : string :=
  let name := id_name (struct_name struct) in
  let wat := "  ;; Struct: " ++ name ++ NL in
  let wat := wat ++ "  (func $create_" ++ name ++ " (export " ++ DQ
                 ++ "create_" ++ name ++ DQ ++ ")" ++ NL in
  let wat :=
    fold_left (fun wat field => wat ++ param_line field)
      (struct_fields struct) wat in
  let wat := wat ++ "    (result i32) ;; return pointer to struct" ++ NL in
  let wat := wat ++ "    ;; TODO: Implement struct creation" ++ NL in
  let wat := wat ++ "    i32.const 0 ;; placeholder" ++ NL in
  wat ++ "  )" ++ NL ++ NL.

Definition generateUtilityFunctions : string :=
  NL
  ++ "  ;; Utility functions" ++ NL
  ++ "  (func $allocate (param $size i32) (result i32)" ++ NL
  ++ "    ;; Simple allocator - just return increasing addresses" ++ NL
  ++ "    ;; In production, this would be a proper memory allocator" ++ NL
  ++ "    i32.const 1024 ;; start at offset 1024" ++ NL
  ++ "  )" ++ NL
  ++ "  " ++ NL
  ++ "  (func $get_event_field (param $event_ptr i32) (param $field_offset i32) (result i32)" ++ NL
  ++ "    ;; Get field from event data structure" ++ NL
  ++ "    local.get $event_ptr" ++ NL
  ++ "    local.get $field_offset" ++ NL
  ++ "    i32.add" ++ NL
  ++ "    i32.load" ++ NL
  ++ "  )" ++ NL.

Definition generateWASMCode (ast : SourceFile) : string :=
  let watCode := "(module" ++ NL in
  let watCode := watCode ++ "  (memory (export " ++ DQ ++ "memory" ++ DQ
                   ++ ") 1)" ++ NL in
  let watCode :=
    fold_left
      (fun watCode item =>
         match item with
         | StructItem struct => watCode ++ generateStructWAT struct
         | _ => watCode
         end)
      (file_items ast) watCode in
  let watCode := watCode ++ generateUtilityFunctions in
  watCode ++ ")" ++ NL.

(** The bytes of the fallback module of [createMinimalWASMModule]. *)
Definition minimalWASMBytes : list Z :=
  [ 0x00; 0x61; 0x73; 0x6d;
    0x01; 0x00; 0x00; 0x00;
    0x01; 0x07; 0x01; 0x60; 0x02; 0x7f; 0x7f; 0x01; 0x7f;
    0x03; 0x02; 0x01; 0x00;
    0x07; 0x0a; 0x01; 0x06; 0x6d; 0x61; 0x70; 0x70; 0x65; 0x72; 0x00; 0x00;
    0x0a; 0x09; 0x01; 0x07; 0x00; 0x20; 0x00; 0x20; 0x01; 0x6a; 0x0b ]%Z.

(** The object: its only field is [wasmRuntime], whose [wat2wasm] method
    turns WAT text into bytes or raises. *)
Record t : Type := mk {
  wasmRuntime : option (string -> option (list Z))
}.

(** The constructor leaves the runtime [null]; nothing assigns it later. *)
Definition new : t := mk None.

Section WithHost.

Variable host : Host.

Record CompilationResult : Type := mkResult {
  wasmModule : option (wasm_module host);
  exports : list string;
  errors : list CompilationError
}.

(** The left injection is the exception of the [WebAssembly.Module]
    constructor. *)
Definition createMinimalWASMModule : string + wasm_module host :=
  WebAssembly_Module host minimalWASMBytes.

(** With a runtime, a failure of [wat2wasm] or of [WebAssembly.compile] is
    logged and replaced by the fallback module. *)
Definition compileToWASM (this : t) (watCode : string)
    : string + wasm_module host :=
  match wasmRuntime this with
  | None => createMinimalWASMModule
  | Some wat2wasm =>
      match wat2wasm watCode with
      | Some wasmBytes =>
          match WebAssembly_Module host wasmBytes with
          | inr module => inr module
          | inl _ => createMinimalWASMModule
          end
      | None => createMinimalWASMModule
      end
  end.

Definition extractExports (wasmModule : wasm_module host) : list string :=
  match WebAssembly_Module_exports host wasmModule with
  | Some moduleExports =>
      fold_left
        (fun exports exp =>
           if String.eqb (export_kind exp) "function"
           then (exports ++ [export_name exp])%list else exports)
        moduleExports []
  | None => []
  end.

(** The result of the [catch] clause of [compileMapping]. *)
Definition compilation_failed (e_message : string) : CompilationResult :=
  mkResult None []
    [mkError ("Compilation failed: " ++ e_message) None None].

(** [compileMapping]; [None] only if the model ran out of budget. *)
Definition compileMapping (this : t) (augustiumCode : string)
    : option CompilationResult :=
  match Lexer.tokenize (Lexer.new augustiumCode) with
  | OutOfFuel => None
  | Throw e _ => Some (compilation_failed (exn_message e))
  | Ok tokens _ =>
      match
        Parser.parse (BigInt host) (callStack host) (Parser.new tokens)
      with
      | OutOfFuel => None
      | Throw e _ => Some (compilation_failed (exn_message e))
      | Ok ast _ =>
          let validationErrors := validateAST ast in
          if 0 <? List.length validationErrors then
            Some (mkResult None [] validationErrors)
          else
            let wasmCode := generateWASMCode ast in
            match compileToWASM this wasmCode with
            | inl e_message => Some (compilation_failed e_message)
            | inr wasmModule =>
                Some (mkResult (Some wasmModule)
                        (extractExports wasmModule) [])
            end
      end
  end.

End WithHost.

End Compiler.

(** ** A reference host

    Used to run the pipeline on concrete sources.  [BigInt] follows
    [StringToBigInt] on strings of characters below 256; a module is
    represented by the bytes it was built from, and its exports are read off
    the export section of the binary format. *)

Module Node.

Definition digits : list (ascii * Z) :=
  [ ("0", 0); ("1", 1); ("2", 2); ("3", 3); ("4", 4); ("5", 5); ("6", 6);
    ("7", 7); ("8", 8); ("9", 9); ("a", 10); ("b", 11); ("c", 12);
    ("d", 13); ("e", 14); ("f", 15); ("A", 10); ("B", 11); ("C", 12);
    ("D", 13); ("E", 14); ("F", 15) ]%char%Z.

Fixpoint lookup (c : ascii) (table : list (ascii * Z)) : option Z :=
  match table with
  | [] => None
  | (key, value) :: rest =>
      if Ascii.eqb c key then Some value else lookup c rest
  end.

(** The value of a digit in a radix of at most 16. *)
Definition digit_value (radix : Z) (c : ascii) : option Z :=
  match lookup c digits with
  | Some v => if (v <? radix)%Z then Some v else None
  | None => None
  end.

Fixpoint digits_value (radix acc : Z) (str : string) : option Z :=
  match str with
  | EmptyString => Some acc
  | String c rest =>
      match digit_value radix c with
      | Some d => digits_value radix (radix * acc + d)%Z rest
      | None => None
      end
  end.

(** One digit at least. *)
Definition literal_value (radix : Z) (str : string) : option Z :=
  match str with
  | EmptyString => None
  | _ => digits_value radix 0%Z str
  end.

(** White space and line terminators: tab, line feed, vertical tab, form
    feed, carriage return, space, no-break space. *)
Definition isWhiteSpace (c : ascii) : bool :=
  existsb (Ascii.eqb c)
    ["009"; "010"; "011"; "012"; "013"; " "; "160"]%char.

Fixpoint trimStart (str : string) : string :=
  match str with
  | EmptyString => EmptyString
  | String c rest => if isWhiteSpace c then trimStart rest else str
  end.

Definition reverse (str : string) : string :=
  string_of_list_ascii (rev (list_ascii_of_string str)).

Definition trim (str : string) : string :=
  reverse (trimStart (reverse (trimStart str))).

Definition radix_of_prefix (c : ascii) : option Z :=
  if Ascii.eqb c "x" || Ascii.eqb c "X" then Some 16%Z
  else if Ascii.eqb c "o" || Ascii.eqb c "O" then Some 8%Z
  else if Ascii.eqb c "b" || Ascii.eqb c "B" then Some 2%Z
  else None.

(** [BigInt(value)] for a string: the trimmed string is empty ([0n]), a
    decimal literal with an optional sign, or an unsigned literal after
    [0x], [0o] or [0b]; anything else raises. *)
Definition BigInt (value : string) : option Z :=
  match trim value with
  | EmptyString => Some 0%Z
  | String c rest =>
      if Ascii.eqb c "+" then literal_value 10 rest
      else if Ascii.eqb c "-" then option_map Z.opp (literal_value 10 rest)
      else
        match rest with
        | String p str =>
            match (if Ascii.eqb c "0" then radix_of_prefix p else None) with
            | Some radix => literal_value radix str
            | None => literal_value 10 (String c rest)
            end
        | EmptyString => literal_value 10 (String c rest)
        end
  end.

Definition kind_name (kind : Z) : string :=
  if (kind =? 0)%Z then "function"
  else if (kind =? 1)%Z then "table"
  else if (kind =? 2)%Z then "memory"
  else "global".

Definition name_of_bytes (bytes : list Z) : string :=
  string_of_list_ascii (map (fun b => ascii_of_nat (Z.to_nat b)) bytes).

(** The entries of an export section: name length, name, kind, index. *)
Fixpoint export_entries (count : nat) (bytes : list Z)
    : list ExportDescriptor :=
  match count, bytes with
  | S count', len :: rest =>
      let n := Z.to_nat len in
      match skipn n rest with
      | kind :: _ :: rest' =>
          mkExport (name_of_bytes (firstn n rest)) (kind_name kind)
            :: export_entries count' rest'
      | _ => []
      end
  | _, _ => []
  end.

(** Walk the sections (identifier, one-byte size, payload) up to section 7. *)
Fixpoint export_section (fuel : nat) (bytes : list Z) : list ExportDescriptor :=
  match fuel, bytes with
  | S fuel', id :: size :: payload =>
      if (id =? 7)%Z then
        match payload with
        | count :: entries => export_entries (Z.to_nat count) entries
        | [] => []
        end
      else export_section fuel' (skipn (Z.to_nat size) payload)
  | _, _ => []
  end.

Definition Module_exports (bytes : list Z) : option (list ExportDescriptor) :=
  Some (export_section (List.length bytes) (skipn 8 bytes)).

(** Room for 512 nested activations: of the order of what the engines
    give, and below it. *)
Definition callStack : nat := 512.

Definition host : Host :=
  mkHost BigInt callStack (list Z) (fun bytes => inr bytes) Module_exports.

End Node.

(** ** The tree as a store

    [validateAST] and [generateWASMCode] receive a reference to the tree.  To
    state what they may do to it, their bodies are read once more as
    computations over a store holding the tree: every property access goes to
    the store by its path (item index, field index) at the moment of the
    access, and an assignment to a node property would be an [assign]. *)

Module Store.
Import AST Compiler.

Definition ST (A : Type) : Type := SourceFile -> A * SourceFile.

Definition pure {A} (a : A) : ST A := fun h => (a, h).

Definition and_then {A B} (m : ST A) (k : A -> ST B) : ST B :=
  fun h => let (a, h') := m h in k a h'.

Definition read {A} (get : SourceFile -> A) : ST A := fun h => (get h, h).

Definition assign (set : SourceFile -> SourceFile) : ST unit :=
  fun h => (tt, set h).

Notation "'get!' x ':=' m 'in' k" := (and_then m (fun x => k))
  (at level 10, x name, m at level 100, k at level 200).

(** [for (const x of array)], the array being reached through the store:
    [body i] handles the element at index [i]. *)
Fixpoint for_range {B} (i n : nat) (body : nat -> B -> ST B) (acc : B)
    : ST B :=
  match n with
  | O => pure acc
  | S n' => get! acc' := body i acc in for_range (S i) n' body acc'
  end.

Definition item_at (i : nat) (ast : SourceFile) : option Item :=
  nth_error (file_items ast) i.

Definition struct_at (i : nat) (ast : SourceFile) : option Struct :=
  match item_at i ast with
  | Some (StructItem struct) => Some struct
  | _ => None
  end.

Definition field_at (i j : nat) (ast : SourceFile) : option Field :=
  match struct_at i ast with
  | Some struct => nth_error (struct_fields struct) j
  | None => None
  end.

Definition fields_length (i : nat) (ast : SourceFile) : nat :=
  match struct_at i ast with
  | Some struct => List.length (struct_fields struct)
  | None => 0
  end.

(** [validateStruct] on the struct at item index [i]. *)
Definition validateStruct (i : nat) : ST (list CompilationError) :=
  get! length := read (fields_length i) in
  get! errors :=
    (if Nat.eqb length 0 then
       get! struct := read (struct_at i) in
       pure match struct with
            | Some struct => [empty_struct_error struct]
            | None => []
            end
     else pure []) in
  get! checked :=
    for_range 0 length
      (fun j acc =>
         get! struct := read (struct_at i) in
         get! field := read (field_at i j) in
         pure match struct, field with
              | Some struct, Some field => check_field struct acc field
              | _, _ => acc
              end)
      (errors, ∅) in
  pure (fst checked).

Definition validateAST : ST (list CompilationError) :=
  get! count := read (fun ast => List.length (file_items ast)) in
  get! hasStruct :=
    for_range 0 count
      (fun i hasStruct =>
         get! item := read (item_at i) in
         pure match item with
              | Some item => if is_struct item then true else hasStruct
              | None => hasStruct
              end)
      false in
  let errors := if negb hasStruct then [missing_struct_error] else [] in
  for_range 0 count
    (fun i errors =>
       get! item := read (item_at i) in
       match item with
       | Some (StructItem _) =>
           get! structErrors := validateStruct i in
           pure (errors ++ structErrors)%list
       | _ => pure errors
       end)
    errors.

(** [generateStructWAT] on the struct at item index [i]. *)
Definition generateStructWAT (i : nat) : ST string :=
  get! struct := read (struct_at i) in
  let name :=
    match struct with
    | Some struct => id_name (struct_name struct)
    | None => EmptyString
    end in
  let wat := "  ;; Struct: " ++ name ++ NL in
  let wat := wat ++ "  (func $create_" ++ name ++ " (export " ++ DQ
                 ++ "create_" ++ name ++ DQ ++ ")" ++ NL in
  get! length := read (fields_length i) in
  get! wat :=
    for_range 0 length
      (fun j wat =>
         get! field := read (field_at i j) in
         pure match field with
              | Some field => wat ++ param_line field
              | None => wat
              end)
      wat in
  let wat := wat ++ "    (result i32) ;; return pointer to struct" ++ NL in
  let wat := wat ++ "    ;; TODO: Implement struct creation" ++ NL in
  let wat := wat ++ "    i32.const 0 ;; placeholder" ++ NL in
  pure (wat ++ "  )" ++ NL ++ NL).

Definition generateWASMCode : ST string :=
  let watCode := "(module" ++ NL in
  let watCode := watCode ++ "  (memory (export " ++ DQ ++ "memory" ++ DQ
                   ++ ") 1)" ++ NL in
  get! count := read (fun ast => List.length (file_items ast)) in
  get! watCode :=
    for_range 0 count
      (fun i watCode =>
         get! item := read (item_at i) in
         match item with
         | Some (StructItem _) =>
             get! structWAT := generateStructWAT i in
             pure (watCode ++ structWAT)
         | _ => pure watCode
         end)
      watCode in
  let watCode := watCode ++ generateUtilityFunctions in
  pure (watCode ++ ")" ++ NL).

End Store.

(** ** Vocabulary: runs of the lexer *)

Module LexerSpec.
Import Lexer.

(** Characters still to be read. *)
Definition remaining (s : t) : nat := String.length (input s) - position s.

(** [s'] is a later state of the same scan. *)
Definition later (s s' : t) : Prop :=
  input s' = input s /\ position s <= position s'.

(** A loop guard that fails on the end-of-input sentinel. *)
Definition stops_at_end (cond : t -> bool) : Prop :=
  forall s, cond s = true -> isAtEnd s = false.

(** The two lexical errors. *)
Definition lexical_error (e : Exn) : Prop :=
  (exists c l k, e = unexpected_character c l k)
  \/ (exists l k, e = Error ("Unterminated string at line "
                               ++ string_of_nat l ++ ", column "
                               ++ string_of_nat k)).

(** What a call of [nextToken] guarantees about its outcome. *)
Definition token_step (s : t) (r : Res t (option Token)) : Prop :=
  match r with
  | Ok _ s' => later s s' /\ (isAtEnd s = false -> position s < position s')
  | Throw e _ => lexical_error e
  | OutOfFuel => False
  end.

(** Tokens that survive the filter of [tokenize]. *)
Definition clean (tk : Token) : Prop :=
  tok_type tk <> TokenType.Newline /\ tok_type tk <> TokenType.LineComment
  /\ tok_type tk <> TokenType.BlockComment.

Definition token_stream (s : t) (r : Res t (list Token)) : Prop :=
  match r with
  | Ok tokens s' =>
      later s s' /\ isAtEnd s' = true
      /\ exists init, tokens = (init ++ [eofToken s'])%list /\ Forall clean init
  | Throw e _ => lexical_error e
  | OutOfFuel => False
  end.

Definition not_address (tk : Token) : Prop :=
  tok_type tk <> TokenType.ADDRESS_LITERAL.

End LexerSpec.

(** ** Vocabulary: runs of the parser *)

Module ParserSpec.
Import AST Parser.

(** An [EOF] token lies at or after the cursor. *)
Definition eof_ahead (s : t) : Prop :=
  exists e tk, current s <= e /\ nth_error (tokens s) e = Some tk
               /\ tok_type tk = TokenType.EOF.

(** Tokens from the cursor to the end of the array. *)
Definition rem (s : t) : nat := List.length (tokens s) - current s.

(** The cursor is on an [EOF] token. *)
Definition at_end (s : t) : bool :=
  match nth_error (tokens s) (current s) with
  | Some tk => TokenType.eqb (tok_type tk) TokenType.EOF
  | None => false
  end.

Definition next (s : t) : t := mk (tokens s) (S (current s)).

(** [s'] is a later state of the same parse, still in front of an [EOF]. *)
Definition later (s s' : t) : Prop :=
  tokens s' = tokens s /\ current s <= current s' /\ eof_ahead s'.

(** Outcomes of a run from [s]: a value in a later state satisfying [Q], an
    exception in a later state (only if [may_throw]), never lack of budget. *)
Definition sat {A} (may_throw : bool) (m : M t A) (s : t)
    (Q : A -> t -> Prop) : Prop :=
  match m s with
  | Ok a s' => later s s' /\ Q a s'
  | Throw _ s' => may_throw = true /\ later s s'
  | OutOfFuel => False
  end.

(** The call returns or throws, never stalls. *)
Definition total {A} (m : M t A) (s : t) : Prop :=
  sat true m s (fun _ _ => True).

(** When the call returns, the cursor has moved. *)
Definition progress {A} (m : M t A) (s : t) : Prop :=
  sat true m s (fun _ s' => current s < current s').

(** The outcome of one [parseItem]: no exception escapes, and away from
    [EOF] the cursor moves. *)
Definition item_step (m : M t (option Item)) (s : t) : Prop :=
  sat false m s (fun _ s' => at_end s = false -> current s < current s').

End ParserSpec.

(** ** Vocabulary: the tokens ahead of the cursor *)

Module ParserRunsSpec.
Import AST Parser ParserSpec.

(** The tokens from the cursor on. *)
Definition ahead (s : t) : list Token := skipn (current s) (tokens s).

Definition location_of (tk : Token) : SourceLocation :=
  mkLoc (or_one (tok_line tk)) (or_one (tok_column tk)).

(** The token kind occurs in the list given to [match]. *)
Definition among (types : list TokenType.t) (tk : Token) : bool :=
  existsb (TokenType.eqb (tok_type tk)) types.

(** A token after which no level of the expression grammar continues. *)
Definition closes_expression (tk : Token) : Prop :=
  tok_type tk = TokenType.RightParen \/ tok_type tk = TokenType.Semicolon.

Definition identifier_of (tk : Token) : Identifier :=
  mkIdentifier (tok_value tk) (location_of tk).

(** The node [parseType] builds from an identifier token. *)
Definition type_of (tk : Token) : TypeNode :=
  if includes primitive_names (tok_value tk)
  then PrimitiveType (tok_value tk) (location_of tk)
  else ReferenceType (PrimitiveType (tok_value tk) (location_of tk)) false
         (location_of tk).

(** The tokens of [const x: t = ((...(b)...));] around a literal [b]. *)
Definition nested_const (kw x colon ty eq : Token) (opens : list Token)
    (b : Token) (closes : list Token) (semi eof : Token) : list Token :=
  (kw :: x :: colon :: ty :: eq :: opens ++ b :: closes ++ [semi; eof])%list.

Definition nested_const_item (x ty b semi : Token) : Item :=
  ConstItem
    (mkConst (identifier_of x) (type_of ty)
       (BooleanLiteral (String.eqb (tok_value b) "true") (location_of b))
       private (location_of semi)).

End ParserRunsSpec.

(** ** Vocabulary: duplicate fields *)

Module ValidatorSpec.
Import AST Compiler.

Definition same_name (f g : Field) : bool :=
  String.eqb (id_name (field_name f)) (id_name (field_name g)).

(** The fields whose name repeats the name of a field declared before them,
    [earlier] being the fields already passed. *)
Fixpoint repeats (earlier fields : list Field) : list Field :=
  match fields with
  | [] => []
  | f :: rest =>
      ((if existsb (same_name f) earlier then [f] else [])
         ++ repeats (earlier ++ [f]) rest)%list
  end.

Definition names (fields : list Field) : gset string :=
  list_to_set (map (fun f => id_name (field_name f)) fields).

(** The message of an empty-struct diagnostic, for some struct name. *)
Definition reports_no_field (e : CompilationError) : Prop :=
  exists name, message e = "Struct " ++ name ++ " must have at least one field".

End ValidatorSpec.

(** ** Vocabulary: results of a compilation *)

Module PipelineSpec.
Import AST Compiler.

(** What [compileMapping] returns once the file is parsed. *)
Definition after_parse (host : Host) (ast : SourceFile)
    : CompilationResult host :=
  if 0 <? List.length (validateAST ast) then
    mkResult host None [] (validateAST ast)
  else
    match createMinimalWASMModule host with
    | inl e_message => compilation_failed host e_message
    | inr wasmModule =>
        mkResult host (Some wasmModule) (extractExports host wasmModule) []
    end.

(** A failed compile: no module, no exports, at least one error. *)
Definition failure {host} (r : CompilationResult host) : Prop :=
  wasmModule host r = None /\ exports host r = [] /\ errors host r <> [].

(** A successful compile: the fallback module, its exports, no error. *)
Definition fallback_success {host} (r : CompilationResult host) : Prop :=
  exists module,
    createMinimalWASMModule host = inr module
    /\ wasmModule host r = Some module
    /\ exports host r = extractExports host module
    /\ errors host r = [].

End PipelineSpec.

(** ** Sources and nodes used as examples *)

Module Examples.
Import AST Compiler.

(** The keywords that open an item in [parseItem]. *)
Definition item_keywords : list TokenType.t :=
  [ TokenType.CONTRACT; TokenType.FN; TokenType.STRUCT; TokenType.ENUM;
    TokenType.TRAIT; TokenType.IMPL; TokenType.USE; TokenType.CONST;
    TokenType.MOD ].

(** [n] copies of a character. *)
Fixpoint repeat_char (c : ascii) (n : nat) : string :=
  match n with
  | O => EmptyString
  | S n' => String c (repeat_char c n')
  end.

Definition nested_source (n : nat) : string :=
  "const x: t = " ++ repeat_char "(" n ++ "true" ++ repeat_char ")" n ++ ";".

(** The token kinds of [const x: t = ((...(b)...)); EOF], with as many
    closing as opening parentheses. *)
Definition nested_const_shape (kw x colon ty eq : Token)
    (opens : list Token) (b : Token) (closes : list Token)
    (semi eof : Token) : bool :=
  TokenType.eqb (tok_type kw) TokenType.CONST
  && TokenType.eqb (tok_type x) TokenType.IDENTIFIER
  && TokenType.eqb (tok_type colon) TokenType.Colon
  && TokenType.eqb (tok_type ty) TokenType.IDENTIFIER
  && TokenType.eqb (tok_type eq) TokenType.Equal
  && forallb (fun tk => TokenType.eqb (tok_type tk) TokenType.LeftParen) opens
  && TokenType.eqb (tok_type b) TokenType.BOOLEAN
  && forallb (fun tk => TokenType.eqb (tok_type tk) TokenType.RightParen) closes
  && TokenType.eqb (tok_type semi) TokenType.Semicolon
  && TokenType.eqb (tok_type eof) TokenType.EOF
  && Nat.eqb (List.length opens) (List.length closes).


Definition one_error_source : string := "struct A { a: b } fn 1 ;".

Definition pool_source : string :=
  "struct Pool { id: Address, liquidity: u256 }".

(** The [Struct] node of [pool_source], its fields carrying the primitive
    types [Address] and [u256] of the tree model. *)
Definition pool_struct : Struct :=
  mkStruct (mkIdentifier "Pool" (mkLoc 1 8)) []
    [ mkField (mkIdentifier "id" (mkLoc 1 15))
        (PrimitiveType "Address" (mkLoc 1 19)) private (mkLoc 1 19);
      mkField (mkIdentifier "liquidity" (mkLoc 1 28))
        (PrimitiveType "u256" (mkLoc 1 39)) private (mkLoc 1 39) ]
    private (mkLoc 1 44).

Definition empty_struct : Struct :=
  mkStruct (mkIdentifier "Empty" (mkLoc 1 8)) [] [] private (mkLoc 1 16).

Definition dup_first : Field :=
  mkField (mkIdentifier "a" (mkLoc 1 14)) (PrimitiveType "u32" (mkLoc 1 17))
    private (mkLoc 1 17).

Definition dup_second : Field :=
  mkField (mkIdentifier "a" (mkLoc 1 22)) (PrimitiveType "u32" (mkLoc 1 25))
    private (mkLoc 1 25).

(** The node of [struct Dup { a: u32, a: u32 }]. *)
Definition dup_struct : Struct :=
  mkStruct (mkIdentifier "Dup" (mkLoc 1 8)) [] [dup_first; dup_second]
    private (mkLoc 1 29).

End Examples.

(** * Further vocabulary, the cache and the metrics collector *)

Module LexemeSpec.
Import Lexer.

(** [src[i]], with the sentinel of [peek] past the end. *)
Definition char_at (src : string) (i : nat) : ascii :=
  match String.get i src with
  | Some c => c
  | None => NUL
  end.

(** Newline characters among the first [n] characters of [src]. *)
Fixpoint newlines_before (src : string) (n : nat) : nat :=
  match n, src with
  | S n', String c rest =>
      (if Ascii.eqb c NEWLINE then 1 else 0) + newlines_before rest n'
  | _, _ => 0
  end.

(** The line counter agrees with the text read so far. *)
Definition tracks (s : t) : Prop :=
  line s = 1 + newlines_before (input s) (position s).

(** A backslash directly followed by a newline. *)
Fixpoint escaped_newline (src : string) : bool :=
  match src with
  | String c (String d _ as rest) =>
      (Ascii.eqb c "\" && Ascii.eqb d NEWLINE) || escaped_newline rest
  | _ => false
  end.

(** The kinds [nextToken] and [tokenize] build without the keyword table. *)
Definition plain_kinds : list TokenType.t :=
  [ TokenType.IDENTIFIER; TokenType.STRING; TokenType.INTEGER;
    TokenType.FLOAT; TokenType.EqualEqual; TokenType.NotEqual;
    TokenType.GreaterEqual; TokenType.LessEqual; TokenType.FatArrow;
    TokenType.LeftBrace; TokenType.RightBrace; TokenType.LeftParen;
    TokenType.RightParen; TokenType.LeftBracket; TokenType.RightBracket;
    TokenType.Comma; TokenType.Colon; TokenType.Semicolon; TokenType.Dot;
    TokenType.Equal; TokenType.Greater; TokenType.Less; TokenType.EOF ].

Definition is_kind (kinds : list TokenType.t) (type : TokenType.t) : bool :=
  existsb (TokenType.eqb type) kinds.

Definition keyword_kinds : list TokenType.t := map snd keywords.

(** The kinds that can occur in the result of [tokenize]. *)
Definition lexable (type : TokenType.t) : bool :=
  is_kind plain_kinds type || is_kind keyword_kinds type.

(** The operator and punctuation kinds the parser matches on that no branch
    of the lexer builds. *)
Definition unlexed_kinds : list TokenType.t :=
  [ TokenType.Plus; TokenType.Minus; TokenType.Star; TokenType.Slash;
    TokenType.And; TokenType.Or; TokenType.Not; TokenType.Arrow;
    TokenType.DoubleColon; TokenType.ADDRESS_LITERAL ].

(** Every character of the string passes the test. *)
Fixpoint all_chars (f : ascii -> bool) (str : string) : bool :=
  match str with
  | EmptyString => true
  | String c rest => f c && all_chars f rest
  end.

(** The text of a token is the slice of the source between its offsets, the
    quotes of a string literal left out. *)
Definition spelled (src : string) (tk : Token) : Prop :=
  tok_value tk
  = if TokenType.eqb (tok_type tk) TokenType.STRING
    then substring src (tok_start tk + 1) (tok_end tk - 1)
    else substring src (tok_start tk) (tok_end tk).

(** Identifier and keyword kinds follow the keyword table; integer literals
    are digit strings. *)
Definition classified (tk : Token) : Prop :=
  (tok_type tk = TokenType.IDENTIFIER ->
   keywords_get keywords (tok_value tk) = None)
  /\ (is_kind keyword_kinds (tok_type tk) = true ->
      keywords_get keywords (tok_value tk) = Some (tok_type tk))
  /\ (tok_type tk = TokenType.INTEGER ->
      tok_value tk <> EmptyString /\ all_chars isDigit (tok_value tk) = true).

(** Kinds other than the four whose text the lexer classifies. *)
Definition plain_token (ty : TokenType.t) : bool :=
  negb (TokenType.eqb ty TokenType.STRING)
  && negb (TokenType.eqb ty TokenType.IDENTIFIER)
  && negb (TokenType.eqb ty TokenType.INTEGER)
  && negb (is_kind keyword_kinds ty).

(** The token [tk] read from state [s0], leaving state [s']. *)
Definition token_read (s0 : t) (tk : Token) (s' : t) : Prop :=
  input s' = input s0
  /\ tok_start tk = position s0 /\ tok_end tk = position s'
  /\ tok_line tk = line s0 /\ tok_column tk = column s0
  /\ position s0 < position s' <= String.length (input s0)
  /\ spelled (input s0) tk
  /\ (lexable (tok_type tk) = true \/ kept tk = false)
  /\ classified tk
  /\ (escaped_newline (input s0) = false -> tracks s0 -> tracks s').

(** What holds of every token of a token array cut from [src]. *)
Definition token_ok (src : string) (tk : Token) : Prop :=
  tok_start tk <= tok_end tk <= String.length src
  /\ spelled src tk
  /\ lexable (tok_type tk) = true
  /\ classified tk
  /\ (escaped_newline src = false ->
      tok_line tk = 1 + newlines_before src (tok_start tk)).

(** Each token ends before the next one starts. *)
Definition in_order (tokens : list Token) : Prop :=
  StronglySorted (fun a b => tok_end a <= tok_start b) tokens.

End LexemeSpec.

Module LexemeExamples.
Import Lexer.

(** A string literal holding a backslash and a newline, then an identifier
    on the second line. *)
Definition escaped_source : string :=
  String QUOTE (String "\" (String NEWLINE (String QUOTE " x"))).

(** The first characters of the operators [+], [-], [*], [&&] and [||]. *)
Definition operator_chars : list ascii := ["+"; "-"; "*"; "&"; "|"]%char.

End LexemeExamples.

Module ParsedSpec.
Import AST Compiler Parser.

(** The kind of the token under the cursor. *)
Definition cursor_kind (s : t) : option TokenType.t :=
  option_map tok_type (nth_error (tokens s) (current s)).

(** The two shapes of type node that [parseType] builds. *)
Definition built_type (ty : TypeNode) : bool :=
  match ty with
  | PrimitiveType name _ => includes primitive_names name
  | ReferenceType (PrimitiveType _ _) false _ => true
  | _ => false
  end.

(** Every parameter of the constructor generated for the struct is [i32]. *)
Definition lowered_to_i32 (struct : Struct) : Prop :=
  Forall (fun field => field_wasmType field = "i32") (struct_fields struct).

(** The members a parsed contract or impl block is left without. *)
Definition memberless (item : Item) : Prop :=
  match item with
  | ContractItem node =>
      contract_fields node = [] /\ contract_functions node = []
  | ImplItem node => impl_functions node = []
  | _ => True
  end.

Definition struct_lowered_to_i32 (item : Item) : Prop :=
  match item with
  | StructItem node => lowered_to_i32 node
  | _ => True
  end.

End ParsedSpec.

Module RecoverySpec.
Import AST Parser ParserSpec.

(** The three tests of the loop of [synchronize], at cursor [s]: the end of
    input, a semicolon just passed, a keyword of the list ahead. *)
Definition sync_point (s : t) : bool :=
  at_end s
  || match previous_opt s with
     | Some tk => TokenType.eqb (tok_type tk) TokenType.Semicolon
     | None => false
     end
  || match nth_error (tokens s) (current s) with
     | Some tk => starts_declaration (tok_type tk)
     | None => false
     end.

(** The same token array with the cursor at [i]. *)
Definition at_cursor (s : t) (i : nat) : t := mk (tokens s) i.

End RecoverySpec.

Module StructRunSpec.
Import AST Parser ParserSpec ParserRunsSpec.

(** The tokens of one field [name: type], with the comma after it if the
    source has one. *)
Record FieldTokens : Set := mkFieldTokens {
  ft_name : Token;
  ft_colon : Token;
  ft_type : Token;
  ft_comma : option Token
}.

Definition field_tokens (f : FieldTokens) : list Token :=
  ft_name f :: ft_colon f :: ft_type f
    :: match ft_comma f with
       | Some comma => [comma]
       | None => []
       end.

Definition field_shape (f : FieldTokens) : bool :=
  TokenType.eqb (tok_type (ft_name f)) TokenType.IDENTIFIER
  && TokenType.eqb (tok_type (ft_colon f)) TokenType.Colon
  && TokenType.eqb (tok_type (ft_type f)) TokenType.IDENTIFIER
  && match ft_comma f with
     | Some comma => TokenType.eqb (tok_type comma) TokenType.Comma
     | None => true
     end.

(** The node [parseField] builds: its location is that of the type token. *)
Definition field_node (f : FieldTokens) : Field :=
  mkField (identifier_of (ft_name f)) (type_of (ft_type f)) private
    (location_of (ft_type f)).

(** The tokens of [struct name { fields }]. *)
Definition struct_tokens (kw name lbrace : Token) (fields : list FieldTokens)
    (rbrace : Token) : list Token :=
  (kw :: name :: lbrace :: concat (map field_tokens fields) ++ [rbrace])%list.

Definition struct_shape (kw name lbrace : Token) (fields : list FieldTokens)
    (rbrace : Token) : bool :=
  TokenType.eqb (tok_type kw) TokenType.STRUCT
  && TokenType.eqb (tok_type name) TokenType.IDENTIFIER
  && TokenType.eqb (tok_type lbrace) TokenType.LeftBrace
  && forallb field_shape fields
  && TokenType.eqb (tok_type rbrace) TokenType.RightBrace.

Definition struct_node (name : Token) (fields : list FieldTokens)
    (rbrace : Token) : Struct :=
  mkStruct (identifier_of name) [] (map field_node fields) private
    (location_of rbrace).

End StructRunSpec.

Module ParsedExamples.
Import AST Parser StructRunSpec.

(** A [BigInt] that raises on every string; the examples contain no integer
    literal. *)
Definition no_BigInt (str : string) : option Z := None.

Definition eof_token : Token := mkToken TokenType.EOF EmptyString 1 24 23 23.

(** The tokens of [struct P { x: a, y: b }]. *)
Definition point_kw : Token := mkToken TokenType.STRUCT "struct" 1 1 0 6.
Definition point_name : Token := mkToken TokenType.IDENTIFIER "P" 1 8 7 8.
Definition point_lbrace : Token := mkToken TokenType.LeftBrace "{" 1 10 9 10.
Definition point_rbrace : Token := mkToken TokenType.RightBrace "}" 1 23 22 23.

Definition point_fields : list FieldTokens :=
  [ mkFieldTokens (mkToken TokenType.IDENTIFIER "x" 1 12 11 12)
      (mkToken TokenType.Colon ":" 1 13 12 13)
      (mkToken TokenType.IDENTIFIER "a" 1 15 14 15)
      (Some (mkToken TokenType.Comma "," 1 16 15 16));
    mkFieldTokens (mkToken TokenType.IDENTIFIER "y" 1 18 17 18)
      (mkToken TokenType.Colon ":" 1 19 18 19)
      (mkToken TokenType.IDENTIFIER "b" 1 21 20 21)
      None ].

(** The tokens of [contract C { }]. *)
Definition contract_tokens : list Token :=
  [ mkToken TokenType.CONTRACT "contract" 1 1 0 8;
    mkToken TokenType.IDENTIFIER "C" 1 10 9 10;
    mkToken TokenType.LeftBrace "{" 1 12 11 12;
    mkToken TokenType.RightBrace "}" 1 14 13 14 ].

(** The tokens of [struct { x fn], followed by the end of input: the name
    of the struct is missing. *)
Definition broken_tokens : list Token :=
  [ mkToken TokenType.STRUCT "struct" 1 1 0 6;
    mkToken TokenType.LeftBrace "{" 1 8 7 8;
    mkToken TokenType.IDENTIFIER "x" 1 10 9 10;
    mkToken TokenType.FN "fn" 1 12 11 13;
    mkToken TokenType.EOF EmptyString 1 14 13 13 ].

End ParsedExamples.

Module AcceptedSpec.
Import AST Compiler.

(** The structs among the items, in the order of declaration. *)
Fixpoint structs_of (items : list Item) : list Struct :=
  match items with
  | [] => []
  | StructItem struct :: rest => struct :: structs_of rest
  | _ :: rest => structs_of rest
  end.

Definition field_names (struct : Struct) : list string :=
  map (fun f => id_name (field_name f)) (struct_fields struct).

(** A struct with at least one field and no two fields of one name. *)
Definition sound_struct (struct : Struct) : Prop :=
  struct_fields struct <> [] /\ NoDup (field_names struct).

End AcceptedSpec.

(** ** [Map<string, V>], in insertion order

    A JavaScript [Map] iterates in the order in which its keys were first
    inserted; [set] on a key already present keeps the key's place.  A map
    is the list of its entries in that order, no key occurring twice; [set]
    and [delete] keep it so. *)

Module JSMap.

Section Map.

Variable V : Type.

Definition t : Type := list (string * V).

Fixpoint get (m : t) (key : string) : option V :=
  match m with
  | [] => None
  | (k, v) :: rest => if String.eqb k key then Some v else get rest key
  end.

Definition has (m : t) (key : string) : bool :=
  match get m key with
  | Some _ => true
  | None => false
  end.

Fixpoint set (m : t) (key : string) (value : V) : t :=
  match m with
  | [] => [(key, value)]
  | (k, v) :: rest =>
      if String.eqb k key then (k, value) :: rest
      else (k, v) :: set rest key value
  end.

Fixpoint delete (m : t) (key : string) : t :=
  match m with
  | [] => []
  | (k, v) :: rest =>
      if String.eqb k key then rest else (k, v) :: delete rest key
  end.

Definition size (m : t) : nat := List.length m.

Definition keys (m : t) : list string := map fst m.

End Map.

Arguments get {V} m key.
Arguments has {V} m key.
Arguments set {V} m key value.
Arguments delete {V} m key.
Arguments size {V} m.
Arguments keys {V} m.

End JSMap.

(** ** The cache ([class CacheManager])

    The clock is read by [Date.now()]; every method below receives the value
    of each reading it makes as an argument, in milliseconds.  [emit] appends
    to the list of events emitted so far; the calls to the logger leave the
    object alone and are not represented.  [V] is the type of cached values
    and [json_length value] the result of evaluating
    [JSON.stringify(value).length], which raises for a value that
    [JSON.stringify] does not turn into a string. *)

Module CacheManager.

Section Cache.

Variable V : Type.

Variable json_length : V -> Exn + nat.

Record CacheEntry : Type := mkEntry {
  entry_key : string;
  entry_value : V;
  entry_timestamp : Z;
  entry_ttl : Z;
  entry_accessCount : nat;
  entry_lastAccessed : Z
}.

Record CacheStats : Set := mkStats {
  hits : nat;
  misses : nat;
  sets : nat;
  deletes : nat;
  evictions : nat;
  size : nat;
  memoryUsage : nat
}.

Record CacheConfig : Set := mkConfig {
  maxSize : Z;
  defaultTTL : Z;
  cleanupInterval : Z;
  persistToDisk : bool;
  persistPath : string;
  compressionEnabled : bool
}.

(** [Partial<CacheConfig>] *)
Record PartialConfig : Set := mkPartial {
  given_maxSize : option Z;
  given_defaultTTL : option Z;
  given_cleanupInterval : option Z;
  given_persistToDisk : option bool;
  given_persistPath : option string;
  given_compressionEnabled : option bool
}.

Inductive Emitted : Type :=
  | emitted_set (key : string) (value : V)
  | emitted_miss (key : string)
  | emitted_expired (key : string)
  | emitted_hit (key : string)
  | emitted_delete (key : string)
  | emitted_clear (size : nat)
  | emitted_cleanup (expiredCount : nat)
  | emitted_evict (key : string).

Record t : Type := mk {
  cache : JSMap.t CacheEntry;
  stats : CacheStats;
  config : CacheConfig;
  emitted : list Emitted
}.

(** [x || d] on an optional number: [undefined] and [0] give [d]. *)
Definition number_or (x : option Z) (d : Z) : Z :=
  match x with
  | Some v => if (v =? 0)%Z then d else v
  | None => d
  end.

Definition bool_or (x : option bool) (d : bool) : bool :=
  match x with
  | Some v => v || d
  | None => d
  end.

Definition string_or (x : option string) (d : string) : string :=
  match x with
  | Some v => if String.eqb v EmptyString then d else v
  | None => d
  end.

(** The constructor, the timers it starts and the load from disk apart. *)
Definition new (given : PartialConfig) : t :=
  mk []
    (mkStats 0 0 0 0 0 0 0)
    (mkConfig (number_or (given_maxSize given) 10000)
       (number_or (given_defaultTTL given) 3600000)
       (number_or (given_cleanupInterval given) 300000)
       (bool_or (given_persistToDisk given) false)
       (string_or (given_persistPath given) "./cache.json")
       (bool_or (given_compressionEnabled given) false))
    [].

Definition with_cache (f : JSMap.t CacheEntry -> JSMap.t CacheEntry) (s : t)
    : t :=
  mk (f (cache s)) (stats s) (config s) (emitted s).

Definition with_stats (f : CacheStats -> CacheStats) (s : t) : t :=
  mk (cache s) (f (stats s)) (config s) (emitted s).

Definition update (f : t -> t) : M t unit := fun s => Ok tt (f s).

Definition emit (e : Emitted) : M t unit :=
  update (fun s => mk (cache s) (stats s) (config s) (emitted s ++ [e])%list).

Definition estimateEntrySize (entry : CacheEntry) : Exn + nat :=
  let keySize := String.length (entry_key entry) * 2 in
  match json_length (entry_value entry) with
  | inr length => inr (keySize + length * 2 + 64)
  | inl e => inl e
  end.

(** The loop of [updateMemoryUsage] over [this.cache.values()]. *)
Fixpoint totalSize (entries : list (string * CacheEntry)) (acc : nat)
    : Exn + nat :=
  match entries with
  | [] => inr acc
  | (_, entry) :: rest =>
      match estimateEntrySize entry with
      | inr n => totalSize rest (acc + n)
      | inl e => inl e
      end
  end.

Definition updateMemoryUsage : M t unit :=
  fun s =>
    match totalSize (cache s) 0 with
    | inr total =>
        Ok tt (with_stats
                 (fun st => mkStats (hits st) (misses st) (sets st)
                              (deletes st) (evictions st) (size st) total) s)
    | inl e => Throw e s
    end.

(** [this.stats.size = this.cache.size]. *)
Definition syncSize : M t unit :=
  update (fun s =>
            with_stats
              (fun st => mkStats (hits st) (misses st) (sets st) (deletes st)
                           (evictions st) (JSMap.size (cache s))
                           (memoryUsage st)) s).

Definition count_hit : M t unit :=
  update (with_stats
            (fun st => mkStats (S (hits st)) (misses st) (sets st)
                         (deletes st) (evictions st) (size st)
                         (memoryUsage st))).

Definition count_miss : M t unit :=
  update (with_stats
            (fun st => mkStats (hits st) (S (misses st)) (sets st)
                         (deletes st) (evictions st) (size st)
                         (memoryUsage st))).

Definition count_set : M t unit :=
  update (with_stats
            (fun st => mkStats (hits st) (misses st) (S (sets st))
                         (deletes st) (evictions st) (size st)
                         (memoryUsage st))).

Definition count_delete : M t unit :=
  update (with_stats
            (fun st => mkStats (hits st) (misses st) (sets st)
                         (S (deletes st)) (evictions st) (size st)
                         (memoryUsage st))).

Definition count_eviction : M t unit :=
  update (with_stats
            (fun st => mkStats (hits st) (misses st) (sets st) (deletes st)
                         (S (evictions st)) (size st) (memoryUsage st))).

Definition delete (key : string) : M t bool :=
  fun s =>
    let deleted := JSMap.has (cache s) key in
    (let! _ := update (with_cache (fun m => JSMap.delete m key)) in
     if deleted then
       let! _ := count_delete in
       let! _ := syncSize in
       let! _ := updateMemoryUsage in
       let! _ := emit (emitted_delete key) in
       ret true
     else ret false) s.

(** The scan of [evictLRU]: the key and the time of the entry accessed
    longest ago, among those accessed before [oldestTime]. *)
Definition oldest (entries : list (string * CacheEntry))
    (oldestKey : option string) (oldestTime : Z) : option string * Z :=
  fold_left
    (fun '(oldestKey, oldestTime) '(key, entry) =>
       if (entry_lastAccessed entry <? oldestTime)%Z
       then (Some key, entry_lastAccessed entry)
       else (oldestKey, oldestTime))
    entries (oldestKey, oldestTime).

(** The test [if (oldestKey)]: neither [null] nor the empty string. *)
Definition truthy (key : option string) : option string :=
  match key with
  | Some k => if String.eqb k EmptyString then None else Some k
  | None => None
  end.

Definition evictLRU (now : Z) : M t unit :=
  fun s =>
    match truthy (fst (oldest (cache s) None now)) with
    | Some oldestKey =>
        (let! _ := update (with_cache (fun m => JSMap.delete m oldestKey)) in
         let! _ := count_eviction in
         let! _ := syncSize in
         let! _ := updateMemoryUsage in
         emit (emitted_evict oldestKey)) s
    | None => Ok tt s
    end.

Definition set (now evict_now : Z) (key : string) (value : V)
    (ttl : option Z) : M t unit :=
  fun s =>
    let entryTTL := number_or ttl (defaultTTL (config s)) in
    (let! _ :=
       (if (maxSize (config s) <=? Z.of_nat (JSMap.size (cache s)))%Z
           && negb (JSMap.has (cache s) key)
        then evictLRU evict_now else ret tt) in
     let entry := mkEntry key value now entryTTL 0 now in
     let! _ := update (with_cache (fun m => JSMap.set m key entry)) in
     let! _ := count_set in
     let! _ := syncSize in
     let! _ := updateMemoryUsage in
     emit (emitted_set key value)) s.

Definition expired (now : Z) (entry : CacheEntry) : bool :=
  (entry_ttl entry <? now - entry_timestamp entry)%Z.

Definition get (now : Z) (key : string) : M t (option V) :=
  fun s =>
    match JSMap.get (cache s) key with
    | None =>
        (let! _ := count_miss in
         let! _ := emit (emitted_miss key) in
         ret None) s
    | Some entry =>
        if expired now entry then
          (let! _ := delete key in
           let! _ := count_miss in
           let! _ := emit (emitted_miss key) in
           let! _ := emit (emitted_expired key) in
           ret None) s
        else
          (let! _ :=
             update
               (with_cache
                  (fun m =>
                     JSMap.set m key
                       (mkEntry (entry_key entry) (entry_value entry)
                          (entry_timestamp entry) (entry_ttl entry)
                          (S (entry_accessCount entry)) now))) in
           let! _ := count_hit in
           let! _ := emit (emitted_hit key) in
           ret (Some (entry_value entry))) s
    end.

Definition has (now : Z) (key : string) : M t bool :=
  fun s =>
    match JSMap.get (cache s) key with
    | None => Ok false s
    | Some entry =>
        if expired now entry then
          (let! _ := delete key in ret false) s
        else Ok true s
    end.

Definition clear : M t unit :=
  fun s =>
    let size_ := JSMap.size (cache s) in
    (let! _ := update (with_cache (fun _ => [])) in
     let! _ :=
       update (with_stats
                 (fun st => mkStats (hits st) (misses st) (sets st)
                              (deletes st) (evictions st) 0 0)) in
     emit (emitted_clear size_)) s.

(** One iteration of the loop of [cleanup], on the map and [expiredCount]. *)
Definition sweep_step (now : Z) (acc : JSMap.t CacheEntry * nat)
    (p : string * CacheEntry) : JSMap.t CacheEntry * nat :=
  let '(kept, expiredCount) := acc in
  let '(key, entry) := p in
  if expired now entry then (JSMap.delete kept key, S expiredCount)
  else (kept, expiredCount).

(** The loop of [cleanup]: the entries that stay, and [expiredCount]. *)
Definition sweep (now : Z) (entries : JSMap.t CacheEntry)
    : JSMap.t CacheEntry * nat :=
  fold_left (sweep_step now) entries (entries, 0).

Definition cleanup (now : Z) : M t unit :=
  fun s =>
    let '(kept, expiredCount) := sweep now (cache s) in
    (let! _ := update (with_cache (fun _ => kept)) in
     if 0 <? expiredCount then
       let! _ := syncSize in
       let! _ := updateMemoryUsage in
       emit (emitted_cleanup expiredCount)
     else ret tt) s.

(** The keys of the typed caches. *)
Definition blockKey (chainId : string) (blockNumber : nat) : string :=
  "block:" ++ chainId ++ ":" ++ string_of_nat blockNumber.

Definition cacheBlock (now evict_now : Z) (chainId : string)
    (blockNumber : nat) (blockData : V) (ttl : option Z) : M t unit :=
  set now evict_now (blockKey chainId blockNumber) blockData ttl.

Definition getCachedBlock (now : Z) (chainId : string) (blockNumber : nat)
    : M t (option V) :=
  get now (blockKey chainId blockNumber).

Definition transactionKey (chainId txHash : string) : string :=
  "tx:" ++ chainId ++ ":" ++ txHash.

Definition cacheTransaction (now evict_now : Z) (chainId txHash : string)
    (txData : V) (ttl : option Z) : M t unit :=
  set now evict_now (transactionKey chainId txHash) txData ttl.

Definition getCachedTransaction (now : Z) (chainId txHash : string)
    : M t (option V) :=
  get now (transactionKey chainId txHash).

Definition indexKey (indexName key : string) : string :=
  "index:" ++ indexName ++ ":" ++ key.

Definition cacheIndexData (now evict_now : Z) (indexName key : string)
    (data : V) (ttl : option Z) : M t unit :=
  set now evict_now (indexKey indexName key) data ttl.

Definition getCachedIndexData (now : Z) (indexName key : string)
    : M t (option V) :=
  get now (indexKey indexName key).

End Cache.

Arguments mkEntry {V} _ _ _ _ _ _.
Arguments entry_key {V} _.
Arguments entry_value {V} _.
Arguments entry_timestamp {V} _.
Arguments entry_ttl {V} _.
Arguments entry_accessCount {V} _.
Arguments entry_lastAccessed {V} _.
Arguments emitted_set {V} _ _.
Arguments emitted_miss {V} _.
Arguments emitted_expired {V} _.
Arguments emitted_hit {V} _.
Arguments emitted_delete {V} _.
Arguments emitted_clear {V} _.
Arguments emitted_cleanup {V} _.
Arguments emitted_evict {V} _.
Arguments mk {V} _ _ _ _.
Arguments cache {V} _.
Arguments stats {V} _.
Arguments config {V} _.
Arguments emitted {V} _.
Arguments new {V} _.
Arguments with_cache {V} _ _.
Arguments with_stats {V} _ _.
Arguments update {V} _ _.
Arguments emit {V} _ _.
Arguments estimateEntrySize {V} _ _.
Arguments totalSize {V} _ _ _.
Arguments updateMemoryUsage {V} _ _.
Arguments syncSize {V} _.
Arguments count_hit {V} _.
Arguments count_miss {V} _.
Arguments count_set {V} _.
Arguments count_delete {V} _.
Arguments count_eviction {V} _.
Arguments delete {V} _ _ _.
Arguments oldest {V} _ _ _.
Arguments evictLRU {V} _ _ _.
Arguments set {V} _ _ _ _ _ _ _.
Arguments expired {V} _ _.
Arguments get {V} _ _ _ _.
Arguments has {V} _ _ _ _.
Arguments clear {V} _.
Arguments sweep_step {V} _ _ _.
Arguments sweep {V} _ _.
Arguments cleanup {V} _ _ _.
Arguments cacheBlock {V} _ _ _ _ _ _ _ _.
Arguments getCachedBlock {V} _ _ _ _ _.
Arguments cacheTransaction {V} _ _ _ _ _ _ _ _.
Arguments getCachedTransaction {V} _ _ _ _ _.
Arguments cacheIndexData {V} _ _ _ _ _ _ _ _.
Arguments getCachedIndexData {V} _ _ _ _ _.

End CacheManager.

Module CacheSpec.
Import CacheManager.

Section Spec.

Context {V : Type}.

Variable json_length : V -> Exn + nat.

(** Each key occurs once, and every entry is stored under its own key. *)
Definition well_formed (s : t V) : Prop :=
  NoDup (JSMap.keys (cache s))
  /\ Forall (fun p => entry_key (snd p) = fst p) (cache s).

(** The two derived counters agree with the map. *)
Definition consistent (s : t V) : Prop :=
  size (stats s) = JSMap.size (cache s)
  /\ totalSize json_length (cache s) 0 = inr (memoryUsage (stats s)).

(** The size of every stored value can be estimated. *)
Definition sizable (m : JSMap.t (CacheEntry V)) : Prop :=
  Forall (fun p => exists n, estimateEntrySize json_length (snd p) = inr n) m.

(** The time to live [set] gives an entry. *)
Definition lifetime (ttl : option Z) (s : t V) : Z :=
  number_or ttl (defaultTTL (config s)).

(** Calls of the public methods, and of [cleanup] by its timer. *)
Inductive Call : Type :=
  | call_set (now evict_now : Z) (key : string) (value : V) (ttl : option Z)
  | call_get (now : Z) (key : string)
  | call_has (now : Z) (key : string)
  | call_delete (key : string)
  | call_clear
  | call_cleanup (now : Z).

Definition perform (call : Call) : M (t V) unit :=
  match call with
  | call_set now evict_now key value ttl =>
      set json_length now evict_now key value ttl
  | call_get now key => let! _ := get json_length now key in ret tt
  | call_has now key => let! _ := has json_length now key in ret tt
  | call_delete key => let! _ := delete json_length key in ret tt
  | call_clear => clear
  | call_cleanup now => cleanup json_length now
  end.

Fixpoint run (calls : list Call) : M (t V) unit :=
  match calls with
  | [] => ret tt
  | call :: rest => let! _ := perform call in run rest
  end.

Definition is_get (call : Call) : bool :=
  match call with
  | call_get _ _ => true
  | _ => false
  end.

Definition is_set (call : Call) : bool :=
  match call with
  | call_set _ _ _ _ _ => true
  | _ => false
  end.

Definition alive (now : Z) (p : string * CacheEntry V) : bool :=
  negb (expired now (snd p)).

End Spec.

End CacheSpec.

Module KeySpec.

(** The string has no colon. *)
Fixpoint colon_free (str : string) : bool :=
  match str with
  | EmptyString => true
  | String c rest => negb (Ascii.eqb c ":") && colon_free rest
  end.

End KeySpec.

Module CacheExamples.
Import CacheManager CacheSpec.

(** Values whose JSON text has one character. *)
Definition unit_length (value : nat) : Exn + nat := inr 1.

(** [0] stands for a value [JSON.stringify] raises on. *)
Definition failing_length (value : nat) : Exn + nat :=
  match value with
  | O => inl (TypeError "Do not know how to serialize a BigInt")
  | S _ => inr 1
  end.

(** A cache for one entry. *)
Definition small : t nat := new (mkPartial (Some 1%Z) None None None None None).

(** [small] after [set('a', 7)] at time [0]. *)
Definition one_entry : t nat :=
  mk [("a", mkEntry "a" 7 0 3600000 0 0)] (mkStats 0 0 1 0 0 1 68)
    (config small) [emitted_set "a" 7].


(** [one_entry] after [set('b', 8)] at time [0]. *)
Definition two_entries : t nat :=
  mk [("a", mkEntry "a" 7 0 3600000 0 0); ("b", mkEntry "b" 8 0 3600000 0 0)]
    (mkStats 0 0 2 0 0 2 136) (config small)
    [emitted_set "a" 7; emitted_set "b" 8].

(** [two_entries] after [evictLRU] at time [1]. *)
Definition evicted : t nat :=
  mk [("b", mkEntry "b" 8 0 3600000 0 0)] (mkStats 0 0 2 0 1 1 68)
    (config small) [emitted_set "a" 7; emitted_set "b" 8; emitted_evict "a"].

(** A [set], a hit, a miss and a sweep after both entries have expired. *)
Definition session : list (Call (V:=nat)) :=
  [ call_set 0 0 "a" 7 None; call_get 1 "a"; call_get 2 "b";
    call_set 3 3 "b" 8 (Some 10%Z); call_cleanup 4000000 ].

(** [small] after [session]. *)
Definition after_session : t nat :=
  mk [] (mkStats 1 1 2 0 1 0 0) (config small)
    [ emitted_set "a" 7; emitted_hit "a"; emitted_miss "b";
      emitted_evict "a"; emitted_set "b" 8; emitted_cleanup 1 ].

(** [two_entries] after [cleanup] at time [3600001]. *)
Definition swept : t nat :=
  mk [] (mkStats 0 0 2 0 0 0 0) (config small)
    [emitted_set "a" 7; emitted_set "b" 8; emitted_cleanup 2].

End CacheExamples.

(** ** JavaScript numbers ([number])

    The values of the metrics are IEEE 754 doubles.  Every finite double is
    a whole multiple of [2^-1074], the smallest positive one, and is kept as
    that multiple: the doubles are the multiples with a significand of at
    most 53 bits, below [2^1024].  The two zeros are one.  A sum or a
    difference is the exact one rounded to the nearest double, a tie to the
    even significand, and an infinity from [2^1024] on. *)

Module Number.

Inductive t :=
| NaN
| Infinity (negative : bool)
| Finite (n : Z).

(** The number [1], and [2^1024], as multiples of [2^-1074]. *)
Definition one : Z := (2 ^ 1074)%Z.

Definition huge : Z := (2 ^ 2098)%Z.

(** Rounding to a significand of 53 bits: below [2^53] every multiple is a
    double (the subnormal doubles and the first binade); from there on the
    last [k] bits are rounded away. *)
Definition round53 (n : Z) : Z :=
  let a := Z.abs n in
  if (a <? 2 ^ 53)%Z then n
  else
    let k := (Z.log2 a - 52)%Z in
    let q := (a / 2 ^ k)%Z in
    let r := (a mod 2 ^ k)%Z in
    let half := (2 ^ (k - 1))%Z in
    let q' :=
      if (r <? half)%Z then q
      else if (half <? r)%Z then (q + 1)%Z
      else if Z.even q then q else (q + 1)%Z in
    (Z.sgn n * (q' * 2 ^ k))%Z.

Definition round (n : Z) : t :=
  let r := round53 n in
  if (huge <=? Z.abs r)%Z then Infinity (r <? 0)%Z else Finite r.

(** The double nearest to an integer: a number literal. *)
Definition of_Z (z : Z) : t := round (z * one).

Definition zero : t := Finite 0.

(** [x + y] *)
Definition add (x y : t) : t :=
  match x, y with
  | NaN, _ | _, NaN => NaN
  | Infinity a, Infinity b => if Bool.eqb a b then Infinity a else NaN
  | Infinity a, Finite _ | Finite _, Infinity a => Infinity a
  | Finite a, Finite b => round (a + b)
  end.

Definition opp (x : t) : t :=
  match x with
  | NaN => NaN
  | Infinity a => Infinity (negb a)
  | Finite n => Finite (- n)
  end.

(** [x - y] *)
Definition sub (x y : t) : t := add x (opp y).

(** [x < y]: false when either is [NaN]. *)
Definition ltb (x y : t) : bool :=
  match x, y with
  | NaN, _ | _, NaN => false
  | Infinity a, Infinity b => a && negb b
  | Infinity a, Finite _ => a
  | Finite _, Infinity b => negb b
  | Finite a, Finite b => (a <? b)%Z
  end.

(** [Math.max(x, y)] *)
Definition max (x y : t) : t :=
  match x, y with
  | NaN, _ | _, NaN => NaN
  | _, _ => if ltb x y then y else x
  end.

(** [ToBoolean]: [0] and [NaN] are falsy. *)
Definition truthy (x : t) : bool :=
  match x with
  | NaN => false
  | Infinity _ => true
  | Finite n => negb (n =? 0)%Z
  end.

(** The values of the model that are doubles. *)
Definition is_double (x : t) : bool :=
  match x with
  | Finite n => (round53 n =? n)%Z && (Z.abs n <? huge)%Z
  | _ => true
  end.

(** [x <= y], for numbers that are not [NaN]. *)
Definition le (x y : t) : Prop := ltb y x = false.

End Number.

(** ** The metrics collector ([class MetricsCollector])

    The methods modelled are those that keep the timers, counters, gauges,
    histograms and the metric log; they touch no other field of the object.
    Values are numbers.  Times are readings of [Date.now()], integers of
    at most [8.64e15] in magnitude, whose differences are exact; every
    reading is an argument of the method that makes it. *)

Module MetricsCollector.

Definition Labels := option (list (string * string)).

Record Metric := mkMetric {
  metric_name : string;
  metric_value : Number.t;
  metric_timestamp : Z;
  metric_labels : Labels
}.

Record t := mk {
  metrics : JSMap.t (list Metric);
  timers : JSMap.t Z;
  counters : JSMap.t Number.t;
  gauges : JSMap.t Number.t;
  histograms : JSMap.t (list Number.t);
  (** the arguments of [this.emit('metricRecorded', metric)], in order *)
  emitted : list Metric
}.

Definition new : t := mk [] [] [] [] [] [].

(** [this.retentionPeriod], 24 hours in milliseconds *)
Definition retentionPeriod : Z := (24 * 60 * 60 * 1000)%Z.

(** [map.get(name) || []] *)
Definition get_or_empty {A} (m : JSMap.t (list A)) (name : string) : list A :=
  match JSMap.get m name with
  | Some values => values
  | None => []
  end.

(** [map.get(name) || 0]: a missing counter, a counter at [0] and a counter
    that is [NaN] read [0]. *)
Definition get_or_zero (m : JSMap.t Number.t) (name : string) : Number.t :=
  match JSMap.get m name with
  | Some value => if Number.truthy value then value else Number.zero
  | None => Number.zero
  end.

Definition recordMetric (now : Z) (name : string) (value : Number.t)
    (labels : Labels) (s : t) : t :=
  let metric := mkMetric name value now labels in
  let metrics_ := (get_or_empty (metrics s) name ++ [metric])%list in
  mk (JSMap.set (metrics s) name metrics_) (timers s) (counters s) (gauges s)
    (histograms s) (emitted s ++ [metric])%list.

Definition recordHistogram (now : Z) (name : string) (value : Number.t)
    (labels : Labels) (s : t) : t :=
  let values := (get_or_empty (histograms s) name ++ [value])%list in
  recordMetric now name value labels
    (mk (metrics s) (timers s) (counters s) (gauges s)
       (JSMap.set (histograms s) name values) (emitted s)).

Definition recordGauge (now : Z) (name : string) (value : Number.t)
    (labels : Labels) (s : t) : t :=
  recordMetric now name value labels
    (mk (metrics s) (timers s) (counters s) (JSMap.set (gauges s) name value)
       (histograms s) (emitted s)).

(** The default [value: number = 1] of the counter methods. *)
Definition or_one (value : option Number.t) : Number.t :=
  match value with
  | Some v => v
  | None => Number.of_Z 1
  end.

Definition incrementCounter (now : Z) (name : string)
    (value : option Number.t) (labels : Labels) (s : t) : t :=
  let current := get_or_zero (counters s) name in
  let next := Number.add current (or_one value) in
  recordMetric now name next labels
    (mk (metrics s) (timers s) (JSMap.set (counters s) name next) (gauges s)
       (histograms s) (emitted s)).

Definition decrementCounter (now : Z) (name : string)
    (value : option Number.t) (labels : Labels) (s : t) : t :=
  let current := get_or_zero (counters s) name in
  let next := Number.max Number.zero (Number.sub current (or_one value)) in
  recordMetric now name next labels
    (mk (metrics s) (timers s) (JSMap.set (counters s) name next) (gauges s)
       (histograms s) (emitted s)).

Definition startTimer (now : Z) (name : string) (s : t) : t :=
  mk (metrics s) (JSMap.set (timers s) name now) (counters s) (gauges s)
    (histograms s) (emitted s).

(** [endTimer]: the duration returned and the state left.  The first clock
    reading is that of [endTimer], the second that of [recordMetric]. *)
Definition endTimer (now record_now : Z) (name : string) (labels : Labels)
    (s : t) : Z * t :=
  match JSMap.get (timers s) name with
  | None => (0%Z, s)
  | Some startTime =>
      if (startTime =? 0)%Z then (0%Z, s)
      else
        let duration := (now - startTime)%Z in
        let s1 :=
          mk (metrics s) (JSMap.delete (timers s) name) (counters s)
            (gauges s) (histograms s) (emitted s) in
        (duration,
         recordHistogram record_now name (Number.of_Z duration) labels s1)
  end.

(** [Array.prototype.sort] with the comparator [(a, b) => a - b]: [a] goes
    after [b] when [a - b > 0].  On an array without [NaN] the comparator is
    consistent and the result is the numbers in ascending order.  With a
    [NaN] in the array the comparator is not consistent and the order is
    left to the implementation; what is returned is a permutation still. *)
Fixpoint insert_ascending (x : Number.t) (l : list Number.t)
    : list Number.t :=
  match l with
  | [] => [x]
  | y :: rest =>
      if Number.ltb Number.zero (Number.sub x y)
      then y :: insert_ascending x rest
      else x :: l
  end.

Definition sort_ascending (l : list Number.t) : list Number.t :=
  fold_right insert_ascending [] l.

(** The result of [getHistogramStats].  An element read by index is [None]
    where JavaScript gives [undefined]; [avg] is kept as the sum and the
    count it is the quotient of. *)
Record HistogramStats := mkHistogramStats {
  stats_count : nat;
  stats_min : option Number.t;
  stats_max : option Number.t;
  stats_avg : Number.t * nat;
  stats_p95 : option Number.t;
  stats_p99 : option Number.t
}.

(** [Math.floor(count * 0.95)] and [Math.floor(count * 0.99)]: for every
    array length the double-precision product, floored, is the integer
    quotient below. *)
Definition floor_95 (count : nat) : nat := (count * 95) / 100.

Definition floor_99 (count : nat) : nat := (count * 99) / 100.

(** [values.reduce((sum, val) => sum + val, 0)] *)
Definition sum (values : list Number.t) : Number.t :=
  fold_left Number.add values Number.zero.

Definition getHistogramStats (name : string) (s : t) : option HistogramStats :=
  match JSMap.get (histograms s) name with
  | None => None
  | Some values =>
      if Nat.eqb (List.length values) 0 then None
      else
        let sorted := sort_ascending values in
        let count := List.length sorted in
        Some (mkHistogramStats count
                (nth_error sorted 0)
                (nth_error sorted (count - 1))
                (sum sorted, count)
                (nth_error sorted (floor_95 count))
                (nth_error sorted (floor_99 count)))
  end.

(** [values.slice(-n)]: the last [n] elements. *)
Definition slice_last {A} (n : nat) (values : list A) : list A :=
  skipn (List.length values - n) values.

(** [cleanupOldMetrics]: both loops replace values under keys that exist,
    which leaves the order of the keys alone. *)
Definition cleanupOldMetrics (now : Z) (s : t) : t :=
  let cutoff := (now - retentionPeriod)%Z in
  let metrics_ :=
    map (fun '(name, list_) =>
           (name, filter (fun m => (cutoff <=? metric_timestamp m)%Z) list_))
      (metrics s) in
  let histograms_ :=
    map (fun '(name, values) =>
           (name,
            if (10000 <? Z.of_nat (List.length values))%Z then slice_last 5000 values
            else values))
      (histograms s) in
  mk metrics_ (timers s) (counters s) (gauges s) histograms_ (emitted s).

(** [getMetrics]: [since] filters unless it is [undefined] or [0]. *)
Definition getMetrics (name : option string) (since : option Z) (s : t)
    : list Metric :=
  let selected :=
    match name with
    | Some n =>
        if String.eqb n EmptyString then concat (map snd (metrics s))
        else get_or_empty (metrics s) n
    | None => concat (map snd (metrics s))
    end in
  match since with
  | Some t0 =>
      if (t0 =? 0)%Z then selected
      else filter (fun m => (t0 <=? metric_timestamp m)%Z) selected
  | None => selected
  end.

End MetricsCollector.

(** ** Metrics: vocabulary of the properties *)

Module MetricsSpec.
Import MetricsCollector.

(** The sum of integers. *)
Definition total (zs : list Z) : Z := fold_right Z.add 0%Z zs.

Definition not_NaN (x : Number.t) : Prop := x <> Number.NaN.

(** What a counter that was set to [value] reads: [value || 0]. *)
Definition settled (value : Number.t) : Number.t :=
  if Number.truthy value then value else Number.zero.

(** A counter at [2^53]. *)
Definition at_2_53 : t :=
  incrementCounter 0 "blocks" (Some (Number.of_Z (2 ^ 53))) None new.

(** A histogram of the samples [1e16], [-1e16] and [1]. *)
Definition cancelling : t :=
  recordHistogram 3 "delta" (Number.of_Z 1) None
    (recordHistogram 2 "delta" (Number.of_Z (- 10 ^ 16)) None
       (recordHistogram 1 "delta" (Number.of_Z (10 ^ 16)) None new)).

End MetricsSpec.

(** ** Token kinds: deciding equality *)

Module TokenTypeFacts.
Import TokenType.

Lemma eqb_eq a b : eqb a b = true <-> a = b.
Proof.
  unfold eqb. rewrite Pos.eqb_eq. split; [|congruence].
  destruct a; destruct b; simpl; intros H; first [reflexivity|discriminate H].
Qed.

Lemma eqb_refl a : eqb a a = true.
Proof. apply eqb_eq; reflexivity. Qed.

Lemma eqb_neq a b : eqb a b = false <-> a <> b.
Proof.
  rewrite <- eqb_eq. destruct (eqb a b); split; congruence.
Qed.

End TokenTypeFacts.

(** ** Lexer: progress and totality *)

Module LexerFacts.
Import Lexer LexerSpec.

Lemma scan_refl s : later s s.
Proof. split; [reflexivity | lia]. Qed.

Lemma scan_trans s1 s2 s3 : later s1 s2 -> later s2 s3 -> later s1 s3.
Proof. intros [H1 H2] [H3 H4]. split; [congruence | lia]. Qed.

Lemma scan_remaining s s' : later s s' -> remaining s' <= remaining s.
Proof. intros [H1 H2]. unfold remaining. rewrite H1. lia. Qed.

Lemma lexer_isAtEnd_false s : isAtEnd s = false <-> position s < String.length (input s).
Proof. unfold isAtEnd. rewrite Nat.leb_gt. reflexivity. Qed.

Lemma advance_scan s : later s (snd (advance s)).
Proof.
  unfold advance. destruct (isAtEnd s); simpl.
  - apply scan_refl.
  - split; simpl; [reflexivity | lia].
Qed.

Lemma advance_step s :
  isAtEnd s = false -> position (snd (advance s)) = S (position s).
Proof. intros H. unfold advance. rewrite H. reflexivity. Qed.

Lemma peek_at_end s : isAtEnd s = true -> peek s = NUL.
Proof. intros H. unfold peek. rewrite H. reflexivity. Qed.

Lemma advanceWhile_total cond fuel s :
  stops_at_end cond -> remaining s < fuel ->
  exists s', advanceWhile cond fuel s = Ok tt s' /\ later s s'
             /\ cond s' = false.
Proof.
  intros Hc. revert s. induction fuel as [|fuel IH]; intros s Hf; [lia|].
  simpl. destruct (cond s) eqn:E.
  - pose proof (Hc _ E) as He.
    pose proof (advance_scan s) as Hl. pose proof (advance_step s He) as Hs.
    destruct (IH (snd (advance s))) as (s' & H1 & H2 & H3).
    + apply lexer_isAtEnd_false in He. destruct Hl as [Hi _].
      unfold remaining in *. rewrite Hi, Hs. lia.
    + exists s'. split; [exact H1|]. split; [|exact H3].
      eapply scan_trans; eassumption.
  - exists s. split; [reflexivity|]. split; [apply scan_refl | exact E].
Qed.

(** When the guard holds initially the loop consumes at least one character. *)
Lemma advanceWhile_progress cond fuel s s' :
  stops_at_end cond -> cond s = true ->
  advanceWhile cond fuel s = Ok tt s' -> remaining s < fuel ->
  position s < position s'.
Proof.
  intros Hc E H Hf. destruct fuel as [|fuel]; [discriminate|].
  simpl in H. rewrite E in H.
  pose proof (Hc _ E) as He. pose proof (advance_step s He) as Hs.
  destruct (advanceWhile_total cond fuel (snd (advance s)) Hc) as (s2 & H1 & H2 & _).
  - pose proof (advance_scan s) as [Hi _]. apply lexer_isAtEnd_false in He.
    unfold remaining in *. rewrite Hi, Hs. lia.
  - rewrite H in H1. injection H1 as <-. destruct H2 as [_ H2]. lia.
Qed.

Lemma whitespace_stops :
  stops_at_end (fun s => let char := peek s in
     Ascii.eqb char " " || Ascii.eqb char (ascii_of_nat 13)
     || Ascii.eqb char (ascii_of_nat 9)).
Proof.
  intros s H. destruct (isAtEnd s) eqn:E; [|reflexivity].
  rewrite (peek_at_end s E) in H. discriminate H.
Qed.

Lemma digit_stops : stops_at_end (fun s => isDigit (peek s)).
Proof.
  intros s H. destruct (isAtEnd s) eqn:E; [|reflexivity].
  rewrite (peek_at_end s E) in H. discriminate H.
Qed.

Lemma hex_stops : stops_at_end (fun s => isHexDigit (peek s)).
Proof.
  intros s H. destruct (isAtEnd s) eqn:E; [|reflexivity].
  rewrite (peek_at_end s E) in H. discriminate H.
Qed.

Lemma ident_stops :
  stops_at_end (fun s => isAlphaNumeric (peek s) || Ascii.eqb (peek s) "_").
Proof.
  intros s H. destruct (isAtEnd s) eqn:E; [|reflexivity].
  rewrite (peek_at_end s E) in H. discriminate H.
Qed.

Lemma comment_stops :
  stops_at_end (fun s => negb (Ascii.eqb (peek s) NEWLINE) && negb (isAtEnd s)).
Proof.
  intros s H. apply andb_true_iff in H as [_ H].
  apply negb_true_iff in H. exact H.
Qed.

Lemma readString_loop_total quote fuel s :
  remaining s < fuel ->
  exists s', readString_loop quote fuel s = Ok tt s' /\ later s s'.
Proof.
  revert s. induction fuel as [|fuel IH]; intros s Hf; [lia|].
  simpl.
  destruct (negb (Ascii.eqb (peek s) quote) && negb (isAtEnd s)) eqn:E.
  - apply andb_true_iff in E as [_ E]. apply negb_true_iff in E.
    set (s1 := if Ascii.eqb (peek s) NEWLINE
               then mk (input s) (position s) (S (line s)) 1 else s).
    assert (H1 : input s1 = input s /\ position s1 = position s).
    { unfold s1. destruct (Ascii.eqb (peek s) NEWLINE); split; reflexivity. }
    assert (E1 : isAtEnd s1 = false).
    { unfold isAtEnd in *. destruct H1 as [-> ->]. exact E. }
    set (s2 := if Ascii.eqb (peek s1) "\" then snd (advance s1) else s1).
    assert (H2 : later s1 s2).
    { unfold s2. destruct (Ascii.eqb (peek s1) "\");
        [apply advance_scan | apply scan_refl]. }
    assert (H3 : position s < position (snd (advance s2))).
    { unfold s2 in *. destruct (Ascii.eqb (peek s1) "\").
      - pose proof (advance_step s1 E1).
        pose proof (advance_scan (snd (advance s1))) as [_ ?].
        destruct H1. lia.
      - rewrite (advance_step s1 E1). destruct H1. lia. }
    assert (H4 : later s (snd (advance s2))).
    { pose proof (advance_scan s2) as [Ha Hb]. destruct H2 as [Hc Hd].
      destruct H1 as [He Hg]. split; [congruence | lia]. }
    destruct (IH (snd (advance s2))) as (s' & Hr & Hl).
    + destruct H4 as [Hi _]. apply lexer_isAtEnd_false in E.
      unfold remaining in *. rewrite Hi. lia.
    + exists s'. split; [exact Hr|]. eapply scan_trans; eassumption.
  - exists s. split; [reflexivity | apply scan_refl].
Qed.

Lemma scan_set_line s s' l k :
  later s s' -> later s (mk (input s') (position s') l k).
Proof. intros [H1 H2]. split; simpl; assumption. Qed.

Lemma nextToken_total fuel s :
  remaining s < fuel -> token_step s (nextToken fuel s).
Proof.
  intros Hf. unfold nextToken, bind, skipWhitespace.
  destruct (advanceWhile_total _ fuel s whitespace_stops Hf) as (s0 & Hr0 & Hl0 & _).
  cbv zeta in Hr0. rewrite Hr0. clear Hr0.
  destruct (isAtEnd s0) eqn:End0.
  { simpl. split; [exact Hl0|]. intros E.
    apply lexer_isAtEnd_false in E. unfold isAtEnd in End0.
    apply Nat.leb_le in End0. destruct Hl0 as [Hi Hp]. rewrite Hi in End0. lia. }
  assert (Hf0 : remaining s0 < fuel)
    by (pose proof (scan_remaining _ _ Hl0); lia).
  pose proof (advance_scan s0) as Ha0.
  pose proof (advance_step s0 End0) as Hs0.
  assert (Hf1 : remaining (snd (advance s0)) < fuel)
    by (pose proof (scan_remaining _ _ Ha0); lia).
  assert (Hstep : forall s', later s0 s' -> position s0 < position s' ->
            later s s' /\ (isAtEnd s = false -> position s < position s')).
  { intros s' H1 H2. split; [eapply scan_trans; eassumption|].
    intros _. destruct Hl0 as [_ ?]. lia. }
  destruct (Ascii.eqb (peek s0) "/" && Ascii.eqb (peekNext s0) "/") eqn:Ecom.
  { unfold readComment, bind, ret.
    destruct (advanceWhile_total _ fuel s0 comment_stops Hf0) as (s' & Hr & Hl & _).
    rewrite Hr. simpl. apply Hstep; [exact Hl|].
    eapply advanceWhile_progress; [apply comment_stops| |exact Hr|exact Hf0].
    apply andb_true_iff in Ecom as [Ec _]. apply Ascii.eqb_eq in Ec.
    rewrite Ec, End0. reflexivity. }
  destruct (Ascii.eqb (peek s0) QUOTE || Ascii.eqb (peek s0) "'") eqn:Estr.
  { unfold readString, bind, ret.
    destruct (advance s0) as [quote s1] eqn:Eadv. simpl in Ha0, Hs0, Hf1.
    destruct (readString_loop_total quote fuel _ Hf1) as (s2 & -> & Hl2).
    destruct (isAtEnd s2); simpl.
    - right. eauto.
    - pose proof (advance_scan s2) as Hl3.
      apply Hstep.
      + eapply scan_trans; [exact Ha0|]. eapply scan_trans; eassumption.
      + destruct Hl2 as [_ ?]. destruct Hl3 as [_ ?]. lia. }
  destruct (isDigit (peek s0)) eqn:Edig.
  { unfold readNumber, bind, ret.
    destruct (advanceWhile_total _ fuel s0 digit_stops Hf0) as (s1 & Hr & Hl1 & _).
    rewrite Hr.
    assert (Hp1 : position s0 < position s1).
    { eapply advanceWhile_progress; [apply digit_stops|exact Edig|exact Hr|exact Hf0]. }
    destruct (Ascii.eqb (peek s1) "." && isDigit (peekNext s1)).
    - pose proof (advance_scan s1) as Hl2.
      destruct (advanceWhile_total _ fuel (snd (advance s1)) digit_stops)
        as (s3 & -> & Hl3 & _).
      + pose proof (scan_remaining _ _ Hl1).
        pose proof (scan_remaining _ _ Hl2). lia.
      + simpl. apply Hstep.
        * eapply scan_trans; [exact Hl1|]. eapply scan_trans; eassumption.
        * destruct Hl2 as [_ ?]. destruct Hl3 as [_ ?]. lia.
    - simpl. apply Hstep; assumption. }
  destruct (Ascii.eqb (peek s0) "0" && Ascii.eqb (peekNext s0) "x") eqn:Eadr.
  { unfold readAddressLiteral, bind, ret.
    pose proof (advance_scan (snd (advance s0))) as Hl2.
    destruct (advanceWhile_total _ fuel (snd (advance (snd (advance s0)))) hex_stops)
      as (s3 & -> & Hl3 & _).
    - pose proof (scan_remaining _ _ Hl2). lia.
    - simpl. apply Hstep.
      + eapply scan_trans; [exact Ha0|]. eapply scan_trans; eassumption.
      + destruct Hl2 as [_ ?]. destruct Hl3 as [_ ?]. lia. }
  destruct (isAlpha (peek s0) || Ascii.eqb (peek s0) "_") eqn:Eid.
  { unfold readIdentifier, bind, ret.
    destruct (advanceWhile_total _ fuel s0 ident_stops Hf0) as (s1 & Hr & Hl1 & _).
    rewrite Hr. simpl. apply Hstep; [exact Hl1|].
    eapply advanceWhile_progress; [apply ident_stops| |exact Hr|exact Hf0].
    simpl. unfold isAlphaNumeric.
    apply orb_true_iff in Eid as [-> | ->]; [reflexivity|].
    apply orb_true_r. }
  assert (Htwo : forall ty lexeme,
    token_step s (let s2 := snd (advance (snd (advance s0))) in
                  Ok (Some (makeToken ty lexeme (position s0) (line s0)
                              (column s0) s2)) s2)).
  { intros ty lexeme. simpl.
    pose proof (advance_scan (snd (advance s0))) as Hl2.
    apply Hstep; [eapply scan_trans; eassumption|].
    destruct Hl2 as [_ ?]. lia. }
  repeat match goal with
         | |- token_step _ (if ?c then _ else _) =>
             destruct c; [apply Htwo|]
         end.
  destruct (advance s0) as [singleChar s1] eqn:Eadv. simpl in Ha0, Hs0, Hf1.
  assert (Hone : later s0 s1 /\ position s0 < position s1).
  { split; [exact Ha0 | lia]. }
  destruct Hone as [Hone1 Hone2].
  repeat match goal with
         | |- token_step _ (if ?c then _ else _) =>
             destruct c; [simpl; apply Hstep; assumption|]
         end.
  destruct (Ascii.eqb singleChar NEWLINE).
  - apply (Hstep (mk (input s1) (position s1) (S (line s1)) 1));
      [apply scan_set_line; exact Hone1 | simpl; exact Hone2].
  - simpl. left. eauto.
Qed.

Lemma kept_clean tk : kept tk = true <-> clean tk.
Proof.
  unfold kept, clean. rewrite !andb_true_iff, !negb_true_iff.
  rewrite !TokenTypeFacts.eqb_neq. tauto.
Qed.

Lemma tokenize_loop_total fuel tokens s :
  remaining s + 2 <= fuel -> Forall clean tokens ->
  token_stream s (tokenize_loop fuel tokens s).
Proof.
  revert tokens s. induction fuel as [|fuel IH]; intros tokens s Hf Hc; [lia|].
  simpl. destruct (isAtEnd s) eqn:End; simpl.
  - split; [apply scan_refl|]. split; [exact End|]. exists tokens. auto.
  - unfold bind.
    assert (Hn : remaining s < fuel) by lia.
    pose proof (nextToken_total fuel s Hn) as Hstep.
    destruct (nextToken fuel s) as [tk s'|e s'|]; simpl in Hstep.
    + destruct Hstep as [Hl Hp]. specialize (Hp End).
      apply lexer_isAtEnd_false in End.
      assert (Hf' : remaining s' + 2 <= fuel).
      { destruct Hl as [Hi _]. unfold remaining in *. rewrite Hi. lia. }
      set (tokens' := match tk with
                      | Some tk0 => if kept tk0 then (tokens ++ [tk0])%list else tokens
                      | None => tokens
                      end).
      assert (Hc' : Forall clean tokens').
      { unfold tokens'. destruct tk as [tk0|]; [|exact Hc].
        destruct (kept tk0) eqn:K; [|exact Hc].
        apply Forall_app. split; [exact Hc|].
        constructor; [apply kept_clean; exact K | constructor]. }
      specialize (IH tokens' s' Hf' Hc').
      destruct (tokenize_loop fuel tokens' s') as [l s2|e s2|]; simpl in *.
      * destruct IH as (Hl2 & He & Hi). split; [|split; assumption].
        eapply scan_trans; eassumption.
      * exact IH.
      * exact IH.
    + exact Hstep.
    + exact Hstep.
Qed.

Lemma tokenize_total s : token_stream s (tokenize s).
Proof.
  unfold tokenize. apply tokenize_loop_total; [|constructor].
  unfold tokenize_fuel, remaining. lia.
Qed.

(** *** Address literals *)

Lemma keywords_get_In tbl value ty :
  keywords_get tbl value = Some ty -> In ty (map snd tbl).
Proof.
  induction tbl as [|[k ty'] tbl IH]; simpl; [discriminate|].
  destruct (String.eqb k value).
  - intros [= ->]. left. reflexivity.
  - intros H. right. apply IH. exact H.
Qed.

Lemma keyword_not_address value ty :
  keywords_get keywords value = Some ty -> ty <> TokenType.ADDRESS_LITERAL.
Proof.
  intros H. apply keywords_get_In in H.
  assert (Hall : forallb (fun ty => negb (TokenType.eqb ty TokenType.ADDRESS_LITERAL))
                   (map snd keywords) = true) by reflexivity.
  rewrite forallb_forall in Hall. specialize (Hall ty H).
  apply negb_true_iff in Hall. apply TokenTypeFacts.eqb_neq. exact Hall.
Qed.

(** No branch of [nextToken] that can be taken yields an address literal:
    the test for a digit comes first and takes every [0]. *)
Lemma nextToken_not_address fuel s tk s' :
  nextToken fuel s = Ok (Some tk) s' -> not_address tk.
Proof.
  unfold nextToken, bind, not_address.
  destruct (skipWhitespace fuel s) as [[] s0| |]; [|discriminate|discriminate].
  destruct (isAtEnd s0); [discriminate|].
  destruct (Ascii.eqb (peek s0) "/" && Ascii.eqb (peekNext s0) "/").
  { unfold readComment, bind.
    destruct (advanceWhile _ fuel s0) as [[] s1| |]; try discriminate.
    intros [= <- _]. discriminate. }
  destruct (Ascii.eqb (peek s0) QUOTE || Ascii.eqb (peek s0) "'").
  { unfold readString. destruct (advance s0) as [quote s1].
    destruct (readString_loop quote fuel s1) as [[] s2| |]; try discriminate.
    destruct (isAtEnd s2); [discriminate|].
    intros [= <- _]. discriminate. }
  destruct (isDigit (peek s0)) eqn:Edig.
  { unfold readNumber, bind.
    destruct (advanceWhile _ fuel s0) as [[] s1| |]; try discriminate.
    destruct (Ascii.eqb (peek s1) "." && isDigit (peekNext s1)).
    - destruct (advanceWhile _ fuel _) as [[] s2| |]; try discriminate.
      intros [= <- _]. discriminate.
    - intros [= <- _]. discriminate. }
  destruct (Ascii.eqb (peek s0) "0" && Ascii.eqb (peekNext s0) "x") eqn:Eadr.
  { apply andb_true_iff in Eadr as [E0 _]. apply Ascii.eqb_eq in E0.
    rewrite E0 in Edig. discriminate Edig. }
  destruct (isAlpha (peek s0) || Ascii.eqb (peek s0) "_").
  { unfold readIdentifier, bind.
    destruct (advanceWhile _ fuel s0) as [[] s1| |]; try discriminate.
    intros H.
    apply (f_equal (fun r => match r with
                             | Ok (Some t) _ => tok_type t
                             | _ => TokenType.EOF
                             end)) in H.
    unfold ret, makeToken in H. cbn [tok_type] in H. rewrite <- H.
    match goal with
    | |- context [keywords_get keywords ?v] =>
        destruct (keywords_get keywords v) eqn:K
    end.
    - apply (keyword_not_address _ _ K).
    - discriminate. }
  repeat match goal with
         | |- (if ?c then _ else _) = _ -> _ =>
             destruct c; [intros [= <- _]; discriminate|]
         end.
  destruct (advance s0) as [singleChar s1].
  repeat match goal with
         | |- (if ?c then _ else _) = _ -> _ =>
             destruct c; [intros [= <- _]; discriminate|]
         end.
  discriminate.
Qed.

Lemma tokenize_loop_not_address fuel tokens s l s' :
  Forall not_address tokens ->
  tokenize_loop fuel tokens s = Ok l s' -> Forall not_address l.
Proof.
  revert tokens s. induction fuel as [|fuel IH]; intros tokens s Hall;
    [discriminate|].
  simpl. destruct (negb (isAtEnd s)).
  - unfold bind. destruct (nextToken fuel s) as [tk s1| |] eqn:E;
      try discriminate.
    apply IH. destruct tk as [tk|]; [|exact Hall].
    destruct (kept tk); [|exact Hall].
    apply Forall_app. split; [exact Hall|].
    constructor; [|constructor]. apply (nextToken_not_address _ _ _ _ E).
  - intros [= <- _]. apply Forall_app. split; [exact Hall|].
    constructor; [|constructor]. discriminate.
Qed.

End LexerFacts.

(** ** Parser: progress and totality *)

Module ParserFacts.
Import AST Parser ParserSpec.

Lemma eof_ahead_lt s : eof_ahead s -> current s < List.length (tokens s).
Proof.
  intros (e & tk & Hle & Hn & _).
  assert (e < List.length (tokens s)) by (apply nth_error_Some; congruence).
  lia.
Qed.

Lemma eof_ahead_rem s : eof_ahead s -> 1 <= rem s.
Proof. intros H. apply eof_ahead_lt in H. unfold rem. lia. Qed.

Lemma eof_ahead_peek s :
  eof_ahead s -> exists tk, nth_error (tokens s) (current s) = Some tk.
Proof.
  intros H. apply eof_ahead_lt in H.
  destruct (nth_error (tokens s) (current s)) eqn:E; [eauto|].
  apply nth_error_None in E. lia.
Qed.

Lemma eof_ahead_next s : eof_ahead s -> at_end s = false -> eof_ahead (next s).
Proof.
  intros (e & tk & Hle & Hn & Ht) Hend. unfold at_end in Hend.
  exists e, tk. simpl. split; [|split; assumption].
  destruct (Nat.eq_dec e (current s)) as [->|]; [|lia].
  rewrite Hn in Hend. rewrite Ht in Hend. discriminate Hend.
Qed.

Lemma later_refl s : eof_ahead s -> later s s.
Proof. intros H. split; [reflexivity|]. split; [lia | exact H]. Qed.

Lemma later_trans s1 s2 s3 : later s1 s2 -> later s2 s3 -> later s1 s3.
Proof.
  intros (H1 & H2 & _) (H3 & H4 & H5).
  split; [congruence|]. split; [lia | exact H5].
Qed.

Lemma later_next s : eof_ahead s -> at_end s = false -> later s (next s).
Proof.
  intros H E. split; [reflexivity|]. split; [simpl; lia|].
  apply eof_ahead_next; assumption.
Qed.

Lemma later_eof s s' : later s s' -> eof_ahead s'.
Proof. intros (_ & _ & H). exact H. Qed.

(** The arithmetic content of [later], in the form [lia] uses. *)
Lemma later_arith s s' :
  eof_ahead s -> later s s' ->
  rem s' + current s' = rem s + current s /\ current s <= current s'
  /\ 1 <= rem s'.
Proof.
  intros Hs (Ht & Hc & He).
  pose proof (eof_ahead_lt _ Hs). pose proof (eof_ahead_lt _ He).
  unfold rem. rewrite Ht in *. lia.
Qed.

Lemma sat_ret {A} b (a : A) s (Q : A -> t -> Prop) :
  eof_ahead s -> Q a s -> sat b (ret a) s Q.
Proof. intros H HQ. simpl. split; [apply later_refl; exact H | exact HQ]. Qed.

Lemma sat_throw {A} e s (Q : A -> t -> Prop) :
  eof_ahead s -> sat true (throw e) s Q.
Proof. intros H. simpl. split; [reflexivity | apply later_refl; exact H]. Qed.

Lemma sat_bind {A B} b (m : M t A) (k : A -> M t B) s Q1 Q :
  sat b m s Q1 ->
  (forall a s', later s s' -> Q1 a s' -> sat b (k a) s' Q) ->
  sat b (bind m k) s Q.
Proof.
  unfold sat, bind. intros Hm Hk.
  destruct (m s) as [a s'|e s'|]; [|exact Hm|exact Hm].
  destruct Hm as [Hl HQ]. specialize (Hk a s' Hl HQ).
  destruct (k a s') as [c s2|e s2|]; [| |exact Hk].
  - destruct Hk as [Hl2 HQ2]. split; [eapply later_trans; eassumption | exact HQ2].
  - destruct Hk as [Hb Hl2]. split; [exact Hb | eapply later_trans; eassumption].
Qed.

Lemma sat_weaken {A} b (m : M t A) s (Q Q' : A -> t -> Prop) :
  sat b m s Q ->
  (forall a s', later s s' -> Q a s' -> Q' a s') ->
  sat b m s Q'.
Proof.
  unfold sat. intros Hm HQ. destruct (m s) as [a s'|e s'|]; [|exact Hm|exact Hm].
  destruct Hm as [Hl H]. split; [exact Hl | apply HQ; assumption].
Qed.

Lemma sat_may_throw {A} (m : M t A) s Q : sat false m s Q -> sat true m s Q.
Proof.
  unfold sat. destruct (m s); [tauto | | tauto].
  intros [H _]. discriminate H.
Qed.

Lemma sat_any {A} b (m : M t A) s Q : sat false m s Q -> sat b m s Q.
Proof. destruct b; [apply sat_may_throw | exact id]. Qed.

(** *** The cursor primitives *)

Lemma peek_sat b prop s :
  eof_ahead s ->
  sat b (peek prop) s
    (fun tk s' => s' = s /\ nth_error (tokens s) (current s) = Some tk).
Proof.
  intros H. unfold sat, peek.
  destruct (eof_ahead_peek s H) as [tk ->].
  split; [apply later_refl; exact H | split; reflexivity].
Qed.

Lemma isAtEnd_sat b s :
  eof_ahead s -> sat b isAtEnd s (fun r s' => s' = s /\ r = at_end s).
Proof.
  intros H. unfold isAtEnd. eapply sat_bind; [apply peek_sat; exact H|].
  intros tk s' _ [-> Hn]. apply sat_ret; [exact H|].
  split; [reflexivity|]. unfold at_end. rewrite Hn. reflexivity.
Qed.

Lemma check_sat b type s :
  eof_ahead s ->
  sat b (check type) s (fun r s' => s' = s /\ (r = true -> at_end s = false)).
Proof.
  intros H. unfold check. eapply sat_bind; [apply isAtEnd_sat; exact H|].
  intros r s' _ [-> ->]. destruct (at_end s) eqn:E.
  - apply sat_ret; [exact H|]. split; [reflexivity | discriminate].
  - eapply sat_bind; [apply peek_sat; exact H|].
    intros tk s' _ [-> _]. apply sat_ret; [exact H|]. split; reflexivity.
Qed.

Lemma advance_sat b s :
  eof_ahead s ->
  sat b advance s (fun _ s' => s' = if at_end s then s else next s).
Proof.
  intros H. unfold advance. eapply sat_bind; [apply isAtEnd_sat; exact H|].
  intros r s' _ [-> ->]. unfold sat. destruct (at_end s) eqn:E.
  - split; [apply later_refl; exact H | reflexivity].
  - split; [apply later_next; assumption | reflexivity].
Qed.

Lemma match_sat b types s :
  eof_ahead s ->
  sat b (match_ types) s
    (fun r s' => if r then at_end s = false /\ s' = next s else s' = s).
Proof.
  intros H. induction types as [|type rest IH]; simpl.
  - apply sat_ret; [exact H | reflexivity].
  - eapply sat_bind; [apply check_sat; exact H|].
    intros r s' _ [-> Hr]. destruct r; [|exact IH].
    specialize (Hr eq_refl).
    eapply sat_bind; [apply advance_sat; exact H|].
    intros _ s' Hl ->. rewrite Hr in *.
    apply sat_ret; [eapply later_eof; exact Hl|]. split; reflexivity.
Qed.

Lemma throwParseError_sat {A} message s (Q : A -> t -> Prop) :
  eof_ahead s -> sat true (throwParseError message) s Q.
Proof.
  intros H. unfold throwParseError.
  eapply sat_bind; [apply peek_sat; exact H|].
  intros tk s' _ [-> _]. apply sat_throw; exact H.
Qed.

Lemma undefined_read_sat {A} prop s (Q : A -> t -> Prop) :
  eof_ahead s -> sat true (undefined_read prop) s Q.
Proof. intros H. apply sat_throw; exact H. Qed.

Lemma consume_sat type message s :
  eof_ahead s ->
  sat true (consume type message) s
    (fun _ s' => at_end s = false /\ s' = next s).
Proof.
  intros H. unfold consume. eapply sat_bind; [apply check_sat; exact H|].
  intros r s' _ [-> Hr]. destruct r.
  - specialize (Hr eq_refl).
    eapply sat_weaken; [apply advance_sat; exact H|].
    intros _ s' _ ->. rewrite Hr. split; reflexivity.
  - apply throwParseError_sat; exact H.
Qed.

Lemma value_of_sat token s :
  eof_ahead s -> sat true (value_of token) s (fun _ s' => s' = s).
Proof.
  intros H. destruct token; simpl.
  - split; [apply later_refl; exact H | reflexivity].
  - split; [reflexivity | apply later_refl; exact H].
Qed.

Lemma previous_sat prop s :
  eof_ahead s -> sat true (previous prop) s (fun _ s' => s' = s).
Proof.
  intros H. unfold sat, previous. destruct (previous_opt s).
  - split; [apply later_refl; exact H | reflexivity].
  - simpl. split; [reflexivity | apply later_refl; exact H].
Qed.

Lemma getLocation_sat s :
  eof_ahead s -> sat true getLocation s (fun _ s' => s' = s).
Proof.
  intros H. unfold getLocation.
  eapply sat_bind; [apply previous_sat; exact H|].
  intros tk s' _ ->. apply sat_ret; [exact H | reflexivity].
Qed.

(** *** Tactics for walking through a method body *)

#[local] Arguments match_ : simpl never.

#[local] Arguments check : simpl never.

#[local] Arguments consume : simpl never.

Lemma later_len s s' :
  later s s' ->
  List.length (tokens s') = List.length (tokens s)
  /\ current s <= current s' /\ current s' < List.length (tokens s').
Proof.
  intros (Ht & Hc & He). apply eof_ahead_lt in He. rewrite Ht in *. lia.
Qed.

(** Close an arithmetic goal about cursors from the [later] facts. *)
Ltac arith :=
  repeat match goal with
         | H : later ?a ?b |- _ =>
             let F := fresh in pose proof (later_len a b H) as F; clear H
         | H : eof_ahead ?a |- _ => apply eof_ahead_lt in H
         end;
  unfold rem, next in *; simpl in *; lia.

(** Close a goal [eof_ahead s]. *)
Ltac eof :=
  first [ assumption
        | eapply later_eof; eassumption
        | apply eof_ahead_next; [eof | assumption] ].

Ltac split_all :=
  repeat match goal with
         | H : _ /\ _ |- _ => destruct H
         end.

(** Run the next call of a body with the lemma [tac] proves it by. *)
Ltac step_by tac :=
  eapply sat_bind; [ tac | intros ? ? ? ?; cbv beta in *; split_all; subst ].

Ltac prim :=
  first [ apply consume_sat | apply match_sat | apply check_sat
        | apply advance_sat | apply isAtEnd_sat | apply getLocation_sat
        | apply value_of_sat | apply previous_sat | apply peek_sat ]; eof.

Ltac step := step_by prim.

Tactic Notation "step" "as" ident(x) :=
  eapply sat_bind;
  [ prim | intros x ? ? ?; cbv beta zeta in *; split_all; subst ].

(** Run a test such as [this.match(...)] and branch on its result. *)
Ltac step_if :=
  eapply sat_bind;
  [ prim
  | let r := fresh "r" in
    intros r ? ? ?; cbv beta zeta in *; destruct r; split_all; subst ].

Ltac finish := apply sat_ret; [eof | try exact I; try arith].

Lemma progress_total {A} (m : M t A) s : progress m s -> total m s.
Proof. intros H. eapply sat_weaken; [exact H|]. intros; exact I. Qed.

(** *** Leaves of the grammar *)

Lemma parseIdentifier_progress s : eof_ahead s -> progress parseIdentifier s.
Proof.
  intros H. unfold progress, parseIdentifier.
  step. step. step. finish.
Qed.

Lemma parseType_progress s : eof_ahead s -> progress parseType s.
Proof.
  intros H. unfold progress, parseType.
  step. destruct a.
  - split_all; subst. step.
    destruct (includes primitive_names (tok_value a)).
    + step. finish.
    + step. step. finish.
  - subst. apply throwParseError_sat; eof.
Qed.

Ltac step_progress lem :=
  step_by ltac:(apply lem; eof).

Lemma parseField_progress s : eof_ahead s -> progress parseField s.
Proof.
  intros H. unfold progress, parseField.
  step_progress parseIdentifier_progress. step.
  step_progress parseType_progress. step. finish.
Qed.

Lemma parseParameter_progress s : eof_ahead s -> progress parseParameter s.
Proof.
  intros H. unfold progress, parseParameter.
  step_progress parseIdentifier_progress. step.
  step_progress parseType_progress. step. finish.
Qed.

Lemma parseEventField_progress s : eof_ahead s -> progress parseEventField s.
Proof.
  intros H. unfold progress, parseEventField.
  step. destruct a; split_all; subst.
  - step_progress parseIdentifier_progress. step.
    step_progress parseType_progress. step. finish.
  - step_progress parseIdentifier_progress. step.
    step_progress parseType_progress. step. finish.
Qed.

Lemma optionalComma_total s : eof_ahead s -> total optionalComma s.
Proof.
  intros H. unfold total, optionalComma.
  step. destruct a.
  - finish.
  - step. finish.
Qed.

Lemma parseReturnType_total s : eof_ahead s -> total parseReturnType s.
Proof.
  intros H. unfold total, parseReturnType.
  step. destruct a; split_all; subst.
  - step_progress parseType_progress. finish.
  - finish.
Qed.

(** *** The two loop shapes *)

Lemma untilRightBrace_total {A} newlines (body : A -> M t A) fuel acc s :
  eof_ahead s -> rem s <= fuel ->
  (forall acc' s', later s s' -> at_end s' = false -> progress (body acc') s') ->
  total (untilRightBrace newlines body fuel acc) s.
Proof.
  revert acc s. induction fuel as [|fuel IH]; intros acc s H Hf Hbody.
  { apply eof_ahead_rem in H. lia. }
  unfold total. simpl. step.
  eapply sat_bind with
    (Q1 := fun r s' => s' = s /\ (r = true -> at_end s = false)).
  { destruct a.
    - apply sat_ret; [eof|]. split; [reflexivity | discriminate].
    - step. apply sat_ret; [eof|]. split; [reflexivity|].
      destruct (at_end s); [discriminate | reflexivity]. }
  intros continue s' _ [-> Hc]. destruct continue; [|finish].
  specialize (Hc eq_refl).
  eapply sat_bind with (Q1 := fun r s' => s' = s).
  { destruct newlines; [|apply sat_ret; [eof | reflexivity]].
    eapply sat_weaken; [apply check_sat; eof|]. intros ? ? _ [-> _]. reflexivity. }
  intros newline s' _ ->. destruct newline.
  - step. rewrite Hc in *. apply IH; [eof | arith |].
    intros acc' s' Hl He. apply Hbody; [|exact He].
    eapply later_trans; eassumption.
  - eapply sat_bind; [apply Hbody; [apply later_refl; eof | exact Hc]|].
    intros acc' s' Hl Hp. cbv beta in Hp. apply IH; [eof | arith |].
    intros acc2 s2 Hl2 He. apply Hbody; [|exact He].
    eapply later_trans; eassumption.
Qed.

Lemma separated_progress {A} separator (item : M t A) fuel xs s :
  eof_ahead s -> rem s <= fuel ->
  (forall s', later s s' -> progress item s') ->
  progress (separated separator item fuel xs) s.
Proof.
  revert xs s. induction fuel as [|fuel IH]; intros xs s H Hf Hitem.
  { apply eof_ahead_rem in H. lia. }
  unfold progress. simpl.
  eapply sat_bind; [apply Hitem; apply later_refl; eof|].
  intros x s1 Hl1 Hp1. cbv beta zeta in *.
  step. destruct a; split_all; subst.
  - eapply sat_weaken.
    + apply IH; [eof | arith |].
      intros s' Hl. apply Hitem.
      eapply later_trans; [exact Hl1|]. eapply later_trans; eassumption.
    + intros ? ? ? ?. cbv beta in *. arith.
  - finish.
Qed.

(** *** Expressions *)

Section Expressions.

Variable BigInt : string -> option Z.

(** The recursive call [expression] is known to behave on states with fewer
    than [R] tokens left. *)
Variable expression : M t Expression.

Variable R : nat.

Hypothesis expression_progress :
  forall s, eof_ahead s -> rem s < R -> progress expression s.

Lemma parsePrimary_progress s :
  eof_ahead s -> rem s <= R -> progress (parsePrimary BigInt expression) s.
Proof.
  intros H HR. unfold progress, parsePrimary.
  step. destruct a; split_all; subst.
  { step. step. finish. }
  step. destruct a; split_all; subst.
  { step. destruct (BigInt (tok_value a)).
    - step. finish.
    - apply sat_throw; eof. }
  step. destruct a; split_all; subst.
  - step_by ltac:(apply expression_progress; [eof | arith]).
    step. finish.
  - apply throwParseError_sat; eof.
Qed.

Lemma parseCall_loop_total fuel expr s :
  eof_ahead s -> rem s <= R -> rem s <= fuel ->
  total (parseCall_loop expression fuel expr) s.
Proof.
  revert expr s. induction fuel as [|fuel IH]; intros expr s H HR Hf.
  { apply eof_ahead_rem in H. lia. }
  unfold total. simpl.
  step. destruct a; split_all; subst.
  - step.
    eapply sat_bind with (Q1 := fun _ _ => True).
    { destruct a.
      - apply sat_ret; [eof | exact I].
      - eapply sat_weaken.
        + apply separated_progress; [eof | arith |].
          intros s' Hl. apply expression_progress; [eof | arith].
        + intros; exact I. }
    intros args s1 Hl1 _. step. step.
    apply IH; [eof | arith | arith].
  - step. destruct a; split_all; subst; [|finish].
    step. step. step. step. apply IH; [eof | arith | arith].
Qed.

Lemma parseCall_progress fuel s :
  eof_ahead s -> rem s <= R -> rem s <= fuel ->
  progress (parseCall BigInt expression fuel) s.
Proof.
  intros H HR Hf. unfold progress, parseCall.
  step_by ltac:(apply parsePrimary_progress; [eof | arith]).
  eapply sat_weaken.
  - apply parseCall_loop_total; [eof | arith | arith].
  - intros ? ? ? _. cbv beta. arith.
Qed.

Lemma binary_loop_total operators (operand : M t Expression) fuel expr s :
  eof_ahead s -> rem s <= fuel ->
  (forall s', later s s' -> progress operand s') ->
  total (binary_loop operators operand fuel expr) s.
Proof.
  revert expr s. induction fuel as [|fuel IH]; intros expr s H Hf Hop.
  { apply eof_ahead_rem in H. lia. }
  unfold total. simpl.
  step. destruct a; split_all; subst; [|finish].
  step.
  eapply sat_bind; [apply Hop; assumption|].
  intros right s1 Hl1 Hp1. cbv beta in Hp1. step.
  apply IH; [eof | arith |].
  intros s' Hl. apply Hop.
  eapply later_trans; [eassumption|]. eapply later_trans; eassumption.
Qed.

Lemma binary_level_progress operators (operand : M t Expression) fuel s :
  eof_ahead s -> rem s <= fuel ->
  (forall s', later s s' -> progress operand s') ->
  progress (binary_level operators operand fuel) s.
Proof.
  intros H Hf Hop. unfold progress, binary_level.
  eapply sat_bind; [apply Hop; apply later_refl; eof|].
  intros e s1 Hl1 Hp1. cbv beta in Hp1.
  eapply sat_weaken.
  - apply binary_loop_total; [eof | arith |].
    intros s' Hl. apply Hop. eapply later_trans; eassumption.
  - intros ? ? ? _. cbv beta. arith.
Qed.

End Expressions.

Lemma parseLogicalOr_progress (unary : M t Expression) fuel s :
  eof_ahead s -> rem s <= fuel ->
  (forall s', later s s' -> progress unary s') ->
  progress (parseLogicalOr unary fuel) s.
Proof.
  intros H Hf Hu.
  unfold parseLogicalOr, parseLogicalAnd, parseEquality, parseComparison,
    parseArithmetic, parseTerm.
  repeat (apply binary_level_progress; [eof | arith | intros]).
  apply Hu.
  repeat (eapply later_trans; [eassumption|]). apply later_refl. eof.
Qed.

(** A call that finds no room on the stack raises where it is made. *)
Lemma nested_progress {A} (f : nat -> M t A) depth s :
  eof_ahead s -> (forall depth', progress (f depth') s) ->
  progress (nested f depth) s.
Proof.
  intros H Hf. destruct depth as [|depth']; simpl.
  - apply sat_throw. exact H.
  - apply Hf.
Qed.

Lemma parseUnary_progress BigInt depth fuel s :
  eof_ahead s -> rem s <= fuel -> progress (parseUnary BigInt depth fuel) s.
Proof.
  revert s. induction depth as [|depth IH]; intros s H Hf.
  - unfold progress. simpl.
    step. destruct a; split_all; subst.
    + step.
      eapply sat_bind with (Q1 := fun _ _ => False);
        [apply sat_throw; eof | intros ? ? ? []].
    + apply parseCall_progress with (R := S fuel); [|eof|arith|arith].
      intros s' H' _. apply sat_throw. exact H'.
  - unfold progress. simpl.
    step. destruct a; split_all; subst.
    + step. step_by ltac:(apply IH; [eof | arith]).
      step. finish.
    + apply parseCall_progress with (R := S fuel); [|eof|arith|arith].
      intros s' H' Hr. apply parseLogicalOr_progress; [exact H' | lia|].
      intros s2 Hl. apply IH; [eof | arith].
Qed.

Lemma parseExpression_progress BigInt depth fuel s :
  eof_ahead s -> rem s + 2 <= fuel ->
  progress (parseExpression BigInt depth fuel) s.
Proof.
  intros H Hf. unfold parseExpression.
  apply parseLogicalOr_progress; [exact H | lia|].
  intros s' Hl. apply parseUnary_progress; [eof | arith].
Qed.

(** *** Statements, blocks and items *)

Section Items.

Variable BigInt : string -> option Z.

(** The room on the call stack. *)
Variable depth : nat.

Ltac expr :=
  step_by ltac:(apply parseExpression_progress; [eof | arith]).

Lemma parseVariableDeclaration_progress fuel s :
  eof_ahead s -> rem s + 2 <= fuel ->
  progress (parseVariableDeclaration BigInt depth fuel) s.
Proof.
  intros H Hf. unfold progress, parseVariableDeclaration.
  step_progress parseIdentifier_progress. step as hasType.
  eapply sat_bind with (Q1 := fun _ _ => True).
  { destruct hasType; split_all; subst.
    - step_progress parseType_progress. finish.
    - finish. }
  intros ty s2 Hl2 _. step as hasInit.
  eapply sat_bind with (Q1 := fun _ _ => True).
  { destruct hasInit; split_all; subst.
    - expr. finish.
    - finish. }
  intros init s3 Hl3 _. step. step. finish.
Qed.

Lemma parseReturnStatement_total fuel s :
  eof_ahead s -> rem s + 2 <= fuel ->
  total (parseReturnStatement BigInt depth fuel) s.
Proof.
  intros H Hf. unfold total, parseReturnStatement.
  step as isEmpty.
  eapply sat_bind with (Q1 := fun _ _ => True).
  { destruct isEmpty.
    - finish.
    - expr. finish. }
  intros v s2 Hl2 _. step. step. finish.
Qed.

Lemma parseStatement_progress fuel s :
  eof_ahead s -> rem s + 2 <= fuel -> progress (parseStatement BigInt depth fuel) s.
Proof.
  intros H Hf. unfold progress, parseStatement.
  step_if.
  { eapply sat_weaken.
    - apply parseVariableDeclaration_progress; [eof | arith].
    - intros ? ? ? ?. cbv beta in *. arith. }
  step_if.
  { eapply sat_weaken.
    - apply parseReturnStatement_total; [eof | arith].
    - intros ? ? ? _. cbv beta. arith. }
  expr. step. step. finish.
Qed.

(** A braced body whose iterations make progress. *)
Ltac braces :=
  eapply sat_bind;
  [ apply untilRightBrace_total;
    [eof | arith | let acc := fresh "acc" in intros acc ? ? ?]
  | let members := fresh "members" in
    intros members ? ? ?; cbv beta zeta in *; split_all; subst ].

Lemma parseBlock_progress fuel s :
  eof_ahead s -> rem s + 2 <= fuel -> progress (parseBlock BigInt depth fuel) s.
Proof.
  intros H Hf. unfold progress, parseBlock.
  step. braces.
  { step_by ltac:(apply parseStatement_progress; [eof | arith]). finish. }
  step. finish.
Qed.

Lemma parseParameters_total fuel s :
  eof_ahead s -> rem s <= fuel -> total (parseParameters fuel) s.
Proof.
  intros H Hf. unfold total, parseParameters.
  step_if; [finish|].
  eapply sat_weaken.
  - apply separated_progress; [eof | arith |].
    intros s' Hl. apply parseParameter_progress; eof.
  - intros; exact I.
Qed.

Lemma parseFunction_progress fuel s :
  eof_ahead s -> rem s + 2 <= fuel -> progress (parseFunction BigInt depth fuel) s.
Proof.
  intros H Hf. unfold progress, parseFunction.
  step_progress parseIdentifier_progress. step.
  step_by ltac:(apply parseParameters_total; [eof | arith]).
  step. step_by ltac:(apply parseReturnType_total; eof).
  step_by ltac:(apply parseBlock_progress; [eof | arith]).
  step. step. finish.
Qed.

Lemma parseEvent_progress fuel s :
  eof_ahead s -> rem s + 2 <= fuel -> progress (parseEvent fuel) s.
Proof.
  intros H Hf. unfold progress, parseEvent.
  step. step_progress parseIdentifier_progress. step. braces.
  { step_progress parseEventField_progress.
    step_by ltac:(apply optionalComma_total; eof). finish. }
  step. step. finish.
Qed.

Lemma parseContract_progress fuel s :
  eof_ahead s -> rem s + 2 <= fuel -> progress (parseContract BigInt depth fuel) s.
Proof.
  intros H Hf. unfold progress, parseContract.
  step_progress parseIdentifier_progress. step. braces.
  { destruct acc as [[fields functions] events].
    step_if.
    { step_progress parseField_progress. finish. }
    step_if.
    { step_by ltac:(apply parseFunction_progress; [eof | arith]). finish. }
    step_if.
    { step_by ltac:(apply parseEvent_progress; [eof | arith]). finish. }
    step. match goal with E : at_end _ = false |- _ => rewrite E in * end.
    finish. }
  step. step. destruct members as [[fields functions] events]. finish.
Qed.

Lemma parseStruct_progress fuel s :
  eof_ahead s -> rem s + 2 <= fuel -> progress (parseStruct fuel) s.
Proof.
  intros H Hf. unfold progress, parseStruct.
  step_progress parseIdentifier_progress. step. braces.
  { step_progress parseField_progress.
    step_by ltac:(apply optionalComma_total; eof). finish. }
  step. step. finish.
Qed.

Lemma parseEnum_progress fuel s :
  eof_ahead s -> rem s + 2 <= fuel -> progress (parseEnum fuel) s.
Proof.
  intros H Hf. unfold progress, parseEnum.
  step_progress parseIdentifier_progress. step. braces.
  { step_progress parseIdentifier_progress. step as hasFields.
    eapply sat_bind with (Q1 := fun _ _ => True).
    { destruct hasFields; split_all; subst; [|finish].
      braces.
      { step_progress parseType_progress.
        step_by ltac:(apply optionalComma_total; eof). finish. }
      step. finish. }
    intros fields s4 Hl4 _. step.
    step_by ltac:(apply optionalComma_total; eof). finish. }
  step. step. finish.
Qed.

Lemma parseTraitFunction_progress fuel s :
  eof_ahead s -> rem s + 2 <= fuel -> progress (parseTraitFunction fuel) s.
Proof.
  intros H Hf. unfold progress, parseTraitFunction.
  step. step_progress parseIdentifier_progress. step.
  step_by ltac:(apply parseParameters_total; [eof | arith]).
  step. step_by ltac:(apply parseReturnType_total; eof).
  step. step. finish.
Qed.

Lemma parseTrait_progress fuel s :
  eof_ahead s -> rem s + 2 <= fuel -> progress (parseTrait fuel) s.
Proof.
  intros H Hf. unfold progress, parseTrait.
  step_progress parseIdentifier_progress. step. braces.
  { step_if.
    { step_by ltac:(apply parseTraitFunction_progress; [eof | arith]). finish. }
    step. match goal with E : at_end _ = false |- _ => rewrite E in * end.
    finish. }
  step. step. finish.
Qed.

Lemma parseImpl_progress fuel s :
  eof_ahead s -> rem s + 2 <= fuel -> progress (parseImpl BigInt depth fuel) s.
Proof.
  intros H Hf. unfold progress, parseImpl.
  step as isId.
  eapply sat_bind with (Q1 := fun _ s' => current s < current s').
  { destruct isId; [|apply throwParseError_sat; eof].
    step_progress parseIdentifier_progress. step_if.
    - step_progress parseIdentifier_progress. finish.
    - finish. }
  intros names s2 Hl2 Hp2. cbv beta in Hp2. step. braces.
  { step_if.
    { step_by ltac:(apply parseFunction_progress; [eof | arith]). finish. }
    step. match goal with E : at_end _ = false |- _ => rewrite E in * end.
    finish. }
  step. step. finish.
Qed.

Lemma parseUse_progress fuel s :
  eof_ahead s -> rem s + 2 <= fuel -> progress (parseUse fuel) s.
Proof.
  intros H Hf. unfold progress, parseUse.
  step_by ltac:(apply separated_progress;
                [eof | arith | intros; apply parseIdentifier_progress; eof]).
  step as hasAlias.
  eapply sat_bind with (Q1 := fun _ _ => True).
  { destruct hasAlias; split_all; subst.
    - step_progress parseIdentifier_progress. finish.
    - finish. }
  intros alias s3 Hl3 _. step. step. finish.
Qed.

Lemma parseConst_progress fuel s :
  eof_ahead s -> rem s + 2 <= fuel -> progress (parseConst BigInt depth fuel) s.
Proof.
  intros H Hf. unfold progress, parseConst.
  step_progress parseIdentifier_progress. step.
  step_progress parseType_progress. step. expr. step. step. finish.
Qed.

Section Knot.

Variable item : M t (option Item).

Variable R : nat.

(** The nested call returns or raises; when it returns away from [EOF], the
    cursor has moved. *)
Hypothesis item_ok :
  forall s, eof_ahead s -> rem s < R ->
  sat true item s (fun _ s' => at_end s = false -> current s < current s').

Lemma parseModule_progress fuel s :
  eof_ahead s -> rem s <= R -> rem s + 2 <= fuel ->
  progress (parseModule item fuel) s.
Proof.
  intros H HR Hf. unfold progress, parseModule.
  step_progress parseIdentifier_progress. step. braces.
  { eapply sat_bind.
    - apply item_ok; [eof | arith].
    - intros parsed s5 Hl5 Hp5. cbv beta in Hp5.
      match goal with E : at_end _ = false |- _ => specialize (Hp5 E) end.
      destruct parsed; finish. }
  step. step. finish.
Qed.

Lemma parseItem_try_step fuel s :
  eof_ahead s -> rem s <= R -> rem s + 2 <= fuel ->
  sat true (parseItem_try BigInt item depth fuel) s
    (fun _ s' => at_end s = false -> current s < current s').
Proof.
  intros H HR Hf. unfold parseItem_try.
  step_if.
  { step_by ltac:(apply parseContract_progress; [eof | arith]). finish. }
  step_if.
  { step_by ltac:(apply parseFunction_progress; [eof | arith]). finish. }
  step_if.
  { step_by ltac:(apply parseStruct_progress; [eof | arith]). finish. }
  step_if.
  { step_by ltac:(apply parseEnum_progress; [eof | arith]). finish. }
  step_if.
  { step_by ltac:(apply parseTrait_progress; [eof | arith]). finish. }
  step_if.
  { step_by ltac:(apply parseImpl_progress; [eof | arith]). finish. }
  step_if.
  { step_by ltac:(apply parseUse_progress; [eof | arith]). finish. }
  step_if.
  { step_by ltac:(apply parseConst_progress; [eof | arith]). finish. }
  step_if.
  { step_by ltac:(apply parseModule_progress; [eof | arith | arith]). finish. }
  step. apply sat_ret; [eof|]. intros E. rewrite E. simpl. lia.
Qed.

End Knot.

End Items.

(** *** Recovery and the top level *)

Lemma previous_defined prop s :
  eof_ahead s -> 1 <= current s ->
  sat false (previous prop) s (fun _ s' => s' = s).
Proof.
  intros H Hc. unfold sat, previous, previous_opt.
  destruct (current s) as [|i] eqn:E; [lia|].
  destruct (nth_error (tokens s) i) eqn:En.
  - split; [apply later_refl; exact H | reflexivity].
  - apply nth_error_None in En. apply eof_ahead_lt in H. lia.
Qed.

Lemma synchronize_loop_ok fuel s :
  eof_ahead s -> rem s <= fuel -> (at_end s = false -> 1 <= current s) ->
  sat false (synchronize_loop fuel) s (fun _ _ => True).
Proof.
  revert s. induction fuel as [|fuel IH]; intros s H Hf Hc.
  { apply eof_ahead_rem in H. lia. }
  simpl. step. destruct (at_end s) eqn:E; [finish|].
  step_by ltac:(apply previous_defined; [eof | apply Hc; reflexivity]).
  destruct (TokenType.eqb (tok_type a) TokenType.Semicolon); [finish|].
  step. destruct (starts_declaration (tok_type a0)); [finish|].
  step. rewrite E in *.
  apply IH; [eof | arith | intros _; simpl; lia].
Qed.

Lemma synchronize_ok fuel s :
  eof_ahead s -> rem s <= fuel ->
  sat false (synchronize fuel) s
    (fun _ s' => at_end s = false -> current s < current s').
Proof.
  intros H Hf. unfold synchronize. step.
  destruct (at_end s) eqn:E.
  - eapply sat_weaken.
    + apply synchronize_loop_ok; [eof | arith | intros E'; congruence].
    + intros ? ? ? _ ?. discriminate.
  - eapply sat_weaken.
    + apply synchronize_loop_ok; [eof | arith | intros _; simpl; lia].
    + intros ? ? ? _ _. arith.
Qed.

(** Between two states of one parse, leaving a non-[EOF] position for an
    [EOF] position moves the cursor. *)
Lemma later_at_end s s' :
  later s s' -> at_end s = false -> at_end s' = true ->
  current s < current s'.
Proof.
  intros (Ht & Hc & _) E E'.
  destruct (Nat.eq_dec (current s) (current s')) as [Heq|]; [|lia].
  unfold at_end in *. rewrite Ht, <- Heq in E'. congruence.
Qed.

(** [parseItem] is its [try] block and its [catch] clause. *)
Lemma parseItem_unfold BigInt depth fuel :
  parseItem BigInt depth fuel
  = try_catch
      (parseItem_try BigInt
         (nested (fun depth' => parseItem BigInt depth' fuel) depth)
         depth fuel)
      (fun _ => let! _ := synchronize fuel in ret None).
Proof. destruct depth; reflexivity. Qed.

(** What the [catch] clause makes of a [try] block that may raise. *)
Lemma try_catch_step (body : M t (option Item)) fuel s :
  eof_ahead s -> rem s <= fuel ->
  sat true body s (fun _ s' => at_end s = false -> current s < current s') ->
  item_step
    (try_catch body (fun _ => let! _ := synchronize fuel in ret None)) s.
Proof.
  intros H Hf Htry. unfold item_step, try_catch, sat in *.
  destruct (body s) as [a s'|e s'|]; [exact Htry | | exact Htry].
  destruct Htry as [_ Hl].
  pose proof (synchronize_ok fuel s' ltac:(eof) ltac:(arith)) as Hsync.
  unfold sat, bind in *.
  destruct (synchronize fuel s') as [u s2|e2 s2|];
    [|destruct Hsync as [Hd _]; discriminate Hd|exact Hsync].
  destruct Hsync as [Hl2 Hp]. simpl.
  split; [eapply later_trans; eassumption|].
  intros E. destruct (at_end s') eqn:E'.
  - pose proof (later_at_end _ _ Hl E E'). arith.
  - specialize (Hp eq_refl). arith.
Qed.

Lemma parseItem_step BigInt depth fuel s :
  eof_ahead s -> rem s + 3 <= fuel ->
  item_step (parseItem BigInt depth fuel) s.
Proof.
  revert s. induction depth as [|depth IH]; intros s H Hf;
    rewrite parseItem_unfold; (apply try_catch_step; [exact H | lia |]);
    apply parseItem_try_step with (R := fuel - 2); try exact H; try lia.
  - intros s' H' _. apply sat_throw. exact H'.
  - intros s' H' Hr. apply sat_may_throw. apply IH; [exact H' | lia].
Qed.

(** The [try] block of [parseItem], with the nested call it makes for the
    items of a module. *)
Lemma parseItem_body_step BigInt depth fuel s :
  eof_ahead s -> rem s + 3 <= fuel ->
  sat true
    (parseItem_try BigInt
       (nested (fun depth' => parseItem BigInt depth' fuel) depth) depth fuel)
    s (fun _ s' => at_end s = false -> current s < current s').
Proof.
  intros H Hf.
  apply parseItem_try_step with (R := fuel - 2); try exact H; try lia.
  intros s' H' Hr. destruct depth as [|depth]; simpl.
  - apply sat_throw. exact H'.
  - apply sat_may_throw. apply parseItem_step; [exact H' | lia].
Qed.

Lemma parse_loop_ok BigInt depth fuel items s :
  eof_ahead s -> rem s + 4 <= fuel ->
  sat false (parse_loop BigInt depth fuel items) s
    (fun _ s' => at_end s' = true).
Proof.
  revert items s. induction fuel as [|fuel IH]; intros items s H Hf; [lia|].
  simpl. step. destruct (at_end s) eqn:E.
  { apply sat_ret; [eof | exact E]. }
  step_if.
  - step. rewrite E in *. apply IH; [eof | arith].
  - eapply sat_bind; [apply parseItem_step; [eof | arith]|].
    intros item s1 Hl1 Hp1. cbv beta in Hp1. specialize (Hp1 E).
    apply IH; [eof | arith].
Qed.

(** [parse] returns a [SourceFile] whenever an [EOF] token lies ahead. *)
Lemma parse_ok BigInt depth s :
  eof_ahead s ->
  exists ast s',
    parse BigInt depth s = Ok ast s' /\ later s s' /\ at_end s' = true.
Proof.
  intros H. unfold parse.
  pose proof (parse_loop_ok BigInt depth (parse_fuel s) [] s H) as Hloop.
  specialize (Hloop ltac:(unfold parse_fuel, rem; lia)).
  unfold sat, bind, ret in *.
  destruct (parse_loop BigInt depth (parse_fuel s) [] s) as [items s'|e s'|].
  - destruct Hloop as [Hl He]. eauto.
  - destruct Hloop as [Hd _]. discriminate Hd.
  - destruct Hloop.
Qed.

(** A token array whose last element is [EOF]. *)
Lemma ends_with_EOF_ahead init eof :
  tok_type eof = TokenType.EOF -> eof_ahead (new (init ++ [eof])).
Proof.
  intros He. exists (List.length init), eof. simpl.
  split; [lia|]. split; [|exact He].
  rewrite nth_error_app2 by lia. rewrite Nat.sub_diag. reflexivity.
Qed.

End ParserFacts.

(** ** Parser: running the methods on known tokens *)

Module ParserRuns.
Import AST Parser ParserSpec ParserFacts ParserRunsSpec.

Lemma ahead_nth s tk rest :
  ahead s = tk :: rest -> nth_error (tokens s) (current s) = Some tk.
Proof.
  unfold ahead. intros H.
  assert (E : nth_error (skipn (current s) (tokens s)) 0 = Some tk)
    by (rewrite H; reflexivity).
  rewrite nth_error_skipn, Nat.add_0_r in E. exact E.
Qed.

Lemma ahead_next s tk rest : ahead s = tk :: rest -> ahead (next s) = rest.
Proof.
  unfold ahead, next. simpl. intros H.
  change (S (current s)) with (1 + current s).
  rewrite <- skipn_skipn, H. reflexivity.
Qed.

Lemma previous_next s tk rest :
  ahead s = tk :: rest -> previous_opt (next s) = Some tk.
Proof. intros H. simpl. apply (ahead_nth _ _ _ H). Qed.

Lemma isAtEnd_run s tk rest :
  ahead s = tk :: rest ->
  isAtEnd s = Ok (TokenType.eqb (tok_type tk) TokenType.EOF) s.
Proof.
  intros H. unfold isAtEnd, bind, peek. rewrite (ahead_nth _ _ _ H).
  reflexivity.
Qed.

Lemma check_run type s tk rest :
  ahead s = tk :: rest ->
  check type s
  = Ok (negb (TokenType.eqb (tok_type tk) TokenType.EOF)
        && TokenType.eqb (tok_type tk) type) s.
Proof.
  intros H. unfold check, bind. rewrite (isAtEnd_run _ _ _ H).
  destruct (TokenType.eqb (tok_type tk) TokenType.EOF); [reflexivity|].
  unfold peek. rewrite (ahead_nth _ _ _ H). reflexivity.
Qed.

Lemma advance_run s tk rest :
  ahead s = tk :: rest -> tok_type tk <> TokenType.EOF ->
  advance s = Ok (Some tk) (next s).
Proof.
  intros H Hne. unfold advance, bind. rewrite (isAtEnd_run _ _ _ H).
  apply TokenTypeFacts.eqb_neq in Hne. rewrite Hne.
  fold (next s). rewrite (previous_next _ _ _ H). reflexivity.
Qed.

Lemma match_miss types s tk rest :
  ahead s = tk :: rest -> among types tk = false ->
  match_ types s = Ok false s.
Proof.
  intros H. unfold among. induction types as [|type types IH]; simpl; intros Hm.
  - reflexivity.
  - apply orb_false_iff in Hm as [Hm1 Hm2].
    unfold bind. rewrite (check_run _ _ _ _ H), Hm1, andb_false_r.
    apply IH. exact Hm2.
Qed.

Lemma match_hit types s tk rest :
  ahead s = tk :: rest -> tok_type tk <> TokenType.EOF ->
  among types tk = true ->
  match_ types s = Ok true (next s).
Proof.
  intros H Hne. unfold among.
  induction types as [|type types IH]; simpl; intros Hm; [discriminate|].
  unfold bind. rewrite (check_run _ _ _ _ H).
  pose proof Hne as Hne'. apply TokenTypeFacts.eqb_neq in Hne'. rewrite Hne'. simpl.
  destruct (TokenType.eqb (tok_type tk) type); simpl in *.
  - rewrite (advance_run _ _ _ H Hne). reflexivity.
  - apply IH. exact Hm.
Qed.

Lemma consume_hit type message s tk rest :
  ahead s = tk :: rest -> tok_type tk = type -> type <> TokenType.EOF ->
  consume type message s = Ok (Some tk) (next s).
Proof.
  intros H <- Hne. unfold consume, bind. rewrite (check_run _ _ _ _ H).
  pose proof Hne as Hne'. apply TokenTypeFacts.eqb_neq in Hne'.
  rewrite Hne', TokenTypeFacts.eqb_refl. simpl.
  apply (advance_run _ _ _ H Hne).
Qed.

Lemma getLocation_next s tk rest :
  ahead s = tk :: rest -> getLocation (next s) = Ok (location_of tk) (next s).
Proof.
  intros H. unfold getLocation, bind, previous.
  rewrite (previous_next _ _ _ H). reflexivity.
Qed.

Lemma previous_run prop s tk rest :
  ahead s = tk :: rest -> previous prop (next s) = Ok tk (next s).
Proof.
  intros H. unfold previous. rewrite (previous_next _ _ _ H). reflexivity.
Qed.

(** *** A parenthesised literal *)

#[local] Arguments match_ : simpl never.

#[local] Arguments check : simpl never.

#[local] Arguments consume : simpl never.

Lemma closes_among tk types :
  closes_expression tk ->
  forallb (fun type => negb (TokenType.eqb TokenType.RightParen type)
                       && negb (TokenType.eqb TokenType.Semicolon type)) types
  = true ->
  among types tk = false.
Proof.
  intros Hc. unfold among.
  induction types as [|type types IH]; simpl; intros H; [reflexivity|].
  apply andb_true_iff in H as [H1 H2]. apply andb_true_iff in H1 as [Ha Hb].
  rewrite (IH H2), orb_false_r.
  destruct Hc as [-> | ->].
  - apply negb_true_iff in Ha. exact Ha.
  - apply negb_true_iff in Hb. exact Hb.
Qed.

Lemma binary_level_stops operators (operand : M t Expression) fuel s e s1
    stop rest :
  operand s = Ok e s1 -> ahead s1 = stop :: rest -> among operators stop = false ->
  binary_level operators operand (S fuel) s = Ok e s1.
Proof.
  intros Hop Ha Hm. unfold binary_level, bind. rewrite Hop. simpl.
  unfold bind. rewrite (match_miss _ _ _ _ Ha Hm). reflexivity.
Qed.

(** An exception of the operand leaves a binary level as it is. *)
Lemma binary_level_throws operators (operand : M t Expression) fuel s e s1 :
  operand s = Throw e s1 ->
  binary_level operators operand fuel s = Throw e s1.
Proof. intros Hop. unfold binary_level, bind. rewrite Hop. reflexivity. Qed.

(** The six binary levels return the result of [parseUnary] when the next
    token closes the expression. *)
Lemma parseLogicalOr_stops (unary : M t Expression) fuel s e s1 stop rest :
  unary s = Ok e s1 -> ahead s1 = stop :: rest -> closes_expression stop ->
  parseLogicalOr unary (S fuel) s = Ok e s1.
Proof.
  intros Hu Ha Hc.
  unfold parseLogicalOr, parseLogicalAnd, parseEquality, parseComparison,
    parseArithmetic, parseTerm.
  repeat (eapply binary_level_stops;
          [ | exact Ha | apply closes_among; [exact Hc | reflexivity] ]).
  exact Hu.
Qed.

Lemma parseLogicalOr_throws (unary : M t Expression) fuel s e s1 :
  unary s = Throw e s1 -> parseLogicalOr unary fuel s = Throw e s1.
Proof.
  intros Hu.
  unfold parseLogicalOr, parseLogicalAnd, parseEquality, parseComparison,
    parseArithmetic, parseTerm.
  repeat apply binary_level_throws. exact Hu.
Qed.

(** [parseUnary] is its body, the nested calls at one activation less. *)
Lemma parseUnary_unfold BigInt depth fuel :
  parseUnary BigInt depth fuel
  = (let! isUnary := match_ [TokenType.Not; TokenType.Minus] in
     if isUnary then
       let! prev := previous "value" in
       let! right :=
         nested (fun depth' => parseUnary BigInt depth' fuel) depth in
       let! location := getLocation in
       ret (UnaryExpression (tok_value prev) right location)
     else
       parseCall BigInt
         (nested (fun depth' => parseExpression BigInt depth' fuel) depth)
         fuel).
Proof. destruct depth; reflexivity. Qed.

(** [parseUnary] returns the result of [parsePrimary] when the first token
    is no prefix operator and the next one closes the expression. *)
Lemma parseUnary_primary BigInt depth fuel s first more e s1 stop rest :
  ahead s = first :: more ->
  among [TokenType.Not; TokenType.Minus] first = false ->
  parsePrimary BigInt
    (nested (fun depth' => parseExpression BigInt depth' (S fuel)) depth) s
  = Ok e s1 ->
  ahead s1 = stop :: rest -> closes_expression stop ->
  parseUnary BigInt depth (S fuel) s = Ok e s1.
Proof.
  intros Hs Hfirst Hp Ha Hc.
  rewrite parseUnary_unfold. unfold bind at 1.
  rewrite (match_miss _ _ _ _ Hs Hfirst).
  unfold parseCall, bind. rewrite Hp. simpl. unfold bind.
  rewrite (match_miss _ _ _ _ Ha)
    by (apply closes_among; [exact Hc | reflexivity]).
  rewrite (match_miss _ _ _ _ Ha)
    by (apply closes_among; [exact Hc | reflexivity]).
  reflexivity.
Qed.

(** [n] opening parentheses, a boolean literal, [n] closing parentheses:
    [parseExpression] returns the literal when the call stack has room for
    the [n] nested activations. *)
Lemma parseExpression_parens BigInt n :
  forall depth fuel s opens b closes stop rest,
    List.length opens = n -> List.length closes = n ->
    Forall (fun tk => tok_type tk = TokenType.LeftParen) opens ->
    Forall (fun tk => tok_type tk = TokenType.RightParen) closes ->
    tok_type b = TokenType.BOOLEAN -> closes_expression stop ->
    ahead s = (opens ++ b :: closes ++ stop :: rest)%list ->
    n <= depth -> 1 <= fuel ->
    exists s',
      parseExpression BigInt depth fuel s
      = Ok (BooleanLiteral (String.eqb (tok_value b) "true") (location_of b)) s'
      /\ tokens s' = tokens s /\ ahead s' = stop :: rest.
Proof.
  induction n as [|n IH];
    intros depth fuel s opens b closes stop rest Ho Hc Fo Fc Hb Hstop Ha Hd Hf.
  - destruct opens; [|discriminate]. destruct closes; [|discriminate].
    simpl in Ha. destruct fuel as [|fuel]; [lia|].
    exists (next s). split; [|split; [reflexivity|]].
    + unfold parseExpression.
      eapply parseLogicalOr_stops;
        [ | apply (ahead_next _ _ _ Ha) | exact Hstop].
      eapply parseUnary_primary;
        [exact Ha | unfold among; rewrite Hb; reflexivity | |
         apply (ahead_next _ _ _ Ha) | exact Hstop].
      unfold parsePrimary, bind.
      rewrite (match_hit _ _ _ _ Ha)
        by (try (unfold among); rewrite Hb; try reflexivity; discriminate).
      rewrite (previous_run _ _ _ _ Ha), (getLocation_next _ _ _ Ha).
      reflexivity.
    + apply (ahead_next _ _ _ Ha).
  - destruct opens as [|lp opens]; [discriminate|].
    assert (Hlast : exists closes0 rp0, closes = (closes0 ++ [rp0])%list).
    { destruct closes as [|x l] using rev_ind; [discriminate | eauto]. }
    destruct Hlast as (closes0 & rp0 & ->).
    rewrite length_app in Hc. simpl in Hc, Ho.
    apply Forall_app in Fc as [Fc Frp].
    inversion Fo as [|? ? Hlp Fo']; subst.
    inversion Frp as [|? ? Hrp _]; subst.
    simpl in Ha. rewrite <- app_assoc in Ha. simpl in Ha.
    destruct fuel as [|fuel]; [lia|].
    destruct depth as [|depth]; [lia|].
    pose proof (ahead_next _ _ _ Ha) as Hin.
    destruct (IH depth (S fuel) (next s) opens b closes0 rp0 (stop :: rest))
      as (s1 & Hrun & Htok & Ha1);
      [lia | lia | exact Fo' | exact Fc | exact Hb | left; exact Hrp
      | exact Hin | lia | lia |].
    exists (next s1). split; [|split].
    + unfold parseExpression.
      eapply parseLogicalOr_stops;
        [ | apply (ahead_next _ _ _ Ha1) | exact Hstop].
      eapply parseUnary_primary;
        [exact Ha | unfold among; rewrite Hlp; reflexivity | |
         apply (ahead_next _ _ _ Ha1) | exact Hstop].
      unfold parsePrimary, bind.
      rewrite (match_miss _ _ _ _ Ha) by (unfold among; rewrite Hlp; reflexivity).
      rewrite (match_miss _ _ _ _ Ha) by (unfold among; rewrite Hlp; reflexivity).
      rewrite (match_hit _ _ _ _ Ha)
        by (try (unfold among); rewrite Hlp; try reflexivity; discriminate).
      cbn [nested]. rewrite Hrun.
      rewrite (consume_hit _ _ _ _ _ Ha1 Hrp) by discriminate.
      reflexivity.
    + simpl. exact Htok.
    + apply (ahead_next _ _ _ Ha1).
Qed.

(** More opening parentheses than the call stack has room for nested
    activations: the call [parsePrimary] makes after the last one that fits
    raises [RangeError], which leaves [parseExpression] with the cursor
    behind that parenthesis. *)
Lemma parseExpression_overflow BigInt depth :
  forall fuel s opens rest,
    depth < List.length opens ->
    Forall (fun tk => tok_type tk = TokenType.LeftParen) opens ->
    ahead s = (opens ++ rest)%list ->
    parseExpression BigInt depth fuel s
    = Throw (RangeError "Maximum call stack size exceeded")
        (mk (tokens s) (current s + S depth)).
Proof.
  induction depth as [|depth IH]; intros fuel s opens rest Hd Fo Ha.
  all: destruct opens as [|lp opens]; [simpl in Hd; lia|].
  all: inversion Fo as [|? ? Hlp Fo']; subst; simpl in Ha.
  all: unfold parseExpression; apply parseLogicalOr_throws.
  all: rewrite parseUnary_unfold; unfold bind at 1.
  all: rewrite (match_miss _ _ _ _ Ha)
         by (unfold among; rewrite Hlp; reflexivity).
  all: unfold parseCall, bind at 1; unfold parsePrimary, bind.
  all: rewrite (match_miss _ _ _ _ Ha)
         by (unfold among; rewrite Hlp; reflexivity).
  all: rewrite (match_miss _ _ _ _ Ha)
         by (unfold among; rewrite Hlp; reflexivity).
  all: rewrite (match_hit _ _ _ _ Ha)
         by (try (unfold among); rewrite Hlp; try reflexivity; discriminate).
  all: cbn [nested].
  - unfold stack_overflow, throw, next. rewrite Nat.add_1_r. reflexivity.
  - rewrite (IH fuel (next s) opens rest);
      [|simpl in Hd; lia|exact Fo'|apply (ahead_next _ _ _ Ha)].
    unfold next. cbn [tokens current]. f_equal. f_equal. lia.
Qed.

(** *** A constant declaration around it *)

Lemma parseIdentifier_run s tk rest :
  ahead s = tk :: rest -> tok_type tk = TokenType.IDENTIFIER ->
  parseIdentifier s = Ok (identifier_of tk) (next s).
Proof.
  intros Ha Hty. unfold parseIdentifier, bind.
  rewrite (consume_hit _ _ _ _ _ Ha Hty) by discriminate.
  simpl. rewrite (getLocation_next _ _ _ Ha). reflexivity.
Qed.

Lemma parseType_run s tk rest :
  ahead s = tk :: rest -> tok_type tk = TokenType.IDENTIFIER ->
  parseType s = Ok (type_of tk) (next s).
Proof.
  intros Ha Hty. unfold parseType, bind.
  rewrite (match_hit _ _ _ _ Ha)
    by (try (unfold among); rewrite Hty; try reflexivity; discriminate).
  rewrite (previous_run _ _ _ _ Ha). unfold type_of.
  destruct (includes primitive_names (tok_value tk)); unfold bind;
    rewrite !(getLocation_next _ _ _ Ha); reflexivity.
Qed.

(** *** Recovery over tokens that are no synchronisation point *)

Lemma peek_run prop s tk rest :
  ahead s = tk :: rest -> peek prop s = Ok tk s.
Proof. intros H. unfold peek. rewrite (ahead_nth _ _ _ H). reflexivity. Qed.

Lemma ahead_skip s (passed left : list Token) :
  ahead s = (passed ++ left)%list ->
  ahead (mk (tokens s) (current s + List.length passed)) = left.
Proof.
  unfold ahead. cbn [tokens current]. intros H.
  rewrite Nat.add_comm, <- skipn_skipn, H.
  rewrite skipn_app, Nat.sub_diag, skipn_all. reflexivity.
Qed.

(** From behind a token [p] that is no semicolon, the loop of [synchronize]
    passes the tokens that are neither a semicolon nor a keyword of its list
    and stops behind the semicolon that follows them. *)
Lemma synchronize_loop_skips skipped :
  forall fuel s p semi stop rest,
    ahead s = (p :: skipped ++ semi :: stop :: rest)%list ->
    tok_type p <> TokenType.Semicolon ->
    Forall (fun tk => tok_type tk <> TokenType.EOF
                      /\ tok_type tk <> TokenType.Semicolon
                      /\ starts_declaration (tok_type tk) = false) skipped ->
    tok_type semi = TokenType.Semicolon ->
    List.length skipped + 2 <= fuel ->
    exists s',
      synchronize_loop fuel (next s) = Ok tt s'
      /\ tokens s' = tokens s /\ ahead s' = stop :: rest.
Proof.
  induction skipped as [|tk skipped IH];
    intros fuel s p semi stop rest Ha Hp Fs Hsemi Hf.
  - simpl in Ha. pose proof (ahead_next _ _ _ Ha) as Ha1.
    destruct fuel as [|[|fuel]]; try (simpl in Hf; lia).
    exists (next (next s)). split; [|split; [reflexivity|]].
    + cbn [synchronize_loop]. unfold bind at 1.
      rewrite (isAtEnd_run _ _ _ Ha1), Hsemi.
      change (TokenType.eqb TokenType.Semicolon TokenType.EOF) with false.
      cbv beta iota. unfold bind at 1.
      rewrite (previous_run _ _ _ _ Ha).
      apply TokenTypeFacts.eqb_neq in Hp. rewrite Hp.
      unfold bind at 1. rewrite (peek_run _ _ _ _ Ha1), Hsemi.
      cbn [starts_declaration]. unfold bind at 1.
      rewrite (advance_run _ _ _ Ha1) by (rewrite Hsemi; discriminate).
      unfold bind at 1.
      destruct (isAtEnd (next (next s))) as [atEnd sx|e sx|] eqn:E.
      * unfold isAtEnd, bind, peek in E.
        rewrite (ahead_nth _ _ _ (ahead_next _ _ _ Ha1)) in E.
        injection E as <- <-.
        destruct (TokenType.eqb (tok_type stop) TokenType.EOF);
          [reflexivity|].
        unfold bind at 1. rewrite (previous_run _ _ _ _ Ha1), Hsemi.
        reflexivity.
      * unfold isAtEnd, bind, peek in E.
        rewrite (ahead_nth _ _ _ (ahead_next _ _ _ Ha1)) in E. discriminate E.
      * unfold isAtEnd, bind, peek in E.
        rewrite (ahead_nth _ _ _ (ahead_next _ _ _ Ha1)) in E. discriminate E.
    + apply (ahead_next _ _ _ Ha1).
  - simpl in Ha. pose proof (ahead_next _ _ _ Ha) as Ha1.
    inversion Fs as [|? ? (Heof & Hns & Hdecl) Fs']; subst.
    destruct fuel as [|fuel]; [simpl in Hf; lia|].
    destruct (IH fuel (next s) tk semi stop rest Ha1 Hns Fs' Hsemi)
      as (s' & Hrun & Htok & Ha'); [simpl in Hf; lia|].
    exists s'. split; [|split; [exact Htok | exact Ha']].
    cbn [synchronize_loop]. unfold bind at 1.
    rewrite (isAtEnd_run _ _ _ Ha1).
    apply TokenTypeFacts.eqb_neq in Heof. rewrite Heof.
    cbv beta iota. unfold bind at 1.
    rewrite (previous_run _ _ _ _ Ha).
    apply TokenTypeFacts.eqb_neq in Hp. rewrite Hp.
    unfold bind at 1. rewrite (peek_run _ _ _ _ Ha1), Hdecl.
    unfold bind at 1.
    rewrite (advance_run _ _ _ Ha1)
      by (apply TokenTypeFacts.eqb_neq; exact Heof).
    exact Hrun.
Qed.

Lemma synchronize_skips skipped fuel s p semi stop rest :
  ahead s = (p :: skipped ++ semi :: stop :: rest)%list ->
  tok_type p <> TokenType.EOF -> tok_type p <> TokenType.Semicolon ->
  Forall (fun tk => tok_type tk <> TokenType.EOF
                    /\ tok_type tk <> TokenType.Semicolon
                    /\ starts_declaration (tok_type tk) = false) skipped ->
  tok_type semi = TokenType.Semicolon ->
  List.length skipped + 2 <= fuel ->
  exists s',
    synchronize fuel s = Ok tt s'
    /\ tokens s' = tokens s /\ ahead s' = stop :: rest.
Proof.
  intros Ha Hne Hp Fs Hsemi Hf. unfold synchronize, bind.
  rewrite (advance_run _ _ _ Ha Hne).
  apply (synchronize_loop_skips skipped fuel s p semi stop rest);
    assumption.
Qed.

(** *** A constant declaration around the literal *)

Section NestedConst.

Variable BigInt : string -> option Z.

(** The room on the call stack. *)
Variable depth : nat.

Variables kw x colon ty eq b semi eof : Token.

Variables opens closes : list Token.

Hypothesis kw_type : tok_type kw = TokenType.CONST.

Hypothesis x_type : tok_type x = TokenType.IDENTIFIER.

Hypothesis colon_type : tok_type colon = TokenType.Colon.

Hypothesis ty_type : tok_type ty = TokenType.IDENTIFIER.

Hypothesis eq_type : tok_type eq = TokenType.Equal.

Hypothesis b_type : tok_type b = TokenType.BOOLEAN.

Hypothesis semi_type : tok_type semi = TokenType.Semicolon.

Hypothesis eof_type : tok_type eof = TokenType.EOF.

Hypothesis opens_type :
  Forall (fun tk => tok_type tk = TokenType.LeftParen) opens.

Hypothesis closes_type :
  Forall (fun tk => tok_type tk = TokenType.RightParen) closes.

Hypothesis balanced : List.length opens = List.length closes.

Lemma parseConst_nested fuel s :
  ahead s = (x :: colon :: ty :: eq :: opens ++ b :: closes ++ [semi; eof])%list ->
  List.length opens <= depth -> 1 <= fuel ->
  exists s',
    parseConst BigInt depth fuel s
    = Ok (mkConst (identifier_of x) (type_of ty)
            (BooleanLiteral (String.eqb (tok_value b) "true") (location_of b))
            private (location_of semi)) s'
    /\ ahead s' = [eof].
Proof.
  intros Ha Hd Hf.
  pose proof (ahead_next _ _ _ Ha) as Ha1.
  pose proof (ahead_next _ _ _ Ha1) as Ha2.
  pose proof (ahead_next _ _ _ Ha2) as Ha3.
  pose proof (ahead_next _ _ _ Ha3) as Ha4.
  destruct (parseExpression_parens BigInt (List.length opens) depth fuel
              (next (next (next (next s)))) opens b closes semi [eof])
    as (s5 & Hrun & _ & Ha5);
    [reflexivity | symmetry; exact balanced | exact opens_type
    | exact closes_type | exact b_type | right; exact semi_type
    | exact Ha4 | exact Hd | exact Hf |].
  exists (next s5). split; [|apply (ahead_next _ _ _ Ha5)].
  unfold parseConst, bind.
  rewrite (parseIdentifier_run _ _ _ Ha x_type).
  rewrite (consume_hit _ _ _ _ _ Ha1 colon_type) by discriminate.
  rewrite (parseType_run _ _ _ Ha2 ty_type).
  rewrite (consume_hit _ _ _ _ _ Ha3 eq_type) by discriminate.
  rewrite Hrun.
  rewrite (consume_hit _ _ _ _ _ Ha5 semi_type) by discriminate.
  rewrite (getLocation_next _ _ _ Ha5). reflexivity.
Qed.

(** With more parentheses than the stack has room for, [parseConst] is left
    by the [RangeError], the cursor inside the parentheses. *)
Lemma parseConst_overflow fuel s :
  ahead s = (x :: colon :: ty :: eq :: opens ++ b :: closes ++ [semi; eof])%list ->
  depth < List.length opens ->
  parseConst BigInt depth fuel s
  = Throw (RangeError "Maximum call stack size exceeded")
      (mk (tokens s) (current s + 4 + S depth)).
Proof.
  intros Ha Hd.
  pose proof (ahead_next _ _ _ Ha) as Ha1.
  pose proof (ahead_next _ _ _ Ha1) as Ha2.
  pose proof (ahead_next _ _ _ Ha2) as Ha3.
  pose proof (ahead_next _ _ _ Ha3) as Ha4.
  unfold parseConst, bind.
  rewrite (parseIdentifier_run _ _ _ Ha x_type).
  rewrite (consume_hit _ _ _ _ _ Ha1 colon_type) by discriminate.
  rewrite (parseType_run _ _ _ Ha2 ty_type).
  rewrite (consume_hit _ _ _ _ _ Ha3 eq_type) by discriminate.
  rewrite (parseExpression_overflow BigInt depth fuel _ opens
             (b :: closes ++ [semi; eof]) Hd opens_type Ha4).
  unfold next. cbn [tokens current]. f_equal. f_equal. lia.
Qed.

Lemma parseItem_const fuel s0 :
  ahead s0
  = kw :: (x :: colon :: ty :: eq :: opens ++ b :: closes ++ [semi; eof])%list ->
  parseItem BigInt depth fuel s0
  = match parseConst BigInt depth fuel (next s0) with
    | Ok n s1 => Ok (Some (ConstItem n)) s1
    | Throw _ s1 => (let! _ := synchronize fuel in ret None) s1
    | OutOfFuel => OutOfFuel
    end.
Proof.
  intros Ha.
  assert (Hmiss : forall types, among types kw
                    = existsb (TokenType.eqb TokenType.CONST) types).
  { intros types. unfold among. rewrite kw_type. reflexivity. }
  rewrite parseItem_unfold. unfold try_catch, parseItem_try, bind.
  repeat (rewrite (match_miss _ _ _ _ Ha) by (rewrite Hmiss; reflexivity)).
  rewrite (match_hit _ _ _ _ Ha)
    by (try rewrite Hmiss; try rewrite kw_type; try reflexivity; discriminate).
  destruct (parseConst BigInt depth fuel (next s0)); reflexivity.
Qed.

(** The loop of [parse] on the file of the constant, given what [parseItem]
    makes of it. *)
Lemma parse_const_file item :
  let s0 := new (nested_const kw x colon ty eq opens b closes semi eof) in
  (forall fuel, List.length opens + List.length closes + 4 <= fuel ->
     exists s1, parseItem BigInt depth fuel s0 = Ok item s1
                /\ ahead s1 = [eof]) ->
  exists s',
    parse BigInt depth s0
    = Ok (mkSourceFile match item with Some it => [it] | None => [] end
            (mkLoc 1 1)) s'.
Proof.
  intros s0 Hitem.
  assert (Ha : ahead s0
               = kw :: (x :: colon :: ty :: eq :: opens ++ b :: closes ++ [semi; eof])%list)
    by reflexivity.
  assert (Hfuel : exists f, parse_fuel s0 = S (S f)
                            /\ List.length opens + List.length closes + 4 <= S f).
  { exists (List.length opens + List.length closes + 10). split; [|lia].
    unfold parse_fuel, s0, nested_const. simpl. rewrite length_app. simpl.
    rewrite length_app. simpl. lia. }
  destruct Hfuel as (f & Hfuel & Hf).
  destruct (Hitem (S f) Hf) as (s1 & Hrun & Ha1).
  exists s1. unfold parse, bind. rewrite Hfuel.
  change (parse_loop BigInt depth (S (S f)) [])
    with (let! atEnd := isAtEnd in
          if atEnd then ret []
          else
            let! newline := check TokenType.Newline in
            if newline then
              let! _ := advance in parse_loop BigInt depth (S f) []
            else
              let! item := parseItem BigInt depth (S f) in
              parse_loop BigInt depth (S f)
                (match item with
                 | Some it => ([] ++ [it])%list
                 | None => []
                 end)).
  unfold bind.
  rewrite (isAtEnd_run _ _ _ Ha), kw_type.
  change (TokenType.eqb TokenType.CONST TokenType.EOF) with false.
  cbv beta iota.
  rewrite (check_run _ _ _ _ Ha), kw_type.
  change (negb (TokenType.eqb TokenType.CONST TokenType.EOF)
          && TokenType.eqb TokenType.CONST TokenType.Newline) with false.
  cbv beta iota.
  rewrite Hrun. simpl. unfold bind.
  rewrite (isAtEnd_run _ _ _ Ha1), eof_type.
  destruct item; reflexivity.
Qed.

Lemma parse_nested_const :
  List.length opens <= depth ->
  exists s',
    parse BigInt depth
      (new (nested_const kw x colon ty eq opens b closes semi eof))
    = Ok (mkSourceFile [nested_const_item x ty b semi] (mkLoc 1 1)) s'.
Proof.
  intros Hd.
  apply (parse_const_file (Some (nested_const_item x ty b semi))).
  intros fuel Hf.
  set (s0 := new (nested_const kw x colon ty eq opens b closes semi eof)).
  assert (Ha : ahead s0
               = kw :: (x :: colon :: ty :: eq :: opens ++ b :: closes ++ [semi; eof])%list)
    by reflexivity.
  destruct (parseConst_nested fuel (next s0) (ahead_next _ _ _ Ha) Hd)
    as (s1 & Hconst & Ha1); [lia|].
  exists s1. split; [|exact Ha1].
  rewrite (parseItem_const fuel s0 Ha), Hconst. reflexivity.
Qed.

(** With more parentheses than the stack has room for, the [RangeError] is
    caught by [parseItem], [synchronize] passes the rest of the declaration
    and [parse] returns a file without the constant. *)
Lemma parse_nested_overflow :
  depth < List.length opens ->
  exists s',
    parse BigInt depth
      (new (nested_const kw x colon ty eq opens b closes semi eof))
    = Ok (mkSourceFile [] (mkLoc 1 1)) s'.
Proof.
  intros Hd.
  apply (parse_const_file None).
  intros fuel Hf.
  set (s0 := new (nested_const kw x colon ty eq opens b closes semi eof)).
  assert (Ha : ahead s0
               = kw :: (x :: colon :: ty :: eq :: opens ++ b :: closes ++ [semi; eof])%list)
    by reflexivity.
  pose proof (ahead_next _ _ _ Ha) as Ha1.
  rewrite (parseItem_const fuel s0 Ha), (parseConst_overflow fuel _ Ha1 Hd).
  set (s1 := mk (tokens (next s0)) (current (next s0) + 4 + S depth)).
  assert (Hsplit : (x :: colon :: ty :: eq :: opens ++ b :: closes ++ [semi; eof]
                    = (x :: colon :: ty :: eq :: firstn (S depth) opens)
                        ++ skipn (S depth) opens ++ b :: closes ++ [semi; eof])%list).
  { simpl. rewrite app_assoc, firstn_skipn. reflexivity. }
  rewrite Hsplit in Ha1. apply ahead_skip in Ha1.
  assert (Hlen : current (next s0)
                 + List.length (x :: colon :: ty :: eq :: firstn (S depth) opens)
                 = current (next s0) + 4 + S depth).
  { simpl. rewrite length_firstn. lia. }
  rewrite Hlen in Ha1. fold s1 in Ha1.
  assert (Hplain : Forall (fun tk => tok_type tk <> TokenType.EOF
                             /\ tok_type tk <> TokenType.Semicolon
                             /\ starts_declaration (tok_type tk) = false)
                     (skipn (S depth) opens ++ b :: closes)%list).
  { apply Forall_app. split; [|constructor].
    - apply Forall_forall. intros tk Hin.
      assert (Hin' : In tk opens).
      { rewrite <- (firstn_skipn (S depth) opens). apply in_or_app.
        right. exact Hin. }
      pose proof opens_type as Ho. rewrite Forall_forall in Ho.
      rewrite (Ho tk Hin'). repeat split; try discriminate.
    - rewrite b_type. repeat split; try discriminate.
    - eapply Forall_impl; [|exact closes_type].
      intros tk Htk. simpl in Htk. rewrite Htk.
      repeat split; try discriminate. }
  remember (skipn (S depth) opens ++ b :: closes)%list as mid eqn:Emid.
  assert (Ha1' : ahead s1 = (mid ++ [semi; eof])%list).
  { rewrite Ha1, Emid, <- app_assoc. reflexivity. }
  assert (Hmid : List.length mid
                 <= List.length opens + List.length closes + 1).
  { rewrite Emid, length_app, length_skipn. simpl. lia. }
  destruct mid as [|p skipped].
  { destruct (skipn (S depth) opens); discriminate Emid. }
  inversion Hplain as [|? ? (Hpe & Hps & _) Hskipped]; subst.
  destruct (synchronize_skips skipped fuel s1 p semi eof [] Ha1' Hpe Hps
              Hskipped semi_type) as (s' & Hsync & _ & Ha').
  { simpl in Hmid. lia. }
  exists s'. split; [|exact Ha'].
  unfold bind. rewrite Hsync. reflexivity.
Qed.

End NestedConst.

End ParserRuns.

(** ** Validator: what [validateStruct] reports *)

Module ValidatorFacts.
Import AST Compiler ValidatorSpec.

#[local] Set Warnings "-clear-no-such-hyp".

Lemma seen_before f earlier :
  bool_decide (id_name (field_name f) ∈ names earlier)
  = existsb (same_name f) earlier.
Proof.
  unfold names. induction earlier as [|g earlier IH]; simpl.
  - apply bool_decide_eq_false. set_solver.
  - unfold same_name at 1.
    destruct (String.eqb_spec (id_name (field_name f)) (id_name (field_name g)))
      as [E|E]; simpl.
    + apply bool_decide_eq_true. set_solver.
    + rewrite <- IH. apply bool_decide_ext. set_solver.
Qed.

Lemma names_snoc earlier f :
  {[ id_name (field_name f) ]} ∪ names earlier = names (earlier ++ [f]).
Proof.
  unfold names. rewrite map_app, list_to_set_app_L. simpl. set_solver.
Qed.

Lemma check_field_step struct earlier errors f :
  check_field struct (errors, names earlier) f
  = ((errors ++ map (duplicate_field_error struct)
                  (if existsb (same_name f) earlier then [f] else []))%list,
     names (earlier ++ [f])).
Proof.
  unfold check_field. rewrite seen_before, names_snoc.
  destruct (existsb (same_name f) earlier); simpl.
  - reflexivity.
  - rewrite app_nil_r. reflexivity.
Qed.

Lemma check_fields struct fields earlier errors :
  fold_left (check_field struct) fields (errors, names earlier)
  = ((errors ++ map (duplicate_field_error struct) (repeats earlier fields))%list,
     names (earlier ++ fields)).
Proof.
  revert earlier errors. induction fields as [|f rest IH]; intros earlier errors.
  - simpl. rewrite !app_nil_r. reflexivity.
  - change (fold_left (check_field struct) (f :: rest) (errors, names earlier))
      with (fold_left (check_field struct) rest
              (check_field struct (errors, names earlier) f)).
    rewrite check_field_step, IH.
    simpl repeats. rewrite map_app, <- !app_assoc. reflexivity.
Qed.

Lemma validateStruct_spec struct :
  validateStruct struct
  = ((if Nat.eqb (List.length (struct_fields struct)) 0
      then [empty_struct_error struct] else [])
       ++ map (duplicate_field_error struct)
            (repeats [] (struct_fields struct)))%list.
Proof.
  unfold validateStruct.
  change (∅ : gset string) with (names []).
  rewrite check_fields. reflexivity.
Qed.

(** A field after one of the same name is among the repeats. *)
Lemma repeats_In seen earlier field later :
  existsb (same_name field) (seen ++ earlier) = true ->
  In field (repeats seen (earlier ++ field :: later)).
Proof.
  revert seen. induction earlier as [|f earlier IH]; intros seen H.
  - simpl. rewrite app_nil_r in H. rewrite H. left. reflexivity.
  - simpl. apply in_or_app. right. apply IH.
    rewrite <- app_assoc. exact H.
Qed.

Lemma duplicate_not_no_field struct f :
  ~ reports_no_field (duplicate_field_error struct f).
Proof. intros [name H]. simpl in H. discriminate H. Qed.

End ValidatorFacts.

(** ** The store is only read *)

Module StoreFacts.
Import AST Compiler.

(** A loop whose iterations leave the store alone leaves it alone. *)
Lemma for_range_frame {B} (body : nat -> B -> Store.ST B)
    (f : nat -> B -> B) h n i acc :
  (forall k b, body k b h = (f k b, h)) ->
  Store.for_range i n body acc h
  = (fold_left (fun b k => f k b) (seq i n) acc, h).
Proof.
  intros Hbody. revert i acc. induction n as [|n IH]; intros i acc.
  - reflexivity.
  - simpl. unfold Store.and_then. rewrite Hbody. apply IH.
Qed.

(** Walking an array by index visits its elements in order. *)
Lemma fold_by_index {A B} (g : B -> A -> B) (pre l : list A) acc :
  fold_left
    (fun b k => match nth_error (pre ++ l) k with
                | Some x => g b x
                | None => b
                end)
    (seq (List.length pre) (List.length l)) acc
  = fold_left g l acc.
Proof.
  revert pre acc. induction l as [|x l IH]; intros pre acc.
  - reflexivity.
  - simpl. rewrite nth_error_app2 by lia. rewrite Nat.sub_diag. simpl.
    specialize (IH (pre ++ [x])%list (g acc x)).
    rewrite <- app_assoc in IH. simpl in IH.
    rewrite length_app in IH. simpl in IH.
    rewrite Nat.add_1_r in IH. exact IH.
Qed.

Lemma fold_by_index0 {A B} (g : B -> A -> B) (l : list A) acc :
  fold_left
    (fun b k => match nth_error l k with
                | Some x => g b x
                | None => b
                end)
    (seq 0 (List.length l)) acc
  = fold_left g l acc.
Proof. apply (fold_by_index g [] l acc). Qed.

Lemma validateStruct_frame i struct h :
  Store.struct_at i h = Some struct ->
  Store.validateStruct i h = (validateStruct struct, h).
Proof.
  intros Hs. unfold Store.validateStruct, Store.and_then, Store.read, Store.pure.
  unfold Store.fields_length. rewrite Hs. unfold validateStruct.
  destruct (Nat.eqb (List.length (struct_fields struct)) 0);
    rewrite ?Hs; cbv beta iota zeta;
    (rewrite for_range_frame with
       (f := fun j acc => match nth_error (struct_fields struct) j with
                          | Some field => check_field struct acc field
                          | None => acc
                          end);
     [ rewrite fold_by_index0; reflexivity
     | intros k b; unfold Store.field_at; rewrite Hs; reflexivity ]).
Qed.

Lemma validateAST_frame h : Store.validateAST h = (validateAST h, h).
Proof.
  unfold Store.validateAST, Store.and_then, Store.read. cbv beta iota zeta.
  rewrite for_range_frame with
    (f := fun i hasStruct => match nth_error (file_items h) i with
                             | Some item => if is_struct item then true
                                            else hasStruct
                             | None => hasStruct
                             end)
    by reflexivity.
  rewrite fold_by_index0.
  rewrite for_range_frame with
    (f := fun i errors => match nth_error (file_items h) i with
                          | Some (StructItem struct) =>
                              (errors ++ validateStruct struct)%list
                          | _ => errors
                          end).
  - rewrite (fold_by_index0
               (fun errors item => match item with
                                   | StructItem struct =>
                                       (errors ++ validateStruct struct)%list
                                   | _ => errors
                                   end)).
    reflexivity.
  - intros k b. unfold Store.item_at.
    destruct (nth_error (file_items h) k) as [item|] eqn:E; [|reflexivity].
    destruct item; try reflexivity.
    unfold Store.and_then.
    rewrite (validateStruct_frame k node); [reflexivity|].
    unfold Store.struct_at, Store.item_at. rewrite E. reflexivity.
Qed.

Lemma generateStructWAT_frame i struct h :
  Store.struct_at i h = Some struct ->
  Store.generateStructWAT i h = (generateStructWAT struct, h).
Proof.
  intros Hs.
  unfold Store.generateStructWAT, Store.and_then, Store.read, Store.pure.
  unfold Store.fields_length. rewrite Hs. cbv beta iota zeta.
  rewrite for_range_frame with
    (f := fun j wat => match nth_error (struct_fields struct) j with
                       | Some field => wat ++ param_line field
                       | None => wat
                       end).
  - rewrite (fold_by_index0 (fun wat field => wat ++ param_line field)).
    reflexivity.
  - intros k b. unfold Store.field_at. rewrite Hs. reflexivity.
Qed.

Lemma generateWASMCode_frame h :
  Store.generateWASMCode h = (generateWASMCode h, h).
Proof.
  unfold Store.generateWASMCode, Store.and_then, Store.read.
  cbv beta iota zeta.
  rewrite for_range_frame with
    (f := fun i watCode => match nth_error (file_items h) i with
                           | Some (StructItem struct) =>
                               watCode ++ generateStructWAT struct
                           | _ => watCode
                           end).
  - rewrite (fold_by_index0
               (fun watCode item => match item with
                                    | StructItem struct =>
                                        watCode ++ generateStructWAT struct
                                    | _ => watCode
                                    end)).
    reflexivity.
  - intros k b. unfold Store.item_at.
    destruct (nth_error (file_items h) k) as [item|] eqn:E; [|reflexivity].
    destruct item; try reflexivity.
    unfold Store.and_then.
    rewrite (generateStructWAT_frame k node); [reflexivity|].
    unfold Store.struct_at, Store.item_at. rewrite E. reflexivity.
Qed.

End StoreFacts.

(** ** The pipeline: which results [compileMapping] can return *)

Module PipelineFacts.
Import AST Compiler PipelineSpec.

(** The lexer hands the parser an array that ends in [EOF]. *)
Lemma lexed_tokens_end src tokens ls :
  Lexer.tokenize (Lexer.new src) = Ok tokens ls ->
  ParserSpec.eof_ahead (Parser.new tokens).
Proof.
  intros H. pose proof (LexerFacts.tokenize_total (Lexer.new src)) as Ht.
  rewrite H in Ht. destruct Ht as (_ & _ & init & -> & _).
  apply ParserFacts.ends_with_EOF_ahead. reflexivity.
Qed.

Lemma compileMapping_cases host src :
  match Lexer.tokenize (Lexer.new src) with
  | Ok tokens _ =>
      exists ast ps,
        Parser.parse (BigInt host) (callStack host) (Parser.new tokens)
        = Ok ast ps
        /\ compileMapping host new src = Some (after_parse host ast)
  | Throw e _ =>
      LexerSpec.lexical_error e
      /\ compileMapping host new src
         = Some (compilation_failed host (exn_message e))
  | OutOfFuel => False
  end.
Proof.
  pose proof (LexerFacts.tokenize_total (Lexer.new src)) as Ht.
  unfold compileMapping.
  destruct (Lexer.tokenize (Lexer.new src)) as [tokens ls|e ls|] eqn:E.
  - destruct (ParserFacts.parse_ok (BigInt host) (callStack host)
                (Parser.new tokens) (lexed_tokens_end _ _ _ E))
      as (ast & ps & Hp & _).
    exists ast, ps. split; [exact Hp|]. rewrite Hp. unfold after_parse.
    destruct (0 <? List.length (validateAST ast)); [reflexivity|].
    change (compileToWASM host new (generateWASMCode ast))
      with (createMinimalWASMModule host).
    destruct (createMinimalWASMModule host); reflexivity.
  - split; [exact Ht | reflexivity].
  - exact Ht.
Qed.

Lemma after_parse_shape host ast :
  failure (after_parse host ast) \/ fallback_success (after_parse host ast).
Proof.
  unfold after_parse.
  destruct (0 <? List.length (validateAST ast)) eqn:E.
  - left. split; [reflexivity|]. split; [reflexivity|].
    simpl. intros Hnil. rewrite Hnil in E. discriminate E.
  - destruct (createMinimalWASMModule host) as [m|w] eqn:Em.
    + left. split; [reflexivity|]. split; [reflexivity | discriminate].
    + right. exists w. split; [exact Em|]. repeat split; reflexivity.
Qed.

Lemma compileMapping_shape host src :
  exists r, compileMapping host new src = Some r
            /\ (failure r \/ fallback_success r).
Proof.
  pose proof (compileMapping_cases host src) as H.
  destruct (Lexer.tokenize (Lexer.new src)) as [tokens ls|e ls|].
  - destruct H as (ast & ps & _ & ->). eexists. split; [reflexivity|].
    apply after_parse_shape.
  - destruct H as [_ ->]. eexists. split; [reflexivity|].
    left. split; [reflexivity|]. split; [reflexivity | discriminate].
  - destruct H.
Qed.

End PipelineFacts.

(** ** The specification's claims, settled on the code *)

Module Claims.
Import AST Compiler Examples.

(** *** Lexer *)

(** C4 (counterexample): [tokenize] is not total in the sense of never
    raising: on the one-character source [+] it throws the error
    "Unexpected character '+' at line 1, column 1" and returns no tokens. *)
Lemma tokenize_raises_on_plus :
  match lex "+" with
  | Throw e _ => e = Error "Unexpected character '+' at line 1, column 1"
  | _ => False
  end.
Proof. vm_compute. reflexivity. Qed.

(** C4 (amended): for every input string [tokenize] terminates.  It either
    raises one of the two lexical errors (unexpected character, unterminated
    string), or returns a finite token sequence whose last token is [EOF] and
    which contains no [Newline], [LineComment] or [BlockComment] token. *)
Theorem tokenize_outcome (src : string) :
  match lex src with
  | Ok tokens _ =>
      (exists init eof, tokens = (init ++ [eof])%list
                        /\ tok_type eof = TokenType.EOF)
      /\ Forall LexerSpec.clean tokens
  | Throw e _ => LexerSpec.lexical_error e
  | OutOfFuel => False
  end.
Proof.
  pose proof (LexerFacts.tokenize_total (Lexer.new src)) as H.
  unfold lex. destruct (Lexer.tokenize (Lexer.new src)) as [tokens s|e s|];
    [|exact H|exact H].
  destruct H as (_ & _ & init & -> & Hclean). split.
  - exists init, (Lexer.eofToken s). split; reflexivity.
  - apply Forall_app. split; [exact Hclean|].
    constructor; [|constructor]. repeat split; discriminate.
Qed.

(** C5: the claim fails on the code.  The source [0x1F] is lexed as the
    integer [0] followed by the identifier [x1F], and no input whatever makes
    [tokenize] return a token of kind [ADDRESS_LITERAL]: [nextToken] tests for
    a digit before it tests for [0x], so [readAddressLiteral] is never
    reached. *)
Theorem hex_prefix_lexed_as_integer :
  (match lex "0x1F" with
   | Ok tokens _ =>
       tokens = [ mkToken TokenType.INTEGER "0" 1 1 0 1;
                  mkToken TokenType.IDENTIFIER "x1F" 1 2 1 4;
                  mkToken TokenType.EOF EmptyString 1 5 4 4 ]
   | _ => False
   end)
  /\ forall src,
       match lex src with
       | Ok tokens _ => Forall LexerSpec.not_address tokens
       | _ => True
       end.
Proof.
  split; [vm_compute; reflexivity|].
  intros src. unfold lex, Lexer.tokenize.
  destruct (Lexer.tokenize_loop _ [] (Lexer.new src)) as [tokens s| |] eqn:E;
    [|exact I|exact I].
  eapply LexerFacts.tokenize_loop_not_address; [|exact E]. constructor.
Qed.

(** *** Parser *)

Lemma among_split type types tk :
  ParserRunsSpec.among (type :: types) tk = false ->
  ParserRunsSpec.among [type] tk = false /\ ParserRunsSpec.among types tk = false.
Proof.
  unfold ParserRunsSpec.among. simpl. intros H.
  apply orb_false_iff in H as [H1 H2]. rewrite H1. split; [reflexivity | exact H2].
Qed.

(** A token that opens no item is skipped. *)
Lemma parseItem_skips BigInt depth fuel s tk rest :
  ParserRunsSpec.ahead s = tk :: rest -> tok_type tk <> TokenType.EOF ->
  ParserRunsSpec.among item_keywords tk = false ->
  Parser.parseItem BigInt depth fuel s = Ok None (ParserSpec.next s).
Proof.
  intros Ha Hne Hk. rewrite ParserFacts.parseItem_unfold.
  unfold Parser.try_catch, Parser.parseItem_try, bind, item_keywords in *.
  repeat match goal with
         | H : ParserRunsSpec.among (_ :: _ :: _) tk = false |- _ =>
             apply among_split in H; destruct H as [? H]
         end.
  repeat (rewrite (ParserRuns.match_miss _ _ _ _ Ha) by assumption).
  rewrite (ParserRuns.advance_run _ _ _ Ha Hne). reflexivity.
Qed.

(** C10: for every finite token array whose last element is [EOF], and
    whatever room the call stack has, [parse] terminates and returns a
    [SourceFile] without throwing.  From every position in front of an
    [EOF], [parseItem] returns (no exception leaves it) and, away from
    [EOF], has moved the cursor; an exception raised in the body of an item,
    the [RangeError] of a full call stack included, is caught and answered
    by [synchronize]; a token that opens no item is skipped by advancing. *)
Theorem parse_returns (BigInt : string -> option Z) (init : list Token)
    (eof : Token) :
  tok_type eof = TokenType.EOF ->
  (forall stack, exists ast s',
      Parser.parse BigInt stack (Parser.new (init ++ [eof])) = Ok ast s'
      /\ ParserSpec.at_end s' = true)
  /\ (forall stack fuel s,
        ParserSpec.eof_ahead s -> ParserSpec.rem s + 3 <= fuel ->
        exists item s',
          Parser.parseItem BigInt stack fuel s = Ok item s'
          /\ ParserSpec.later s s'
          /\ (ParserSpec.at_end s = false ->
              Parser.current s < Parser.current s'))
  /\ (forall stack fuel s,
        match
          Parser.parseItem_try BigInt
            (Parser.nested (fun stack' => Parser.parseItem BigInt stack' fuel)
               stack)
            stack fuel s
        with
        | Ok item s' => Parser.parseItem BigInt stack fuel s = Ok item s'
        | Throw _ s' =>
            Parser.parseItem BigInt stack fuel s
            = (let! _ := Parser.synchronize fuel in ret None) s'
        | OutOfFuel => True
        end)
  /\ (forall stack fuel s tk rest,
        ParserRunsSpec.ahead s = tk :: rest -> tok_type tk <> TokenType.EOF ->
        ParserRunsSpec.among item_keywords tk = false ->
        Parser.parseItem BigInt stack fuel s = Ok None (ParserSpec.next s)).
Proof.
  intros Heof. split; [|split; [|split]].
  - intros stack.
    destruct (ParserFacts.parse_ok BigInt stack (Parser.new (init ++ [eof])))
      as (ast & s' & Hp & _ & He).
    + apply ParserFacts.ends_with_EOF_ahead. exact Heof.
    + exists ast, s'. split; assumption.
  - intros stack fuel s Hs Hf.
    pose proof (ParserFacts.parseItem_step BigInt stack fuel s Hs Hf) as H.
    unfold ParserSpec.item_step, ParserSpec.sat in H.
    destruct (Parser.parseItem BigInt stack fuel s) as [item s'|e s'|].
    + exists item, s'. split; [reflexivity | exact H].
    + destruct H as [Hd _]. discriminate Hd.
    + destruct H.
  - intros stack fuel s. rewrite ParserFacts.parseItem_unfold.
    unfold Parser.try_catch.
    destruct (Parser.parseItem_try BigInt _ stack fuel s);
      [reflexivity | reflexivity | exact I].
  - intros stack fuel s tk rest. apply parseItem_skips.
Qed.

(** C10 (witness): the token array of [fn 1 ;], which ends in [EOF]. *)
Lemma parse_returns_witness :
  tok_type (mkToken TokenType.EOF EmptyString 1 7 6 6) = TokenType.EOF
  /\ exists ast s',
       Parser.parse Node.BigInt Node.callStack
         (Parser.new ([ mkToken TokenType.FN "fn" 1 1 0 2;
                        mkToken TokenType.INTEGER "1" 1 4 3 4;
                        mkToken TokenType.Semicolon ";" 1 6 5 6 ]
                      ++ [mkToken TokenType.EOF EmptyString 1 7 6 6]))
       = Ok ast s'
       /\ ParserSpec.at_end s' = true.
Proof.
  split; [reflexivity|].
  apply (parse_returns Node.BigInt
           [ mkToken TokenType.FN "fn" 1 1 0 2;
             mkToken TokenType.INTEGER "1" 1 4 3 4;
             mkToken TokenType.Semicolon ";" 1 6 5 6 ]
           (mkToken TokenType.EOF EmptyString 1 7 6 6)).
  reflexivity.
Defined.

(** C6 (counterexample): an expression nested 257 levels deep, beyond the
    maximum of 256 the claim names, is not rejected: the parse of
    [const x: t = ((...(true)...));] returns a [SourceFile] holding the
    constant, whose value is the literal. *)
Lemma nesting_257_parsed :
  match lex (nested_source 257) with
  | Ok tokens _ =>
      match Parser.parse Node.BigInt Node.callStack (Parser.new tokens) with
      | Ok ast _ =>
          file_items ast
          = [ ConstItem
                (mkConst (mkIdentifier "x" (mkLoc 1 7))
                   (ReferenceType (PrimitiveType "t" (mkLoc 1 10)) false
                      (mkLoc 1 10))
                   (BooleanLiteral true (mkLoc 1 271)) private
                   (mkLoc 1 532)) ]
      | _ => False
      end
  | _ => False
  end.
Proof. vm_compute. reflexivity. Qed.

Lemma forallb_kind type tokens :
  forallb (fun tk => TokenType.eqb (tok_type tk) type) tokens = true ->
  Forall (fun tk => tok_type tk = type) tokens.
Proof.
  intros H. apply Forall_forall. intros tk Hin.
  rewrite forallb_forall in H. apply TokenTypeFacts.eqb_eq. apply H.
  exact Hin.
Qed.

(** C6 (amended): the parser enforces no maximum nesting depth and has no
    [DepthExceeded] diagnostic; nesting is limited by the host's call stack
    alone.  For [const x: t = ((...(b)...));] with [n] balanced parentheses
    around a boolean literal: when the call stack has room for [n] nested
    activations of [parseExpression], the literal is parsed like the bare
    literal and [parse] returns a [SourceFile] holding the constant; when it
    has not, the [RangeError] of the overflow is caught by [parseItem], the
    constant is dropped without a diagnostic and [parse] still returns a
    [SourceFile], an empty one. *)
Theorem nesting_limited_by_call_stack (BigInt : string -> option Z)
    (stack : nat) (kw x colon ty eq : Token) (opens : list Token) (b : Token)
    (closes : list Token) (semi eof : Token) :
  nested_const_shape kw x colon ty eq opens b closes semi eof = true ->
  exists s',
    Parser.parse BigInt stack
      (Parser.new
         (ParserRunsSpec.nested_const kw x colon ty eq opens b closes semi eof))
    = Ok (mkSourceFile
            (if List.length opens <=? stack
             then [ParserRunsSpec.nested_const_item x ty b semi]
             else [])
            (mkLoc 1 1))
        s'.
Proof.
  unfold nested_const_shape. rewrite !andb_true_iff, !TokenTypeFacts.eqb_eq.
  rewrite Nat.eqb_eq.
  intros [[[[[[[[[[Hkw Hx] Hcolon] Hty] Heq] Ho] Hb] Hc] Hsemi] Heof] Hlen].
  apply forallb_kind in Ho. apply forallb_kind in Hc.
  destruct (Nat.leb_spec (List.length opens) stack) as [Hd|Hd].
  - apply ParserRuns.parse_nested_const; assumption.
  - apply ParserRuns.parse_nested_overflow; assumption.
Qed.

(** C6 (witness): two levels of parentheses around [true], on the call stack
    of the Node host. *)
Lemma nesting_limited_by_call_stack_witness :
  nested_const_shape
    (mkToken TokenType.CONST "const" 1 1 0 5)
    (mkToken TokenType.IDENTIFIER "x" 1 7 6 7)
    (mkToken TokenType.Colon ":" 1 8 7 8)
    (mkToken TokenType.IDENTIFIER "t" 1 10 9 10)
    (mkToken TokenType.Equal "=" 1 12 11 12)
    [ mkToken TokenType.LeftParen "(" 1 14 13 14;
      mkToken TokenType.LeftParen "(" 1 15 14 15 ]
    (mkToken TokenType.BOOLEAN "true" 1 16 15 19)
    [ mkToken TokenType.RightParen ")" 1 20 19 20;
      mkToken TokenType.RightParen ")" 1 21 20 21 ]
    (mkToken TokenType.Semicolon ";" 1 22 21 22)
    (mkToken TokenType.EOF EmptyString 1 23 22 22)
  = true
  /\ exists s',
       Parser.parse Node.BigInt Node.callStack
         (Parser.new
            (ParserRunsSpec.nested_const
               (mkToken TokenType.CONST "const" 1 1 0 5)
               (mkToken TokenType.IDENTIFIER "x" 1 7 6 7)
               (mkToken TokenType.Colon ":" 1 8 7 8)
               (mkToken TokenType.IDENTIFIER "t" 1 10 9 10)
               (mkToken TokenType.Equal "=" 1 12 11 12)
               [ mkToken TokenType.LeftParen "(" 1 14 13 14;
                 mkToken TokenType.LeftParen "(" 1 15 14 15 ]
               (mkToken TokenType.BOOLEAN "true" 1 16 15 19)
               [ mkToken TokenType.RightParen ")" 1 20 19 20;
                 mkToken TokenType.RightParen ")" 1 21 20 21 ]
               (mkToken TokenType.Semicolon ";" 1 22 21 22)
               (mkToken TokenType.EOF EmptyString 1 23 22 22)))
       = Ok (mkSourceFile
               [ ParserRunsSpec.nested_const_item
                   (mkToken TokenType.IDENTIFIER "x" 1 7 6 7)
                   (mkToken TokenType.IDENTIFIER "t" 1 10 9 10)
                   (mkToken TokenType.BOOLEAN "true" 1 16 15 19)
                   (mkToken TokenType.Semicolon ";" 1 22 21 22) ]
               (mkLoc 1 1)) s'.
Proof.
  split; [reflexivity|].
  apply (nesting_limited_by_call_stack Node.BigInt Node.callStack). reflexivity.
Defined.

(** *** Pipeline *)



(** C3 (counterexample): while [struct A { a: b } fn 1 ;] is compiled the
    body of [parseItem] raises "Expected identifier" at the second item, and
    the result still carries a module and an empty error list.  The module is
    the fixed fallback of [createMinimalWASMModule], the same the unrelated
    source [struct B { x: y }] yields: it is no compilation of the input. *)
Lemma fallback_module_after_parse_error :
  match lex one_error_source with
  | Ok tokens _ =>
      Parser.parseItem_try Node.BigInt
        (Parser.nested (fun stack => Parser.parseItem Node.BigInt stack 13)
           Node.callStack)
        Node.callStack 13 (Parser.mk tokens 7)
      = Throw (ParseError "Expected identifier"
                 (mkToken TokenType.INTEGER "1" 1 22 21 22))
          (Parser.mk tokens 8)
  | _ => False
  end
  /\ compileMapping Node.host new one_error_source
     = Some (mkResult Node.host (Some minimalWASMBytes) ["mapper"] [])
  /\ compileMapping Node.host new "struct B { x: y }"
     = compileMapping Node.host new one_error_source.
Proof. vm_compute. repeat split. Qed.

(** C3 (amended): for every input source string the result of
    [compileMapping] has one of two shapes.  Failure: no module, no exports
    and a non-empty error list (after a lexical error, a validation error, or
    when the fallback module cannot be built).  Success: a module and an
    empty error list; the module is then always the fixed fallback module of
    [createMinimalWASMModule] and the exports are those of that module,
    whatever the input; a syntax error the parser recovered from leaves no
    trace in the result. *)
Theorem compile_result_shape (host : Host) (src : string) :
  exists r,
    compileMapping host new src = Some r
    /\ (PipelineSpec.failure r \/ PipelineSpec.fallback_success r).
Proof. apply PipelineFacts.compileMapping_shape. Qed.

(** C1: the claim fails on the code.  Compiling [pool_source] yields no
    module and no exports but the diagnostic "At least one struct
    declaration is required": [parseType] accepts identifier tokens only, the
    lexer makes [Address] and [u256] keyword tokens, and the struct is
    dropped by error recovery.  Generated from the [Struct] node itself, the
    WAT declares [$id] as [i64] and [$liquidity] as [i32], the lowering table
    being keyed by [U256], not [u256].  And no compilation of any source
    exports [create_Pool]: the exports are those of the fallback module. *)
Theorem pool_struct_not_compiled :
  compileMapping Node.host new pool_source
  = Some (mkResult Node.host None [] [missing_struct_error])
  /\ map field_wasmType (struct_fields pool_struct) = ["i64"; "i32"]
  /\ generateStructWAT pool_struct
     = "  ;; Struct: Pool" ++ NL
       ++ "  (func $create_Pool (export " ++ DQ ++ "create_Pool" ++ DQ ++ ")"
       ++ NL
       ++ "    (param $id i64)" ++ NL
       ++ "    (param $liquidity i32)" ++ NL
       ++ "    (result i32) ;; return pointer to struct" ++ NL
       ++ "    ;; TODO: Implement struct creation" ++ NL
       ++ "    i32.const 0 ;; placeholder" ++ NL
       ++ "  )" ++ NL ++ NL
  /\ forall src,
       match compileMapping Node.host new src with
       | Some r => ~ In "create_Pool" (exports Node.host r)
       | None => False
       end.
Proof.
  split; [vm_compute; reflexivity|].
  split; [vm_compute; reflexivity|].
  split; [vm_compute; reflexivity|].
  intros src.
  destruct (PipelineFacts.compileMapping_shape Node.host src)
    as (r & -> & [(_ & -> & _) | (m & Hm & _ & -> & _)]).
  - intros [].
  - injection Hm as <-. vm_compute. intros [H|[]]. discriminate H.
Qed.

(** *** Validator *)

(** C7 (counterexample): for the node of [struct Empty { }] the validator
    emits the message "Struct Empty must have at least one field", not the
    message "struct `Empty` must have at least one field" of the claim. *)
Lemma empty_struct_message_differs :
  validateStruct empty_struct
  = [mkError "Struct Empty must have at least one field" (Some 1) (Some 16)]
  /\ validateStruct empty_struct
     <> [mkError "struct `Empty` must have at least one field"
           (Some 1) (Some 16)].
Proof. split; [reflexivity | discriminate]. Qed.

(** C7 (amended): for every [Struct] node with zero fields validation emits
    exactly one diagnostic, with the message
    "Struct <name> must have at least one field" naming that struct, located
    at the struct's location; for a struct with at least one field it emits
    no diagnostic with such a message. *)
Theorem empty_struct_reported_once (name : Identifier)
    (typeParameters : list TypeParameter) (visibility : Visibility)
    (location : SourceLocation) :
  validateStruct (mkStruct name typeParameters [] visibility location)
  = [mkError ("Struct " ++ id_name name ++ " must have at least one field")
       (Some (loc_line location)) (Some (loc_column location))]
  /\ forall field fields,
       Forall (fun e => ~ ValidatorSpec.reports_no_field e)
         (validateStruct
            (mkStruct name typeParameters (field :: fields) visibility
               location)).
Proof.
  split; [reflexivity|].
  intros field fields. rewrite ValidatorFacts.validateStruct_spec. simpl.
  apply Forall_forall. intros e He. apply in_map_iff in He as (f & <- & _).
  apply ValidatorFacts.duplicate_not_no_field.
Qed.

(** C8 (counterexample): for the node of [struct Dup { a: u32, a: u32 }] the
    one diagnostic has the message "Duplicate field name 'a' in struct Dup",
    not the message "duplicate field name `a` in struct `Dup`" of the
    claim. *)
Lemma duplicate_message_differs :
  validateStruct dup_struct
  = [mkError "Duplicate field name 'a' in struct Dup" (Some 1) (Some 25)]
  /\ validateStruct dup_struct
     <> [mkError "duplicate field name `a` in struct `Dup`" (Some 1) (Some 25)].
Proof. split; [vm_compute; reflexivity | vm_compute; discriminate]. Qed.

(** C8 (amended): after the diagnostic for an empty struct, validation emits
    one diagnostic for every field whose name repeats the name of a field
    declared before it in the struct, in order, with the message
    "Duplicate field name '<field>' in struct <name>" at that field's
    location.  So a reported duplicate does not suppress a later one, and
    [struct Dup { a: u32, a: u32 }] gets exactly one duplicate diagnostic,
    for the second [a]. *)
Theorem duplicates_all_reported (struct : Struct) :
  validateStruct struct
  = ((if Nat.eqb (List.length (struct_fields struct)) 0
      then [empty_struct_error struct] else [])
       ++ map (duplicate_field_error struct)
            (ValidatorSpec.repeats [] (struct_fields struct)))%list
  /\ (forall field,
        duplicate_field_error struct field
        = mkError ("Duplicate field name '" ++ id_name (field_name field)
                     ++ "' in struct " ++ id_name (struct_name struct))
            (Some (loc_line (field_location field)))
            (Some (loc_column (field_location field))))
  /\ (forall earlier field later,
        struct_fields struct = (earlier ++ field :: later)%list ->
        existsb (ValidatorSpec.same_name field) earlier = true ->
        In (duplicate_field_error struct field) (validateStruct struct))
  /\ validateStruct dup_struct = [duplicate_field_error dup_struct dup_second].
Proof.
  split; [apply ValidatorFacts.validateStruct_spec|].
  split; [reflexivity|].
  split; [|vm_compute; reflexivity].
  intros earlier field later Hf Hdup.
  rewrite ValidatorFacts.validateStruct_spec, Hf.
  apply in_or_app. right. apply in_map.
  apply (ValidatorFacts.repeats_In []). exact Hdup.
Qed.

(** *** Tree *)

(** C9: validation and code generation leave the tree they are given
    unchanged.  Run against a store holding the [SourceFile], each of
    [validateAST] and [generateWASMCode] ends with the store as it found it,
    and returns what the function computes from the tree: a diagnostics
    list, the WAT text. *)
Theorem tree_left_unchanged (ast : SourceFile) :
  Store.validateAST ast = (validateAST ast, ast)
  /\ Store.generateWASMCode ast = (generateWASMCode ast, ast).
Proof.
  split.
  - apply StoreFacts.validateAST_frame.
  - apply StoreFacts.generateWASMCode_frame.
Qed.

End Claims.

(** * Further properties of the front end, the cache and the metrics *)

Module LexemeFacts.
Import Lexer LexerSpec LexemeSpec LexerFacts.

Lemma get_length_None src i : String.length src <= i -> String.get i src = None.
Proof.
  revert i. induction src as [|c src IH]; intros i H; [reflexivity|].
  destruct i as [|i]; simpl in *; [lia|]. apply IH. lia.
Qed.

Lemma peek_char_at s : peek s = char_at (input s) (position s).
Proof.
  unfold peek, char_at, isAtEnd.
  destruct (String.length (input s) <=? position s) eqn:E; [|reflexivity].
  apply Nat.leb_le in E. rewrite (get_length_None _ _ E). reflexivity.
Qed.

Lemma peekNext_char_at s : peekNext s = char_at (input s) (position s + 1).
Proof.
  unfold peekNext, char_at.
  destruct (String.length (input s) <=? position s + 1) eqn:E; [|reflexivity].
  apply Nat.leb_le in E. rewrite (get_length_None _ _ E). reflexivity.
Qed.

Lemma advance_eq s :
  isAtEnd s = false ->
  advance s = (char_at (input s) (position s),
               mk (input s) (S (position s)) (line s) (S (column s))).
Proof. intros H. unfold advance. rewrite H, peek_char_at. reflexivity. Qed.

Lemma isAtEnd_false_lt s :
  isAtEnd s = false -> position s < String.length (input s).
Proof. apply lexer_isAtEnd_false. Qed.

(** What a scanning loop leaves behind when its guard only holds on
    characters satisfying [P]. *)
Lemma advanceWhile_chars (P : ascii -> Prop) cond fuel s s' :
  (forall s, cond s = true -> isAtEnd s = false /\ P (peek s)) ->
  advanceWhile cond fuel s = Ok tt s' ->
  input s' = input s /\ position s <= position s' /\ line s' = line s
  /\ (position s <= String.length (input s) ->
      position s' <= String.length (input s))
  /\ (forall i, position s <= i < position s' -> P (char_at (input s) i))
  /\ cond s' = false.
Proof.
  intros Hc. revert s. induction fuel as [|fuel IH]; intros s; [discriminate|].
  simpl. destruct (cond s) eqn:E.
  - destruct (Hc s E) as [He HP]. rewrite (advance_eq s He). simpl.
    intros H. apply IH in H. simpl in H.
    destruct H as (H1 & H2 & H3 & H4 & H5 & H6).
    apply isAtEnd_false_lt in He.
    repeat split; try assumption; try lia.
    intros i Hi. destruct (Nat.eq_dec i (position s)) as [->|Hn].
    + rewrite <- peek_char_at. exact HP.
    + apply H5. lia.
  - intros [= <-]. repeat split; auto; try lia.
Qed.

Lemma advanceWhile_moves cond fuel s s' :
  (forall s, cond s = true -> isAtEnd s = false) ->
  cond s = true -> advanceWhile cond fuel s = Ok tt s' ->
  position s < position s'.
Proof.
  intros Hc E H. destruct fuel as [|fuel]; [discriminate|].
  simpl in H. rewrite E in H. rewrite (advance_eq s (Hc s E)) in H. simpl in H.
  apply (advanceWhile_chars (fun _ => True)) in H; [simpl in H; lia|].
  intros s1 H1. split; [apply Hc; exact H1 | exact I].
Qed.

Lemma substring_ordered src a b :
  a <= b -> substring src a b = String.substring a (b - a) src.
Proof.
  intros H. unfold substring.
  rewrite Nat.min_l, Nat.max_r by lia. reflexivity.
Qed.

Lemma substring_one src a :
  a < String.length src ->
  String.substring a 1 src = String (char_at src a) EmptyString.
Proof.
  revert a. induction src as [|c src IH]; intros a H; simpl in H; [lia|].
  destruct a as [|a].
  - unfold char_at. simpl. destruct src; reflexivity.
  - simpl. rewrite IH by lia. reflexivity.
Qed.

Lemma substring_two src a :
  a + 1 < String.length src ->
  String.substring a 2 src
  = String (char_at src a) (String (char_at src (a + 1)) EmptyString).
Proof.
  revert a. induction src as [|c src IH]; intros a H; simpl in H; [lia|].
  destruct a as [|a].
  - change (String.substring 0 2 (String c src))
      with (String c (String.substring 0 1 src)).
    rewrite substring_one by lia. reflexivity.
  - simpl. rewrite IH by lia. reflexivity.
Qed.

Lemma substring_all_chars f src a n :
  a + n <= String.length src ->
  (forall i, a <= i < a + n -> f (char_at src i) = true) ->
  all_chars f (String.substring a n src) = true.
Proof.
  revert a n. induction src as [|c src IH]; intros a n Hl Hf; simpl in Hl.
  - assert (a = 0) by lia. assert (n = 0) by lia. subst. reflexivity.
  - destruct a as [|a].
    + destruct n as [|n]; [reflexivity|].
      pose proof (Hf 0 ltac:(lia)) as H0. unfold char_at in H0. simpl in H0.
      simpl. rewrite H0. simpl.
      apply IH; [lia|]. intros i Hi. apply (Hf (S i)). lia.
    + simpl. apply IH; [lia|]. intros i Hi. apply (Hf (S i)). lia.
Qed.

Lemma substring_nonempty src a n :
  0 < n -> a + n <= String.length src ->
  String.substring a n src <> EmptyString.
Proof.
  revert a n. induction src as [|c src IH]; intros a n Hn Hl; simpl in Hl; [lia|].
  destruct a as [|a].
  - destruct n as [|n]; [lia|]. simpl. discriminate.
  - simpl. apply IH; [exact Hn | lia].
Qed.

Lemma char_at_inside src i : char_at src i <> NUL -> i < String.length src.
Proof.
  intros H. destruct (Nat.lt_ge_cases i (String.length src)) as [|Hge]; [assumption|].
  exfalso. apply H. unfold char_at. rewrite (get_length_None _ _ Hge). reflexivity.
Qed.

Lemma newlines_before_S src n :
  n < String.length src ->
  newlines_before src (S n)
  = newlines_before src n + (if Ascii.eqb (char_at src n) NEWLINE then 1 else 0).
Proof.
  revert n. induction src as [|c src IH]; intros n H; simpl in H; [lia|].
  destruct n as [|n].
  - unfold char_at. simpl. destruct src; simpl; lia.
  - change (newlines_before (String c src) (S (S n)))
      with ((if Ascii.eqb c NEWLINE then 1 else 0) + newlines_before src (S n)).
    rewrite IH by lia. unfold char_at. simpl. lia.
Qed.

Lemma newlines_before_skip src a b :
  a <= b -> b <= String.length src ->
  (forall i, a <= i < b -> char_at src i <> NEWLINE) ->
  newlines_before src b = newlines_before src a.
Proof.
  intros Hab. induction Hab as [|b Hab IH]; intros Hb Hn; [reflexivity|].
  rewrite newlines_before_S by lia.
  rewrite IH; [|lia|intros i Hi; apply Hn; lia].
  destruct (Ascii.eqb (char_at src b) NEWLINE) eqn:E; [|lia].
  apply Ascii.eqb_eq in E. exfalso. apply (Hn b); [lia | exact E].
Qed.

Lemma tracks_skip s s' :
  input s' = input s -> line s' = line s -> position s <= position s' ->
  position s' <= String.length (input s) ->
  (forall i, position s <= i < position s' -> char_at (input s) i <> NEWLINE) ->
  tracks s -> tracks s'.
Proof.
  unfold tracks. intros Hi Hl Hp Hlen Hn Ht. rewrite Hi, Hl, Ht.
  rewrite (newlines_before_skip (input s) (position s) (position s')); auto.
Qed.

Lemma Ok_inj {St A} (a b : A) (s s' : St) : Ok a s = Ok b s' -> a = b /\ s = s'.
Proof. intros H. split; congruence. Qed.

Lemma keyword_kind value ty :
  keywords_get keywords value = Some ty ->
  is_kind keyword_kinds ty = true /\ is_kind plain_kinds ty = false.
Proof.
  intros H. apply keywords_get_In in H. split.
  - unfold is_kind. apply existsb_exists. exists ty.
    split; [exact H | apply TokenTypeFacts.eqb_refl].
  - assert (Hall : forallb (fun ty => negb (is_kind plain_kinds ty))
                     (map snd keywords) = true) by (vm_compute; reflexivity).
    rewrite forallb_forall in Hall. apply negb_true_iff. apply Hall. exact H.
Qed.

Ltac plain_classified :=
  unfold classified; cbn [tok_type tok_value makeToken];
  split; [|split]; intros Hk;
  first [discriminate Hk | vm_compute in Hk; discriminate Hk].

Lemma readComment_read fuel s0 tk s' :
  position s0 <= String.length (input s0) ->
  isAtEnd s0 = false -> peek s0 = "/"%char ->
  readComment fuel (position s0) (line s0) (column s0) s0 = Ok tk s' ->
  token_read s0 tk s'.
Proof.
  intros Hlen He Hp. unfold readComment, bind.
  destruct (advanceWhile _ fuel s0) as [[] s1| |] eqn:E; try discriminate.
  intros H. apply Ok_inj in H as [<- <-].
  pose proof E as Hm.
  apply (advanceWhile_chars (fun c => c <> NEWLINE)) in E.
  2:{ intros s H. apply andb_true_iff in H as [H1 H2].
      apply negb_true_iff in H1, H2. split; [exact H2|].
      apply Ascii.eqb_neq. exact H1. }
  apply advanceWhile_moves in Hm.
  2:{ intros s H. apply andb_true_iff in H as [_ H2].
      apply negb_true_iff in H2. exact H2. }
  2:{ rewrite Hp, He. reflexivity. }
  destruct E as (Hi & Hle & Hl & Hb & Hc & _). specialize (Hb Hlen).
  unfold token_read. cbn [tok_start tok_end tok_line tok_column makeToken].
  repeat (split; [first [assumption | reflexivity | lia]|]).
  split; [|split; [|split]].
  - unfold spelled. cbn [tok_type tok_value tok_start tok_end makeToken].
    rewrite Hi. reflexivity.
  - right. reflexivity.
  - plain_classified.
  - intros _. apply tracks_skip; assumption.
Qed.

Lemma readIdentifier_read fuel s0 tk s' :
  position s0 <= String.length (input s0) ->
  isAlpha (peek s0) || Ascii.eqb (peek s0) "_" = true ->
  readIdentifier fuel (position s0) (line s0) (column s0) s0 = Ok tk s' ->
  token_read s0 tk s'.
Proof.
  intros Hlen Hp. unfold readIdentifier, bind.
  destruct (advanceWhile _ fuel s0) as [[] s1| |] eqn:E; try discriminate.
  intros H. apply Ok_inj in H as [<- <-].
  pose proof E as Hm.
  apply (advanceWhile_chars (fun c => c <> NEWLINE)) in E.
  2:{ intros s H. split; [apply ident_stops; exact H|].
      intros Hn. rewrite Hn in H. discriminate H. }
  apply advanceWhile_moves in Hm; [|apply ident_stops|].
  2:{ unfold isAlphaNumeric.
      apply orb_true_iff in Hp as [-> | ->]; [reflexivity | apply orb_true_r]. }
  destruct E as (Hi & Hle & Hl & Hb & Hc & _). specialize (Hb Hlen).
  unfold token_read. cbn [tok_start tok_end tok_line tok_column makeToken].
  repeat (split; [first [assumption | reflexivity | lia]|]).
  rewrite Hi.
  set (value := substring (input s0) (position s0) (position s1)).
  split; [|split; [|split]].
  - unfold spelled. cbn [tok_type tok_value tok_start tok_end makeToken].
    destruct (keywords_get keywords value) as [ty|] eqn:K; [|reflexivity].
    destruct (keyword_kind _ _ K) as [_ Hpl].
    destruct (TokenType.eqb ty TokenType.STRING) eqn:Es; [|reflexivity].
    apply TokenTypeFacts.eqb_eq in Es. subst ty. discriminate Hpl.
  - left. unfold lexable. cbn [tok_type makeToken].
    destruct (keywords_get keywords value) as [ty|] eqn:K; [|reflexivity].
    destruct (keyword_kind _ _ K) as [-> _]. apply orb_true_r.
  - unfold classified. cbn [tok_type tok_value makeToken].
    destruct (keywords_get keywords value) as [ty|] eqn:K.
    + destruct (keyword_kind _ _ K) as [_ Hpl].
      split; [|split]; [| intros _; reflexivity |];
        intros ->; discriminate Hpl.
    + split; [|split]; intros Hk; first [reflexivity | discriminate Hk].
  - intros _. apply tracks_skip; assumption.
Qed.

Lemma digit_not_newline c : isDigit c = true -> c <> NEWLINE.
Proof. intros H ->. discriminate H. Qed.

Lemma readNumber_read fuel s0 tk s' :
  position s0 <= String.length (input s0) ->
  isDigit (peek s0) = true ->
  readNumber fuel (position s0) (line s0) (column s0) s0 = Ok tk s' ->
  token_read s0 tk s'.
Proof.
  intros Hlen Hp. unfold readNumber, bind.
  destruct (advanceWhile _ fuel s0) as [[] s1| |] eqn:E; try discriminate.
  pose proof E as Hm.
  apply (advanceWhile_chars (fun c => isDigit c = true)) in E.
  2:{ intros s H. split; [apply digit_stops; exact H | exact H]. }
  apply advanceWhile_moves in Hm; [|apply digit_stops|exact Hp].
  destruct E as (Hi & Hle & Hl & Hb & Hc & _). specialize (Hb Hlen).
  destruct (Ascii.eqb (peek s1) "." && isDigit (peekNext s1)) eqn:Edot.
  - apply andb_true_iff in Edot as [Edot _]. apply Ascii.eqb_eq in Edot.
    assert (He1 : isAtEnd s1 = false).
    { apply lexer_isAtEnd_false. apply char_at_inside.
      rewrite <- peek_char_at, Edot. discriminate. }
    rewrite (advance_eq s1 He1). cbn [snd].
    destruct (advanceWhile _ fuel _) as [[] s3| |] eqn:E3; try discriminate.
    intros H. apply Ok_inj in H as [<- <-].
    apply (advanceWhile_chars (fun c => isDigit c = true)) in E3.
    2:{ intros s H. split; [apply digit_stops; exact H | exact H]. }
    cbn [input position line] in E3.
    destruct E3 as (Hi3 & Hle3 & Hl3 & Hb3 & Hc3 & _).
    apply isAtEnd_false_lt in He1. rewrite Hi in He1.
    assert (Hb3' : position s3 <= String.length (input s0)).
    { rewrite Hi in Hb3. apply Hb3. lia. }
    unfold token_read. cbn [tok_start tok_end tok_line tok_column makeToken].
    repeat (split; [first [assumption | reflexivity | congruence | lia]|]).
    split; [|split; [|split]].
    + unfold spelled. cbn [tok_type tok_value tok_start tok_end makeToken].
      rewrite Hi3, Hi. reflexivity.
    + left. reflexivity.
    + plain_classified.
    + intros _. apply tracks_skip; try congruence; try lia.
      intros i Hi'. destruct (Nat.lt_ge_cases i (position s1)) as [Hlt|Hge].
      * apply digit_not_newline. apply Hc. lia.
      * destruct (Nat.eq_dec i (position s1)) as [->|Hne].
        -- rewrite <- Hi, <- peek_char_at, Edot. discriminate.
        -- apply digit_not_newline. rewrite <- Hi. apply Hc3. lia.
  - intros H. apply Ok_inj in H as [<- <-].
    unfold token_read. cbn [tok_start tok_end tok_line tok_column makeToken].
    repeat (split; [first [assumption | reflexivity | lia]|]).
    split; [|split; [|split]].
    + unfold spelled. cbn [tok_type tok_value tok_start tok_end makeToken].
      rewrite Hi. reflexivity.
    + left. reflexivity.
    + unfold classified. cbn [tok_type tok_value makeToken].
      split; [|split]; intros Hk;
        first [discriminate Hk | vm_compute in Hk; discriminate Hk | idtac].
      rewrite Hi, substring_ordered by lia. split.
      * apply substring_nonempty; lia.
      * apply substring_all_chars; [lia|]. intros i Hi'. apply Hc. lia.
    + intros _. apply tracks_skip; try assumption.
      intros i Hi'. apply digit_not_newline. apply Hc. exact Hi'.
Qed.

Lemma escaped_newline_next src i :
  escaped_newline src = false -> char_at src i = "\"%char ->
  char_at src (S i) <> NEWLINE.
Proof.
  revert i. induction src as [|c src IH]; intros i He Hc.
  - unfold char_at. simpl. discriminate.
  - destruct src as [|d src].
    + unfold char_at. destruct i; simpl; discriminate.
    + change (escaped_newline (String c (String d src)))
        with ((Ascii.eqb c "\" && Ascii.eqb d NEWLINE)
              || escaped_newline (String d src)) in He.
      apply orb_false_iff in He as [He1 He2].
      destruct i as [|i].
      * unfold char_at in *. simpl in *. subst c.
        rewrite Ascii.eqb_refl in He1. simpl in He1.
        apply Ascii.eqb_neq. exact He1.
      * apply (IH i He2). exact Hc.
Qed.

Lemma readString_loop_facts quote fuel s s' :
  position s <= String.length (input s) ->
  readString_loop quote fuel s = Ok tt s' ->
  input s' = input s
  /\ position s <= position s' <= String.length (input s)
  /\ (isAtEnd s' = false -> peek s' = quote)
  /\ (escaped_newline (input s) = false -> tracks s -> tracks s').
Proof.
  revert s. induction fuel as [|fuel IH]; intros s Hlen; [discriminate|].
  simpl.
  destruct (negb (Ascii.eqb (peek s) quote) && negb (isAtEnd s)) eqn:E.
  - apply andb_true_iff in E as [_ E]. apply negb_true_iff in E.
    pose proof (isAtEnd_false_lt s E) as Hlt.
    destruct (Ascii.eqb (peek s) NEWLINE) eqn:En.
    + apply Ascii.eqb_eq in En.
      assert (Hp1 : peek (mk (input s) (position s) (S (line s)) 1) = NEWLINE)
        by (rewrite peek_char_at in *; exact En).
      rewrite Hp1. change (Ascii.eqb NEWLINE "\") with false. cbv iota.
      rewrite advance_eq by exact E. cbn [snd input position line].
      intros H. apply IH in H; [|simpl; lia]. simpl in H.
      destruct H as (H1 & H2 & H3 & H4).
      repeat split; try assumption; try lia.
      intros Hesc Ht. apply H4; [exact Hesc|].
      unfold tracks in *. simpl. rewrite newlines_before_S by exact Hlt.
      rewrite <- peek_char_at, En, Ascii.eqb_refl. lia.
    + destruct (Ascii.eqb (peek s) "\") eqn:Eb.
      * apply Ascii.eqb_eq in Eb. rewrite (advance_eq s E). cbn [snd].
        destruct (isAtEnd (mk (input s) (S (position s)) (line s) (S (column s))))
          eqn:E2.
        -- unfold advance at 1. rewrite E2. cbn [snd].
           intros H. apply IH in H; [|simpl; lia]. simpl in H.
           destruct H as (H1 & H2 & H3 & H4).
           repeat split; try assumption; try lia.
           intros Hesc Ht. apply H4; [exact Hesc|].
           unfold tracks in *. simpl. rewrite newlines_before_S by exact Hlt.
           rewrite <- peek_char_at, En. lia.
        -- rewrite (advance_eq _ E2). cbn [snd input position line column].
           apply isAtEnd_false_lt in E2. simpl in E2.
           intros H. apply IH in H; [|simpl; lia]. simpl in H.
           destruct H as (H1 & H2 & H3 & H4).
           repeat split; try assumption; try lia.
           intros Hesc Ht. apply H4; [exact Hesc|].
           unfold tracks in *. simpl.
           rewrite newlines_before_S by exact E2.
           rewrite newlines_before_S by exact Hlt.
           rewrite <- peek_char_at, En.
           pose proof (escaped_newline_next (input s) (position s) Hesc) as Hn.
           rewrite <- peek_char_at in Hn. specialize (Hn Eb).
           apply Ascii.eqb_neq in Hn. rewrite Hn. lia.
      * rewrite advance_eq by exact E. cbn [snd].
        intros H. apply IH in H; [|simpl; lia]. simpl in H.
        destruct H as (H1 & H2 & H3 & H4).
        repeat split; try assumption; try lia.
        intros Hesc Ht. apply H4; [exact Hesc|].
        unfold tracks in *. simpl. rewrite newlines_before_S by exact Hlt.
        rewrite <- peek_char_at, En. lia.
  - intros [= <-]. repeat split; try lia.
    + intros He. rewrite He in E. simpl in E. rewrite andb_true_r in E.
      apply negb_false_iff in E. apply Ascii.eqb_eq in E. exact E.
    + auto.
Qed.

Lemma readString_read fuel s0 tk s' :
  position s0 <= String.length (input s0) ->
  isAtEnd s0 = false -> peek s0 <> NEWLINE ->
  readString fuel (position s0) (line s0) (column s0) s0 = Ok tk s' ->
  token_read s0 tk s'.
Proof.
  intros Hlen He Hq. unfold readString. rewrite (advance_eq s0 He).
  rewrite <- peek_char_at.
  pose proof (isAtEnd_false_lt s0 He) as Hlt.
  destruct (readString_loop (peek s0) fuel _) as [[] s2| |] eqn:E;
    try discriminate.
  apply readString_loop_facts in E; [|simpl; lia]. simpl in E.
  destruct E as (Hi & Hp & Hpk & Ht).
  destruct (isAtEnd s2) eqn:E2; [discriminate|].
  specialize (Hpk eq_refl).
  rewrite (advance_eq s2 E2). cbn [snd]. apply isAtEnd_false_lt in E2.
  rewrite Hi in E2.
  intros H. apply Ok_inj in H as [<- <-].
  unfold token_read.
  cbn [tok_start tok_end tok_line tok_column makeToken input position].
  repeat (split; [first [assumption | reflexivity | congruence | lia]|]).
  split; [|split; [|split]].
  - unfold spelled.
    cbn [tok_type tok_value tok_start tok_end makeToken input position].
    rewrite Hi. replace (S (position s2) - 1) with (position s2) by lia.
    reflexivity.
  - left. reflexivity.
  - plain_classified.
  - intros Hesc Htr. unfold tracks. cbn [line input position].
    assert (Ht2 : tracks s2).
    { apply Ht; [exact Hesc|]. unfold tracks in *. simpl.
      rewrite newlines_before_S by exact Hlt.
      rewrite <- peek_char_at. apply Ascii.eqb_neq in Hq. rewrite Hq. lia. }
    unfold tracks in Ht2. rewrite Hi in *.
    rewrite Ht2, newlines_before_S by exact E2.
    rewrite <- Hi, <- peek_char_at, Hpk. apply Ascii.eqb_neq in Hq. rewrite Hq. lia.
Qed.

Lemma plain_token_classified ty value start line column s :
  plain_token ty = true ->
  classified (makeToken ty value start line column s).
Proof.
  unfold plain_token, classified. cbn [tok_type tok_value makeToken].
  rewrite !andb_true_iff, !negb_true_iff. intros [[[H1 H2] H3] H4].
  split; [|split].
  - intros ->. discriminate H2.
  - intros H. rewrite H in H4. discriminate H4.
  - intros ->. discriminate H3.
Qed.

Lemma two_read ty c1 c2 s0 :
  position s0 <= String.length (input s0) ->
  peek s0 = c1 -> peekNext s0 = c2 ->
  c1 <> NUL -> c2 <> NUL -> c1 <> NEWLINE -> c2 <> NEWLINE ->
  plain_token ty = true -> lexable ty = true ->
  let s2 := snd (advance (snd (advance s0))) in
  token_read s0
    (makeToken ty (String c1 (String c2 EmptyString)) (position s0) (line s0)
       (column s0) s2) s2.
Proof.
  intros Hlen H1 H2 N1 N2 L1 L2 Hplain Hlex.
  rewrite peek_char_at in H1. rewrite peekNext_char_at in H2.
  assert (I1 : position s0 < String.length (input s0))
    by (apply char_at_inside; rewrite H1; exact N1).
  assert (I2 : position s0 + 1 < String.length (input s0))
    by (apply char_at_inside; rewrite H2; exact N2).
  assert (E1 : isAtEnd s0 = false) by (apply lexer_isAtEnd_false; exact I1).
  rewrite (advance_eq s0 E1). cbn [snd].
  assert (E2 : isAtEnd (mk (input s0) (S (position s0)) (line s0)
                          (S (column s0))) = false)
    by (apply lexer_isAtEnd_false; simpl; lia).
  rewrite (advance_eq _ E2). cbn [snd input position line column]. cbv zeta.
  unfold token_read.
  cbn [tok_start tok_end tok_line tok_column makeToken input position].
  repeat (split; [first [assumption | reflexivity | lia]|]).
  split; [|split; [|split]].
  - unfold spelled.
    cbn [tok_type tok_value tok_start tok_end makeToken input position].
    unfold plain_token in Hplain. rewrite !andb_true_iff in Hplain.
    destruct Hplain as [[[Hs _] _] _]. apply negb_true_iff in Hs. rewrite Hs.
    rewrite substring_ordered by lia.
    replace (S (S (position s0)) - position s0) with 2 by lia.
    rewrite substring_two by exact I2. rewrite H1, H2. reflexivity.
  - left. exact Hlex.
  - apply plain_token_classified. exact Hplain.
  - intros _ Ht. unfold tracks in *. cbn [line input position].
    rewrite newlines_before_S by lia. rewrite newlines_before_S by lia.
    replace (S (position s0)) with (position s0 + 1) by lia.
    rewrite H1, H2.
    apply Ascii.eqb_neq in L1, L2. rewrite L1, L2. lia.
Qed.

Lemma one_read ty c s0 :
  position s0 <= String.length (input s0) ->
  isAtEnd s0 = false -> peek s0 = c -> c <> NEWLINE ->
  plain_token ty = true -> lexable ty = true ->
  let s1 := mk (input s0) (S (position s0)) (line s0) (S (column s0)) in
  token_read s0
    (makeToken ty (String c EmptyString) (position s0) (line s0)
       (column s0) s1) s1.
Proof.
  intros Hlen E1 H1 L1 Hplain Hlex.
  rewrite peek_char_at in H1.
  pose proof (isAtEnd_false_lt s0 E1) as I1.
  cbv zeta.
  unfold token_read.
  cbn [tok_start tok_end tok_line tok_column makeToken input position].
  repeat (split; [first [assumption | reflexivity | lia]|]).
  split; [|split; [|split]].
  - unfold spelled.
    cbn [tok_type tok_value tok_start tok_end makeToken input position].
    unfold plain_token in Hplain. rewrite !andb_true_iff in Hplain.
    destruct Hplain as [[[Hs _] _] _]. apply negb_true_iff in Hs. rewrite Hs.
    rewrite substring_ordered by lia.
    replace (S (position s0) - position s0) with 1 by lia.
    rewrite substring_one by exact I1. rewrite H1. reflexivity.
  - left. exact Hlex.
  - apply plain_token_classified. exact Hplain.
  - intros _ Ht. unfold tracks in *. cbn [line input position].
    rewrite newlines_before_S by lia. rewrite H1.
    apply Ascii.eqb_neq in L1. rewrite L1. lia.
Qed.

Lemma newline_read s0 :
  position s0 <= String.length (input s0) ->
  isAtEnd s0 = false -> peek s0 = NEWLINE ->
  let s2 := mk (input s0) (S (position s0)) (S (line s0)) 1 in
  token_read s0
    (makeToken TokenType.Newline (String NEWLINE EmptyString) (position s0)
       (line s0) (column s0) s2) s2.
Proof.
  intros Hlen E1 H1. rewrite peek_char_at in H1.
  pose proof (isAtEnd_false_lt s0 E1) as I1.
  cbv zeta.
  unfold token_read.
  cbn [tok_start tok_end tok_line tok_column makeToken input position].
  repeat (split; [first [assumption | reflexivity | lia]|]).
  split; [|split; [|split]].
  - unfold spelled.
    cbn [tok_type tok_value tok_start tok_end makeToken input position].
    change (TokenType.eqb TokenType.Newline TokenType.STRING) with false.
    cbv iota. rewrite substring_ordered by lia.
    replace (S (position s0) - position s0) with 1 by lia.
    rewrite substring_one by exact I1. rewrite H1. reflexivity.
  - right. reflexivity.
  - apply plain_token_classified. vm_compute. reflexivity.
  - intros _ Ht. unfold tracks in *. cbn [line input position].
    rewrite newlines_before_S by lia. rewrite H1, Ascii.eqb_refl. lia.
Qed.

Lemma nextToken_read fuel s r s' :
  position s <= String.length (input s) ->
  nextToken fuel s = Ok r s' ->
  exists s0,
    input s0 = input s
    /\ position s <= position s0 <= String.length (input s)
    /\ (tracks s -> tracks s0)
    /\ match r with
       | Some tk => token_read s0 tk s'
       | None => s' = s0
       end.
Proof.
  intros Hlen. unfold nextToken, bind, skipWhitespace.
  destruct (advanceWhile _ fuel s) as [[] s0| |] eqn:Ews; try discriminate.
  apply (advanceWhile_chars (fun c => c <> NEWLINE)) in Ews.
  2:{ intros s1 H. split; [apply whitespace_stops; exact H|].
      cbv zeta in H. intros Hn. rewrite Hn in H. discriminate H. }
  destruct Ews as (Hi & Hle & Hl & Hb & Hc & _). specialize (Hb Hlen).
  assert (Hlen0 : position s0 <= String.length (input s0)) by (rewrite Hi; exact Hb).
  assert (Htr : tracks s -> tracks s0) by (apply tracks_skip; assumption).
  intros H. exists s0.
  repeat (split; [first [assumption | lia]|]).
  revert H.
  destruct (isAtEnd s0) eqn:End0.
  { intros H. apply Ok_inj in H as [<- <-]. reflexivity. }
  destruct (Ascii.eqb (peek s0) "/" && Ascii.eqb (peekNext s0) "/") eqn:Ecom.
  { apply andb_true_iff in Ecom as [Ec _]. apply Ascii.eqb_eq in Ec.
    destruct (readComment _ _ _ _ s0) as [tk s1| |] eqn:E; try discriminate.
    intros H. apply Ok_inj in H as [<- <-].
    apply (readComment_read fuel); assumption. }
  destruct (Ascii.eqb (peek s0) QUOTE || Ascii.eqb (peek s0) "'") eqn:Estr.
  { destruct (readString _ _ _ _ s0) as [tk s1| |] eqn:E; try discriminate.
    intros H. apply Ok_inj in H as [<- <-].
    apply (readString_read fuel); try assumption.
    intros Hn. rewrite Hn in Estr. discriminate Estr. }
  destruct (isDigit (peek s0)) eqn:Edig.
  { destruct (readNumber _ _ _ _ s0) as [tk s1| |] eqn:E; try discriminate.
    intros H. apply Ok_inj in H as [<- <-].
    apply (readNumber_read fuel); assumption. }
  destruct (Ascii.eqb (peek s0) "0" && Ascii.eqb (peekNext s0) "x") eqn:Eadr.
  { apply andb_true_iff in Eadr as [E0 _]. apply Ascii.eqb_eq in E0.
    rewrite E0 in Edig. discriminate Edig. }
  destruct (isAlpha (peek s0) || Ascii.eqb (peek s0) "_") eqn:Eid.
  { destruct (readIdentifier _ _ _ _ s0) as [tk s1| |] eqn:E; try discriminate.
    intros H. apply Ok_inj in H as [<- <-].
    apply (readIdentifier_read fuel); assumption. }
  repeat match goal with
         | |- (if ?c then _ else _) = _ -> _ =>
             let E := fresh "Etwo" in
             let Ea := fresh "Ea" in
             let Eb := fresh "Eb" in
             destruct c eqn:E;
             [ apply andb_true_iff in E; destruct E as [Ea Eb];
               apply Ascii.eqb_eq in Ea, Eb;
               intros H; apply Ok_inj in H as [<- <-];
               apply two_read;
               first [ assumption | discriminate | vm_compute; reflexivity ]
             | ]
         end.
  pose proof (fun ty c => one_read ty c s0 Hlen0 End0) as Hone.
  pose proof (newline_read s0 Hlen0 End0) as Hnl. cbv zeta in Hone, Hnl.
  rewrite (advance_eq s0 End0). cbn [snd input position line].
  rewrite <- peek_char_at. cbv beta iota zeta.
  repeat match goal with
         | |- (if ?c then _ else _) = _ -> _ =>
             let E := fresh "Eone" in
             destruct c eqn:E;
             [ apply Ascii.eqb_eq in E;
               intros H; apply Ok_inj in H as [<- <-];
               first [ rewrite E; apply Hnl; exact E
                     | rewrite E; apply Hone;
                       first [ assumption | discriminate
                             | vm_compute; reflexivity ] ]
             | ]
         end.
  discriminate.
Qed.

Lemma substring_none n src : String.substring n 0 src = EmptyString.
Proof.
  revert n. induction src as [|c src IH]; intros [|n]; simpl; auto.
Qed.

Lemma in_order_snoc tokens tk :
  in_order tokens -> Forall (fun a => tok_end a <= tok_start tk) tokens ->
  in_order (tokens ++ [tk]).
Proof.
  unfold in_order. induction tokens as [|a tokens IH]; intros Hs Hf; simpl.
  - constructor; constructor.
  - apply StronglySorted_inv in Hs as [Hs Ha]. apply Forall_cons_iff in Hf as [Hf1 Hf2].
    constructor; [apply IH; assumption|].
    apply Forall_app. split; [exact Ha | constructor; [exact Hf1 | constructor]].
Qed.

(** The invariant of the loop of [tokenize]. *)
Lemma tokenize_loop_tokens src fuel tokens s l s' :
  input s = src -> position s <= String.length src ->
  (escaped_newline src = false -> tracks s) ->
  Forall (token_ok src) tokens -> in_order tokens ->
  Forall (fun a => tok_end a <= position s) tokens ->
  tokenize_loop fuel tokens s = Ok l s' ->
  Forall (token_ok src) l /\ in_order l.
Proof.
  revert tokens s. induction fuel as [|fuel IH];
    intros tokens s Hi Hlen Htr Hok Hord Hend; [discriminate|].
  simpl. destruct (isAtEnd s) eqn:End; simpl.
  - intros H. apply Ok_inj in H as [<- <-]. split.
    + apply Forall_app. split; [exact Hok|]. constructor; [|constructor].
      unfold token_ok, eofToken. cbn [tok_start tok_end tok_type tok_line].
      split; [lia|]. split; [|split; [reflexivity|split]].
      * unfold spelled. cbn [tok_type tok_value tok_start tok_end].
        change (TokenType.eqb TokenType.EOF TokenType.STRING) with false.
        cbv iota. rewrite substring_ordered by lia.
        rewrite Nat.sub_diag, substring_none. reflexivity.
      * unfold classified. cbn [tok_type tok_value].
        split; [|split]; intros Hk;
          first [discriminate Hk | vm_compute in Hk; discriminate Hk].
      * intros He. specialize (Htr He). unfold tracks in Htr.
        rewrite Hi in Htr. exact Htr.
    + apply in_order_snoc; [exact Hord|]. exact Hend.
  - unfold bind. destruct (nextToken fuel s) as [r s1| |] eqn:E; try discriminate.
    apply nextToken_read in E; [|rewrite Hi; exact Hlen].
    destruct E as (s0 & Hi0 & Hp0 & Ht0 & Hr). rewrite Hi in *.
    destruct r as [tk|].
    + destruct Hr as (R1 & R2 & R3 & R4 & R5 & R6 & R7 & R8 & R9 & R10).
      rewrite Hi0 in *.
      apply IH; try congruence; try lia.
      * intros He. apply R10; [exact He|]. apply Ht0. apply Htr. exact He.
      * destruct (kept tk) eqn:K; [|exact Hok].
        apply Forall_app. split; [exact Hok|]. constructor; [|constructor].
        unfold token_ok. split; [lia|]. split; [exact R7|].
        split; [destruct R8 as [R8|R8]; [exact R8 | congruence]|].
        split; [exact R9|]. intros He. rewrite R4, R2.
        specialize (Ht0 (Htr He)). unfold tracks in Ht0.
        rewrite Hi0 in Ht0. exact Ht0.
      * destruct (kept tk); [|exact Hord].
        apply in_order_snoc; [exact Hord|].
        eapply Forall_impl; [|exact Hend]. simpl. intros a Ha. lia.
      * destruct (kept tk).
        -- apply Forall_app. split.
           ++ eapply Forall_impl; [|exact Hend]. simpl. intros a Ha. lia.
           ++ constructor; [lia | constructor].
        -- eapply Forall_impl; [|exact Hend]. simpl. intros a Ha. lia.
    + subst s1. apply IH; try congruence; try lia.
      * intros He. apply Ht0. apply Htr. exact He.
      * eapply Forall_impl; [|exact Hend]. simpl. intros a Ha. lia.
Qed.

Lemma lex_tokens src :
  match lex src with
  | Ok tokens _ => Forall (token_ok src) tokens /\ in_order tokens
  | _ => True
  end.
Proof.
  unfold lex, tokenize.
  destruct (tokenize_loop _ [] (new src)) as [l s'| |] eqn:E; [|exact I|exact I].
  apply (tokenize_loop_tokens src) in E; try (constructor; fail); simpl; auto.
  - lia.
  - intros _. unfold tracks. simpl. destruct src; reflexivity.
Qed.

End LexemeFacts.

Module LexemeProps.
Import Lexer LexerSpec LexemeSpec LexemeFacts LexemeExamples.

Lemma lex_result src :
  match lex src with
  | Ok tokens _ => Forall (token_ok src) tokens /\ in_order tokens
  | Throw e _ => True
  | OutOfFuel => False
  end.
Proof.
  pose proof (lex_tokens src) as H.
  pose proof (LexerFacts.tokenize_total (Lexer.new src)) as Ht.
  unfold lex in *. destruct (tokenize (new src)); auto.
Qed.

Lemma operator_throws c rest :
  In c operator_chars ->
  exists s, lex (String c rest) = Throw (unexpected_character c 1 1) s.
Proof.
  intros Hc. unfold lex, tokenize, tokenize_fuel, new. cbn [input position String.length].
  replace (S (String.length rest) - 0 + 2) with (S (S (S (String.length rest))))
    by lia.
  cbn [tokenize_loop]. unfold isAtEnd at 1. cbn [input position String.length Nat.leb negb].
  unfold nextToken, bind, skipWhitespace. cbn [advanceWhile].
  unfold operator_chars in Hc. cbn [In] in Hc.
  destruct Hc as [<-|[<-|[<-|[<-|[<-|[]]]]]];
    (eexists; cbn; reflexivity).
Qed.

(** X1: whatever the source, [tokenize] returns only tokens of the kinds the
    lexer has a branch or a keyword for; no token is of kind [Plus],
    [Minus], [Star], [Slash], [And], [Or], [Not], [Arrow], [DoubleColon] or
    [ADDRESS_LITERAL].  A source that starts with [+], [-], [*], [&] or [|]
    is rejected with the unexpected-character error at line 1, column 1. *)
Theorem lexer_never_builds_operators :
  (forall src,
     match lex src with
     | Ok tokens _ =>
         Forall (fun tk => lexable (tok_type tk) = true
                           /\ is_kind unlexed_kinds (tok_type tk) = false)
           tokens
     | Throw _ _ => True
     | OutOfFuel => False
     end)
  /\ Forall (fun c => forall rest, exists s,
               lex (String c rest) = Throw (unexpected_character c 1 1) s)
       operator_chars.
Proof.
  split.
  - intros src. pose proof (lex_result src) as H.
    destruct (lex src) as [tokens s| |]; auto.
    destruct H as [H _]. eapply List.Forall_impl; [|exact H].
    intros tk (_ & _ & Hk & _). split; [exact Hk|].
    destruct (tok_type tk); try reflexivity; discriminate Hk.
  - apply List.Forall_forall. intros c Hc rest. apply operator_throws. exact Hc.
Qed.

(** X2: the offsets of every token returned by [tokenize] lie inside the
    source, [start <= end]; its text is the slice of the source between
    them (for a string literal, the slice inside the quotes); and the tokens
    come in source order without overlap. *)
Theorem lexed_tokens_are_source_slices (src : string) :
  match lex src with
  | Ok tokens _ =>
      Forall (fun tk => tok_start tk <= tok_end tk <= String.length src
                        /\ spelled src tk) tokens
      /\ in_order tokens
  | Throw _ _ => True
  | OutOfFuel => False
  end.
Proof.
  pose proof (lex_result src) as H.
  destruct (lex src) as [tokens s| |]; auto.
  destruct H as [H Ho]. split; [|exact Ho].
  eapply List.Forall_impl; [|exact H].
  intros tk (Hb & Hs & _). split; assumption.
Qed.

(** X3: in the result of [tokenize], a token is an [IDENTIFIER] only if its
    text is not a keyword, a token of a keyword kind carries a spelling the
    keyword table maps to that kind, and an [INTEGER] is a non-empty string
    of digits. *)
Theorem lexed_tokens_are_classified (src : string) :
  match lex src with
  | Ok tokens _ => Forall classified tokens
  | Throw _ _ => True
  | OutOfFuel => False
  end.
Proof.
  pose proof (lex_result src) as H.
  destruct (lex src) as [tokens s| |]; auto.
  destruct H as [H _]. eapply List.Forall_impl; [|exact H].
  intros tk (_ & _ & _ & Hc & _). exact Hc.
Qed.

(** X4: when no backslash in the source is directly followed by a newline,
    the line of every token is one more than the number of newlines before
    its first character.  After a string literal in which a backslash
    precedes a newline the lines reported are too small: the identifier on
    the second line of [escaped_source] is reported on line 1. *)
Theorem lexed_lines_count_newlines :
  (forall src,
     escaped_newline src = false ->
     match lex src with
     | Ok tokens _ =>
         Forall (fun tk => tok_line tk
                           = 1 + newlines_before src (tok_start tk)) tokens
     | Throw _ _ => True
     | OutOfFuel => False
     end)
  /\ match lex escaped_source with
     | Ok tokens _ =>
         map tok_type tokens
         = [TokenType.STRING; TokenType.IDENTIFIER; TokenType.EOF]
         /\ map tok_line tokens = [1; 1; 1]
         /\ map (fun tk => 1 + newlines_before escaped_source (tok_start tk))
              tokens = [1; 2; 2]
     | _ => False
     end.
Proof.
  split.
  - intros src Hesc. pose proof (lex_result src) as H.
    destruct (lex src) as [tokens s| |]; auto.
    destruct H as [H _]. eapply List.Forall_impl; [|exact H].
    intros tk (_ & _ & _ & _ & Hl). apply Hl. exact Hesc.
  - vm_compute. repeat split.
Qed.

End LexemeProps.

Module ParsedFacts.
Import AST Compiler Parser ParsedSpec.

Lemma bind_Ok {St A B} (m : M St A) (k : A -> M St B) s b s' :
  bind m k s = Ok b s' -> exists a s1, m s = Ok a s1 /\ k a s1 = Ok b s'.
Proof.
  unfold bind. destruct (m s) as [a s1| |]; try discriminate. eauto.
Qed.

Lemma Ok_inj_parser {St A} (a b : A) (s s' : St) :
  Ok a s = Ok b s' -> a = b /\ s = s'.
Proof. intros H. split; congruence. Qed.

Lemma ret_Ok {St A} (a b : A) (s s' : St) : ret a s = Ok b s' -> a = b /\ s = s'.
Proof. unfold ret. intros H. split; congruence. Qed.

Tactic Notation "bind_inv" hyp(H) "as" ident(a) ident(s1) ident(H1) :=
  apply bind_Ok in H; destruct H as (a & s1 & H1 & H).

Lemma peek_Ok prop s tk s' :
  peek prop s = Ok tk s' -> s' = s /\ nth_error (tokens s) (current s) = Some tk.
Proof.
  unfold peek. destruct (nth_error (tokens s) (current s)); [|discriminate].
  intros H. split; congruence.
Qed.

Lemma isAtEnd_Ok s b s' : isAtEnd s = Ok b s' -> s' = s.
Proof.
  unfold isAtEnd. intros H. bind_inv H as tk s1 H1.
  apply peek_Ok in H1 as [-> _]. apply ret_Ok in H as [_ H]. congruence.
Qed.

Lemma check_Ok type s b s' :
  check type s = Ok b s' ->
  s' = s /\ (b = true -> cursor_kind s = Some type).
Proof.
  unfold check. intros H. bind_inv H as atEnd s1 H1.
  apply isAtEnd_Ok in H1 as ->. destruct atEnd.
  - apply ret_Ok in H as [<- <-]. split; [reflexivity | discriminate].
  - bind_inv H as tk s1 H1. apply peek_Ok in H1 as [-> Hn].
    apply ret_Ok in H as [<- <-]. split; [reflexivity|].
    intros E. apply TokenTypeFacts.eqb_eq in E.
    unfold cursor_kind. rewrite Hn. simpl. congruence.
Qed.

Lemma throwParseError_Ok {A} message s (a : A) s' :
  throwParseError message s = Ok a s' -> False.
Proof.
  unfold throwParseError. intros H. bind_inv H as tk s1 H1. discriminate H.
Qed.

Lemma consume_Ok type message s r s' :
  consume type message s = Ok r s' -> cursor_kind s = Some type.
Proof.
  unfold consume. intros H. bind_inv H as found s1 H1.
  apply check_Ok in H1 as [-> Hk]. destruct found.
  - apply Hk. reflexivity.
  - exfalso. eapply throwParseError_Ok. exact H.
Qed.

Lemma parseIdentifier_Ok s id s' :
  parseIdentifier s = Ok id s' -> cursor_kind s = Some TokenType.IDENTIFIER.
Proof.
  unfold parseIdentifier. intros H. bind_inv H as token s1 H1.
  eapply consume_Ok. exact H1.
Qed.

Lemma parseType_Ok s ty s' : parseType s = Ok ty s' -> built_type ty = true.
Proof.
  unfold parseType. intros H. bind_inv H as isId s1 H1. destruct isId.
  - bind_inv H as prev s2 H2.
    destruct (includes primitive_names (tok_value prev)) eqn:E.
    + bind_inv H as location s3 H3. apply ret_Ok in H as [<- _]. exact E.
    + bind_inv H as inner s3 H3. bind_inv H as location s4 H4.
      apply ret_Ok in H as [<- _]. reflexivity.
  - exfalso. eapply throwParseError_Ok. exact H.
Qed.

Lemma parseField_Ok s field s' :
  parseField s = Ok field s' ->
  cursor_kind s = Some TokenType.IDENTIFIER
  /\ built_type (field_typeAnnotation field) = true.
Proof.
  unfold parseField. intros H. bind_inv H as name s1 H1.
  apply parseIdentifier_Ok in H1. split; [exact H1|].
  bind_inv H as colon s2 H2. bind_inv H as ty s3 H3.
  apply parseType_Ok in H3. bind_inv H as location s4 H4.
  apply ret_Ok in H as [<- _]. exact H3.
Qed.

Lemma parseFunction_Ok BigInt depth fuel s node s' :
  parseFunction BigInt depth fuel s = Ok node s' ->
  cursor_kind s = Some TokenType.IDENTIFIER.
Proof.
  unfold parseFunction. intros H. bind_inv H as name s1 H1.
  eapply parseIdentifier_Ok. exact H1.
Qed.

(** A property of the arrays a braced body fills that every iteration
    preserves holds of what the loop returns. *)
Lemma untilRightBrace_Ok {A} (P : A -> Prop) newlines (body : A -> M t A)
    fuel acc s r s' :
  (forall acc s acc' s', P acc -> body acc s = Ok acc' s' -> P acc') ->
  P acc -> untilRightBrace newlines body fuel acc s = Ok r s' -> P r.
Proof.
  intros Hbody. revert acc s. induction fuel as [|fuel IH]; intros acc s HP;
    [discriminate|].
  simpl. intros H. bind_inv H as closing s1 H1. bind_inv H as continue s2 H2.
  destruct continue.
  - bind_inv H as newline s3 H3. destruct newline.
    + bind_inv H as tk s4 H4. eapply IH; eassumption.
    + bind_inv H as acc' s4 H4. eapply IH; [|exact H].
      eapply Hbody; eassumption.
  - apply ret_Ok in H as [<- _]. exact HP.
Qed.

Lemma built_type_i32 field :
  built_type (field_typeAnnotation field) = true -> field_wasmType field = "i32".
Proof.
  unfold field_wasmType.
  destruct (field_typeAnnotation field) as [name loc|ty m loc];
    cbn [built_type]; [|reflexivity].
  unfold includes. rewrite existsb_exists. intros (x & Hin & E).
  apply String.eqb_eq in E. subst x.
  unfold primitive_names in Hin. cbn [In] in Hin.
  repeat (destruct Hin as [<-|Hin]; [reflexivity|]). destruct Hin.
Qed.

Lemma parseStruct_Ok fuel s node s' :
  parseStruct fuel s = Ok node s' -> lowered_to_i32 node.
Proof.
  unfold parseStruct. intros H. bind_inv H as name s1 H1.
  bind_inv H as brace s2 H2. bind_inv H as fields s3 H3.
  bind_inv H as closing s4 H4. bind_inv H as location s5 H5.
  apply ret_Ok in H as [<- _]. unfold lowered_to_i32. simpl.
  eapply (untilRightBrace_Ok
            (Forall (fun field => field_wasmType field = "i32")));
    [|constructor|exact H3].
  clear. intros acc s acc' s' HP H.
  bind_inv H as field s1 H1. bind_inv H as comma s2 H2.
  apply ret_Ok in H as [<- _]. apply parseField_Ok in H1 as [_ H1].
  apply Forall_app. split; [exact HP|].
  constructor; [apply built_type_i32; exact H1 | constructor].
Qed.

Lemma kind_clash s a b : cursor_kind s = Some a -> cursor_kind s = Some b -> a = b.
Proof. congruence. Qed.

Lemma parseContract_Ok BigInt depth fuel s node s' :
  parseContract BigInt depth fuel s = Ok node s' ->
  memberless (ContractItem node).
Proof.
  unfold parseContract. intros H. bind_inv H as name s1 H1.
  bind_inv H as brace s2 H2. bind_inv H as members s3 H3.
  bind_inv H as closing s4 H4. bind_inv H as location s5 H5.
  destruct members as [[fields functions] events].
  apply ret_Ok in H as [<- _]. simpl.
  apply (untilRightBrace_Ok
           (fun '(fields, functions, events) => fields = [] /\ functions = []))
    in H3; [exact H3| |split; reflexivity].
  clear. intros [[fields functions] events] s [[fields' functions'] events'] s'
    [-> ->] H.
  bind_inv H as isLet s1 H1. apply check_Ok in H1 as [-> K1].
  destruct isLet.
  { bind_inv H as field s1 H1. apply parseField_Ok in H1 as [H1 _].
    pose proof (kind_clash _ _ _ (K1 eq_refl) H1). discriminate. }
  bind_inv H as isFn s1 H1. apply check_Ok in H1 as [-> K2].
  destruct isFn.
  { bind_inv H as function s1 H1. apply parseFunction_Ok in H1.
    pose proof (kind_clash _ _ _ (K2 eq_refl) H1). discriminate. }
  bind_inv H as isEvent s1 H1. destruct isEvent.
  - bind_inv H as event s2 H2. apply ret_Ok in H as [H _].
    injection H as <- <- _. split; reflexivity.
  - bind_inv H as tk s2 H2. apply ret_Ok in H as [H _].
    injection H as <- <- _. split; reflexivity.
Qed.

Lemma parseImpl_Ok BigInt depth fuel s node s' :
  parseImpl BigInt depth fuel s = Ok node s' -> memberless (ImplItem node).
Proof.
  unfold parseImpl. intros H. bind_inv H as isId s1 H1.
  bind_inv H as names s2 H2. bind_inv H as brace s3 H3.
  bind_inv H as functions s4 H4. bind_inv H as closing s5 H5.
  bind_inv H as location s6 H6. apply ret_Ok in H as [<- _]. simpl.
  apply (untilRightBrace_Ok (fun functions => functions = [])) in H4;
    [exact H4| |reflexivity].
  clear. intros functions s functions' s' -> H.
  bind_inv H as isFn s1 H1. apply check_Ok in H1 as [-> K].
  destruct isFn.
  - bind_inv H as function s1 H1. apply parseFunction_Ok in H1.
    pose proof (kind_clash _ _ _ (K eq_refl) H1). discriminate.
  - bind_inv H as tk s1 H1. apply ret_Ok in H as [<- _]. reflexivity.
Qed.

Lemma parseModule_Ok item fuel s node s' :
  parseModule item fuel s = Ok node s' ->
  exists name items visibility location,
    node = ModuleDecl name items visibility location.
Proof.
  unfold parseModule. intros H. bind_inv H as name s1 H1.
  bind_inv H as brace s2 H2. bind_inv H as items s3 H3.
  bind_inv H as closing s4 H4. bind_inv H as location s5 H5.
  apply ret_Ok in H as [<- _]. eauto.
Qed.

(** A property of items that holds of what each item parser returns holds of
    what [parseItem] returns. *)
Lemma parseItem_Ok (P : Item -> Prop) BigInt depth fuel s item s' :
  (forall depth fuel s node s',
     parseContract BigInt depth fuel s = Ok node s' -> P (ContractItem node)) ->
  (forall node, P (FunctionItem node)) ->
  (forall fuel s node s',
     parseStruct fuel s = Ok node s' -> P (StructItem node)) ->
  (forall node, P (EnumItem node)) ->
  (forall node, P (TraitItem node)) ->
  (forall depth fuel s node s',
     parseImpl BigInt depth fuel s = Ok node s' -> P (ImplItem node)) ->
  (forall node, P (UseItem node)) ->
  (forall node, P (ConstItem node)) ->
  (forall name items visibility location,
     P (ModuleDecl name items visibility location)) ->
  parseItem BigInt depth fuel s = Ok (Some item) s' -> P item.
Proof.
  intros HC HF HS HE HT HI HU HK HM.
  rewrite ParserFacts.parseItem_unfold. unfold try_catch.
  destruct (parseItem_try BigInt _ depth fuel s)
    as [r s1|e s1|] eqn:E; [| |discriminate].
  2:{ intros H. bind_inv H as u s2 H2. apply ret_Ok in H as [H _]. discriminate H. }
  intros H. apply Ok_inj_parser in H. revert E.
  unfold parseItem_try. intros E.
  repeat match type of E with
         | bind (match_ _) _ _ = Ok _ _ =>
             let b := fresh "b" in
             let s2 := fresh "s" in
             let H1 := fresh "H" in
             apply bind_Ok in E; destruct E as (b & s2 & H1 & E);
             destruct b;
             [ let n := fresh "n" in
               let s3 := fresh "s" in
               let H2 := fresh "H" in
               apply bind_Ok in E; destruct E as (n & s3 & H2 & E);
               apply ret_Ok in E as [E _];
               destruct H as [H _]; rewrite H in E;
               injection E as <-; eauto
             | ]
         end.
  - match goal with
    | Hm : parseModule _ _ _ = Ok _ _ |- _ =>
        apply parseModule_Ok in Hm as (? & ? & ? & ? & ->)
    end.
    apply HM.
  - bind_inv E as tk sx Hx. apply ret_Ok in E as [E _].
    destruct H as [H _]. congruence.
Qed.

Lemma parse_loop_Ok (P : Item -> Prop) BigInt depth fuel items s l s' :
  (forall fuel s item s',
     parseItem BigInt depth fuel s = Ok (Some item) s' -> P item) ->
  Forall P items -> parse_loop BigInt depth fuel items s = Ok l s' ->
  Forall P l.
Proof.
  intros Hitem. revert items s. induction fuel as [|fuel IH]; intros items s HP;
    [discriminate|].
  simpl. intros H. bind_inv H as atEnd s1 H1. destruct atEnd.
  - apply ret_Ok in H as [<- _]. exact HP.
  - bind_inv H as newline s2 H2. destruct newline.
    + bind_inv H as tk s3 H3. eapply IH; eassumption.
    + bind_inv H as item s3 H3. eapply IH; [|exact H].
      destruct item as [item|]; [|exact HP].
      apply Forall_app. split; [exact HP|].
      constructor; [eapply Hitem; exact H3 | constructor].
Qed.

Lemma parse_Ok (P : Item -> Prop) BigInt depth s ast s' :
  (forall fuel s item s',
     parseItem BigInt depth fuel s = Ok (Some item) s' -> P item) ->
  parse BigInt depth s = Ok ast s' -> Forall P (file_items ast).
Proof.
  intros Hitem. unfold parse. intros H. bind_inv H as items s1 H1.
  apply ret_Ok in H as [<- _]. simpl.
  eapply parse_loop_Ok; [exact Hitem | constructor | exact H1].
Qed.

Lemma parseItem_memberless BigInt depth fuel s item s' :
  parseItem BigInt depth fuel s = Ok (Some item) s' -> memberless item.
Proof.
  apply parseItem_Ok; try (intros; exact I).
  - apply parseContract_Ok.
  - apply parseImpl_Ok.
Qed.

Lemma parseItem_lowered BigInt depth fuel s item s' :
  parseItem BigInt depth fuel s = Ok (Some item) s' ->
  struct_lowered_to_i32 item.
Proof.
  apply parseItem_Ok; try (intros; exact I).
  apply parseStruct_Ok.
Qed.

End ParsedFacts.

Module ParsedProps.
Import AST Compiler Parser ParsedSpec.

(** X5: whatever the tokens and the room on the call stack, [parse]
    returns, and every field of every struct it returns is lowered to [i32]
    by the code generator: [parseType] builds a primitive type only for a
    lower-case primitive name and a reference type otherwise, and
    [augustiumTypeToWASMType] maps none of these names, and no reference
    type, to [i64].  The same holds of every node [parseStruct] returns. *)
Theorem parsed_struct_fields_are_i32 (BigInt : string -> option Z)
    (init : list Token) (eof : Token) :
  tok_type eof = TokenType.EOF ->
  (forall stack, exists ast s',
     parse BigInt stack (new (init ++ [eof])) = Ok ast s'
     /\ Forall struct_lowered_to_i32 (file_items ast))
  /\ (forall fuel s node s',
        parseStruct fuel s = Ok node s' -> lowered_to_i32 node).
Proof.
  intros He. split.
  - intros stack.
    destruct (ParserFacts.parse_ok BigInt stack (new (init ++ [eof])))
      as (ast & s' & Hp & _).
    + apply ParserFacts.ends_with_EOF_ahead. exact He.
    + exists ast, s'. split; [exact Hp|].
      eapply ParsedFacts.parse_Ok; [|exact Hp].
      intros fuel s item s1. apply ParsedFacts.parseItem_lowered.
  - apply ParsedFacts.parseStruct_Ok.
Qed.

(** X6: whatever the tokens and the room on the call stack, no contract in
    the file [parse] returns has a field or a function and no impl block has
    a function: on [let] or [fn] the loops of [parseContract] and
    [parseImpl] call [parseField] and [parseFunction] without consuming the
    keyword, which raises, so a contract or impl block with a member is
    dropped by the recovery of [parseItem] instead of being returned. *)
Theorem parsed_contracts_have_no_members (BigInt : string -> option Z)
    (init : list Token) (eof : Token) :
  tok_type eof = TokenType.EOF ->
  (forall stack, exists ast s',
     parse BigInt stack (new (init ++ [eof])) = Ok ast s'
     /\ Forall memberless (file_items ast))
  /\ (forall stack fuel s node s',
        parseContract BigInt stack fuel s = Ok node s' ->
        contract_fields node = [] /\ contract_functions node = [])
  /\ (forall stack fuel s node s',
        parseImpl BigInt stack fuel s = Ok node s' -> impl_functions node = []).
Proof.
  intros He. split; [|split].
  - intros stack.
    destruct (ParserFacts.parse_ok BigInt stack (new (init ++ [eof])))
      as (ast & s' & Hp & _).
    + apply ParserFacts.ends_with_EOF_ahead. exact He.
    + exists ast, s'. split; [exact Hp|].
      eapply ParsedFacts.parse_Ok; [|exact Hp].
      intros fuel s item s1. apply ParsedFacts.parseItem_memberless.
  - intros stack fuel s node s' H.
    apply (ParsedFacts.parseContract_Ok _ _ _ _ _ _ H).
  - intros stack fuel s node s' H.
    apply (ParsedFacts.parseImpl_Ok _ _ _ _ _ _ H).
Qed.

End ParsedProps.

Module ParsedWitnesses.
Import AST Compiler Parser ParsedSpec ParsedProps StructRunSpec ParsedExamples.

Lemma parsed_struct_fields_are_i32_witness :
  exists ast s',
    parse no_BigInt Node.callStack
      (new (struct_tokens point_kw point_name point_lbrace point_fields
              point_rbrace ++ [eof_token])) = Ok ast s'
    /\ Forall struct_lowered_to_i32 (file_items ast).
Proof.
  destruct (parsed_struct_fields_are_i32 no_BigInt
              (struct_tokens point_kw point_name point_lbrace point_fields
                 point_rbrace) eof_token) as [H _].
  - reflexivity.
  - exact (H Node.callStack).
Defined.

Lemma parsed_contracts_have_no_members_witness :
  exists ast s',
    parse no_BigInt Node.callStack (new (contract_tokens ++ [eof_token])) = Ok ast s'
    /\ Forall memberless (file_items ast).
Proof.
  destruct (parsed_contracts_have_no_members no_BigInt contract_tokens eof_token)
    as [H _].
  - reflexivity.
  - exact (H Node.callStack).
Defined.

End ParsedWitnesses.

Module RecoveryFacts.
Import AST Parser ParserSpec ParserFacts RecoverySpec.

Lemma isAtEnd_eq s : eof_ahead s -> isAtEnd s = Ok (at_end s) s.
Proof.
  intros H. destruct (eof_ahead_peek s H) as [tk Hn].
  unfold isAtEnd, bind, peek, at_end. rewrite Hn. reflexivity.
Qed.

Lemma advance_moves_on s :
  eof_ahead s -> at_end s = false ->
  advance s = Ok (previous_opt (next s)) (next s).
Proof.
  intros H E. unfold advance, bind. rewrite (isAtEnd_eq s H), E. reflexivity.
Qed.

Lemma at_cursor_self s : at_cursor s (current s) = s.
Proof. destruct s. reflexivity. Qed.

Lemma synchronize_loop_first fuel s :
  eof_ahead s -> rem s <= fuel -> 0 < current s \/ at_end s = true ->
  exists s',
    synchronize_loop fuel s = Ok tt s'
    /\ tokens s' = tokens s /\ current s <= current s'
    /\ sync_point s' = true
    /\ forall i, current s <= i < current s' ->
                 sync_point (at_cursor s i) = false.
Proof.
  revert s. induction fuel as [|fuel IH]; intros s H Hf Hc.
  { apply eof_ahead_rem in H. lia. }
  simpl. unfold bind. rewrite (isAtEnd_eq s H).
  destruct (at_end s) eqn:E.
  { exists s. repeat split; try lia.
    unfold sync_point. rewrite E. reflexivity. }
  destruct Hc as [Hc|Hc]; [|discriminate].
  unfold previous. destruct (previous_opt s) as [prev|] eqn:Ep.
  2:{ unfold previous_opt in Ep. destruct (current s) as [|i] eqn:Ec; [lia|].
      apply nth_error_None in Ep. apply eof_ahead_lt in H. lia. }
  destruct (TokenType.eqb (tok_type prev) TokenType.Semicolon) eqn:Es.
  { exists s. repeat split; try lia.
    unfold sync_point. rewrite Ep, Es. apply orb_true_iff. left.
    apply orb_true_r. }
  destruct (eof_ahead_peek s H) as [tk Hn]. unfold peek. rewrite Hn.
  destruct (starts_declaration (tok_type tk)) eqn:Ed.
  { exists s. repeat split; try lia.
    unfold sync_point. rewrite Hn, Ed. apply orb_true_r. }
  rewrite (advance_moves_on s H E).
  destruct (IH (next s)) as (s' & Hr & Ht & Hle & Hsp & Hfirst).
  - apply eof_ahead_next; assumption.
  - apply eof_ahead_lt in H. unfold rem, next in *. simpl. lia.
  - left. simpl. lia.
  - exists s'. split; [exact Hr|]. split; [exact Ht|].
    simpl in Hle. split; [lia|]. split; [exact Hsp|].
    intros i Hi. destruct (Nat.eq_dec i (current s)) as [->|Hne].
    + rewrite at_cursor_self. unfold sync_point. rewrite E, Ep, Es, Hn, Ed.
      reflexivity.
    + apply (Hfirst i). simpl. lia.
Qed.

Lemma synchronize_first fuel s :
  eof_ahead s -> rem s <= fuel ->
  exists s',
    synchronize fuel s = Ok tt s'
    /\ tokens s' = tokens s
    /\ sync_point s' = true
    /\ (at_end s = false -> current s < current s')
    /\ forall i, current s < i < current s' ->
                 sync_point (at_cursor s i) = false.
Proof.
  intros H Hf. unfold synchronize, bind.
  destruct (at_end s) eqn:E.
  - unfold advance, bind. rewrite (isAtEnd_eq s H), E.
    destruct (synchronize_loop_first fuel s H Hf (or_intror E))
      as (s' & Hr & Ht & Hle & Hsp & Hfirst).
    exists s'. split; [exact Hr|]. split; [exact Ht|]. split; [exact Hsp|].
    split; [discriminate|]. intros i Hi. apply Hfirst. lia.
  - rewrite (advance_moves_on s H E).
    destruct (synchronize_loop_first fuel (next s)) as (s' & Hr & Ht & Hle & Hsp & Hfirst).
    + apply eof_ahead_next; assumption.
    + apply eof_ahead_lt in H. unfold rem, next in *. simpl. lia.
    + left. simpl. lia.
    + exists s'. split; [exact Hr|]. split; [exact Ht|]. split; [exact Hsp|].
      simpl in Hle. split; [intros _; lia|].
      intros i Hi. apply (Hfirst i). simpl. lia.
Qed.

End RecoveryFacts.

Module RecoveryProps.
Import AST Parser ParserSpec ParserFacts RecoverySpec RecoveryFacts ParsedExamples.

(** X7: when the body of [parseItem] raises with the cursor at [s1], the
    exception is swallowed: [parseItem] returns [null] and leaves the cursor
    on the first synchronisation point after [s1], having skipped at least
    one token unless [s1] is at the end of input.  A synchronisation point
    is the end of input, a cursor just after a semicolon, or a cursor in
    front of [contract], [fn], [struct], [enum], [trait], [impl], [use],
    [const], [let] or [return]. *)
Theorem parseItem_resumes_at_first_sync_point (BigInt : string -> option Z)
    (stack fuel : nat) (s s1 : t) (e : Exn) :
  eof_ahead s -> rem s + 3 <= fuel ->
  parseItem_try BigInt
    (nested (fun stack' => parseItem BigInt stack' fuel) stack) stack fuel s
  = Throw e s1 ->
  exists s',
    parseItem BigInt stack fuel s = Ok None s'
    /\ tokens s' = tokens s
    /\ sync_point s' = true
    /\ (at_end s1 = false -> current s1 < current s')
    /\ forall i, current s1 < i < current s' ->
                 sync_point (at_cursor s1 i) = false.
Proof.
  intros H Hf Htry.
  pose proof (parseItem_body_step BigInt stack fuel s H Hf) as Hstep.
  unfold sat in Hstep. rewrite Htry in Hstep.
  destruct Hstep as (_ & Ht & Hle & H1).
  destruct (synchronize_first fuel s1 H1) as (s' & Hsync & Ht' & Hsp & Hmove & Hfirst).
  { unfold rem in *. rewrite Ht. lia. }
  exists s'. split; [|split; [congruence|split; [exact Hsp|split; assumption]]].
  rewrite parseItem_unfold. unfold try_catch. rewrite Htry. unfold bind. rewrite Hsync. reflexivity.
Qed.

Lemma parseItem_resumes_at_first_sync_point_witness :
  exists s',
    parseItem no_BigInt Node.callStack 8 (new broken_tokens) = Ok None s'
    /\ current s' = 3.
Proof.
  destruct (parseItem_resumes_at_first_sync_point no_BigInt Node.callStack 8
              (new broken_tokens) (mk broken_tokens 1)
              (ParseError "Expected identifier"
                 (mkToken TokenType.LeftBrace "{" 1 8 7 8)))
    as (s' & Hrun & _ & _ & _ & _).
  - exists 4, (mkToken TokenType.EOF EmptyString 1 14 13 13).
    repeat split. simpl. lia.
  - vm_compute. lia.
  - vm_compute. reflexivity.
  - exists s'. split; [exact Hrun|].
    vm_compute in Hrun. injection Hrun as <-. reflexivity.
Defined.

End RecoveryProps.

Module StructRun.
Import AST Parser ParserSpec ParserFacts ParserRunsSpec ParserRuns StructRunSpec.

#[local] Arguments match_ : simpl never.
#[local] Arguments check : simpl never.
#[local] Arguments consume : simpl never.

Lemma bind_run {A B} (m : M t A) (k : A -> M t B) s a s1 :
  m s = Ok a s1 -> bind m k s = k a s1.
Proof. intros H. unfold bind. rewrite H. reflexivity. Qed.

Lemma among_one type tk :
  among [type] tk = TokenType.eqb (tok_type tk) type.
Proof. unfold among. simpl. apply orb_false_r. Qed.

Lemma optionalComma_comma s comma rest :
  ahead s = comma :: rest -> tok_type comma = TokenType.Comma ->
  optionalComma s = Ok tt (next s).
Proof.
  intros Ha Hc. unfold optionalComma, bind.
  rewrite (check_run _ _ _ _ Ha), Hc. simpl.
  rewrite (match_hit _ _ _ _ Ha); [reflexivity | rewrite Hc; discriminate |].
  rewrite among_one, Hc. reflexivity.
Qed.

Lemma optionalComma_skip s tk rest :
  ahead s = tk :: rest -> tok_type tk <> TokenType.Comma ->
  optionalComma s = Ok tt s.
Proof.
  intros Ha Hc. unfold optionalComma, bind.
  rewrite (check_run _ _ _ _ Ha).
  destruct (negb _ && _); [reflexivity|].
  rewrite (match_miss _ _ _ _ Ha); [reflexivity|].
  rewrite among_one. apply TokenTypeFacts.eqb_neq. exact Hc.
Qed.

Lemma parseField_run s f rest :
  field_shape f = true -> ahead s = (field_tokens f ++ rest)%list ->
  parseField s
  = Ok (field_node f) (next (next (next s))).
Proof.
  unfold field_shape. rewrite !andb_true_iff, !TokenTypeFacts.eqb_eq.
  intros [[[Hn Hc] Ht] _] Ha. unfold field_tokens in Ha. simpl in Ha.
  pose proof (ahead_next _ _ _ Ha) as Ha1.
  pose proof (ahead_next _ _ _ Ha1) as Ha2.
  unfold parseField, bind.
  rewrite (parseIdentifier_run _ _ _ Ha Hn).
  rewrite (consume_hit _ _ _ _ _ Ha1 Hc) by discriminate.
  rewrite (parseType_run _ _ _ Ha2 Ht).
  rewrite (getLocation_next _ _ _ Ha2). reflexivity.
Qed.

(** The loop of [parseStruct] over the tokens of [fields]. *)
Lemma struct_fields_run fields :
  forall fuel acc s rbrace rest,
    forallb field_shape fields = true ->
    tok_type rbrace = TokenType.RightBrace ->
    ahead s = (concat (map field_tokens fields) ++ rbrace :: rest)%list ->
    List.length fields < fuel ->
    exists s',
      untilRightBrace true
        (fun fields =>
           let! field := parseField in
           let! _ := optionalComma in
           ret (fields ++ [field])%list)
        fuel acc s
      = Ok (acc ++ map field_node fields)%list s'
      /\ ahead s' = rbrace :: rest.
Proof.
  induction fields as [|f fields IH]; intros fuel acc s rbrace rest Hs Hr Ha Hf.
  - simpl in Ha. destruct fuel as [|fuel]; [lia|]. exists s.
    split; [|exact Ha]. simpl. unfold bind.
    rewrite (check_run _ _ _ _ Ha), Hr. simpl. rewrite app_nil_r. reflexivity.
  - simpl in Hs. apply andb_true_iff in Hs as [Hf1 Hs].
    destruct fuel as [|fuel]; [simpl in Hf; lia|].
    simpl in Ha. rewrite <- app_assoc in Ha.
    pose proof (parseField_run s f _ Hf1 Ha) as Hfield.
    pose proof Hf1 as Hshape. unfold field_shape in Hshape.
    rewrite !andb_true_iff, !TokenTypeFacts.eqb_eq in Hshape.
    destruct Hshape as [[[Hn Hc] Ht] Hcomma].
    assert (Ha0 : ahead s = ft_name f :: (ft_colon f :: ft_type f
                    :: (match ft_comma f with Some c => [c] | None => [] end
                        ++ concat (map field_tokens fields) ++ rbrace :: rest))%list)
      by exact Ha.
    pose proof (ahead_next _ _ _ Ha0) as Ha1.
    pose proof (ahead_next _ _ _ Ha1) as Ha2.
    pose proof (ahead_next _ _ _ Ha2) as Ha3.
    assert (Hcomma_run : exists s3,
               optionalComma (next (next (next s))) = Ok tt s3
               /\ ahead s3 = (concat (map field_tokens fields) ++ rbrace :: rest)%list).
    { destruct (ft_comma f) as [comma|].
      - apply TokenTypeFacts.eqb_eq in Hcomma. simpl in Ha3.
        exists (next (next (next (next s)))). split.
        + apply (optionalComma_comma _ _ _ Ha3 Hcomma).
        + apply (ahead_next _ _ _ Ha3).
      - simpl in Ha3. exists (next (next (next s))). split; [|exact Ha3].
        destruct fields as [|g fields].
        + simpl in Ha3. apply (optionalComma_skip _ _ _ Ha3).
          rewrite Hr. discriminate.
        + simpl in Ha3. simpl in Hs. apply andb_true_iff in Hs as [Hg _].
          unfold field_shape in Hg.
          rewrite !andb_true_iff, !TokenTypeFacts.eqb_eq in Hg.
          destruct Hg as [[[Hgn _] _] _].
          apply (optionalComma_skip _ _ _ Ha3). rewrite Hgn. discriminate. }
    destruct Hcomma_run as (s3 & Hcr & Ha3').
    destruct (IH fuel (acc ++ [field_node f])%list s3 rbrace rest Hs Hr Ha3')
      as (s' & Hrun & Ha'); [simpl in Hf; lia|].
    exists s'. split; [|exact Ha'].
    change (untilRightBrace true ?body (S fuel) acc)
      with (let! closing := check TokenType.RightBrace in
            let! continue :=
              (if closing then ret false
               else let! atEnd := isAtEnd in ret (negb atEnd)) in
            if continue then
              let! newline := check TokenType.Newline in
              if newline then
                let! _ := advance in untilRightBrace true body fuel acc
              else
                let! acc' := body acc in untilRightBrace true body fuel acc'
            else ret acc).
    unfold bind at 1. rewrite (check_run _ _ _ _ Ha0), Hn. simpl.
    unfold bind at 1. unfold bind at 1. rewrite (isAtEnd_run _ _ _ Ha0), Hn.
    simpl. unfold bind at 1. rewrite (check_run _ _ _ _ Ha0), Hn. simpl.
    unfold bind at 1. unfold bind at 1. rewrite Hfield.
    unfold bind at 1. rewrite Hcr. unfold ret at 1.
    rewrite Hrun. rewrite <- app_assoc. reflexivity.
Qed.

Lemma struct_shape_parts kw name lbrace fields rbrace :
  struct_shape kw name lbrace fields rbrace = true ->
  tok_type kw = TokenType.STRUCT /\ tok_type name = TokenType.IDENTIFIER
  /\ tok_type lbrace = TokenType.LeftBrace
  /\ forallb field_shape fields = true
  /\ tok_type rbrace = TokenType.RightBrace.
Proof.
  unfold struct_shape. rewrite !andb_true_iff, !TokenTypeFacts.eqb_eq. tauto.
Qed.

Lemma parseStruct_run fuel s name lbrace fields rbrace rest :
  tok_type name = TokenType.IDENTIFIER ->
  tok_type lbrace = TokenType.LeftBrace ->
  forallb field_shape fields = true ->
  tok_type rbrace = TokenType.RightBrace ->
  ahead s = (name :: lbrace :: concat (map field_tokens fields)
               ++ rbrace :: rest)%list ->
  List.length fields < fuel ->
  exists s',
    parseStruct fuel s = Ok (struct_node name fields rbrace) s'
    /\ ahead s' = rest.
Proof.
  intros Hn Hl Hs Hr Ha Hf.
  pose proof (ahead_next _ _ _ Ha) as Ha1.
  pose proof (ahead_next _ _ _ Ha1) as Ha2.
  destruct (struct_fields_run fields fuel [] (next (next s)) rbrace rest
              Hs Hr Ha2 Hf) as (s3 & Hrun & Ha3).
  exists (next s3). split; [|apply (ahead_next _ _ _ Ha3)].
  unfold parseStruct.
  rewrite (bind_run _ _ _ _ _ (parseIdentifier_run _ _ _ Ha Hn)).
  rewrite (bind_run _ _ _ _ _
             (consume_hit _ "Expected '{' after struct name" _ _ _ Ha1 Hl
                ltac:(discriminate))).
  rewrite (bind_run _ _ _ _ _ Hrun).
  rewrite (bind_run _ _ _ _ _
             (consume_hit _ "Expected '}' after struct fields" _ _ _ Ha3 Hr
                ltac:(discriminate))).
  rewrite (bind_run _ _ _ _ _ (getLocation_next _ _ _ Ha3)). reflexivity.
Qed.

Lemma parseItem_struct_run BigInt depth fuel s kw name lbrace fields rbrace
    rest :
  struct_shape kw name lbrace fields rbrace = true ->
  ahead s = (struct_tokens kw name lbrace fields rbrace ++ rest)%list ->
  List.length fields + 2 <= fuel ->
  exists s',
    parseItem BigInt depth fuel s
    = Ok (Some (StructItem (struct_node name fields rbrace))) s'
    /\ ahead s' = rest.
Proof.
  intros Hshape Ha Hf.
  apply struct_shape_parts in Hshape as (Hk & Hn & Hl & Hs & Hr).
  unfold struct_tokens in Ha. simpl in Ha. rewrite <- app_assoc in Ha.
  simpl in Ha.
  destruct (parseStruct_run fuel (next s) name lbrace fields rbrace rest
              Hn Hl Hs Hr (ahead_next _ _ _ Ha)) as (s' & Hrun & Ha');
    [lia|].
  exists s'. split; [|exact Ha'].
  rewrite parseItem_unfold. unfold try_catch, parseItem_try, bind.
  assert (Hmiss : forall types, among types kw
                    = existsb (TokenType.eqb TokenType.STRUCT) types).
  { intros types. unfold among. rewrite Hk. reflexivity. }
  repeat (rewrite (match_miss _ _ _ _ Ha) by (rewrite Hmiss; reflexivity)).
  rewrite (match_hit _ _ _ _ Ha)
    by (try rewrite Hmiss; try rewrite Hk; try reflexivity; discriminate).
  rewrite Hrun. reflexivity.
Qed.

Lemma length_struct_tokens kw name lbrace fields rbrace :
  List.length fields + 4
  <= List.length (struct_tokens kw name lbrace fields rbrace).
Proof.
  unfold struct_tokens. simpl. rewrite length_app. simpl.
  assert (List.length fields <= List.length (concat (map field_tokens fields))).
  { induction fields as [|f fields IH]; simpl; [lia|].
    rewrite length_app. lia. }
  lia.
Qed.

Lemma parse_struct_file BigInt depth kw name lbrace fields rbrace eof :
  struct_shape kw name lbrace fields rbrace = true ->
  tok_type eof = TokenType.EOF ->
  exists s',
    parse BigInt depth
      (new (struct_tokens kw name lbrace fields rbrace ++ [eof]))
    = Ok (mkSourceFile [StructItem (struct_node name fields rbrace)]
            (mkLoc 1 1)) s'.
Proof.
  intros Hshape He.
  set (s0 := new (struct_tokens kw name lbrace fields rbrace ++ [eof])).
  assert (Ha : ahead s0 = (struct_tokens kw name lbrace fields rbrace ++ [eof])%list)
    by reflexivity.
  assert (Hfuel : exists f, parse_fuel s0 = S f /\ List.length fields + 2 <= f).
  { pose proof (length_struct_tokens kw name lbrace fields rbrace).
    exists (List.length (struct_tokens kw name lbrace fields rbrace) + 4).
    unfold parse_fuel, s0, new. cbn [tokens current].
    rewrite length_app. cbn [List.length]. lia. }
  destruct Hfuel as (f & Hfuel & Hf).
  destruct (parseItem_struct_run BigInt depth f s0 kw name lbrace fields rbrace
              [eof] Hshape Ha Hf) as (s1 & Hitem & Ha1).
  exists s1. unfold parse, bind. rewrite Hfuel.
  apply struct_shape_parts in Hshape as (Hk & _).
  assert (Ha0 : exists more, ahead s0 = kw :: more).
  { unfold struct_tokens in Ha. simpl in Ha. eauto. }
  destruct Ha0 as (more & Ha0).
  destruct f as [|f]; [lia|].
  change (parse_loop BigInt depth (S (S f)) [])
    with (let! atEnd := isAtEnd in
          if atEnd then ret []
          else
            let! newline := check TokenType.Newline in
            if newline then let! _ := advance in parse_loop BigInt depth (S f) []
            else
              let! item := parseItem BigInt depth (S f) in
              parse_loop BigInt depth (S f)
                (match item with
                 | Some it => ([] ++ [it])%list
                 | None => []
                 end)).
  unfold bind.
  rewrite (isAtEnd_run _ _ _ Ha0), Hk.
  change (TokenType.eqb TokenType.STRUCT TokenType.EOF) with false.
  cbv beta iota.
  rewrite (check_run _ _ _ _ Ha0), Hk.
  change (negb (TokenType.eqb TokenType.STRUCT TokenType.EOF)
          && TokenType.eqb TokenType.STRUCT TokenType.Newline) with false.
  cbv beta iota.
  rewrite Hitem. simpl. unfold bind.
  rewrite (isAtEnd_run _ _ _ Ha1), He. reflexivity.
Qed.

End StructRun.

Module StructProps.
Import AST Parser ParserSpec ParserRunsSpec StructRunSpec ParsedExamples.

(** X8: the tokens of [struct name { f1: t1, ..., fn: tn }], each comma
    optional, are parsed into one [Struct] node that has a field for each
    [fi: ti], in order, every field private, the struct located at its
    closing brace and each field at its type.  [parseItem] consumes exactly
    these tokens, and a token array holding them and the end of input
    parses to a file with that struct as its only item. *)
Theorem struct_tokens_parse_to_struct_node (BigInt : string -> option Z)
    (kw name lbrace : Token) (fields : list FieldTokens) (rbrace eof : Token) :
  struct_shape kw name lbrace fields rbrace = true ->
  tok_type eof = TokenType.EOF ->
  (forall stack fuel s rest,
     ahead s = (struct_tokens kw name lbrace fields rbrace ++ rest)%list ->
     List.length fields + 2 <= fuel ->
     exists s',
       parseItem BigInt stack fuel s
       = Ok (Some (StructItem (struct_node name fields rbrace))) s'
       /\ ahead s' = rest)
  /\ forall stack, exists s',
       parse BigInt stack
         (new (struct_tokens kw name lbrace fields rbrace ++ [eof]))
       = Ok (mkSourceFile [StructItem (struct_node name fields rbrace)]
               (mkLoc 1 1)) s'.
Proof.
  intros Hshape He. split.
  - intros stack fuel s rest Ha Hf.
    apply (StructRun.parseItem_struct_run BigInt stack fuel s kw name lbrace
             fields rbrace rest Hshape Ha Hf).
  - intros stack. apply StructRun.parse_struct_file; assumption.
Qed.

Lemma struct_tokens_parse_to_struct_node_witness :
  exists s',
    parse no_BigInt Node.callStack
      (new (struct_tokens point_kw point_name point_lbrace point_fields
              point_rbrace ++ [eof_token]))
    = Ok (mkSourceFile
            [StructItem (struct_node point_name point_fields point_rbrace)]
            (mkLoc 1 1)) s'.
Proof.
  destruct (struct_tokens_parse_to_struct_node no_BigInt point_kw point_name
              point_lbrace point_fields point_rbrace eof_token) as [_ H].
  - reflexivity.
  - reflexivity.
  - exact (H Node.callStack).
Defined.

End StructProps.

Module AcceptedFacts.
Import AST Compiler ValidatorSpec AcceptedSpec.

Lemma has_struct_fold items acc :
  fold_left (fun hasStruct item => if is_struct item then true else hasStruct)
    items acc
  = match structs_of items with [] => acc | _ :: _ => true end.
Proof.
  revert acc. induction items as [|item rest IH]; intros acc; simpl.
  - reflexivity.
  - rewrite IH. destruct item; simpl; try reflexivity.
    destruct (structs_of rest); reflexivity.
Qed.

Lemma errors_fold items errors :
  fold_left
    (fun errors item =>
       match item with
       | StructItem struct => (errors ++ validateStruct struct)%list
       | _ => errors
       end)
    items errors
  = (errors ++ concat (map validateStruct (structs_of items)))%list.
Proof.
  revert errors. induction items as [|item rest IH]; intros errors; simpl.
  - rewrite app_nil_r. reflexivity.
  - rewrite IH. destruct item; simpl; try reflexivity.
    rewrite <- app_assoc. reflexivity.
Qed.

Lemma validateAST_diagnostics ast :
  validateAST ast
  = ((match structs_of (file_items ast) with
      | [] => [missing_struct_error]
      | _ :: _ => []
      end)
       ++ concat (map validateStruct (structs_of (file_items ast))))%list.
Proof.
  unfold validateAST. rewrite errors_fold, has_struct_fold.
  destruct (structs_of (file_items ast)); reflexivity.
Qed.

Lemma existsb_same_name f earlier :
  existsb (same_name f) earlier = true
  <-> In (id_name (field_name f))
        (map (fun g => id_name (field_name g)) earlier).
Proof.
  rewrite existsb_exists, in_map_iff. unfold same_name. split.
  - intros (g & Hin & E). apply String.eqb_eq in E. eauto.
  - intros (g & E & Hin). exists g. split; [exact Hin|].
    apply String.eqb_eq. congruence.
Qed.

Lemma repeats_nil earlier fields :
  repeats earlier fields = []
  <-> NoDup (map (fun f => id_name (field_name f)) fields)
      /\ forall f, In f fields -> existsb (same_name f) earlier = false.
Proof.
  revert earlier. induction fields as [|f rest IH]; intros earlier; simpl.
  - split; [intros _; split; [constructor | intros f []] | reflexivity].
  - split.
    + intros H. apply app_eq_nil in H. destruct H as [Hf Hrest].
      apply IH in Hrest. destruct Hrest as [Hnd Hout].
      assert (Hfe : existsb (same_name f) earlier = false).
      { destruct (existsb (same_name f) earlier); [discriminate | reflexivity]. }
      split.
      * constructor; [|exact Hnd].
        intros Hin. apply in_map_iff in Hin. destruct Hin as (g & E & Hg).
        specialize (Hout g Hg). rewrite existsb_app in Hout.
        apply orb_false_iff in Hout. destruct Hout as [_ Hout].
        simpl in Hout. unfold same_name in Hout.
        rewrite E, String.eqb_refl in Hout. discriminate.
      * intros g [<-|Hg]; [exact Hfe|].
        specialize (Hout g Hg). rewrite existsb_app in Hout.
        apply orb_false_iff in Hout. tauto.
    + intros [Hnd Hout].
      rewrite (Hout f (or_introl eq_refl)). simpl.
      apply IH. inversion Hnd as [|x l Hnotin Hnd2]; subst.
      split; [exact Hnd2|].
      intros g Hg. rewrite existsb_app. apply orb_false_iff.
      split; [apply Hout; right; exact Hg|].
      simpl. rewrite orb_false_r. unfold same_name.
      apply String.eqb_neq. intros E. apply Hnotin.
      apply in_map_iff. exists g. split; [congruence | exact Hg].
Qed.

Lemma validateStruct_nil struct :
  validateStruct struct = [] <-> sound_struct struct.
Proof.
  rewrite ValidatorFacts.validateStruct_spec. unfold sound_struct, field_names.
  split.
  - intros H. apply app_eq_nil in H. destruct H as [He Hd].
    apply map_eq_nil in Hd. apply repeats_nil in Hd.
    split; [|tauto].
    intros E. rewrite E in He. discriminate.
  - intros [Hne Hnd].
    destruct (struct_fields struct) as [|f fields] eqn:E; [congruence|].
    cbn [List.length Nat.eqb app].
    replace (repeats [] (f :: fields)) with (@nil Field); [reflexivity|].
    symmetry. apply repeats_nil. split; [exact Hnd|]. reflexivity.
Qed.

Lemma concat_nil {A} (ls : list (list A)) :
  concat ls = [] <-> Forall (fun l => l = []) ls.
Proof.
  induction ls as [|l ls IH]; simpl.
  - split; [constructor | reflexivity].
  - split.
    + intros H. apply app_eq_nil in H. constructor; tauto.
    + intros H. inversion H; subst. simpl. tauto.
Qed.

Lemma In_structs_of items struct :
  In struct (structs_of items) <-> In (StructItem struct) items.
Proof.
  induction items as [|item rest IH]; simpl.
  - tauto.
  - destruct item; simpl; rewrite IH;
      try (split; [tauto | intros [H|H]; [discriminate | exact H]]).
    split; intros [H|H]; try tauto; left; congruence.
Qed.

End AcceptedFacts.

Module AcceptedProps.
Import AST Compiler ValidatorSpec AcceptedSpec AcceptedFacts.

(** X9: [validateAST] reports the missing struct first, when no item is a
    struct, and then the diagnostics of each struct in the order of
    declaration; items that are not structs are not looked at.  So it
    reports nothing exactly when some item is a struct and every struct has
    at least one field and no two fields of one name. *)
Theorem validateAST_accepts (ast : SourceFile) :
  validateAST ast
  = ((if existsb is_struct (file_items ast) then []
      else [missing_struct_error])
       ++ concat (map validateStruct (structs_of (file_items ast))))%list
  /\ (validateAST ast = []
      <-> existsb is_struct (file_items ast) = true
          /\ forall struct, In (StructItem struct) (file_items ast) ->
               sound_struct struct).
Proof.
  assert (Hex : existsb is_struct (file_items ast)
                = match structs_of (file_items ast) with
                  | [] => false | _ :: _ => true end).
  { induction (file_items ast) as [|item rest IH]; [reflexivity|].
    simpl. rewrite IH. destruct item; simpl; try reflexivity. }
  rewrite validateAST_diagnostics, Hex. split.
  - destruct (structs_of (file_items ast)); reflexivity.
  - split.
    + intros H. apply app_eq_nil in H. destruct H as [Hm Hs].
      split.
      * destruct (structs_of (file_items ast)); [discriminate | reflexivity].
      * intros struct Hin. apply In_structs_of in Hin.
        apply concat_nil in Hs. rewrite List.Forall_forall in Hs.
        apply validateStruct_nil. apply Hs. apply in_map. exact Hin.
    + intros [Hhas Hall].
      destruct (structs_of (file_items ast)) as [|s0 rest] eqn:E;
        [discriminate|].
      cbn [app]. apply concat_nil.
      apply List.Forall_forall. intros l Hl. apply in_map_iff in Hl.
      destruct Hl as (struct & <- & Hin).
      apply validateStruct_nil. apply Hall. apply In_structs_of.
      rewrite E. exact Hin.
Qed.

End AcceptedProps.

Module JSMapFacts.
Import JSMap.

Section Facts.

Context {V : Type}.

Implicit Types (m : JSMap.t V) (k key : string) (v : V).

Lemma get_set_same m k v : get (set m k v) k = Some v.
Proof.
  induction m as [|[k' v'] m IH]; simpl.
  - rewrite String.eqb_refl. reflexivity.
  - destruct (String.eqb k' k) eqn:E; simpl; rewrite E; [reflexivity | exact IH].
Qed.

Lemma get_set_other m k k' v : k <> k' -> get (set m k v) k' = get m k'.
Proof.
  intros Hne. induction m as [|[k0 v0] m IH]; simpl.
  - apply String.eqb_neq in Hne. rewrite Hne. reflexivity.
  - destruct (String.eqb k0 k) eqn:E; simpl.
    + apply String.eqb_eq in E. subst k0.
      apply String.eqb_neq in Hne. rewrite Hne. reflexivity.
    + rewrite IH. reflexivity.
Qed.

Lemma get_In m k v : get m k = Some v -> In (k, v) m.
Proof.
  induction m as [|[k' v'] m IH]; simpl; [discriminate|].
  destruct (String.eqb k' k) eqn:E.
  - apply String.eqb_eq in E. intros [= ->]. left. congruence.
  - intros H. right. apply IH. exact H.
Qed.

Lemma get_None m k : get m k = None <-> ~ In k (keys m).
Proof.
  induction m as [|[k' v'] m IH]; simpl; [tauto|].
  destruct (String.eqb k' k) eqn:E.
  - apply String.eqb_eq in E. split; [discriminate | tauto].
  - apply String.eqb_neq in E. rewrite IH. tauto.
Qed.

Lemma has_In m k : has m k = true <-> In k (keys m).
Proof.
  unfold has. destruct (get m k) eqn:E.
  - split; [|reflexivity]. intros _.
    apply get_In in E. apply (in_map fst) in E. exact E.
  - apply get_None in E. split; [discriminate | tauto].
Qed.

Lemma In_get m k v : NoDup (keys m) -> In (k, v) m -> get m k = Some v.
Proof.
  induction m as [|[k' v'] m IH]; simpl; [tauto|].
  intros Hnd [H|H].
  - injection H as -> ->. rewrite String.eqb_refl. reflexivity.
  - inversion Hnd as [|? ? Hni Hnd']; subst.
    destruct (String.eqb k' k) eqn:E.
    + apply String.eqb_eq in E. subst k'. exfalso. apply Hni.
      apply (in_map fst) in H. exact H.
    + apply IH; assumption.
Qed.

Lemma keys_set m k v :
  keys (set m k v) = if has m k then keys m else (keys m ++ [k])%list.
Proof.
  induction m as [|[k' v'] m IH]; simpl; [reflexivity|].
  unfold has in *. simpl. destruct (String.eqb k' k) eqn:E; simpl.
  - reflexivity.
  - rewrite IH. destruct (get m k); reflexivity.
Qed.

Lemma size_set m k v :
  size (set m k v) = if has m k then size m else S (size m).
Proof.
  unfold size. rewrite <- !(length_map fst). fold (keys (set m k v)) (keys m).
  rewrite keys_set. destruct (has m k); [reflexivity|].
  rewrite length_app. simpl. lia.
Qed.

Lemma NoDup_snoc (l : list string) k :
  NoDup l -> ~ In k l -> NoDup (l ++ [k]).
Proof.
  induction l as [|x l IH]; simpl; intros Hnd Hni.
  - constructor; [simpl; tauto | constructor].
  - inversion Hnd as [|? ? Hx Hl]; subst. constructor.
    + rewrite in_app_iff. simpl. intros [H|[H|[]]]; [tauto|]. subst. tauto.
    + apply IH; [exact Hl | tauto].
Qed.

Lemma NoDup_set m k v : NoDup (keys m) -> NoDup (keys (set m k v)).
Proof.
  intros H. rewrite keys_set. destruct (has m k) eqn:E; [exact H|].
  apply NoDup_snoc; [exact H|]. intros Hin. apply has_In in Hin. congruence.
Qed.

Lemma delete_absent m k : has m k = false -> delete m k = m.
Proof.
  unfold has. induction m as [|[k' v'] m IH]; simpl; [reflexivity|].
  destruct (String.eqb k' k); [discriminate|]. intros H. rewrite IH; auto.
Qed.


Lemma In_delete m k x : In x (delete m k) -> In x m.
Proof.
  induction m as [|[k' v'] m IH]; simpl; [tauto|].
  destruct (String.eqb k' k); simpl; [tauto|]. intros [H|H]; [tauto|].
  right. apply IH. exact H.
Qed.

Lemma keys_delete_In m k x : In x (keys (delete m k)) -> In x (keys m).
Proof.
  unfold keys. rewrite !in_map_iff. intros (p & <- & H).
  exists p. split; [reflexivity|]. eapply In_delete. exact H.
Qed.

Lemma NoDup_delete m k : NoDup (keys m) -> NoDup (keys (delete m k)).
Proof.
  induction m as [|[k' v'] m IH]; simpl; [auto|].
  intros H. inversion H as [|? ? Hni Hnd]; subst.
  destruct (String.eqb k' k); [exact Hnd|]. simpl.
  constructor; [|apply IH; exact Hnd].
  intros Hin. apply Hni. eapply keys_delete_In. exact Hin.
Qed.

Lemma get_delete_same m k : NoDup (keys m) -> get (delete m k) k = None.
Proof.
  induction m as [|[k' v'] m IH]; simpl; [reflexivity|].
  intros H. inversion H as [|? ? Hni Hnd]; subst.
  destruct (String.eqb k' k) eqn:E.
  - apply String.eqb_eq in E. subst k'. apply get_None. exact Hni.
  - simpl. rewrite E. apply IH. exact Hnd.
Qed.

Lemma get_delete_other m k k' : k <> k' -> get (delete m k) k' = get m k'.
Proof.
  intros Hne. induction m as [|[k0 v0] m IH]; simpl; [reflexivity|].
  destruct (String.eqb k0 k) eqn:E.
  - apply String.eqb_eq in E. subst k0.
    apply String.eqb_neq in Hne. rewrite Hne. reflexivity.
  - simpl. rewrite IH. reflexivity.
Qed.

(** Deleting the key of an entry that passes no filter test. *)
Lemma delete_filter m k (f : string * V -> bool) :
  NoDup (keys m) -> (forall v, In (k, v) m -> f (k, v) = false) ->
  filter f (delete m k) = filter f m.
Proof.
  induction m as [|[k' v'] m IH]; simpl; [reflexivity|].
  intros H Hf. inversion H as [|? ? Hni Hnd]; subst.
  destruct (String.eqb k' k) eqn:E.
  - apply String.eqb_eq in E. subst k'. rewrite (Hf v') by (left; reflexivity).
    reflexivity.
  - simpl. rewrite IH; [reflexivity | exact Hnd |].
    intros v Hv. apply Hf. right. exact Hv.
Qed.

End Facts.

End JSMapFacts.

Module CacheFacts.
Import CacheManager CacheSpec JSMapFacts.

Section Facts.

Context {V : Type}.

Variable json_length : V -> Exn + nat.

Lemma totalSize_acc (m : JSMap.t (CacheEntry V)) acc :
  totalSize json_length m acc
  = match totalSize json_length m 0 with
    | inr n => inr (acc + n)
    | inl e => inl e
    end.
Proof.
  revert acc. induction m as [|[k e] m IH]; intros acc; simpl.
  - f_equal. lia.
  - destruct (estimateEntrySize json_length e) as [x|n]; [reflexivity|].
    rewrite (IH (acc + n)), (IH n).
    destruct (totalSize json_length m 0); [reflexivity|]. f_equal. lia.
Qed.

Lemma totalSize_sizable m n :
  totalSize json_length m 0 = inr n -> sizable json_length m.
Proof.
  revert n. induction m as [|[k e] m IH]; intros n; simpl.
  - constructor.
  - destruct (estimateEntrySize json_length e) as [x|n0] eqn:E; [discriminate|].
    rewrite totalSize_acc.
    destruct (totalSize json_length m 0) as [x|n1] eqn:E1; [discriminate|].
    intros _. constructor; [simpl; eauto | eapply IH; reflexivity].
Qed.

Lemma sizable_totalSize m :
  sizable json_length m -> exists n, totalSize json_length m 0 = inr n.
Proof.
  induction m as [|[k e] m IH]; intros H; simpl; [eauto|].
  inversion H as [|? ? [n Hn] Hm]; subst. simpl in Hn. rewrite Hn.
  rewrite totalSize_acc. destruct (IH Hm) as [n1 ->]. eauto.
Qed.

Lemma sizable_delete m key :
  sizable json_length m -> sizable json_length (JSMap.delete m key).
Proof.
  unfold sizable. rewrite !Forall_forall. intros H x Hx. apply H.
  eapply In_delete. exact Hx.
Qed.

Lemma In_set m key (e : CacheEntry V) x :
  In x (JSMap.set m key e) -> In x m \/ x = (key, e).
Proof.
  induction m as [|[k' e'] m IH]; simpl.
  - intros [<-|[]]. tauto.
  - destruct (String.eqb k' key) eqn:E; simpl.
    + apply String.eqb_eq in E. subst k'. intros [<-|H]; tauto.
    + intros [<-|H]; [tauto|]. destruct (IH H); tauto.
Qed.

Lemma sizable_set m key e n :
  sizable json_length m -> estimateEntrySize json_length e = inr n ->
  sizable json_length (JSMap.set m key e).
Proof.
  unfold sizable. rewrite !Forall_forall. intros H He x Hx.
  apply In_set in Hx as [Hx| ->]; [apply H; exact Hx | simpl; eauto].
Qed.

(** Replacing an entry by one of the same key and value leaves the estimate
    alone. *)
Lemma totalSize_touch m key e e' acc :
  JSMap.get m key = Some e ->
  entry_key e' = entry_key e -> entry_value e' = entry_value e ->
  totalSize json_length (JSMap.set m key e') acc
  = totalSize json_length m acc.
Proof.
  intros Hg Hk Hv. revert acc.
  induction m as [|[k0 e0] m IH]; intros acc; simpl in *; [discriminate|].
  destruct (String.eqb k0 key) eqn:E; simpl.
  - injection Hg as ->. unfold estimateEntrySize. rewrite Hk, Hv. reflexivity.
  - destruct (estimateEntrySize json_length e0); [reflexivity|].
    apply IH. exact Hg.
Qed.

Lemma updateMemoryUsage_Ok (s s1 : t V) :
  updateMemoryUsage json_length s = Ok tt s1 ->
  exists total,
    totalSize json_length (cache s) 0 = inr total
    /\ s1 = mk (cache s)
              (mkStats (hits (stats s)) (misses (stats s)) (sets (stats s))
                 (deletes (stats s)) (evictions (stats s)) (size (stats s))
                 total)
              (config s) (emitted s).
Proof.
  unfold updateMemoryUsage.
  destruct (totalSize json_length (cache s) 0) as [e|total]; [discriminate|].
  intros [= <-]. exists total. split; reflexivity.
Qed.

Lemma updateMemoryUsage_sizable (s : t V) :
  sizable json_length (cache s) ->
  exists total,
    totalSize json_length (cache s) 0 = inr total
    /\ updateMemoryUsage json_length s
       = Ok tt (mk (cache s)
                  (mkStats (hits (stats s)) (misses (stats s))
                     (sets (stats s)) (deletes (stats s))
                     (evictions (stats s)) (size (stats s)) total)
                  (config s) (emitted s)).
Proof.
  intros H. destruct (sizable_totalSize _ H) as [total Ht].
  exists total. split; [exact Ht|]. unfold updateMemoryUsage. rewrite Ht.
  reflexivity.
Qed.

(** What a successful [delete] leaves. *)
Lemma delete_Ok key (s : t V) b s1 :
  delete json_length key s = Ok b s1 ->
  b = JSMap.has (cache s) key
  /\ cache s1 = JSMap.delete (cache s) key
  /\ config s1 = config s
  /\ hits (stats s1) = hits (stats s) /\ misses (stats s1) = misses (stats s)
  /\ sets (stats s1) = sets (stats s)
  /\ evictions (stats s1) = evictions (stats s)
  /\ (b = false -> s1 = s)
  /\ (b = true ->
      deletes (stats s1) = S (deletes (stats s))
      /\ size (stats s1) = JSMap.size (cache s1)
      /\ totalSize json_length (cache s1) 0 = inr (memoryUsage (stats s1))
      /\ emitted s1 = (emitted s ++ [emitted_delete key])%list).
Proof.
  unfold delete. destruct (JSMap.has (cache s) key) eqn:E.
  - unfold bind, update, count_delete, syncSize, emit, ret. simpl.
    destruct (updateMemoryUsage json_length _) as [[] s2|e s2|] eqn:U;
      try discriminate.
    apply updateMemoryUsage_Ok in U as (total & Ht & ->). simpl in *.
    intros [= <- <-]. simpl. repeat split; try reflexivity; try discriminate.
    exact Ht.
  - unfold bind, update, ret, with_cache. rewrite (delete_absent _ _ E).
    intros [= <- <-]. simpl.
    repeat split; try reflexivity; try discriminate.
    destruct s; reflexivity.
Qed.

(** The scan of [evictLRU] returns the first entry, in insertion order, among
    those accessed longest ago, provided it was accessed before the time the
    scan starts from. *)
Lemma oldest_spec (entries : JSMap.t (CacheEntry V)) :
  forall okey otime,
    (oldest entries okey otime = (okey, otime)
     /\ forall p, In p entries -> (otime <= entry_lastAccessed (snd p))%Z)
    \/ (exists before k e after,
          entries = (before ++ (k, e) :: after)%list
          /\ oldest entries okey otime = (Some k, entry_lastAccessed e)
          /\ (entry_lastAccessed e < otime)%Z
          /\ (forall p, In p before ->
                        (entry_lastAccessed e < entry_lastAccessed (snd p))%Z)
          /\ (forall p, In p after ->
                        (entry_lastAccessed e <= entry_lastAccessed (snd p))%Z)).
Proof.
  induction entries as [|[k0 e0] rest IH]; intros okey otime.
  - left. split; [reflexivity|]. intros p [].
  - unfold oldest. simpl. fold (oldest rest).
    destruct (entry_lastAccessed e0 <? otime)%Z eqn:E.
    + apply Z.ltb_lt in E.
      change (fold_left _ rest (Some k0, entry_lastAccessed e0))
        with (oldest rest (Some k0) (entry_lastAccessed e0)).
      destruct (IH (Some k0) (entry_lastAccessed e0))
        as [[Hr Hall]|(before & k & e & after & -> & Hr & Hlt & Hb & Ha)].
      * right. exists [], k0, e0, rest. simpl.
        repeat split; try assumption. intros p [].
      * right. exists ((k0, e0) :: before), k, e, after. simpl.
        repeat split; try assumption; try lia.
        intros p [<-|Hp]; [simpl; lia | apply Hb; exact Hp].
    + apply Z.ltb_ge in E.
      change (fold_left _ rest (okey, otime)) with (oldest rest okey otime).
      destruct (IH okey otime)
        as [[Hr Hall]|(before & k & e & after & -> & Hr & Hlt & Hb & Ha)].
      * left. split; [exact Hr|]. intros p [<-|Hp]; [exact E | apply Hall; exact Hp].
      * right. exists ((k0, e0) :: before), k, e, after. simpl.
        repeat split; try assumption.
        intros p [<-|Hp]; [simpl; lia | apply Hb; exact Hp].
Qed.

(** What a successful [evictLRU] leaves. *)
Lemma evictLRU_Ok now (s s1 : t V) :
  evictLRU json_length now s = Ok tt s1 ->
  (s1 = s
   /\ ((forall p, In p (cache s) -> (now <= entry_lastAccessed (snd p))%Z)
       \/ exists e, In (EmptyString, e) (cache s)))
  \/ (exists before k e after,
        cache s = (before ++ (k, e) :: after)%list
        /\ k <> EmptyString
        /\ (entry_lastAccessed e < now)%Z
        /\ (forall p, In p before ->
                      (entry_lastAccessed e < entry_lastAccessed (snd p))%Z)
        /\ (forall p, In p after ->
                      (entry_lastAccessed e <= entry_lastAccessed (snd p))%Z)
        /\ cache s1 = JSMap.delete (cache s) k
        /\ config s1 = config s
        /\ hits (stats s1) = hits (stats s)
        /\ misses (stats s1) = misses (stats s)
        /\ sets (stats s1) = sets (stats s)
        /\ deletes (stats s1) = deletes (stats s)
        /\ evictions (stats s1) = S (evictions (stats s))
        /\ size (stats s1) = JSMap.size (cache s1)
        /\ totalSize json_length (cache s1) 0 = inr (memoryUsage (stats s1))
        /\ emitted s1 = (emitted s ++ [emitted_evict k])%list).
Proof.
  unfold evictLRU.
  destruct (oldest_spec (cache s) None now)
    as [[Hr Hall]|(before & k & e & after & Hc & Hr & Hlt & Hb & Ha)].
  - rewrite Hr. simpl. intros [= <-]. left. split; [reflexivity|]. left. exact Hall.
  - rewrite Hr. simpl. destruct (String.eqb k EmptyString) eqn:Ek.
    + apply String.eqb_eq in Ek. subst k. intros [= <-]. left.
      split; [reflexivity|]. right. exists e. rewrite Hc.
      apply in_or_app. right. left. reflexivity.
    + apply String.eqb_neq in Ek.
      unfold bind, update, count_eviction, syncSize, emit. simpl.
      destruct (updateMemoryUsage json_length _) as [[] s2|x s2|] eqn:U;
        try discriminate.
      apply updateMemoryUsage_Ok in U as (total & Ht & ->). simpl in *.
      intros [= <-]. right. exists before, k, e, after. simpl.
      repeat split; try assumption; try reflexivity.
Qed.

(** What a successful [set] leaves: [s0] is the state after the eviction
    step. *)
Lemma set_Ok now evict_now key value ttl (s s1 : t V) :
  set json_length now evict_now key value ttl s = Ok tt s1 ->
  exists s0,
    (if (maxSize (config s) <=? Z.of_nat (JSMap.size (cache s)))%Z
        && negb (JSMap.has (cache s) key)
     then evictLRU json_length evict_now s = Ok tt s0 else s0 = s)
    /\ cache s1
       = JSMap.set (cache s0) key
           (mkEntry key value now (lifetime ttl s) 0 now)
    /\ config s1 = config s0
    /\ hits (stats s1) = hits (stats s0)
    /\ misses (stats s1) = misses (stats s0)
    /\ sets (stats s1) = S (sets (stats s0))
    /\ deletes (stats s1) = deletes (stats s0)
    /\ evictions (stats s1) = evictions (stats s0)
    /\ size (stats s1) = JSMap.size (cache s1)
    /\ totalSize json_length (cache s1) 0 = inr (memoryUsage (stats s1))
    /\ emitted s1 = (emitted s0 ++ [emitted_set key value])%list.
Proof.
  unfold set. unfold bind at 1.
  set (full := (maxSize (config s) <=? Z.of_nat (JSMap.size (cache s)))%Z
                && negb (JSMap.has (cache s) key)).
  destruct ((if full then evictLRU json_length evict_now else ret tt) s)
    as [[] s0|e s0|] eqn:E0; try discriminate.
  unfold bind, update, count_set, syncSize, emit. simpl.
  destruct (updateMemoryUsage json_length _) as [[] s2|x s2|] eqn:U;
    try discriminate.
  apply updateMemoryUsage_Ok in U as (total & Ht & ->). simpl in *.
  intros [= <-]. exists s0. simpl.
  split; [destruct full; [exact E0 | injection E0 as <-; reflexivity]|].
  repeat split; try assumption; try reflexivity.
Qed.

(** The three outcomes of a successful [get]. *)
Lemma get_Ok now key (s : t V) r s1 :
  get json_length now key s = Ok r s1 ->
  (JSMap.get (cache s) key = None /\ r = None
   /\ s1 = mk (cache s)
             (mkStats (hits (stats s)) (S (misses (stats s)))
                (sets (stats s)) (deletes (stats s)) (evictions (stats s))
                (size (stats s)) (memoryUsage (stats s)))
             (config s) (emitted s ++ [emitted_miss key])%list)
  \/ (exists entry sd,
        JSMap.get (cache s) key = Some entry /\ expired now entry = true
        /\ r = None
        /\ delete json_length key s = Ok true sd
        /\ s1 = mk (cache sd)
                  (mkStats (hits (stats sd)) (S (misses (stats sd)))
                     (sets (stats sd)) (deletes (stats sd))
                     (evictions (stats sd)) (size (stats sd))
                     (memoryUsage (stats sd)))
                  (config sd)
                  (emitted sd ++ [emitted_miss key; emitted_expired key])%list)
  \/ (exists entry,
        JSMap.get (cache s) key = Some entry /\ expired now entry = false
        /\ r = Some (entry_value entry)
        /\ s1 = mk (JSMap.set (cache s) key
                       (mkEntry (entry_key entry) (entry_value entry)
                          (entry_timestamp entry) (entry_ttl entry)
                          (S (entry_accessCount entry)) now))
                  (mkStats (S (hits (stats s))) (misses (stats s))
                     (sets (stats s)) (deletes (stats s))
                     (evictions (stats s)) (size (stats s))
                     (memoryUsage (stats s)))
                  (config s) (emitted s ++ [emitted_hit key])%list).
Proof.
  unfold get. destruct (JSMap.get (cache s) key) as [entry|] eqn:G.
  - destruct (expired now entry) eqn:X.
    + unfold bind at 1.
      destruct (delete json_length key s) as [b sd|e sd|] eqn:D;
        try discriminate.
      pose proof (delete_Ok _ _ _ _ D) as (Hb & _).
      unfold JSMap.has in Hb. rewrite G in Hb. subst b.
      unfold bind, update, count_miss, emit, ret. simpl.
      intros [= <- <-]. right. left. exists entry, sd.
      repeat split; try assumption; try reflexivity.
      rewrite <- app_assoc. reflexivity.
    + unfold bind, update, count_hit, emit, ret. simpl.
      intros [= <- <-]. right. right. exists entry.
      repeat split; try assumption; reflexivity.
  - unfold bind, update, count_miss, emit, ret. simpl.
    intros [= <- <-]. left. repeat split; reflexivity.
Qed.

Lemma has_Ok now key (s : t V) b s1 :
  has json_length now key s = Ok b s1 ->
  hits (stats s1) = hits (stats s) /\ misses (stats s1) = misses (stats s)
  /\ sets (stats s1) = sets (stats s) /\ config s1 = config s
  /\ ((b = false /\ JSMap.get (cache s) key = None /\ s1 = s)
      \/ (exists entry,
            JSMap.get (cache s) key = Some entry /\ expired now entry = true
            /\ b = false /\ delete json_length key s = Ok true s1)
      \/ (exists entry,
            JSMap.get (cache s) key = Some entry /\ expired now entry = false
            /\ b = true /\ s1 = s)).
Proof.
  unfold has. destruct (JSMap.get (cache s) key) as [entry|] eqn:G.
  - destruct (expired now entry) eqn:X.
    + unfold bind at 1.
      destruct (delete json_length key s) as [d sd|e sd|] eqn:D;
        try discriminate.
      pose proof (delete_Ok _ _ _ _ D) as (Hb & _ & Hc & Hh & Hm & Hs & _).
      unfold JSMap.has in Hb. rewrite G in Hb. subst d.
      unfold ret. intros [= <- <-].
      repeat split; try assumption. right. left. exists entry.
      repeat split; assumption.
    + intros [= <- <-]. repeat split; try reflexivity.
      right. right. exists entry. repeat split; assumption.
  - intros [= <- <-]. repeat split; try reflexivity. left.
    repeat split; reflexivity.
Qed.

Lemma delete_middle (l1 l2 : JSMap.t (CacheEntry V)) k e :
  ~ In k (JSMap.keys l1) ->
  JSMap.delete (l1 ++ (k, e) :: l2)%list k = (l1 ++ l2)%list.
Proof.
  induction l1 as [|[k' e'] l1 IH]; simpl; intros Hni.
  - rewrite String.eqb_refl. reflexivity.
  - destruct (String.eqb k' k) eqn:E.
    + apply String.eqb_eq in E. tauto.
    + rewrite IH by tauto. reflexivity.
Qed.

Lemma keys_filter_In (f : string * CacheEntry V -> bool) l k :
  In k (JSMap.keys (filter f l)) -> In k (JSMap.keys l).
Proof.
  unfold JSMap.keys. rewrite !in_map_iff. intros (p & <- & H).
  apply filter_In in H as [H _]. eauto.
Qed.

Lemma NoDup_keys_filter (f : string * CacheEntry V -> bool) l :
  NoDup (JSMap.keys l) -> NoDup (JSMap.keys (filter f l)).
Proof.
  induction l as [|[k e] l IH]; simpl; [auto|].
  intros H. inversion H as [|? ? Hni Hnd]; subst.
  destruct (f (k, e)); simpl; [|apply IH; exact Hnd].
  constructor; [|apply IH; exact Hnd].
  intros Hin. apply Hni. eapply keys_filter_In. exact Hin.
Qed.

(** The loop of [cleanup] keeps the entries that have not expired, in their
    order, and counts the others. *)
Lemma sweep_loop now (rest : JSMap.t (CacheEntry V)) :
  forall done count,
    NoDup (JSMap.keys (done ++ rest)%list) ->
    fold_left (sweep_step now) rest
      ((filter (alive now) done ++ rest)%list, count)
    = (filter (alive now) (done ++ rest)%list,
       count + List.length (filter (fun p => expired now (snd p)) rest)).
Proof.
  induction rest as [|[k e] rest IH]; intros done count Hnd; cbn [fold_left].
  - simpl. rewrite !app_nil_r. f_equal. lia.
  - assert (Hnd' : NoDup (JSMap.keys ((done ++ [(k, e)]) ++ rest)%list))
      by (rewrite <- app_assoc; exact Hnd).
    assert (Hni : ~ In k (JSMap.keys (filter (alive now) done))).
    { intros Hin. apply keys_filter_In in Hin.
      unfold JSMap.keys in Hnd. rewrite map_app in Hnd. simpl in Hnd.
      apply NoDup_remove_2 in Hnd. apply Hnd. apply in_or_app. left. exact Hin. }
    specialize (IH (done ++ [(k, e)])%list).
    rewrite filter_app in IH. cbn [filter] in IH.
    unfold alive at 2 in IH. cbn [snd] in IH.
    unfold sweep_step at 2. cbn [filter snd].
    destruct (expired now e) eqn:X; cbn [negb] in IH.
    + rewrite delete_middle by exact Hni.
      pose proof (IH (S count) Hnd') as IH1. rewrite app_nil_r in IH1.
      etransitivity; [exact IH1|]. rewrite <- app_assoc. simpl. f_equal. lia.
    + pose proof (IH count Hnd') as IH1. rewrite <- app_assoc in IH1.
      simpl app in IH1. etransitivity; [exact IH1|].
      rewrite <- app_assoc. reflexivity.
Qed.

Lemma sweep_spec now (entries : JSMap.t (CacheEntry V)) :
  NoDup (JSMap.keys entries) ->
  sweep now entries
  = (filter (alive now) entries,
     List.length (filter (fun p => expired now (snd p)) entries)).
Proof.
  intros H. unfold sweep. apply (sweep_loop now entries [] 0 H).
Qed.

Lemma filter_all_alive now (entries : JSMap.t (CacheEntry V)) :
  List.length (filter (fun p => expired now (snd p)) entries) = 0 ->
  filter (alive now) entries = entries.
Proof.
  induction entries as [|[k e] entries IH]; simpl; [reflexivity|].
  unfold alive at 1. simpl. destruct (expired now e); simpl; [discriminate|].
  intros H. rewrite IH by exact H. reflexivity.
Qed.

Lemma sizable_filter (f : string * CacheEntry V -> bool) m :
  sizable json_length m -> sizable json_length (filter f m).
Proof.
  unfold sizable. rewrite !Forall_forall. intros H x Hx. apply H.
  apply filter_In in Hx as [Hx _]. exact Hx.
Qed.

(** What a successful [cleanup] leaves. *)
Lemma cleanup_Ok now (s s1 : t V) :
  NoDup (JSMap.keys (cache s)) ->
  cleanup json_length now s = Ok tt s1 ->
  cache s1 = filter (alive now) (cache s)
  /\ config s1 = config s
  /\ hits (stats s1) = hits (stats s) /\ misses (stats s1) = misses (stats s)
  /\ sets (stats s1) = sets (stats s)
  /\ deletes (stats s1) = deletes (stats s)
  /\ evictions (stats s1) = evictions (stats s)
  /\ (consistent json_length s -> consistent json_length s1).
Proof.
  intros Hnd. unfold cleanup. rewrite (sweep_spec now _ Hnd).
  set (n := List.length (filter (fun p => expired now (snd p)) (cache s))).
  destruct (0 <? n) eqn:E.
  - unfold bind, update, syncSize, emit. simpl.
    destruct (updateMemoryUsage json_length _) as [[] s2|x s2|] eqn:U;
      try discriminate.
    apply updateMemoryUsage_Ok in U as (total & Ht & ->). simpl in *.
    intros [= <-]. simpl. repeat split; try reflexivity.
    exact Ht.
  - unfold bind, update, ret. simpl. intros [= <-]. simpl.
    apply Nat.ltb_ge in E. assert (Hn : n = 0) by lia.
    rewrite (filter_all_alive now _ Hn).
    repeat split; try reflexivity; destruct H; assumption.
Qed.

End Facts.

End CacheFacts.

Module CacheProps.
Import CacheManager CacheSpec JSMapFacts CacheFacts.

(** X10: a value stored by [set] is what [get] returns for as long as the
    entry's time to live (the [ttl] argument, or the default when it is
    missing or [0]) has not run out, and the read counts as a hit.  Once it
    has run out, [get] returns [null], counts a miss and removes the
    entry. *)
Theorem set_then_get {V : Type} (json_length : V -> Exn + nat)
    (now evict_now : Z) (key : string) (value : V) (ttl : option Z)
    (s s1 : t V) (later : Z) :
  set json_length now evict_now key value ttl s = Ok tt s1 ->
  ((later - now <= lifetime ttl s)%Z ->
   exists s2,
     get json_length later key s1 = Ok (Some value) s2
     /\ hits (stats s2) = S (hits (stats s1))
     /\ misses (stats s2) = misses (stats s1))
  /\ ((lifetime ttl s < later - now)%Z ->
      exists s2,
        get json_length later key s1 = Ok None s2
        /\ hits (stats s2) = hits (stats s1)
        /\ misses (stats s2) = S (misses (stats s1))
        /\ (NoDup (JSMap.keys (cache s)) ->
            JSMap.get (cache s2) key = None)).
Proof.
  intros Hset.
  destruct (set_Ok _ _ _ _ _ _ _ _ Hset)
    as (s0 & Hev & Hc & Hcfg & _ & _ & _ & _ & _ & _ & Htot & _).
  assert (Hg : JSMap.get (cache s1) key
               = Some (mkEntry key value now (lifetime ttl s) 0 now))
    by (rewrite Hc; apply get_set_same).
  split; intros Hage.
  - unfold get. rewrite Hg. unfold expired. simpl.
    destruct (lifetime ttl s <? later - now)%Z eqn:E;
      [apply Z.ltb_lt in E; lia|].
    eexists. split; [reflexivity|]. split; reflexivity.
  - assert (Hsz : sizable json_length (JSMap.delete (cache s1) key)).
    { apply sizable_delete. eapply totalSize_sizable. exact Htot. }
    destruct (sizable_totalSize _ _ Hsz) as [total Ht].
    unfold get. rewrite Hg. unfold expired. simpl.
    destruct (lifetime ttl s <? later - now)%Z eqn:E;
      [|apply Z.ltb_ge in E; lia].
    unfold bind at 1. unfold delete.
    assert (Hh : JSMap.has (cache s1) key = true)
      by (unfold JSMap.has; rewrite Hg; reflexivity).
    rewrite Hh.
    unfold bind, update, count_delete, syncSize, emit, ret, count_miss,
      updateMemoryUsage. simpl. rewrite Ht. simpl.
    eexists. split; [reflexivity|]. simpl. split; [reflexivity|].
    split; [reflexivity|]. intros Hnd. rewrite Hc. apply get_delete_same.
    apply NoDup_set.
    destruct ((maxSize (config s) <=? Z.of_nat (JSMap.size (cache s)))%Z
              && negb (JSMap.has (cache s) key)); [|subst s0; exact Hnd].
    apply evictLRU_Ok in Hev
      as [[-> _]|(b & k & e & a & _ & _ & _ & _ & _ & -> & _)];
      [exact Hnd | apply NoDup_delete; exact Hnd].
Qed.





(** X12: [evictLRU] only considers entries last accessed strictly before
    its own clock reading.  So a [set] of a new key into a full cache, all
    of whose entries were accessed in the current millisecond, evicts
    nothing: every old key stays and the cache grows beyond [maxSize]. *)
Theorem set_overflows_within_a_tick {V : Type} (json_length : V -> Exn + nat)
    (now evict_now : Z) (key : string) (value : V) (ttl : option Z)
    (s s1 : t V) :
  (maxSize (config s) <= Z.of_nat (JSMap.size (cache s)))%Z ->
  JSMap.has (cache s) key = false ->
  (forall p, In p (cache s) -> (evict_now <= entry_lastAccessed (snd p))%Z) ->
  set json_length now evict_now key value ttl s = Ok tt s1 ->
  JSMap.size (cache s1) = S (JSMap.size (cache s))
  /\ (maxSize (config s1) < Z.of_nat (JSMap.size (cache s1)))%Z
  /\ evictions (stats s1) = evictions (stats s)
  /\ forall k, JSMap.has (cache s) k = true -> JSMap.has (cache s1) k = true.
Proof.
  intros Hfull Hnew Hrecent Hset.
  destruct (set_Ok _ _ _ _ _ _ _ _ Hset)
    as (s0 & Hev & Hc & Hcfg & _ & _ & _ & _ & Hevs & _).
  apply Z.leb_le in Hfull. rewrite Hfull, Hnew in Hev. simpl in Hev.
  apply Z.leb_le in Hfull.
  assert (Hs0 : s0 = s).
  { apply evictLRU_Ok in Hev
      as [[-> _]|(b & k & e & a & Hcs & _ & Hlt & _)]; [reflexivity|].
    exfalso. assert (Hin : In (k, e) (cache s))
      by (rewrite Hcs; apply in_or_app; right; left; reflexivity).
    specialize (Hrecent _ Hin). simpl in Hrecent. lia. }
  subst s0. rewrite Hc, Hcfg, size_set, Hnew.
  split; [reflexivity|]. split; [lia|]. split; [exact Hevs|].
  intros k Hk. apply has_In. rewrite keys_set, Hnew.
  apply in_or_app. left. apply has_In. exact Hk.
Qed.

(** X13: [evictLRU] removes the entry with the smallest [lastAccessed],
    the first of them in insertion order, and counts one eviction.  It
    leaves the cache alone when no entry was accessed before the clock
    reading, or when the cache holds an entry under the empty key (the
    chosen key is then empty, or no key was chosen). *)
Theorem evictLRU_takes_least_recently_used {V : Type}
    (json_length : V -> Exn + nat) (now : Z) (s s1 : t V) :
  evictLRU json_length now s = Ok tt s1 ->
  (s1 = s
   /\ ((forall p, In p (cache s) -> (now <= entry_lastAccessed (snd p))%Z)
       \/ exists entry, In (EmptyString, entry) (cache s)))
  \/ exists before key entry after,
       cache s = (before ++ (key, entry) :: after)%list
       /\ cache s1 = JSMap.delete (cache s) key
       /\ evictions (stats s1) = S (evictions (stats s))
       /\ (entry_lastAccessed entry < now)%Z
       /\ (forall p, In p before ->
              (entry_lastAccessed entry < entry_lastAccessed (snd p))%Z)
       /\ (forall p, In p after ->
              (entry_lastAccessed entry <= entry_lastAccessed (snd p))%Z).
Proof.
  intros H. apply evictLRU_Ok in H
    as [[-> Hn]|(b & k & e & a & Hcs & _ & Hlt & Hb & Ha & Hc & _ & _ & _ & _
                & _ & Hev & _)].
  - left. split; [reflexivity | exact Hn].
  - right. exists b, k, e, a. repeat split; assumption.
Qed.

Section Invariants.

Context {V : Type}.

Variable json_length : V -> Exn + nat.

Lemma well_formed_delete (m : JSMap.t (CacheEntry V)) key :
  NoDup (JSMap.keys m) /\ Forall (fun p => entry_key (snd p) = fst p) m ->
  NoDup (JSMap.keys (JSMap.delete m key))
  /\ Forall (fun p => entry_key (snd p) = fst p) (JSMap.delete m key).
Proof.
  intros [H1 H2]. split; [apply NoDup_delete; exact H1|].
  rewrite Forall_forall in *. intros p Hp. apply H2. eapply In_delete. exact Hp.
Qed.

Lemma well_formed_set (m : JSMap.t (CacheEntry V)) key entry :
  entry_key entry = key ->
  NoDup (JSMap.keys m) /\ Forall (fun p => entry_key (snd p) = fst p) m ->
  NoDup (JSMap.keys (JSMap.set m key entry))
  /\ Forall (fun p => entry_key (snd p) = fst p) (JSMap.set m key entry).
Proof.
  intros Hk [H1 H2]. split; [apply NoDup_set; exact H1|].
  rewrite Forall_forall in *. intros p Hp.
  apply In_set in Hp as [Hp| ->]; [apply H2; exact Hp | exact Hk].
Qed.

Lemma well_formed_filter (m : JSMap.t (CacheEntry V)) f :
  NoDup (JSMap.keys m) /\ Forall (fun p => entry_key (snd p) = fst p) m ->
  NoDup (JSMap.keys (filter f m))
  /\ Forall (fun p => entry_key (snd p) = fst p) (filter f m).
Proof.
  intros [H1 H2]. split; [apply NoDup_keys_filter; exact H1|].
  rewrite Forall_forall in *. intros p Hp. apply H2.
  apply filter_In in Hp as [Hp _]. exact Hp.
Qed.

Lemma delete_invariant key (s : t V) b s1 :
  well_formed s -> consistent json_length s ->
  delete json_length key s = Ok b s1 ->
  well_formed s1 /\ consistent json_length s1.
Proof.
  intros Hwf Hco H.
  destruct (delete_Ok _ _ _ _ _ H) as (_ & Hc & _ & _ & _ & _ & _ & Hf & Ht).
  destruct b.
  - destruct (Ht eq_refl) as (_ & Hsz & Htot & _). split.
    + unfold well_formed. rewrite Hc. apply well_formed_delete. exact Hwf.
    + split; assumption.
  - rewrite (Hf eq_refl). split; assumption.
Qed.

Lemma evictLRU_invariant now (s s1 : t V) :
  well_formed s -> consistent json_length s ->
  evictLRU json_length now s = Ok tt s1 ->
  well_formed s1 /\ consistent json_length s1.
Proof.
  intros Hwf Hco H.
  apply evictLRU_Ok in H
    as [[-> _]|(b & k & e & a & _ & _ & _ & _ & _ & Hc & _ & _ & _ & _ & _ & _
                & Hsz & Htot & _)].
  - split; assumption.
  - split; [|split; assumption].
    unfold well_formed. rewrite Hc. apply well_formed_delete. exact Hwf.
Qed.

Lemma perform_invariant call (s s1 : t V) :
  well_formed s -> consistent json_length s ->
  perform json_length call s = Ok tt s1 ->
  well_formed s1 /\ consistent json_length s1.
Proof.
  intros Hwf Hco. destruct call as [now en key value ttl|now key|now key|key| |now];
    simpl.
  - intros H. destruct (set_Ok _ _ _ _ _ _ _ _ H)
      as (s0 & Hev & Hc & _ & _ & _ & _ & _ & _ & Hsz & Htot & _).
    assert (Hwf0 : well_formed s0).
    { destruct (_ && _); [|subst s0; exact Hwf].
      apply (evictLRU_invariant _ _ _ Hwf Hco Hev). }
    split; [|split; assumption].
    unfold well_formed. rewrite Hc. apply well_formed_set; [reflexivity | exact Hwf0].
  - unfold bind. destruct (get json_length now key s) as [r s2|e s2|] eqn:G;
      try discriminate.
    intros [= <-].
    apply get_Ok in G
      as [(Hg & _ & ->)|[(entry & sd & Hg & _ & _ & Hd & ->)|(entry & Hg & _ & _ & ->)]].
    + split; [exact Hwf | exact Hco].
    + destruct (delete_invariant _ _ _ _ Hwf Hco Hd) as [Hwfd Hcod].
      split; [exact Hwfd | exact Hcod].
    + destruct Hco as [Hsz Htot]. split.
      * unfold well_formed. simpl. apply well_formed_set; [|exact Hwf].
        simpl. destruct Hwf as [_ Hkeys]. rewrite Forall_forall in Hkeys.
        apply (Hkeys (key, entry)). apply get_In. exact Hg.
      * split; simpl.
        -- rewrite size_set. unfold JSMap.has. rewrite Hg. exact Hsz.
        -- rewrite (totalSize_touch _ _ _ entry); [exact Htot | exact Hg | |];
             reflexivity.
  - unfold bind. destruct (has json_length now key s) as [b s2|e s2|] eqn:G;
      try discriminate.
    intros [= <-].
    apply has_Ok in G
      as (_ & _ & _ & _ & [(_ & _ & ->)|[(entry & _ & _ & _ & Hd)|(entry & _ & _ & _ & ->)]]).
    + split; assumption.
    + apply (delete_invariant _ _ _ _ Hwf Hco Hd).
    + split; assumption.
  - unfold bind. destruct (delete json_length key s) as [b s2|e s2|] eqn:D;
      try discriminate.
    intros [= <-]. apply (delete_invariant _ _ _ _ Hwf Hco D).
  - unfold clear, bind, update, emit. simpl. intros [= <-].
    split; [split; simpl; constructor | split; reflexivity].
  - intros H. destruct Hwf as [Hnd Hkeys].
    destruct (cleanup_Ok _ _ _ _ Hnd H) as (Hc & _ & _ & _ & _ & _ & _ & Hk).
    split; [|apply Hk; exact Hco].
    unfold well_formed. rewrite Hc. apply well_formed_filter. split; assumption.
Qed.

Lemma run_invariant calls : forall (s s1 : t V),
  well_formed s -> consistent json_length s ->
  run json_length calls s = Ok tt s1 ->
  well_formed s1 /\ consistent json_length s1.
Proof.
  induction calls as [|call calls IH]; intros s s1 Hwf Hco; simpl.
  - intros [= <-]. split; assumption.
  - unfold bind. destruct (perform json_length call s) as [[] s2|e s2|] eqn:P;
      try discriminate.
    destruct (perform_invariant _ _ _ Hwf Hco P) as [Hwf2 Hco2].
    apply IH; assumption.
Qed.

Lemma cleanup_counts now (s s1 : t V) :
  cleanup json_length now s = Ok tt s1 ->
  hits (stats s1) = hits (stats s) /\ misses (stats s1) = misses (stats s)
  /\ sets (stats s1) = sets (stats s).
Proof.
  unfold cleanup. destruct (sweep now (cache s)) as [kept n].
  destruct (0 <? n).
  - unfold bind, update, syncSize, emit. simpl.
    destruct (updateMemoryUsage json_length _) as [[] s2|x s2|] eqn:U;
      try discriminate.
    apply updateMemoryUsage_Ok in U as (total & Ht & ->). simpl in *.
    intros [= <-]. simpl. repeat split; reflexivity.
  - unfold bind, update, ret. simpl. intros [= <-]. repeat split; reflexivity.
Qed.

Lemma perform_counts call (s s1 : t V) :
  perform json_length call s = Ok tt s1 ->
  hits (stats s1) + misses (stats s1)
  = hits (stats s) + misses (stats s) + (if is_get call then 1 else 0)
  /\ sets (stats s1) = sets (stats s) + (if is_set call then 1 else 0).
Proof.
  destruct call as [now en key value ttl|now key|now key|key| |now]; simpl.
  - intros H. destruct (set_Ok _ _ _ _ _ _ _ _ H)
      as (s0 & Hev & _ & _ & Hh & Hm & Hs & _).
    assert (H0 : hits (stats s0) = hits (stats s)
                 /\ misses (stats s0) = misses (stats s)
                 /\ sets (stats s0) = sets (stats s)).
    { destruct (_ && _); [|subst s0; repeat split; reflexivity].
      apply evictLRU_Ok in Hev
        as [[-> _]|(b & k & e & a & _ & _ & _ & _ & _ & _ & _ & H1 & H2 & H3 & _)];
        repeat split; assumption. }
    destruct H0 as (H1 & H2 & H3). lia.
  - unfold bind. destruct (get json_length now key s) as [r s2|e s2|] eqn:G;
      try discriminate.
    intros [= <-].
    apply get_Ok in G
      as [(Hg & _ & ->)|[(entry & sd & Hg & _ & _ & Hd & ->)|(entry & Hg & _ & _ & ->)]];
      simpl; try lia.
    destruct (delete_Ok _ _ _ _ _ Hd) as (_ & _ & _ & H1 & H2 & H3 & _). lia.
  - unfold bind. destruct (has json_length now key s) as [b s2|e s2|] eqn:G;
      try discriminate.
    intros [= <-]. apply has_Ok in G as (H1 & H2 & H3 & _). lia.
  - unfold bind. destruct (delete json_length key s) as [b s2|e s2|] eqn:D;
      try discriminate.
    intros [= <-].
    destruct (delete_Ok _ _ _ _ _ D) as (_ & _ & _ & H1 & H2 & H3 & _). lia.
  - unfold clear, bind, update, emit. simpl. intros [= <-]. simpl. lia.
  - intros H. apply cleanup_counts in H as (H1 & H2 & H3). lia.
Qed.

Lemma run_counts calls : forall (s s1 : t V),
  run json_length calls s = Ok tt s1 ->
  hits (stats s1) + misses (stats s1)
  = hits (stats s) + misses (stats s) + List.length (filter is_get calls)
  /\ sets (stats s1) = sets (stats s) + List.length (filter is_set calls).
Proof.
  induction calls as [|call calls IH]; intros s s1; simpl.
  - intros [= <-]. lia.
  - unfold bind. destruct (perform json_length call s) as [[] s2|e s2|] eqn:P;
      try discriminate.
    intros H. apply IH in H. apply perform_counts in P.
    destruct (is_get call), (is_set call); simpl; lia.
Qed.

Lemma totalSize_set_failing (m : JSMap.t (CacheEntry V)) key entry e acc :
  sizable json_length m -> estimateEntrySize json_length entry = inl e ->
  totalSize json_length (JSMap.set m key entry) acc = inl e.
Proof.
  intros Hs He. revert acc. induction m as [|[k0 e0] m IH]; intros acc; simpl.
  - rewrite He. reflexivity.
  - inversion Hs as [|? ? [n Hn] Hm]; subst. simpl in Hn.
    destruct (String.eqb k0 key); simpl.
    + rewrite He. reflexivity.
    + rewrite Hn. apply IH. exact Hm.
Qed.

End Invariants.

(** X14: every sequence of [set], [get], [has], [delete], [clear] and
    [cleanup] calls that returns keeps the keys of the map distinct, every
    entry under its own key, [stats.size] equal to the number of entries
    and [stats.memoryUsage] equal to the sum of the estimated entry
    sizes. *)
Theorem cache_bookkeeping_invariant {V : Type} (json_length : V -> Exn + nat)
    (calls : list (Call (V:=V))) (s s1 : t V) :
  well_formed s -> consistent json_length s ->
  run json_length calls s = Ok tt s1 ->
  well_formed s1 /\ consistent json_length s1.
Proof. apply run_invariant. Qed.

(** X15: over a sequence of calls that returns, [hits + misses] grows by
    the number of [get] calls and [sets] by the number of [set] calls; no
    other method touches these counters. *)
Theorem cache_counters {V : Type} (json_length : V -> Exn + nat)
    (calls : list (Call (V:=V))) (s s1 : t V) :
  run json_length calls s = Ok tt s1 ->
  hits (stats s1) + misses (stats s1)
  = hits (stats s) + misses (stats s) + List.length (filter is_get calls)
  /\ sets (stats s1) = sets (stats s) + List.length (filter is_set calls).
Proof. apply run_counts. Qed.

(** X16: [cleanup] removes exactly the entries whose time to live has run
    out and keeps the others in order; the removals are counted neither as
    deletes nor as evictions. *)
Theorem cleanup_removes_expired {V : Type} (json_length : V -> Exn + nat)
    (now : Z) (s s1 : t V) :
  well_formed s ->
  cleanup json_length now s = Ok tt s1 ->
  cache s1 = filter (alive now) (cache s)
  /\ deletes (stats s1) = deletes (stats s)
  /\ evictions (stats s1) = evictions (stats s).
Proof.
  intros [Hnd _] H.
  destruct (cleanup_Ok _ _ _ _ Hnd H) as (Hc & _ & _ & _ & _ & Hd & He & _).
  repeat split; assumption.
Qed.

(** X17: [set] is not atomic.  When the size of the new value cannot be
    estimated ([JSON.stringify(value).length] raises), [set] raises that
    exception after the entry is stored and [stats.sets] is incremented,
    and before the [set] event is emitted. *)
Theorem set_is_not_atomic {V : Type} (json_length : V -> Exn + nat)
    (now evict_now : Z) (key : string) (value : V) (ttl : option Z)
    (s : t V) (e : Exn) :
  json_length value = inl e ->
  consistent json_length s ->
  exists s1,
    set json_length now evict_now key value ttl s = Throw e s1
    /\ JSMap.get (cache s1) key
       = Some (mkEntry key value now (lifetime ttl s) 0 now)
    /\ sets (stats s1) = S (sets (stats s))
    /\ ~ In (emitted_set key value) (skipn (List.length (emitted s)) (emitted s1)).
Proof.
  intros Hbad [_ Htot].
  assert (Hsz : sizable json_length (cache s))
    by (eapply totalSize_sizable; exact Htot).
  assert (He : estimateEntrySize json_length
                 (mkEntry key value now (lifetime ttl s) 0 now) = inl e)
    by (unfold estimateEntrySize; simpl; rewrite Hbad; reflexivity).
  unfold set. unfold bind at 1.
  set (full := (maxSize (config s) <=? Z.of_nat (JSMap.size (cache s)))%Z
                && negb (JSMap.has (cache s) key)).
  assert (Hev : exists s0,
             (if full then evictLRU json_length evict_now else ret tt) s = Ok tt s0
             /\ sizable json_length (cache s0)
             /\ sets (stats s0) = sets (stats s)
             /\ (emitted s0 = emitted s
                 \/ exists k, emitted s0 = (emitted s ++ [emitted_evict k])%list)).
  { destruct full.
    - unfold evictLRU.
      destruct (truthy (fst (oldest (cache s) None evict_now))) as [k|].
      + destruct (sizable_totalSize json_length _
                    (sizable_delete json_length _ k Hsz)) as [total Ht].
        unfold bind, update, count_eviction, syncSize, emit, updateMemoryUsage.
        simpl. rewrite Ht. simpl. eexists. split; [reflexivity|]. simpl.
        split; [apply sizable_delete; exact Hsz|]. split; [reflexivity|].
        right. eauto.
      + exists s. repeat split; auto.
    - exists s. repeat split; auto. }
  destruct Hev as (s0 & -> & Hsz0 & Hsets & Hem).
  unfold bind, update, count_set, syncSize, emit, updateMemoryUsage. simpl.
  fold (lifetime ttl s).
  rewrite (totalSize_set_failing _ _ _ _ e 0 Hsz0 He).
  eexists. split; [reflexivity|]. simpl.
  split; [apply get_set_same|]. split; [congruence|].
  destruct Hem as [->|[k ->]].
  - rewrite skipn_all. intros [].
  - rewrite skipn_app, skipn_all, Nat.sub_diag. simpl. intros [H|[]].
    discriminate H.
Qed.

End CacheProps.

Module CacheWitnesses.
Import CacheManager CacheSpec CacheProps CacheExamples.

Lemma set_then_get_witness :
  exists s2, get unit_length 10 "a" one_entry = Ok (Some 7) s2.
Proof.
  destruct (set_then_get unit_length 0 0 "a" 7 None small one_entry 10)
    as [H _]; [reflexivity|].
  destruct H as (s2 & H & _); [vm_compute; discriminate|].
  exists s2. exact H.
Defined.


Lemma set_overflows_within_a_tick_witness :
  JSMap.size (cache two_entries) = 2
  /\ (maxSize (config two_entries) < 2)%Z.
Proof.
  destruct (set_overflows_within_a_tick unit_length 0 0 "b" 8 None
              one_entry two_entries) as (H1 & H2 & _).
  - vm_compute. discriminate.
  - reflexivity.
  - intros p [<-|[]]. vm_compute. discriminate.
  - reflexivity.
  - split; [exact H1 | exact H2].
Defined.

Lemma evictLRU_takes_least_recently_used_witness :
  cache evicted = JSMap.delete (cache two_entries) "a".
Proof.
  destruct (evictLRU_takes_least_recently_used unit_length 1 two_entries
              evicted) as [[H _]|(before & key & entry & after & _)].
  - reflexivity.
  - discriminate H.
  - reflexivity.
Defined.

Lemma cache_bookkeeping_invariant_witness :
  well_formed after_session /\ consistent unit_length after_session.
Proof.
  apply (cache_bookkeeping_invariant unit_length session small after_session).
  - split; constructor.
  - split; reflexivity.
  - reflexivity.
Defined.

Lemma cache_counters_witness :
  hits (stats after_session) + misses (stats after_session) = 0 + 0 + 2
  /\ sets (stats after_session) = 0 + 2.
Proof.
  apply (cache_counters unit_length session small after_session).
  reflexivity.
Defined.

Lemma cleanup_removes_expired_witness :
  cache swept = filter (alive 3600001) (cache two_entries)
  /\ deletes (stats swept) = deletes (stats two_entries)
  /\ evictions (stats swept) = evictions (stats two_entries).
Proof.
  apply (cleanup_removes_expired unit_length 3600001 two_entries swept).
  - split.
    + repeat constructor; simpl; intros H;
        repeat (destruct H as [H|H]; try discriminate H); exact H.
    + repeat constructor.
  - reflexivity.
Defined.

Lemma set_is_not_atomic_witness :
  exists s1,
    set failing_length 0 0 "a" 0 None small
    = Throw (TypeError "Do not know how to serialize a BigInt") s1
    /\ JSMap.get (cache s1) "a" = Some (mkEntry "a" 0 0 3600000 0 0).
Proof.
  destruct (set_is_not_atomic failing_length 0 0 "a" 0 None small
              (TypeError "Do not know how to serialize a BigInt"))
    as (s1 & H1 & H2 & _).
  - reflexivity.
  - split; reflexivity.
  - exists s1. split; [exact H1 | exact H2].
Defined.

End CacheWitnesses.

Module KeyFacts.
Import CacheManager KeySpec.

Lemma colon_free_uint d : colon_free (NilEmpty.string_of_uint d) = true.
Proof. induction d; simpl; auto. Qed.

Lemma string_of_nat_inj n m : string_of_nat n = string_of_nat m -> n = m.
Proof.
  unfold string_of_nat. intros H.
  apply (f_equal NilEmpty.uint_of_string) in H. rewrite !NilEmpty.usu in H.
  injection H as H. apply (f_equal Nat.of_uint) in H.
  rewrite !DecimalNat.Unsigned.of_to in H. exact H.
Qed.

Lemma colon_inside b y : colon_free (b ++ ":" ++ y) = false.
Proof.
  induction b as [|c b IH]; simpl; [reflexivity|].
  rewrite IH. apply andb_false_r.
Qed.

(** Two texts that agree after their last colons agree before them. *)
Lemma split_at_last_colon a b x y :
  colon_free x = true -> colon_free y = true ->
  a ++ ":" ++ x = b ++ ":" ++ y -> a = b /\ x = y.
Proof.
  intros Hx Hy. revert b. induction a as [|c a IH]; intros b H.
  - destruct b as [|d b].
    + injection H as H. split; [reflexivity | exact H].
    + injection H as Hc H. exfalso.
      assert (H' : x = b ++ ":" ++ y) by exact H.
      rewrite H', colon_inside in Hx. discriminate Hx.
  - destruct b as [|d b].
    + injection H as Hc H. exfalso.
      assert (H' : a ++ ":" ++ x = y) by exact H.
      rewrite <- H', colon_inside in Hy. discriminate Hy.
    + injection H as Hc H. subst d. destruct (IH b H) as [-> ->].
      split; reflexivity.
Qed.

Lemma blockKey_inj c1 n1 c2 n2 :
  blockKey c1 n1 = blockKey c2 n2 -> c1 = c2 /\ n1 = n2.
Proof.
  unfold blockKey. intros H.
  assert (H' : c1 ++ ":" ++ string_of_nat n1 = c2 ++ ":" ++ string_of_nat n2).
  { simpl in H. injection H as H. exact H. }
  apply split_at_last_colon in H' as [-> Hn];
    [|apply colon_free_uint|apply colon_free_uint].
  split; [reflexivity | apply string_of_nat_inj; exact Hn].
Qed.

Lemma append_cons x (a b : string) : String x a ++ b = String x (a ++ b).
Proof. reflexivity. Qed.

Lemma append_assoc (a b c : string) : (a ++ b) ++ c = a ++ b ++ c.
Proof.
  induction a as [|x a IH]; [reflexivity|].
  rewrite !append_cons, IH. reflexivity.
Qed.

End KeyFacts.

Module KeyProps.
Import CacheManager CacheSpec KeySpec KeyFacts.

(** X18: the keys of the typed caches.  A block key determines its chain and
    block number.  A transaction key and an index key do not determine
    their two parts when a part contains a colon: moving a colon-separated
    piece from the first part to the second gives the same key, so that
    data cached for index [a:b] under [c] is what the cache returns for
    index [a] under [b:c].  Keys of the three kinds never coincide. *)
Theorem typed_cache_keys :
  (forall c1 n1 c2 n2,
     blockKey c1 n1 = blockKey c2 n2 <-> c1 = c2 /\ n1 = n2)
  /\ (forall a b c,
        transactionKey (a ++ ":" ++ b) c = transactionKey a (b ++ ":" ++ c))
  /\ (forall a b c, indexKey (a ++ ":" ++ b) c = indexKey a (b ++ ":" ++ c))
  /\ (forall c n c' h c'' k,
        blockKey c n <> transactionKey c' h
        /\ blockKey c n <> indexKey c'' k
        /\ transactionKey c' h <> indexKey c'' k)
  /\ (forall (V : Type) (json_length : V -> Exn + nat) now evict_now a b c
             (data : V) ttl (s s1 : t V) later,
        cacheIndexData json_length now evict_now (a ++ ":" ++ b) c data ttl s
        = Ok tt s1 ->
        (later - now <= lifetime ttl s)%Z ->
        exists s2,
          getCachedIndexData json_length later a (b ++ ":" ++ c) s1
          = Ok (Some data) s2).
Proof.
  split; [|split; [|split; [|split]]].
  - intros c1 n1 c2 n2. split.
    + apply blockKey_inj.
    + intros [-> ->]. reflexivity.
  - intros a b c. unfold transactionKey. rewrite !append_assoc. reflexivity.
  - intros a b c. unfold indexKey. rewrite !append_assoc. reflexivity.
  - intros c n c' h c'' k. unfold blockKey, transactionKey, indexKey.
    repeat split; intros H; discriminate H.
  - intros V json_length now evict_now a b c data ttl s s1 later Hset Hage.
    unfold cacheIndexData in Hset. unfold getCachedIndexData.
    assert (Hkey : indexKey a (b ++ ":" ++ c) = indexKey (a ++ ":" ++ b) c)
      by (unfold indexKey; rewrite !append_assoc; reflexivity).
    rewrite Hkey.
    destruct (CacheFacts.set_Ok _ _ _ _ _ _ _ _ Hset) as (s0 & _ & Hc & _).
    unfold get. rewrite Hc, JSMapFacts.get_set_same. unfold expired. simpl.
    destruct (lifetime ttl s <? later - now)%Z eqn:E;
      [apply Z.ltb_lt in E; lia|].
    eexists. reflexivity.
Qed.

End KeyProps.

(** ** Numbers: rounding and order *)

Module NumberFacts.
Import Number.

#[local] Open Scope Z_scope.

Lemma round53_sgn n : Z.sgn (round53 n) = Z.sgn n.
Proof.
  unfold round53. destruct (Z.abs n <? 2 ^ 53) eqn:E; [reflexivity|].
  apply Z.ltb_ge in E.
  set (a := Z.abs n) in *. set (k := Z.log2 a - 52).
  assert (Ha : 0 < a) by (assert (0 < 2 ^ 53) by (apply Z.pow_pos_nonneg; lia); lia).
  assert (Hlog : 53 <= Z.log2 a).
  { rewrite <- (Z.log2_pow2 53) by lia. apply Z.log2_le_mono. exact E. }
  assert (Hk : 0 < 2 ^ k) by (apply Z.pow_pos_nonneg; unfold k; lia).
  assert (Hq : 1 <= a / 2 ^ k).
  { apply Z.div_le_lower_bound; [exact Hk|]. rewrite Z.mul_1_r.
    transitivity (2 ^ Z.log2 a).
    - apply Z.pow_le_mono_r; unfold k; lia.
    - apply Z.log2_spec. exact Ha. }
  set (q := a / 2 ^ k) in *.
  set (q' := if a mod 2 ^ k <? 2 ^ (k - 1) then q
             else if 2 ^ (k - 1) <? a mod 2 ^ k then q + 1
             else if Z.even q then q else q + 1).
  assert (Hq' : 1 <= q').
  { unfold q'. destruct (_ <? _); [lia|]. destruct (_ <? _); [lia|].
    destruct (Z.even q); lia. }
  rewrite Z.sgn_mul. rewrite (Z.sgn_pos (q' * 2 ^ k)) by nia.
  rewrite Z.mul_1_r. apply Z.sgn_sgn.
Qed.

Lemma round53_exact m e :
  Z.abs m <= 2 ^ 53 -> 0 <= e -> round53 (m * 2 ^ e) = m * 2 ^ e.
Proof.
  intros Hm He. unfold round53.
  destruct (Z.abs (m * 2 ^ e) <? 2 ^ 53) eqn:E; [reflexivity|].
  apply Z.ltb_ge in E.
  assert (Hpe : 0 < 2 ^ e) by (apply Z.pow_pos_nonneg; lia).
  assert (Habs : Z.abs (m * 2 ^ e) = Z.abs m * 2 ^ e).
  { rewrite Z.abs_mul. f_equal. apply Z.abs_eq. lia. }
  assert (H53 : 0 < 2 ^ 53) by (apply Z.pow_pos_nonneg; lia).
  assert (Hm0 : 0 < Z.abs m) by nia.
  assert (Hlog : Z.log2 (Z.abs (m * 2 ^ e)) = e + Z.log2 (Z.abs m)).
  { rewrite Habs. apply Z.log2_mul_pow2; lia. }
  rewrite Hlog.
  assert (Hge : 53 <= e + Z.log2 (Z.abs m)).
  { rewrite <- Hlog. rewrite <- (Z.log2_pow2 53) by lia.
    apply Z.log2_le_mono. exact E. }
  set (k := e + Z.log2 (Z.abs m) - 52).
  assert (Hk : 0 < 2 ^ k) by (apply Z.pow_pos_nonneg; unfold k; lia).
  assert (Hdiv : exists c, Z.abs (m * 2 ^ e) = c * 2 ^ k).
  { rewrite Habs. destruct (Z.eq_dec (Z.abs m) (2 ^ 53)) as [Heq|Hne].
    - rewrite Heq. unfold k. rewrite Heq, Z.log2_pow2 by lia.
      exists (2 ^ 52). rewrite <- !Z.pow_add_r by lia. f_equal. lia.
    - assert (Hlt : Z.log2 (Z.abs m) < 53).
      { apply Z.log2_lt_pow2; lia. }
      exists (Z.abs m * 2 ^ (e - k)). rewrite <- Z.mul_assoc.
      rewrite <- Z.pow_add_r by (unfold k; lia). do 2 f_equal. lia. }
  destruct Hdiv as (c & Hc). rewrite Hc.
  rewrite Z.div_mul by lia. rewrite Z.mod_mul by lia.
  assert (Hhalf : 0 < 2 ^ (k - 1)) by (apply Z.pow_pos_nonneg; unfold k; lia).
  destruct (0 <? 2 ^ (k - 1)) eqn:E0; [|apply Z.ltb_ge in E0; lia].
  rewrite <- Hc. rewrite Z.mul_comm. apply Z.abs_sgn.
Qed.

Lemma pow_53_one : 2 ^ 53 * one < huge.
Proof. reflexivity. Qed.

Lemma of_Z_exact z : Z.abs z <= 2 ^ 53 -> of_Z z = Finite (z * one).
Proof.
  intros Hz. unfold of_Z, round, one. rewrite round53_exact by lia.
  assert (H : Z.abs (z * 2 ^ 1074) < huge).
  { rewrite Z.abs_mul. pose proof pow_53_one as Hp. unfold one in Hp.
    assert (0 < 2 ^ 1074) by (apply Z.pow_pos_nonneg; lia).
    rewrite (Z.abs_eq (2 ^ 1074)) by lia. nia. }
  apply Z.leb_gt in H. rewrite H. reflexivity.
Qed.

Lemma add_of_Z a b :
  Z.abs a <= 2 ^ 53 -> Z.abs b <= 2 ^ 53 ->
  add (of_Z a) (of_Z b) = of_Z (a + b).
Proof.
  intros Ha Hb. rewrite (of_Z_exact a Ha), (of_Z_exact b Hb). simpl.
  unfold of_Z. f_equal. lia.
Qed.

Lemma of_Z_inj a b :
  Z.abs a <= 2 ^ 53 -> Z.abs b <= 2 ^ 53 -> of_Z a = of_Z b -> a = b.
Proof.
  intros Ha Hb. rewrite (of_Z_exact a Ha), (of_Z_exact b Hb).
  intros H. injection H as H.
  assert (0 < one) by reflexivity. nia.
Qed.

Lemma sgn_ltb r d :
  Z.sgn r = Z.sgn d -> (0 <? r) = (0 <? d) /\ (r <? 0) = (d <? 0).
Proof.
  intros H.
  destruct (Z.sgn_spec r) as [[? ?]|[[? ?]|[? ?]]],
           (Z.sgn_spec d) as [[? ?]|[[? ?]|[? ?]]]; try lia;
    split; apply eq_true_iff_eq; rewrite !Z.ltb_lt; lia.
Qed.

(** The comparator [(a, b) => a - b] is positive exactly when [b < a]. *)
Lemma positive_sub x y : ltb zero (sub x y) = ltb y x.
Proof.
  destruct x as [|a|a], y as [|b|b]; try reflexivity.
  - destruct a, b; reflexivity.
  - destruct b; reflexivity.
  - unfold sub, opp, add, round.
    pose proof (sgn_ltb _ _ (round53_sgn (a + - b))) as [H1 H2].
    destruct (huge <=? Z.abs (round53 (a + - b))) eqn:E.
    + simpl. rewrite H2. apply eq_true_iff_eq.
      rewrite negb_true_iff, Z.ltb_ge, Z.ltb_lt.
      apply Z.leb_le in E.
      assert (0 < huge) by reflexivity.
      assert (round53 (a + - b) <> 0) by lia.
      assert (Hs : Z.sgn (a + - b) <> 0).
      { rewrite <- round53_sgn. rewrite Z.sgn_null_iff. assumption. }
      rewrite Z.sgn_null_iff in Hs. lia.
    + simpl. rewrite H1. apply eq_true_iff_eq. rewrite !Z.ltb_lt. lia.
Qed.

Lemma number_le_refl x : le x x.
Proof.
  unfold le. destruct x as [|a|a]; simpl; try reflexivity.
  - destruct a; reflexivity.
  - apply Z.ltb_irrefl.
Qed.

Lemma number_ltb_le x y : ltb x y = true -> le x y.
Proof.
  unfold le. destruct x as [|[]|a], y as [|[]|b]; simpl; try congruence.
  rewrite Z.ltb_lt, Z.ltb_ge. lia.
Qed.

Lemma number_le_trans x y z : y <> NaN -> le x y -> le y z -> le x z.
Proof.
  unfold le. intros Hy.
  destruct x as [|[]|a], y as [|[]|b], z as [|[]|c]; simpl; try congruence.
  rewrite !Z.ltb_ge. lia.
Qed.

Lemma sub_of_Z a b :
  Z.abs a <= 2 ^ 53 -> Z.abs b <= 2 ^ 53 ->
  sub (of_Z a) (of_Z b) = of_Z (a - b).
Proof.
  intros Ha Hb. rewrite (of_Z_exact a Ha), (of_Z_exact b Hb). simpl.
  unfold sub, opp, add, of_Z. f_equal. lia.
Qed.

Lemma round53_opp n : round53 (- n) = - round53 n.
Proof.
  unfold round53. rewrite Z.abs_opp, Z.sgn_opp.
  destruct (Z.abs n <? 2 ^ 53); lia.
Qed.

Lemma sub_opp x y : sub x y = opp (sub y x).
Proof.
  destruct x as [|[]|a], y as [|[]|b]; try reflexivity.
  unfold sub, opp, add, round.
  replace (a + - b) with (- (b + - a)) by lia. rewrite round53_opp.
  rewrite Z.abs_opp.
  destruct (huge <=? Z.abs (round53 (b + - a))) eqn:E; [|reflexivity].
  f_equal. apply Z.leb_le in E. assert (0 < huge) by reflexivity.
  apply eq_true_iff_eq. rewrite negb_true_iff, Z.ltb_lt, Z.ltb_ge. lia.
Qed.

End NumberFacts.

Module MetricsFacts.

Import MetricsCollector MetricsSpec.

Lemma insert_ascending_Permutation x l :
  Permutation (x :: l) (insert_ascending x l).
Proof.
  induction l as [|y rest IH]; cbn [insert_ascending].
  - reflexivity.
  - destruct (Number.ltb Number.zero (Number.sub x y)).
    + etransitivity; [apply perm_swap | apply perm_skip; exact IH].
    + reflexivity.
Qed.

Lemma sort_ascending_Permutation l : Permutation l (sort_ascending l).
Proof.
  induction l as [|x rest IH]; simpl.
  - reflexivity.
  - etransitivity; [apply perm_skip; exact IH|].
    apply insert_ascending_Permutation.
Qed.

Lemma insert_ascending_sorted x l :
  List.Forall not_NaN l ->
  StronglySorted Number.le l -> StronglySorted Number.le (insert_ascending x l).
Proof.
  induction l as [|y rest IH]; intros Hn Hs; cbn [insert_ascending].
  - constructor; [constructor | constructor].
  - rewrite NumberFacts.positive_sub.
    apply List.Forall_cons_iff in Hn as [Hy Hn].
    apply StronglySorted_inv in Hs. destruct Hs as [Hs Hall].
    destruct (Number.ltb y x) eqn:E.
    + constructor; [apply IH; assumption|].
      eapply Permutation_Forall; [apply insert_ascending_Permutation|].
      constructor; [apply NumberFacts.number_ltb_le; exact E | exact Hall].
    + constructor; [constructor; assumption|].
      constructor; [exact E|].
      rewrite List.Forall_forall in Hall |- *. intros z Hz.
      apply (NumberFacts.number_le_trans x y z Hy E). apply Hall. exact Hz.
Qed.

Lemma sort_ascending_sorted l :
  List.Forall not_NaN l -> StronglySorted Number.le (sort_ascending l).
Proof.
  induction l as [|x rest IH]; intros Hn; simpl.
  - constructor.
  - apply List.Forall_cons_iff in Hn as [Hx Hn].
    apply insert_ascending_sorted; [|apply IH; exact Hn].
    eapply Permutation_Forall; [apply sort_ascending_Permutation | exact Hn].
Qed.

Lemma sort_ascending_length l :
  List.length (sort_ascending l) = List.length l.
Proof. symmetry. apply Permutation_length, sort_ascending_Permutation. Qed.

Lemma sorted_nth_error l :
  StronglySorted Number.le l ->
  forall i j a b, i <= j -> nth_error l i = Some a -> nth_error l j = Some b ->
  Number.le a b.
Proof.
  induction 1 as [|x l Hs IH Hall]; intros i j a b Hij Ha Hb.
  - destruct i; discriminate.
  - destruct i as [|i], j as [|j]; simpl in Ha, Hb.
    + injection Ha as <-. injection Hb as <-.
      apply NumberFacts.number_le_refl.
    + injection Ha as <-. apply nth_error_In in Hb.
      rewrite List.Forall_forall in Hall. apply Hall. exact Hb.
    + lia.
    + eapply IH; [|exact Ha|exact Hb]. lia.
Qed.

Lemma total_app l l' : total (l ++ l') = (total l + total l')%Z.
Proof. induction l as [|x l IH]; simpl; [reflexivity | rewrite IH; lia]. Qed.

Lemma total_Permutation l l' : Permutation l l' -> total l = total l'.
Proof. induction 1; simpl; lia. Qed.

Lemma total_abs l : (Z.abs (total l) <= total (map Z.abs l))%Z.
Proof. induction l as [|x l IH]; simpl; lia. Qed.

(** A running sum of integers that stay within [2^53] is exact. *)
Lemma sum_exact zs acc :
  (Z.abs acc + total (map Z.abs zs) <= 2 ^ 53)%Z ->
  fold_left Number.add (map Number.of_Z zs) (Number.of_Z acc)
  = Number.of_Z (acc + total zs).
Proof.
  revert acc. induction zs as [|z zs IH]; intros acc H; simpl in *.
  - f_equal. lia.
  - pose proof (total_abs zs) as Hpos.
    assert (0 <= total (map Z.abs zs))%Z by lia.
    rewrite NumberFacts.add_of_Z by lia.
    rewrite IH by lia. f_equal. lia.
Qed.

Lemma floor_95_lt count : 0 < count -> floor_95 count < count.
Proof.
  intros H. unfold floor_95. apply Nat.Div0.div_lt_upper_bound. lia.
Qed.

Lemma floor_99_lt count : 0 < count -> floor_99 count < count.
Proof.
  intros H. unfold floor_99. apply Nat.Div0.div_lt_upper_bound. lia.
Qed.

Lemma floor_95_99 count : floor_95 count <= floor_99 count.
Proof.
  unfold floor_95, floor_99. apply Nat.Div0.div_le_mono. lia.
Qed.

Lemma nth_error_below {A} (l : list A) i :
  i < List.length l -> exists a, nth_error l i = Some a.
Proof.
  intros H. destruct (nth_error l i) eqn:E; [eauto|].
  apply nth_error_None in E. lia.
Qed.

Lemma get_map_values {A B} (f : A -> B) (m : JSMap.t A) k :
  JSMap.get (map (fun '(name, v) => (name, f v)) m) k
  = option_map f (JSMap.get m k).
Proof.
  induction m as [|[k' v] m IH]; simpl.
  - reflexivity.
  - destruct (String.eqb k' k); [reflexivity | exact IH].
Qed.

Lemma keys_map_values {A B} (f : A -> B) (m : JSMap.t A) :
  JSMap.keys (map (fun '(name, v) => (name, f v)) m) = JSMap.keys m.
Proof.
  unfold JSMap.keys. induction m as [|[k' v] m IH]; simpl.
  - reflexivity.
  - f_equal. exact IH.
Qed.

Lemma In_getMetrics_all (s : t) m :
  In m (getMetrics None None s) <->
  exists name, In name (JSMap.keys (metrics s))
               /\ exists list_, In (name, list_) (metrics s) /\ In m list_.
Proof.
  unfold getMetrics. rewrite in_concat. split.
  - intros (l & Hl & Hm). apply in_map_iff in Hl.
    destruct Hl as ([name list_] & <- & Hin). exists name. split.
    + unfold JSMap.keys. apply in_map_iff. exists (name, list_). auto.
    + exists list_. auto.
  - intros (name & _ & list_ & Hin & Hm). exists list_. split; [|exact Hm].
    apply in_map_iff. exists (name, list_). auto.
Qed.

Lemma slice_last_suffix {A} n (l : list A) :
  exists dropped, l = (dropped ++ slice_last n l)%list
    /\ List.length (slice_last n l) = Nat.min n (List.length l).
Proof.
  unfold slice_last. exists (firstn (List.length l - n) l). split.
  - symmetry. apply firstn_skipn.
  - rewrite length_skipn. lia.
Qed.

Lemma get_or_zero_set (m : JSMap.t Number.t) name value :
  get_or_zero (JSMap.set m name value) name = settled value.
Proof. unfold get_or_zero. rewrite JSMapFacts.get_set_same. reflexivity. Qed.

Lemma settled_finite n : settled (Number.Finite n) = Number.Finite n.
Proof.
  unfold settled. simpl. destruct (n =? 0)%Z eqn:E; [|reflexivity].
  apply Z.eqb_eq in E. subst n. reflexivity.
Qed.

Lemma settled_of_Z z :
  (Z.abs z <= 2 ^ 53)%Z -> settled (Number.of_Z z) = Number.of_Z z.
Proof.
  intros H. rewrite (NumberFacts.of_Z_exact z H). apply settled_finite.
Qed.

Lemma max_zero_not_negative x :
  Number.ltb (Number.max Number.zero x) Number.zero = false.
Proof.
  destruct x as [|[]|n]; try reflexivity.
  unfold Number.max, Number.zero. cbn [Number.ltb].
  destruct (0 <? n)%Z eqn:E; simpl.
  - apply Z.ltb_lt in E. apply Z.ltb_ge. lia.
  - reflexivity.
Qed.

Lemma max_zero_of_Z z :
  (0 <= z <= 2 ^ 53)%Z ->
  Number.max Number.zero (Number.of_Z z) = Number.of_Z z.
Proof.
  intros H. rewrite (NumberFacts.of_Z_exact z) by lia.
  unfold Number.max, Number.zero. cbn [Number.ltb].
  destruct (0 <? z * Number.one)%Z eqn:E; [reflexivity|].
  apply Z.ltb_ge in E. assert (0 < Number.one)%Z by reflexivity.
  f_equal. nia.
Qed.

(** Below the amount, the difference is negative and the counter stops at
    zero. *)
Lemma max_zero_below x y :
  Number.ltb x y = true ->
  Number.max Number.zero (Number.sub x y) = Number.zero.
Proof.
  intros H. pose proof (NumberFacts.positive_sub y x) as Hp. rewrite H in Hp.
  assert (Hn : Number.sub x y = Number.opp (Number.sub y x))
    by apply NumberFacts.sub_opp.
  rewrite Hn. destruct (Number.sub y x) as [|[]|n]; try discriminate.
  - reflexivity.
  - simpl in Hp. apply Z.ltb_lt in Hp. unfold Number.max, Number.zero.
    cbn [Number.opp Number.ltb].
    destruct (0 <? - n)%Z eqn:E; [apply Z.ltb_lt in E; lia | reflexivity].
Qed.

Lemma add_zero_double x :
  Number.is_double x = true -> Number.add Number.zero x = x.
Proof.
  destruct x as [|b|n]; try reflexivity.
  cbn [Number.is_double Number.add Number.zero]. intros H.
  apply andb_true_iff in H as [H1 H2].
  apply Z.eqb_eq in H1. apply Z.ltb_lt in H2.
  unfold Number.round. rewrite Z.add_0_l, H1.
  destruct (Number.huge <=? Z.abs n)%Z eqn:E; [apply Z.leb_le in E; lia|].
  reflexivity.
Qed.

(** The sum [getHistogramStats] takes of integer samples. *)
Lemma sum_sorted_integers vs zs :
  vs = map Number.of_Z zs -> (total (map Z.abs zs) <= 2 ^ 53)%Z ->
  sum (sort_ascending vs) = Number.of_Z (total zs).
Proof.
  intros Hvs Hbound.
  pose proof (sort_ascending_Permutation vs) as Hperm. rewrite Hvs in Hperm.
  symmetry in Hperm. apply Permutation_map_inv in Hperm.
  destruct Hperm as (zs' & Hsorted & Hzs).
  rewrite <- Hvs in Hsorted. rewrite Hsorted. unfold sum.
  change Number.zero with (Number.of_Z 0).
  rewrite sum_exact.
  - rewrite <- (total_Permutation _ _ Hzs). reflexivity.
  - rewrite <- (total_Permutation (map Z.abs zs) (map Z.abs zs'))
      by (apply Permutation_map; exact Hzs).
    simpl. lia.
Qed.

End MetricsFacts.

Module MetricsProps.

Import MetricsCollector MetricsSpec MetricsFacts.

(** X19: a timer measures the time between [startTimer] and [endTimer]: the
    duration is returned, appended to the histogram of the timer's name and
    logged, and the timer is gone, so that a second [endTimer] returns [0]
    and records nothing.  A timer started when the clock read [0] is never
    found: [endTimer] returns [0], records nothing and leaves it pending. *)
Theorem timer_round_trip (s : t) name start stop record_now labels :
  NoDup (JSMap.keys (timers s)) ->
  let s1 := startTimer start name s in
  (start <> 0%Z ->
     exists s2,
       endTimer stop record_now name labels s1 = ((stop - start)%Z, s2)
       /\ get_or_empty (histograms s2) name
          = (get_or_empty (histograms s) name
             ++ [Number.of_Z (stop - start)])%list
       /\ emitted s2
          = (emitted s
             ++ [mkMetric name (Number.of_Z (stop - start)) record_now
                   labels])%list
       /\ JSMap.has (timers s2) name = false
       /\ forall stop' record_now' labels',
            endTimer stop' record_now' name labels' s2 = (0%Z, s2))
  /\ (start = 0%Z ->
        endTimer stop record_now name labels s1 = (0%Z, s1)
        /\ JSMap.has (timers s1) name = true).
Proof.
  intros Hnd s1. split.
  - intros Hstart. unfold endTimer, s1, startTimer. cbn [timers].
    rewrite JSMapFacts.get_set_same.
    destruct (start =? 0)%Z eqn:E; [apply Z.eqb_eq in E; contradiction|].
    eexists. split; [reflexivity|].
    unfold recordHistogram, recordMetric.
    cbn [histograms emitted timers metrics counters gauges].
    assert (Hgone : JSMap.get (JSMap.delete (JSMap.set (timers s) name start) name) name = None).
    { apply JSMapFacts.get_delete_same. apply JSMapFacts.NoDup_set. exact Hnd. }
    repeat split.
    + unfold get_or_empty at 1. rewrite JSMapFacts.get_set_same. reflexivity.
    + unfold JSMap.has. rewrite Hgone. reflexivity.
    + intros stop' rn' labels'. cbn [timers]. rewrite Hgone. reflexivity.
  - intros ->. unfold endTimer, s1, startTimer. cbn [timers].
    rewrite JSMapFacts.get_set_same. split; [reflexivity|].
    unfold JSMap.has. rewrite JSMapFacts.get_set_same. reflexivity.
Qed.

Lemma timer_round_trip_witness :
  exists s2,
    endTimer 250 251 "block" None (startTimer 100 "block" new) = (150%Z, s2)
    /\ JSMap.has (timers s2) "block" = false.
Proof.
  destruct (timer_round_trip new "block" 100 250 251 None) as [H _].
  - constructor.
  - destruct H as (s2 & H1 & _ & _ & H4 & _); [lia|].
    exists s2. split; [exact H1 | exact H4].
Defined.

(** X20: the value [decrementCounter] stores is never below zero (it is
    [NaN] when the difference is).  For integers whose sums and
    differences stay within [2^53] in magnitude,
    incrementing a counter that is not negative and then decrementing it by
    the same amount gives the counter back, and so does decrementing by at
    most what the counter holds and then incrementing.  Decrementing a
    counter by more than it holds, by any amount that is a double, and then
    incrementing it by the same amount leaves it at that amount.  Beyond
    [2^53] the sums are rounded: a counter at [2^53] incremented and then
    decremented by [1] is left at [2^53 - 1]. *)
Theorem counter_floor (s : t) name (amount : Number.t) now1 now2 labels1
    labels2 :
  let current := get_or_zero (counters s) name in
  let up_down :=
    decrementCounter now2 name (Some amount) labels2
      (incrementCounter now1 name (Some amount) labels1 s) in
  let down_up :=
    incrementCounter now2 name (Some amount) labels2
      (decrementCounter now1 name (Some amount) labels1 s) in
  (exists v,
     JSMap.get (counters (decrementCounter now1 name (Some amount) labels1 s))
       name = Some v
     /\ Number.ltb v Number.zero = false)
  /\ (forall c a,
        current = Number.of_Z c -> amount = Number.of_Z a ->
        (0 <= c <= 2 ^ 53)%Z -> (Z.abs a <= 2 ^ 53)%Z ->
        (Z.abs (c + a) <= 2 ^ 53)%Z ->
        get_or_zero (counters up_down) name = current)
  /\ (Number.is_double amount = true -> Number.ltb current amount = true ->
        get_or_zero (counters down_up) name = amount)
  /\ (forall c a,
        current = Number.of_Z c -> amount = Number.of_Z a ->
        (Z.abs c <= 2 ^ 53)%Z -> (Z.abs a <= 2 ^ 53)%Z ->
        (0 <= c - a <= 2 ^ 53)%Z ->
        get_or_zero (counters down_up) name = current)
  /\ get_or_zero
       (counters
          (decrementCounter 2 "blocks" (Some (Number.of_Z 1)) None
             (incrementCounter 1 "blocks" (Some (Number.of_Z 1)) None
                at_2_53)))
       "blocks"
     = Number.of_Z (2 ^ 53 - 1).
Proof.
  intros current up_down down_up.
  unfold up_down, down_up, decrementCounter, incrementCounter, recordMetric.
  cbn [counters or_one]. fold current.
  split; [|split; [|split; [|split]]].
  - rewrite JSMapFacts.get_set_same. eexists. split; [reflexivity|].
    apply max_zero_not_negative.
  - intros c a Hc Ha Hcb Hab Hsum.
    rewrite !get_or_zero_set, Hc, Ha.
    rewrite NumberFacts.add_of_Z by lia.
    rewrite settled_of_Z, NumberFacts.sub_of_Z by lia.
    replace (c + a - a)%Z with c by lia.
    rewrite max_zero_of_Z by lia. apply settled_of_Z. lia.
  - intros Hd Hlt. rewrite !get_or_zero_set.
    rewrite (max_zero_below _ _ Hlt).
    change (settled Number.zero) with Number.zero.
    rewrite (add_zero_double _ Hd).
    destruct amount as [| |n];
      [ destruct current as [|[]|]; discriminate
      | reflexivity
      | apply settled_finite ].
  - intros c a Hc Ha Hcb Hab Hdiff.
    rewrite !get_or_zero_set, Hc, Ha.
    rewrite NumberFacts.sub_of_Z by lia.
    rewrite max_zero_of_Z by lia.
    rewrite settled_of_Z, NumberFacts.add_of_Z by lia.
    replace (c - a + a)%Z with c by lia. apply settled_of_Z. lia.
  - vm_compute. reflexivity.
Qed.

(** X21: [getHistogramStats] returns [null] exactly for a histogram that is
    missing or empty.  Otherwise every statistic is defined and is one of
    the recorded values and [count] is their number.  When no recorded
    value is [NaN], [min] and [max] bound every recorded value and
    [min <= p95 <= p99 <= max].  When the recorded values are integers whose
    magnitudes add up to at most [2^53], the sum behind [avg] is their sum;
    otherwise it is the rounded sum of the sorted values, which for the
    samples [1e16], [-1e16], [1] is [0]. *)
Theorem histogram_stats_ordered (s : t) name :
  let values := get_or_empty (histograms s) name in
  match getHistogramStats name s with
  | None => values = []
  | Some st =>
      exists lo hi p95 p99,
        stats_min st = Some lo /\ stats_max st = Some hi
        /\ stats_p95 st = Some p95 /\ stats_p99 st = Some p99
        /\ stats_count st = List.length values /\ 0 < stats_count st
        /\ In lo values /\ In hi values /\ In p95 values /\ In p99 values
        /\ (List.Forall (fun v => v <> Number.NaN) values ->
              Number.le lo p95 /\ Number.le p95 p99 /\ Number.le p99 hi
              /\ forall v, In v values -> Number.le lo v /\ Number.le v hi)
        /\ (forall zs,
              values = map Number.of_Z zs ->
              (total (map Z.abs zs) <= 2 ^ 53)%Z ->
              stats_avg st = (Number.of_Z (total zs), List.length values))
  end
  /\ get_or_empty (histograms cancelling) "delta"
     = [Number.of_Z (10 ^ 16); Number.of_Z (- 10 ^ 16); Number.of_Z 1]
  /\ option_map stats_avg (getHistogramStats "delta" cancelling)
     = Some (Number.of_Z 0, 3).
Proof.
  intros values. split; [|split; vm_compute; reflexivity].
  unfold values, get_or_empty, getHistogramStats.
  destruct (JSMap.get (histograms s) name) as [vs|]; [|reflexivity].
  destruct (Nat.eqb (List.length vs) 0) eqn:E.
  - apply Nat.eqb_eq in E. destruct vs; [reflexivity | discriminate].
  - apply Nat.eqb_neq in E.
    pose proof (sort_ascending_Permutation vs) as Hperm.
    pose proof (sort_ascending_length vs) as Hlen.
    set (sorted := sort_ascending vs) in *.
    assert (Hpos : 0 < List.length sorted) by lia.
    destruct (nth_error_below sorted 0 Hpos) as [lo Hlo].
    destruct (nth_error_below sorted (List.length sorted - 1)) as [hi Hhi];
      [lia|].
    destruct (nth_error_below sorted _ (floor_95_lt _ Hpos)) as [p95 H95].
    destruct (nth_error_below sorted _ (floor_99_lt _ Hpos)) as [p99 H99].
    pose proof (floor_95_99 (List.length sorted)) as H9599.
    pose proof (floor_99_lt _ Hpos) as H99lt.
    exists lo, hi, p95, p99. cbn.
    assert (Hin : forall i v, nth_error sorted i = Some v -> In v vs).
    { intros i v Hv. apply nth_error_In in Hv.
      eapply Permutation_in; [symmetry; exact Hperm | exact Hv]. }
    do 10 (split; [solve [eauto | lia]|]).
    split.
    + intros Hn. pose proof (sort_ascending_sorted vs Hn) as Hsorted.
      fold sorted in Hsorted.
      split; [|split; [|split]].
      * eapply sorted_nth_error; [exact Hsorted| |exact Hlo|exact H95]. lia.
      * eapply sorted_nth_error; [exact Hsorted| |exact H95|exact H99]. lia.
      * eapply sorted_nth_error; [exact Hsorted| |exact H99|exact Hhi]. lia.
      * intros v Hv. eapply Permutation_in in Hv; [|exact Hperm].
        apply In_nth_error in Hv. destruct Hv as [i Hi].
        assert (i < List.length sorted).
        { apply nth_error_Some. congruence. }
        split.
        -- eapply sorted_nth_error; [exact Hsorted| |exact Hlo|exact Hi]. lia.
        -- eapply sorted_nth_error; [exact Hsorted| |exact Hi|exact Hhi]. lia.
    + intros zs Hzs Hbound. f_equal; [|exact Hlen].
      apply sum_sorted_integers; assumption.
Qed.

(** X22: [cleanupOldMetrics] keeps the names of all metrics and histograms.  It
    keeps exactly the logged metrics that are at most 24 hours old, in
    order, so that [getMetrics()] then returns no older metric; it leaves a
    histogram of at most 10000 values alone and cuts a longer one down to
    its last 5000 values. *)
Theorem cleanup_keeps_recent (s : t) now name :
  let s' := cleanupOldMetrics now s in
  JSMap.keys (metrics s') = JSMap.keys (metrics s)
  /\ JSMap.keys (histograms s') = JSMap.keys (histograms s)
  /\ get_or_empty (metrics s') name
     = filter (fun m => (now - retentionPeriod <=? metric_timestamp m)%Z)
         (get_or_empty (metrics s) name)
  /\ (forall m, In m (getMetrics None None s') ->
        (now - metric_timestamp m <= retentionPeriod)%Z)
  /\ (let values := get_or_empty (histograms s) name in
      let values' := get_or_empty (histograms s') name in
      ((Z.of_nat (List.length values) <= 10000)%Z -> values' = values)
      /\ ((10000 < Z.of_nat (List.length values))%Z ->
            List.length values' = 5000
            /\ exists dropped, values = (dropped ++ values')%list)).
Proof.
  intros s'. unfold s', cleanupOldMetrics. cbn [metrics histograms].
  split; [apply keys_map_values|].
  split; [apply keys_map_values|].
  assert (Hm : get_or_empty
                 (map (fun '(name0, list_) =>
                         (name0,
                          filter (fun m => (now - retentionPeriod <=? metric_timestamp m)%Z) list_))
                    (metrics s)) name
               = filter (fun m => (now - retentionPeriod <=? metric_timestamp m)%Z)
                   (get_or_empty (metrics s) name)).
  { unfold get_or_empty. rewrite get_map_values.
    destruct (JSMap.get (metrics s) name); reflexivity. }
  split; [exact Hm|].
  split.
  - intros m Hin. apply In_getMetrics_all in Hin.
    destruct Hin as (name' & _ & list_ & Hin & Hm').
    cbn [metrics] in Hin. apply in_map_iff in Hin.
    destruct Hin as ([name0 list0] & Heq & _). injection Heq as _ <-.
    apply List.filter_In in Hm'. destruct Hm' as [_ Hm'].
    apply Z.leb_le in Hm'. lia.
  - cbv zeta. unfold get_or_empty. rewrite get_map_values.
    destruct (JSMap.get (histograms s) name) as [vs|]; simpl.
    + split; intros H.
      * destruct (10000 <? Z.of_nat (List.length vs))%Z eqn:E;
          [apply Z.ltb_lt in E; lia | reflexivity].
      * destruct (10000 <? Z.of_nat (List.length vs))%Z eqn:E;
          [|apply Z.ltb_ge in E; lia].
        destruct (slice_last_suffix 5000 vs) as (dropped & Heq & Hlen).
        split; [rewrite Hlen; lia | exists dropped; exact Heq].
    + split; intros H; [reflexivity | simpl in H; lia].
Qed.

End MetricsProps.
